(** * Presidents rules engine (convex/games.js): a shallow embedding

    The handlers [startGame], [playCards], [pass], [restartRound] and
    [submitExchangeSelection] of convex/games.js are embedded as programs
    of a small state-and-exception monad over the two tables they write,
    [gameStates] (one record per game) and [gamePlayers].  The lookups of
    the room, the user and the active game that open every handler belong
    to the persistence service; the embedding starts once they have
    succeeded, with the actor's user id resolved.

    Document ids are opaque strings produced by the database; they are
    modelled as natural numbers (every id is truthy).  [Date.now()] is an
    argument [now]; [Math.random] is an argument [rnd], the draw used at
    loop index [i] of [shuffleArray] being [rnd i mod (i + 1)]. *)

From Stdlib Require Import String Ascii.
From Stdlib Require Import List Arith Lia Bool Permutation PeanoNat.
Import ListNotations.
Local Open Scope string_scope.
Local Open Scope nat_scope.
Local Open Scope list_scope.


(** ** Cards, ranks and decks *)

Definition Card := string.
Definition UserId := nat.
Definition DocId := nat.

(** A rank is what [id[0]] yields: a one-character string, or
    [undefined] ([None]) on the empty string. *)
Definition Rank := option string.

Definition RANKS : list string :=
  ["A"; "2"; "3"; "4"; "5"; "6"; "7"; "8"; "9"; "T"; "J"; "Q"; "K"].
Definition SUITS : list string := ["S"; "H"; "D"; "C"].
Definition RANK_ORDER : list string :=
  ["2"; "A"; "K"; "Q"; "J"; "T"; "9"; "8"; "7"; "6"; "5"; "4"; "3"].

(** [Array.prototype.indexOf] on strings; [None] stands for [-1]. *)
Fixpoint indexOf (x : string) (l : list string) : option nat :=
  match l with
  | [] => None
  | y :: t => if String.eqb y x then Some 0
              else match indexOf x t with Some i => Some (S i) | None => None end
  end.

Definition rankValue (rank : Rank) : nat :=
  match rank with
  | None => 999
  | Some r => match indexOf r RANK_ORDER with Some i => i | None => 999 end
  end.

Definition charAt0 (id : Card) : Rank :=
  match id with
  | EmptyString => None
  | String c _ => Some (String c EmptyString)
  end.

Definition rank_eqb (a b : Rank) : bool :=
  match a, b with
  | None, None => true
  | Some x, Some y => String.eqb x y
  | _, _ => false
  end.

Definition one_suit (suit : string) : list Card :=
  map (fun rank => rank ++ suit)%string RANKS.

Definition one_deck : list Card := flat_map one_suit SUITS.

Fixpoint buildDeck (deckCount : nat) : list Card :=
  match deckCount with
  | 0 => []
  | S d => one_deck ++ buildDeck d
  end.

(** ** Arrays *)

Fixpoint set_nth {A} (i : nat) (x : A) (l : list A) : list A :=
  match l, i with
  | [], _ => []
  | _ :: t, 0 => x :: t
  | y :: t, S j => y :: set_nth j x t
  end.

(** [[out[i], out[j]] = [out[j], out[i]]] *)
Definition swap {A} (i j : nat) (out : list A) : list A :=
  match nth_error out i, nth_error out j with
  | Some a, Some b => set_nth j a (set_nth i b out)
  | _, _ => out
  end.

(** The loop of [shuffleArray], [i] running from [length - 1] down to 1. *)
Fixpoint shuffleLoop {A} (rnd : nat -> nat) (i : nat) (out : list A) : list A :=
  match i with
  | 0 => out
  | S i' => shuffleLoop rnd i' (swap i (rnd i mod (i + 1)) out)
  end.

Definition shuffleArray {A} (rnd : nat -> nat) (arr : list A) : list A :=
  shuffleLoop rnd (length arr - 1) arr.

(** [deck.slice(a, b)] *)
Definition slice {A} (a b : nat) (l : list A) : list A :=
  firstn (b - a) (skipn a l).

Fixpoint distributeLoop {A} (deck : list A) (baseCount remainder : nat)
         (p idx : nat) (fuel : nat) : list (list A) :=
  match fuel with
  | 0 => []
  | S fuel' =>
      let count := baseCount + (if p <? remainder then 1 else 0) in
      slice idx (idx + count) deck
        :: distributeLoop deck baseCount remainder (S p) (idx + count) fuel'
  end.

Definition distributeEvenly {A} (deck : list A) (numPlayers : nat) : list (list A) :=
  let total := length deck in
  let baseCount := total / numPlayers in
  let remainder := total mod numPlayers in
  distributeLoop deck baseCount remainder 0 0 numPlayers.

(** [[...new Set(l)]]: first occurrences, in insertion order. *)
Fixpoint setOf (l : list Rank) : list Rank :=
  match l with
  | [] => []
  | x :: t => x :: filter (fun y => negb (rank_eqb y x)) (setOf t)
  end.

Definition mem (u : nat) (l : list nat) : bool := existsb (Nat.eqb u) l.
Definition cardIn (c : Card) (l : list Card) : bool := existsb (String.eqb c) l.

(** [i = hand.indexOf(cid); if (i < 0) throw; hand.splice(i, 1)] *)
Fixpoint spliceOne (cid : Card) (hand : list Card) : option (list Card) :=
  match hand with
  | [] => None
  | c :: t => if String.eqb c cid then Some t
              else match spliceOne cid t with
                   | Some t' => Some (c :: t')
                   | None => None
                   end
  end.

Fixpoint spliceAll (cardIds hand : list Card) : option (list Card) :=
  match cardIds with
  | [] => Some hand
  | cid :: rest => match spliceOne cid hand with
                   | Some hand' => spliceAll rest hand'
                   | None => None
                   end
  end.

(** ** Documents

    [gamePlayers] and [gameStates] as games.js reads and writes them.
    Fields that the handlers read through [?? default] and that
    [startGame] always writes ([discardPile], [passedUserIds],
    [lastPlayedCount]) are plain; the fields that are written as
    [undefined] are options. *)

Record GamePlayer := mkGamePlayer {
  _id : DocId;
  userId : UserId;
  seatIndex : nat;
  hand : list Card
}.

(** The three phase literals games.js compares and writes
    (convex/schema.js still lists the phases of an earlier design, which
    no handler writes or tests). *)
Inductive Phase := play | round_ended | exchange.

Record ExchangePair := mkPair {
  fromUserId : UserId;
  toUserId : UserId;
  count : nat
}.

Record ExchangeSelection := mkSel {
  selFrom : UserId;
  selCardIds : list Card
}.

Record GameState := mkGameState {
  currentTurnUserId : option UserId;
  turnNumber : nat;
  turnStartedAt : nat;
  deck : list Card;
  discardPile : list Card;
  phase : Phase;
  lastPlayedCount : nat;
  lastPlayedRank : Rank;
  lastPlayedBy : option UserId;
  passedUserIds : list UserId;
  finishedOrder : option (list UserId);
  roundLoserId : option UserId;
  exchangePairs : option (list ExchangePair);
  exchangeSelections : option (list ExchangeSelection);
  roundLeaderId : option UserId
}.

Record World := mkWorld {
  gameState : GameState;
  gamePlayers : list GamePlayer
}.

(** ** Errors and the handler monad

    A handler is a state transformer on the two tables that may throw;
    a throw keeps the tables as they are at that moment, so that what a
    rejected request has already written stays visible. *)

Inductive Error :=
| ESelectAtLeastOne      (* Select at least one card to play *)
| EExchangeFirst         (* Complete the card exchange first *)
| ERoundEnded            (* Round has ended; wait for the host to restart *)
| ENotYourTurn           (* Not your turn *)
| ENotInGame             (* You are not in this game *)
| ECardNotInHand         (* Card not in hand *)
| ETwoAlone              (* 2 cannot be played alone ... *)
| ESameRankOnly          (* Play same rank only (2 counts as joker) *)
| EPlayAtLeast (n : nat) (* Play at least n card(s) *)
| ESameOrHigher          (* Play same or higher rank *)
| EMustLead              (* You must lead; you cannot pass *)
| EOnlyHost              (* Only the host can ... *)
| ERoundNotEnded         (* Round has not ended *)
| ENotExchange           (* Not in exchange phase *)
| ENotGiving             (* You are not giving cards in this exchange *)
| ESelectExactly (n : nat) (* Select exactly n card(s) to give *)
| ESelectedNotInHand     (* Selected card not in your hand *)
| ENeedTwoPlayers        (* Need at least 2 players to start *)
| TypeError.             (* property read on undefined *)

Inductive Outcome (A : Type) :=
| Ok (a : A)
| Thrown (e : Error).
Arguments Ok {A} a.
Arguments Thrown {A} e.

Definition M (A : Type) := World -> Outcome A * World.

Definition ret {A} (a : A) : M A := fun w => (Ok a, w).
Definition throw {A} (e : Error) : M A := fun w => (Thrown e, w).
Definition bind {A B} (m : M A) (f : A -> M B) : M B :=
  fun w => match m w with
           | (Ok a, w') => f a w'
           | (Thrown e, w') => (Thrown e, w')
           end.

Notation "x <- c ;; k" := (bind c (fun x => k))
  (at level 61, c at next level, right associativity).
Notation "c ;; k" := (bind c (fun _ => k))
  (at level 61, right associativity).

Definition readState : M GameState := fun w => (Ok (gameState w), w).
Definition readPlayers : M (list GamePlayer) := fun w => (Ok (gamePlayers w), w).

(** [ctx.db.patch(id, fields)] on [gamePlayers]. *)
Definition patchPlayer (id : DocId) (f : GamePlayer -> GamePlayer) : M unit :=
  fun w => (Ok tt,
            mkWorld (gameState w)
                    (map (fun p => if _id p =? id then f p else p) (gamePlayers w))).

(** [ctx.db.patch(gameState._id, fields)]. *)
Definition patchState (f : GameState -> GameState) : M unit :=
  fun w => (Ok tt, mkWorld (f (gameState w)) (gamePlayers w)).

Definition liftO {A} (o : Outcome A) : M A := fun w => (o, w).

Fixpoint forEach {A} (l : list A) (body : A -> M unit) : M unit :=
  match l with
  | [] => ret tt
  | x :: t => body x ;; forEach t body
  end.

Definition setHand (h : list Card) (p : GamePlayer) : GamePlayer :=
  mkGamePlayer (_id p) (userId p) (seatIndex p) h.

Definition setSeatHand (i : nat) (h : list Card) (p : GamePlayer) : GamePlayer :=
  mkGamePlayer (_id p) (userId p) i h.

(** ** Seat order *)

(** [Array.prototype.sort] with a comparator [(a, b) => key a - key b]:
    a stable sort, written as insertion from the right. *)
Fixpoint insertBy {A} (key : A -> nat) (p : A) (l : list A) : list A :=
  match l with
  | [] => [p]
  | q :: t => if key q <? key p then q :: insertBy key p t
              else p :: q :: t
  end.

Definition sortBy {A} (key : A -> nat) (l : list A) : list A :=
  fold_right (insertBy key) [] l.

Definition sortBySeat (l : list GamePlayer) : list GamePlayer :=
  sortBy seatIndex l.

(** [findIndex]; [None] stands for [-1]. *)
Fixpoint findIndex {A} (f : A -> bool) (l : list A) : option nat :=
  match l with
  | [] => None
  | x :: t => if f x then Some 0
              else match findIndex f t with Some i => Some (S i) | None => None end
  end.

(** The [for] loop of [getNextPlayerToPlay], from index [i] on, with
    [fuel] iterations left. *)
Fixpoint nextLoop (sorted : list GamePlayer) (idx : nat) (currentUserId : UserId)
         (passedSet skipSet : list UserId) (i fuel : nat) : Outcome (option UserId) :=
  match fuel with
  | 0 => Ok None
  | S fuel' =>
      match nth_error sorted ((idx + i) mod length sorted) with
      | None => Thrown TypeError
      | Some next =>
          if negb (userId next =? currentUserId)
             && negb (mem (userId next) passedSet)
             && negb (mem (userId next) skipSet)
          then Ok (Some (userId next))
          else nextLoop sorted idx currentUserId passedSet skipSet (S i) fuel'
      end
  end.

Definition getNextPlayerToPlay (gamePlayers : list GamePlayer) (currentUserId : UserId)
           (passedUserIds : list UserId) (skipSet : list UserId)
  : Outcome (option UserId) :=
  let sorted := sortBySeat gamePlayers in
  match findIndex (fun p => userId p =? currentUserId) sorted with
  | None => match sorted with
            | [] => Thrown TypeError
            | p :: _ => Ok (Some (userId p))
            end
  | Some idx =>
      nextLoop sorted idx currentUserId passedUserIds skipSet 1 (length sorted - 1)
  end.

(** ** playCards *)

Definition is2 (r : Rank) : bool := rank_eqb r (Some "2").

Definition includes (u : UserId) (l : list UserId) : bool := mem u l.

Definition orEmpty {A} (o : option (list A)) : list A :=
  match o with Some l => l | None => [] end.

(** [gameState.currentTurnUserId === user._id] *)
Definition turnIs (gs : GameState) (user : UserId) : bool :=
  match currentTurnUserId gs with Some t => t =? user | None => false end.

(** [p._id === gp._id ? newHand.length : p.hand.length] *)
Definition cardsLeft (gp : GamePlayer) (newHand : list Card) (p : GamePlayer) : nat :=
  if _id p =? _id gp then length newHand else length (hand p).

(** The fields of the patch that ends the round (first branch). *)
Definition roundEndedFields (gs : GameState) (now : nat) (nextUserId : UserId)
           (discard : list Card) (finishedOrderWithLoser : list UserId)
           (roundLoser : option UserId) (cur : GameState) : GameState :=
  {| currentTurnUserId := Some nextUserId;
     turnNumber := turnNumber gs + 1;
     turnStartedAt := now;
     deck := deck cur;
     discardPile := discard;
     phase := round_ended;
     lastPlayedCount := 0;
     lastPlayedRank := None;
     lastPlayedBy := None;
     passedUserIds := passedUserIds cur;
     finishedOrder := Some finishedOrderWithLoser;
     roundLoserId := roundLoser;
     exchangePairs := exchangePairs cur;
     exchangeSelections := exchangeSelections cur;
     roundLeaderId := roundLeaderId cur |}.

(** The fields of the patch that moves the turn on (second branch). *)
Definition nextTurnFields (gs : GameState) (now : nat) (nextUserId user : UserId)
           (playerJustFinished samePlayerLeadsAgain : bool)
           (cardIds discard : list Card) (playRank : Rank)
           (finishedOrder1 : list UserId) (cur : GameState) : GameState :=
  let clearTable := playerJustFinished || samePlayerLeadsAgain in
  {| currentTurnUserId := Some nextUserId;
     turnNumber := turnNumber gs + 1;
     turnStartedAt := now;
     deck := deck cur;
     discardPile := if clearTable then [] else discard;
     phase := phase cur;
     lastPlayedCount := if clearTable then 0 else length cardIds;
     lastPlayedRank := if clearTable then None else playRank;
     lastPlayedBy := if clearTable then None else Some user;
     passedUserIds :=
       if samePlayerLeadsAgain || playerJustFinished then [] else passedUserIds cur;
     finishedOrder :=
       if 0 <? length finishedOrder1 then Some finishedOrder1 else finishedOrder cur;
     roundLoserId := roundLoserId cur;
     exchangePairs := exchangePairs cur;
     exchangeSelections := exchangeSelections cur;
     roundLeaderId := roundLeaderId cur |}.

(** What [playCards] does once its guards have passed (from
    [const newHand = hand] on). *)
Definition applyPlay (gs : GameState) (players : list GamePlayer) (gp : GamePlayer)
           (newHand : list Card) (playRank : Rank)
           (user : UserId) (cardIds : list Card) (now : nat) : M unit :=
  patchPlayer (_id gp) (setHand newHand) ;;
  let passed := passedUserIds gs in
  let discard := discardPile gs ++ cardIds in
  let finishedOrder0 := orEmpty (finishedOrder gs) in
  let finishedOrder1 :=
    if (length newHand =? 0) && negb (includes user finishedOrder0)
    then finishedOrder0 ++ [user] else finishedOrder0 in
  let playerJustFinished := length newHand =? 0 in
  let zeroCardUserIds :=
    map userId (filter (fun p => cardsLeft gp newHand p =? 0) players) in
  nextUserIdRaw <- liftO (getNextPlayerToPlay players user passed zeroCardUserIds) ;;
  let samePlayerLeadsAgain := match nextUserIdRaw with None => true | Some _ => false end in
  let nextUserId := match nextUserIdRaw with Some u => u | None => user end in
  let playersWithCards :=
    length (filter (fun c => 0 <? c) (map (cardsLeft gp newHand) players)) in
  let onlyOneHasCards := playersWithCards =? 1 in
  if playerJustFinished && onlyOneHasCards then
    let roundLoser :=
      option_map userId (find (fun p => 0 <? cardsLeft gp newHand p) players) in
    let finishedOrderWithLoser :=
      match roundLoser with Some l => finishedOrder1 ++ [l] | None => finishedOrder1 end in
    patchState (roundEndedFields gs now nextUserId discard finishedOrderWithLoser roundLoser)
  else
    patchState (nextTurnFields gs now nextUserId user playerJustFinished
                               samePlayerLeadsAgain cardIds discard playRank finishedOrder1).

Definition playCards (user : UserId) (cardIds : list Card) (now : nat) : M unit :=
  if length cardIds =? 0 then throw ESelectAtLeastOne else
  gs <- readState ;;
  match phase gs with
  | exchange => throw EExchangeFirst
  | round_ended => throw ERoundEnded
  | play =>
  if negb (turnIs gs user) then throw ENotYourTurn else
  players <- readPlayers ;;
  match find (fun p => userId p =? user) players with
  | None => throw ENotInGame
  | Some gp =>
  match spliceAll cardIds (hand gp) with
  | None => throw ECardNotInHand
  | Some newHand =>
  let ranks := map charAt0 cardIds in
  let twos := filter is2 ranks in
  let nonTwos := filter (fun r => negb (is2 r)) ranks in
  if length twos =? length cardIds then throw ETwoAlone else
  let uniqueNonTwo := setOf nonTwos in
  if 1 <? length uniqueNonTwo then throw ESameRankOnly else
  let playRank := match uniqueNonTwo with r :: _ => r | [] => Some "2" end in
  let lastCount := lastPlayedCount gs in
  let lastRank := lastPlayedRank gs in
  if (0 <? lastCount) && (length cardIds <? lastCount)
  then throw (EPlayAtLeast lastCount) else
  if (0 <? lastCount) && (rankValue lastRank <? rankValue playRank)
  then throw ESameOrHigher else
  applyPlay gs players gp newHand playRank user cardIds now
  end end end.

(** ** pass *)

(** The fields of the two patches that clear the table. *)
Definition clearedFields (gs : GameState) (now : nat) (lastBy : option UserId)
           (cur : GameState) : GameState :=
  {| currentTurnUserId := lastBy;
     turnNumber := turnNumber gs + 1;
     turnStartedAt := now;
     deck := deck cur;
     discardPile := discardPile cur;
     phase := phase cur;
     lastPlayedCount := 0;
     lastPlayedRank := None;
     lastPlayedBy := None;
     passedUserIds := [];
     finishedOrder := finishedOrder cur;
     roundLoserId := roundLoserId cur;
     exchangePairs := exchangePairs cur;
     exchangeSelections := exchangeSelections cur;
     roundLeaderId := roundLeaderId cur |}.

(** The fields of the patch that hands the turn to the next seat. *)
Definition advanceFields (gs : GameState) (now : nat) (next : UserId)
           (passed : list UserId) (cur : GameState) : GameState :=
  {| currentTurnUserId := Some next;
     turnNumber := turnNumber gs + 1;
     turnStartedAt := now;
     deck := deck cur;
     discardPile := discardPile cur;
     phase := phase cur;
     lastPlayedCount := lastPlayedCount cur;
     lastPlayedRank := lastPlayedRank cur;
     lastPlayedBy := lastPlayedBy cur;
     passedUserIds := passed;
     finishedOrder := finishedOrder cur;
     roundLoserId := roundLoserId cur;
     exchangePairs := exchangePairs cur;
     exchangeSelections := exchangeSelections cur;
     roundLeaderId := roundLeaderId cur |}.

(** [lastPlayedBy !== null && nextUserId === lastPlayedBy &&
     passedUserIds.length >= numPlayers - 1]; the last comparison is
    written without the subtraction, which is the same on integers. *)
Definition fullPassAround (lastBy : option UserId) (next : UserId)
           (passed : list UserId) (numPlayers : nat) : bool :=
  match lastBy with
  | Some author => (next =? author) && (numPlayers <=? length passed + 1)
  | None => false
  end.

Definition pass (user : UserId) (now : nat) : M unit :=
  gs <- readState ;;
  match phase gs with
  | exchange => throw EExchangeFirst
  | round_ended => throw ERoundEnded
  | play =>
  if negb (turnIs gs user) then throw ENotYourTurn else
  if lastPlayedCount gs =? 0 then throw EMustLead else
  players <- readPlayers ;;
  let passed := passedUserIds gs ++ [user] in
  let lastBy := lastPlayedBy gs in
  let numPlayers := length players in
  let zeroCardUserIds := map userId (filter (fun p => length (hand p) =? 0) players) in
  nextUserId <- liftO (getNextPlayerToPlay players user passed zeroCardUserIds) ;;
  match nextUserId with
  | None => patchState (clearedFields gs now lastBy)
  | Some next =>
      if fullPassAround lastBy next passed numPlayers
      then patchState (clearedFields gs now lastBy)
      else patchState (advanceFields gs now next passed)
  end
  end.

(** ** Maps keyed by user id ([new Map(entries)], [get], [set]) *)

Definition JsMap (V : Type) := list (UserId * V).

Fixpoint mapGet {V} (k : UserId) (m : JsMap V) : option V :=
  match m with
  | [] => None
  | (k', v) :: t => if k' =? k then Some v else mapGet k t
  end.

Fixpoint mapSet {V} (k : UserId) (v : V) (m : JsMap V) : JsMap V :=
  match m with
  | [] => [(k, v)]
  | (k', v') :: t => if k' =? k then (k, v) :: t else (k', v') :: mapSet k v t
  end.

Definition mapOfEntries {V} (entries : list (UserId * V)) : JsMap V :=
  fold_left (fun m kv => mapSet (fst kv) (snd kv) m) entries [].

(** [arr.map((x, i) => f x i)] *)
Fixpoint mapi_from {A B} (i : nat) (f : A -> nat -> B) (l : list A) : list B :=
  match l with
  | [] => []
  | x :: t => f x i :: mapi_from (S i) f t
  end.

(** ** restartRound *)

Definition buildExchangePairs (finishedOrder : list UserId) (n : nat) : list ExchangePair :=
  if n <=? length finishedOrder then
    if (n =? 2) || (n =? 3) then
      let winnerId := nth 0 finishedOrder 0 in
      let loserId := nth (n - 1) finishedOrder 0 in
      [ mkPair loserId winnerId 1; mkPair winnerId loserId 1 ]
    else if 4 <=? n then
      let firstId := nth 0 finishedOrder 0 in
      let lastId := nth (n - 1) finishedOrder 0 in
      let secondId := nth 1 finishedOrder 0 in
      let secondLastId := nth (n - 2) finishedOrder 0 in
      [ mkPair firstId lastId 2; mkPair lastId firstId 2;
        mkPair secondId secondLastId 1; mkPair secondLastId secondId 1 ]
    else []
  else [].

(** The fields of the patch that opens the next round. *)
Definition restartFields (gs : GameState) (now : nat) (firstLeaderId : UserId)
           (pairs : list ExchangePair) (cur : GameState) : GameState :=
  {| currentTurnUserId := Some firstLeaderId;
     turnNumber := turnNumber gs + 1;
     turnStartedAt := now;
     deck := deck cur;
     discardPile := [];
     phase := if 0 <? length pairs then exchange else play;
     lastPlayedCount := 0;
     lastPlayedRank := None;
     lastPlayedBy := None;
     passedUserIds := [];
     finishedOrder := None;
     roundLoserId := None;
     exchangePairs := if 0 <? length pairs then Some pairs else None;
     exchangeSelections := Some [];
     roundLeaderId := if 0 <? length pairs then Some firstLeaderId else None |}.

(** The user seated at position [i] of the next round and the hand that
    goes with the seat. *)
Definition seatUser (complete : bool) (finishedOrder : list UserId)
           (sortedPlayers : list GamePlayer) (i : nat) : UserId :=
  if complete then nth i finishedOrder 0
  else match nth_error sortedPlayers i with Some p => userId p | None => 0 end.

Definition seatHand (complete : bool) (newHandsByOrder hands : list (list Card))
           (i : nat) : list Card :=
  if complete then nth i newHandsByOrder [] else nth i hands [].

(** The loop [for (let i = 0; i < n; i++)] that reseats the players and
    hands out the new hands ([continue] when the user has no record). *)
Definition reseatLoop (players : list GamePlayer) (complete : bool)
           (finishedOrder : list UserId) (sortedPlayers : list GamePlayer)
           (newHandsByOrder hands : list (list Card)) (n : nat) : M unit :=
  forEach (seq 0 n) (fun i =>
    match find (fun p => userId p =? seatUser complete finishedOrder sortedPlayers i)
               players with
    | None => ret tt
    | Some gp =>
        patchPlayer (_id gp) (setSeatHand i (seatHand complete newHandsByOrder hands i))
    end).

Definition restartRound (isAdmin : bool) (rnd : nat -> nat) (now : nat) : M unit :=
  if negb isAdmin then throw EOnlyHost else
  gs <- readState ;;
  match phase gs with
  | play | exchange => throw ERoundNotEnded
  | round_ended =>
  players0 <- readPlayers ;;
  let finishedOrder := orEmpty (finishedOrder gs) in
  let n := length players0 in
  (* [gamePlayers.sort(...)] sorts the fetched array in place *)
  let players := if 0 <? length finishedOrder then players0 else sortBySeat players0 in
  match (if 0 <? length finishedOrder then Some (nth 0 finishedOrder 0)
         else option_map userId (nth_error players 0)) with
  | None => throw TypeError
  | Some firstLeaderId =>
  let allCards := flat_map hand players ++ discardPile gs in
  let shuffled := shuffleArray rnd allCards in
  let hands := distributeEvenly shuffled n in
  let sortedPlayers := sortBySeat players in
  let playerIdxByUserId := mapOfEntries (mapi_from 0 (fun p i => (userId p, i)) sortedPlayers) in
  let complete := length finishedOrder =? n in
  let newHandsByOrder :=
    if complete
    then map (fun u => match mapGet u playerIdxByUserId with
                       | Some i => nth i hands []
                       | None => []
                       end) finishedOrder
    else hands in
  reseatLoop players complete finishedOrder sortedPlayers newHandsByOrder hands n ;;
  let pairs := buildExchangePairs finishedOrder n in
  patchState (restartFields gs now firstLeaderId pairs)
  end end.

(** ** submitExchangeSelection *)

Definition findSel (u : UserId) (sels : list ExchangeSelection) : option ExchangeSelection :=
  find (fun s => selFrom s =? u) sels.

(** One iteration of the loop over [exchangePairs] at completion. *)
Definition applyPair (sels : list ExchangeSelection)
           (handsByUserId : JsMap (list Card)) (p : ExchangePair) : JsMap (list Card) :=
  match findSel (fromUserId p) sels with
  | None => handsByUserId
  | Some sel =>
      if negb (length (selCardIds sel) =? count p) then handsByUserId else
      let fromHand := orEmpty (mapGet (fromUserId p) handsByUserId) in
      let toHand := orEmpty (mapGet (toUserId p) handsByUserId) in
      let m1 := mapSet (fromUserId p)
                       (filter (fun c => negb (cardIn c (selCardIds sel))) fromHand)
                       handsByUserId in
      mapSet (toUserId p) (toHand ++ selCardIds sel) m1
  end.

(** The fields of the patch that completes the exchange. *)
Definition exchangeDoneFields (gs : GameState) (now : nat) (cur : GameState) : GameState :=
  {| currentTurnUserId := roundLeaderId gs;
     turnNumber := turnNumber gs + 1;
     turnStartedAt := now;
     deck := deck cur;
     discardPile := discardPile cur;
     phase := play;
     lastPlayedCount := lastPlayedCount cur;
     lastPlayedRank := lastPlayedRank cur;
     lastPlayedBy := lastPlayedBy cur;
     passedUserIds := passedUserIds cur;
     finishedOrder := finishedOrder cur;
     roundLoserId := roundLoserId cur;
     exchangePairs := None;
     exchangeSelections := None;
     roundLeaderId := None |}.

(** The fields of the patch that records one more selection. *)
Definition selectionFields (newSelections : list ExchangeSelection)
           (cur : GameState) : GameState :=
  {| currentTurnUserId := currentTurnUserId cur;
     turnNumber := turnNumber cur;
     turnStartedAt := turnStartedAt cur;
     deck := deck cur;
     discardPile := discardPile cur;
     phase := phase cur;
     lastPlayedCount := lastPlayedCount cur;
     lastPlayedRank := lastPlayedRank cur;
     lastPlayedBy := lastPlayedBy cur;
     passedUserIds := passedUserIds cur;
     finishedOrder := finishedOrder cur;
     roundLoserId := roundLoserId cur;
     exchangePairs := exchangePairs cur;
     exchangeSelections := Some newSelections;
     roundLeaderId := roundLeaderId cur |}.

(** [exchangePairs.every(...)] *)
Definition allIn (pairs : list ExchangePair) (newSelections : list ExchangeSelection) : bool :=
  forallb (fun p => match findSel (fromUserId p) newSelections with
                    | Some sel => length (selCardIds sel) =? count p
                    | None => false
                    end) pairs.

(** The hands after the swap, keyed by user. *)
Definition exchangedHands (players : list GamePlayer) (pairs : list ExchangePair)
           (newSelections : list ExchangeSelection) : JsMap (list Card) :=
  fold_left (applyPair newSelections) pairs
            (mapOfEntries (map (fun p => (userId p, hand p)) players)).

(** [handsByUserId.get(gp.userId) ?? gp.hand] *)
Definition handAfterExchange (handsByUserId : JsMap (list Card)) (p : GamePlayer) : list Card :=
  match mapGet (userId p) handsByUserId with
  | Some h => h
  | None => hand p
  end.

(** The loop [for (const gp of gamePlayers)] that writes the swapped
    hands. *)
Definition swapLoop (players : list GamePlayer) (handsByUserId : JsMap (list Card))
  : M unit :=
  forEach players (fun p =>
    patchPlayer (_id p) (setHand (handAfterExchange handsByUserId p))).

Definition submitExchangeSelection (user : UserId) (cardIds : list Card) (now : nat)
  : M unit :=
  gs <- readState ;;
  match phase gs with
  | play | round_ended => throw ENotExchange
  | exchange =>
  let pairs := orEmpty (exchangePairs gs) in
  match find (fun p => fromUserId p =? user) pairs with
  | None => throw ENotGiving
  | Some myPair =>
  if negb (length cardIds =? count myPair) then throw (ESelectExactly (count myPair)) else
  players <- readPlayers ;;
  match find (fun p => userId p =? user) players with
  | None => throw ENotInGame
  | Some gp =>
  if negb (forallb (fun cid => cardIn cid (hand gp)) cardIds)
  then throw ESelectedNotInHand else
  let existing := orEmpty (exchangeSelections gs) in
  let withoutMe := filter (fun s => negb (selFrom s =? user)) existing in
  let newSelections := withoutMe ++ [mkSel user cardIds] in
  if allIn pairs newSelections then
    let handsByUserId := exchangedHands players pairs newSelections in
    swapLoop players handsByUserId ;;
    patchState (exchangeDoneFields gs now)
  else
    patchState (selectionFields newSelections)
  end end end.

(** ** startGame *)

Record RoomMember := mkMember {
  memberUserId : UserId;
  memberSeatIndex : option nat
}.

(** [startGame] from the count of the members on: the documents it
    inserts for a room in Presidents mode with a whole deck count, once
    its guards on the room and on the caller have passed (the whole
    handler, with those guards and the deck count as the number it is, is
    [startGameHandler] further down).  The database hands out the
    document ids; the [i]-th inserted player gets id [i]. *)
Definition startGame (members : list RoomMember) (roomDeckCount : option nat)
           (rnd : nat -> nat) (now : nat) : Outcome World :=
  if length members <? 2 then Thrown ENeedTwoPlayers else
  let deckCount := Nat.max 1 (match roomDeckCount with Some d => d | None => 1 end) in
  let fullDeck := buildDeck deckCount in
  let shuffled := shuffleArray rnd fullDeck in
  let hands := distributeEvenly shuffled (length members) in
  let sortedMembers :=
    sortBy (fun m => match memberSeatIndex m with Some i => i | None => 999 end) members in
  let players :=
    mapi_from 0 (fun m i => mkGamePlayer i (memberUserId m) i (nth i hands [])) sortedMembers in
  match sortedMembers with
  | [] => Thrown TypeError
  | first :: _ =>
      Ok (mkWorld
            {| currentTurnUserId := Some (memberUserId first);
               turnNumber := 0;
               turnStartedAt := now;
               deck := [];
               discardPile := [];
               phase := play;
               lastPlayedCount := 0;
               lastPlayedRank := None;
               lastPlayedBy := None;
               passedUserIds := [];
               finishedOrder := None;
               roundLoserId := None;
               exchangePairs := None;
               exchangeSelections := None;
               roundLeaderId := None |}
            players)
  end.

(** The documents [startGame] inserts for the deck [fullDeck]: the part of
    the handler after [buildDeck].  For a deck count of NaN, which
    [updateRoomSettings] stores as it is, [Math.max(1, NaN)] is NaN, the
    loop of [buildDeck] does not run and [fullDeck] is empty. *)
Definition insertGame (fullDeck : list Card) (members : list RoomMember)
           (rnd : nat -> nat) (now : nat) : Outcome World :=
  let shuffled := shuffleArray rnd fullDeck in
  let hands := distributeEvenly shuffled (length members) in
  let sortedMembers :=
    sortBy (fun m => match memberSeatIndex m with Some i => i | None => 999 end) members in
  let players :=
    mapi_from 0 (fun m i => mkGamePlayer i (memberUserId m) i (nth i hands [])) sortedMembers in
  match sortedMembers with
  | [] => Thrown TypeError
  | first :: _ =>
      Ok (mkWorld
            {| currentTurnUserId := Some (memberUserId first);
               turnNumber := 0;
               turnStartedAt := now;
               deck := [];
               discardPile := [];
               phase := play;
               lastPlayedCount := 0;
               lastPlayedRank := None;
               lastPlayedBy := None;
               passedUserIds := [];
               finishedOrder := None;
               roundLoserId := None;
               exchangePairs := None;
               exchangeSelections := None;
               roundLeaderId := None |}
            players)
  end.

(** ** Requests, runs and reachable states *)

Inductive Action :=
| APlay (user : UserId) (cardIds : list Card)
| APass (user : UserId)
| ARestart (isAdmin : bool) (rnd : nat -> nat)
| ASubmit (user : UserId) (cardIds : list Card).

Definition run (a : Action) (now : nat) : M unit :=
  match a with
  | APlay user cardIds => playCards user cardIds now
  | APass user => pass user now
  | ARestart isAdmin rnd => restartRound isAdmin rnd now
  | ASubmit user cardIds => submitExchangeSelection user cardIds now
  end.

Definition accepted (m : M unit) (w : World) : Prop := fst (m w) = Ok tt.
Definition rejected (m : M unit) (w : World) : Prop := exists e, fst (m w) = Thrown e.
Definition after (m : M unit) (w : World) : World := snd (m w).

(** States reachable from a started game by accepted requests.  Room
    membership is unique per user (rooms.js refuses a second join).  A
    game starts on a whole number of decks, one at least, or, when the
    deck count of the room is NaN, on no card at all. *)
Inductive reachable : World -> Prop :=
| reach_start members deckCount rnd now w :
    NoDup (map memberUserId members) ->
    startGame members deckCount rnd now = Ok w ->
    reachable w
| reach_start_empty members rnd now w :
    NoDup (map memberUserId members) ->
    2 <= length members ->
    insertGame [] members rnd now = Ok w ->
    reachable w
| reach_step w a now :
    reachable w ->
    accepted (run a now) w ->
    reachable (after (run a now) w).

(** ** Seats and cards *)

Definition holdsCards (p : GamePlayer) : bool := 0 <? length (hand p).

Definition seatsWithCards (players : list GamePlayer) : nat :=
  length (filter holdsCards players).

Definition cardsInPlay (w : World) : list Card :=
  flat_map hand (gamePlayers w) ++ discardPile (gameState w).

Definition tableClear (gs : GameState) : Prop := lastPlayedCount gs = 0.


(** ** The guards of the handlers, as propositions *)

Definition playRankOf (cardIds : list Card) : Rank :=
  match setOf (filter (fun r => negb (is2 r)) (map charAt0 cardIds)) with
  | r :: _ => r
  | [] => Some "2"
  end.

(** Every guard of [playCards] passes, [gp] being the actor's record and
    [newHand] the hand left after the splices. *)
Definition playGuards (w : World) (user : UserId) (cardIds : list Card)
           (gp : GamePlayer) (newHand : list Card) : Prop :=
  let gs := gameState w in
  length cardIds <> 0 /\
  phase gs = play /\
  turnIs gs user = true /\
  find (fun p => userId p =? user) (gamePlayers w) = Some gp /\
  spliceAll cardIds (hand gp) = Some newHand /\
  length (filter is2 (map charAt0 cardIds)) <> length cardIds /\
  length (setOf (filter (fun r => negb (is2 r)) (map charAt0 cardIds))) <= 1 /\
  (lastPlayedCount gs = 0 \/
   (lastPlayedCount gs <= length cardIds /\
    rankValue (playRankOf cardIds) <= rankValue (lastPlayedRank gs))).

(** Every guard of [pass] passes. *)
Definition passGuards (w : World) (user : UserId) : Prop :=
  let gs := gameState w in
  phase gs = play /\ turnIs gs user = true /\ lastPlayedCount gs <> 0.

(** The arguments [pass] gives to the rotation search. *)
Definition passNext (w : World) (user : UserId) : Outcome (option UserId) :=
  getNextPlayerToPlay (gamePlayers w) user (passedUserIds (gameState w) ++ [user])
    (map userId (filter (fun p => length (hand p) =? 0) (gamePlayers w))).

(** The arguments [playCards] gives to the rotation search. *)
Definition playNext (w : World) (user : UserId) (gp : GamePlayer) (newHand : list Card)
  : Outcome (option UserId) :=
  getNextPlayerToPlay (gamePlayers w) user (passedUserIds (gameState w))
    (map userId (filter (fun p => cardsLeft gp newHand p =? 0) (gamePlayers w))).

(** [finishedOrder] after the actor has been appended, if the actor just
    finished and is not in it yet. *)
Definition finishedAfterPlay (gs : GameState) (user : UserId) (newHand : list Card)
  : list UserId :=
  if (length newHand =? 0) && negb (includes user (orEmpty (finishedOrder gs)))
  then orEmpty (finishedOrder gs) ++ [user] else orEmpty (finishedOrder gs).

(** The players table once [gp]'s hand has been patched. *)
Definition playersAfterPlay (players : list GamePlayer) (gp : GamePlayer)
           (newHand : list Card) : list GamePlayer :=
  map (fun p => if _id p =? _id gp then setHand newHand p else p) players.

(** The test that ends the round. *)
Definition endsRound (players : list GamePlayer) (gp : GamePlayer)
           (newHand : list Card) : bool :=
  (length newHand =? 0)
  && (length (filter (fun c => 0 <? c) (map (cardsLeft gp newHand) players)) =? 1).

(** The round state [playCards] writes, [nextRaw] being the result of
    the rotation search. *)
Definition stateAfterPlay (gs : GameState) (players : list GamePlayer) (gp : GamePlayer)
           (newHand : list Card) (playRank : Rank) (user : UserId)
           (cardIds : list Card) (now : nat) (nextRaw : option UserId) : GameState :=
  let nextUserId := match nextRaw with Some u => u | None => user end in
  let samePlayerLeadsAgain := match nextRaw with None => true | Some _ => false end in
  let discard := discardPile gs ++ cardIds in
  let finishedOrder1 := finishedAfterPlay gs user newHand in
  if endsRound players gp newHand then
    let roundLoser :=
      option_map userId (find (fun p => 0 <? cardsLeft gp newHand p) players) in
    roundEndedFields gs now nextUserId discard
      (match roundLoser with Some l => finishedOrder1 ++ [l] | None => finishedOrder1 end)
      roundLoser gs
  else
    nextTurnFields gs now nextUserId user (length newHand =? 0) samePlayerLeadsAgain
                   cardIds discard playRank finishedOrder1 gs.

(** The round state [pass] writes, [next] being the result of the
    rotation search. *)
Definition stateAfterPass (gs : GameState) (numPlayers : nat) (user : UserId)
           (now : nat) (next : option UserId) : GameState :=
  match next with
  | None => clearedFields gs now (lastPlayedBy gs) gs
  | Some nx =>
      if fullPassAround (lastPlayedBy gs) nx (passedUserIds gs ++ [user]) numPlayers
      then clearedFields gs now (lastPlayedBy gs) gs
      else advanceFields gs now nx (passedUserIds gs ++ [user]) gs
  end.

(** The leader [restartRound] computes, and the arguments of its
    reseating loop. *)
Definition restartPlayers (gs : GameState) (players0 : list GamePlayer) : list GamePlayer :=
  if 0 <? length (orEmpty (finishedOrder gs)) then players0 else sortBySeat players0.

Definition firstLeader (gs : GameState) (players0 : list GamePlayer) : option UserId :=
  if 0 <? length (orEmpty (finishedOrder gs))
  then Some (nth 0 (orEmpty (finishedOrder gs)) 0)
  else option_map userId (nth_error (restartPlayers gs players0) 0).

Definition restartHands (gs : GameState) (players0 : list GamePlayer) (rnd : nat -> nat)
  : list (list Card) :=
  distributeEvenly
    (shuffleArray rnd (flat_map hand (restartPlayers gs players0) ++ discardPile gs))
    (length players0).

Definition restartHandsByOrder (gs : GameState) (players0 : list GamePlayer)
           (rnd : nat -> nat) : list (list Card) :=
  let players := restartPlayers gs players0 in
  let hands := restartHands gs players0 rnd in
  let playerIdxByUserId :=
    mapOfEntries (mapi_from 0 (fun p i => (userId p, i)) (sortBySeat players)) in
  if length (orEmpty (finishedOrder gs)) =? length players0
  then map (fun u => match mapGet u playerIdxByUserId with
                     | Some i => nth i hands []
                     | None => []
                     end) (orEmpty (finishedOrder gs))
  else hands.

Definition restartLoop (gs : GameState) (players0 : list GamePlayer) (rnd : nat -> nat)
  : M unit :=
  reseatLoop (restartPlayers gs players0)
             (length (orEmpty (finishedOrder gs)) =? length players0)
             (orEmpty (finishedOrder gs))
             (sortBySeat (restartPlayers gs players0))
             (restartHandsByOrder gs players0 rnd)
             (restartHands gs players0 rnd)
             (length players0).

(** Every guard of [submitExchangeSelection] passes. *)
Definition submitGuards (w : World) (user : UserId) (cardIds : list Card)
           (myPair : ExchangePair) (gp : GamePlayer) : Prop :=
  phase (gameState w) = exchange /\
  find (fun p => fromUserId p =? user) (orEmpty (exchangePairs (gameState w))) = Some myPair /\
  length cardIds = count myPair /\
  find (fun p => userId p =? user) (gamePlayers w) = Some gp /\
  forallb (fun cid => cardIn cid (hand gp)) cardIds = true.

(** The selections on record once [user] has submitted [cardIds]. *)
Definition selectionsAfter (gs : GameState) (user : UserId) (cardIds : list Card)
  : list ExchangeSelection :=
  filter (fun s => negb (selFrom s =? user)) (orEmpty (exchangeSelections gs))
    ++ [mkSel user cardIds].

(** The submission completes the exchange. *)
Definition completes (w : World) (user : UserId) (cardIds : list Card) : bool :=
  allIn (orEmpty (exchangePairs (gameState w))) (selectionsAfter (gameState w) user cardIds).

(** A loop of patches on [gamePlayers] never throws and leaves the round
    state alone. *)
Definition patchesOnly (m : M unit) : Prop :=
  forall w, exists ps, m w = (Ok tt, mkWorld (gameState w) ps).


(** ** Legal plays, in the words of the rules *)

(** The selection is a sub-multiset of the hand. *)
Definition subMultiset (sel hnd : list Card) : Prop :=
  forall c, count_occ string_dec sel c <= count_occ string_dec hnd c.

Definition isWild (c : Card) : Prop := charAt0 c = Some "2".

(** Every selected card is a 2 (the empty selection included: it holds
    no real rank). *)
Definition wildcardsOnly (sel : list Card) : Prop :=
  forall c, In c sel -> isWild c.

(** Without its 2s the selection holds at most one distinct rank. *)
Definition atMostOneRank (sel : list Card) : Prop :=
  forall c1 c2, In c1 sel -> In c2 sel -> ~ isWild c1 -> ~ isWild c2 ->
                charAt0 c1 = charAt0 c2.

(** [r] is the rank of a non-2 card of the selection. *)
Definition effectiveRank (sel : list Card) (r : Rank) : Prop :=
  exists c, In c sel /\ ~ isWild c /\ charAt0 c = r.

(** Same or stronger: the value is not larger. *)
Definition sameOrStronger (r standing : Rank) : Prop :=
  rankValue r <= rankValue standing.

Definition holdsTurn (w : World) (user : UserId) : Prop :=
  currentTurnUserId (gameState w) = Some user.

(** The hand of the actor's record, if there is one. *)
Definition actorHand (w : World) (user : UserId) : option (list Card) :=
  option_map hand (find (fun p => userId p =? user) (gamePlayers w)).

Definition legalPlay (w : World) (user : UserId) (sel : list Card) : Prop :=
  phase (gameState w) = play /\
  holdsTurn w user /\
  (exists hnd, actorHand w user = Some hnd /\ subMultiset sel hnd) /\
  atMostOneRank sel /\
  ~ wildcardsOnly sel /\
  (tableClear (gameState w) \/
   (lastPlayedCount (gameState w) <= length sel /\
    exists r, effectiveRank sel r /\ sameOrStronger r (lastPlayedRank (gameState w)))).

(** The strength of a rank as section 4.2 of the specification words it:
    strongest first 2, A, K, Q, J, 10, 9, 8, 7, 6, 5, 4, 3, the value of a
    rank being its position in that sequence, 0 for the strongest.  The
    card identifiers write the ten as T.  Anything else is no rank. *)
Definition specRankValue (r : string) : option nat :=
  if String.eqb r "2" then Some 0
  else if String.eqb r "A" then Some 1
  else if String.eqb r "K" then Some 2
  else if String.eqb r "Q" then Some 3
  else if String.eqb r "J" then Some 4
  else if String.eqb r "T" then Some 5
  else if String.eqb r "9" then Some 6
  else if String.eqb r "8" then Some 7
  else if String.eqb r "7" then Some 8
  else if String.eqb r "6" then Some 9
  else if String.eqb r "5" then Some 10
  else if String.eqb r "4" then Some 11
  else if String.eqb r "3" then Some 12
  else None.

(** Two decks dealt unshuffled to two players: the first holds one full
    deck. *)
Definition keepOrder (i : nat) : nat := i.

Definition twoDeckStart : Outcome World :=
  startGame [mkMember 1 (Some 0); mkMember 2 (Some 1)] (Some 2) keepOrder 0.

(** ** The invariant of reachable states *)

Definition userIds (w : World) : list UserId := map userId (gamePlayers w).

(** The holder of the turn, if seated, holds no card. *)
Definition leaderEmptyHanded (w : World) : Prop :=
  forall u gp, currentTurnUserId (gameState w) = Some u ->
               find (fun p => userId p =? u) (gamePlayers w) = Some gp ->
               hand gp = [].

Record Inv (w : World) : Prop := mkInv {
  inv_ids : NoDup (map _id (gamePlayers w));
  inv_users : NoDup (userIds w);
  inv_two : 2 <= length (gamePlayers w);
  inv_cards :
    phase (gameState w) = play ->
    2 <= seatsWithCards (gamePlayers w) \/
    (lastPlayedCount (gameState w) = 0 /\ leaderEmptyHanded w);
  inv_finished :
    phase (gameState w) <> exchange ->
    NoDup (orEmpty (finishedOrder (gameState w))) /\
    incl (orEmpty (finishedOrder (gameState w))) (userIds w);
  inv_finished_empty :
    phase (gameState w) = play ->
    forall u gp, In u (orEmpty (finishedOrder (gameState w))) ->
                 find (fun p => userId p =? u) (gamePlayers w) = Some gp ->
                 hand gp = [];
  inv_ended :
    phase (gameState w) = round_ended ->
    2 <= length (flat_map hand (gamePlayers w)) + length (discardPile (gameState w));
  inv_exchange :
    phase (gameState w) = exchange ->
    exists fo,
      NoDup fo /\ incl fo (userIds w) /\ length fo = length (gamePlayers w) /\
      exchangePairs (gameState w) = Some (buildExchangePairs fo (length (gamePlayers w))) /\
      roundLeaderId (gameState w) = Some (nth 0 fo 0) /\
      lastPlayedCount (gameState w) = 0 /\
      passedUserIds (gameState w) = [] /\
      finishedOrder (gameState w) = None;
  inv_passed :
    phase (gameState w) = play ->
    NoDup (passedUserIds (gameState w)) /\
    forall u, currentTurnUserId (gameState w) = Some u ->
              ~ In u (passedUserIds (gameState w));
  inv_turn :
    phase (gameState w) = play ->
    lastPlayedCount (gameState w) <> 0 ->
    exists u, currentTurnUserId (gameState w) = Some u /\ In u (userIds w)
}.

(** [db] with the records of user [u] rewritten by [f]. *)
Definition updUser (u : UserId) (f : GamePlayer -> GamePlayer)
           (db : list GamePlayer) : list GamePlayer :=
  map (fun p => if userId p =? u then f p else p) db.

Definition applyUps (ups : list (UserId * (GamePlayer -> GamePlayer)))
           (db : list GamePlayer) : list GamePlayer :=
  fold_left (fun db uf => updUser (fst uf) (snd uf) db) ups db.

Definition keyOf (p : GamePlayer) : DocId * UserId := (_id p, userId p).

Definition keepsKey (f : GamePlayer -> GamePlayer) : Prop :=
  forall p, keyOf (f p) = keyOf p.

(** Every record of [db] carries the keys of a record of [snap]. *)
Definition coherent (db snap : list GamePlayer) : Prop :=
  forall p, In p db -> exists q, In q snap /\ keyOf q = keyOf p.

(** The update the reseating loop makes at index [i]. *)
Definition reseatUp (complete : bool) (finishedOrder : list UserId)
           (sortedPlayers : list GamePlayer) (newHandsByOrder hands : list (list Card))
           (i : nat) : UserId * (GamePlayer -> GamePlayer) :=
  (seatUser complete finishedOrder sortedPlayers i,
   setSeatHand i (seatHand complete newHandsByOrder hands i)).

(** The update the swap loop makes for the record [p]. *)
Definition swapUp (handsByUserId : JsMap (list Card)) (p : GamePlayer)
  : UserId * (GamePlayer -> GamePlayer) :=
  (userId p, setHand (handAfterExchange handsByUserId p)).

(** ** Passing *)

(** The number of distinct seats in a list of passers. *)
Definition distinctPassers (l : list UserId) : nat := length (nodup Nat.eq_dec l).

(** A play still stands on the table. *)
Definition standing (w : World) : Prop := lastPlayedCount (gameState w) <> 0.

(** States reached from [w0] by accepted requests after each of which a
    play still stands, that is, without the table clearing. *)
Inductive quietRun (w0 : World) : World -> Prop :=
| quiet_here : quietRun w0 w0
| quiet_next w a now :
    quietRun w0 w ->
    accepted (run a now) w ->
    standing (after (run a now) w) ->
    quietRun w0 (after (run a now) w).

(** ** Two games played out

    Both are dealt unshuffled ([keepOrder] makes every swap of the
    shuffle the identity), so that the hands are known. *)

Definition emptyState : GameState :=
  {| currentTurnUserId := None; turnNumber := 0; turnStartedAt := 0;
     deck := []; discardPile := []; phase := play;
     lastPlayedCount := 0; lastPlayedRank := None; lastPlayedBy := None;
     passedUserIds := []; finishedOrder := None; roundLoserId := None;
     exchangePairs := None; exchangeSelections := None; roundLeaderId := None |}.

Definition worldOr (o : Outcome World) : World :=
  match o with
  | Ok w => w
  | Thrown _ => mkWorld emptyState []
  end.

(** Run the requests in order, stopping at the first rejection. *)
Fixpoint runAll (l : list Action) (w : World) : Outcome World :=
  match l with
  | [] => Ok w
  | a :: t => match run a 0 w with
              | (Ok _, w') => runAll t w'
              | (Thrown e, _) => Thrown e
              end
  end.

(** Three players, one deck: user 1 holds the spades and the hearts
    from the ace to the five, 18 cards; users 2 and 3 hold 17 each. *)
Definition threeStart : Outcome World :=
  startGame [mkMember 1 (Some 0); mkMember 2 (Some 1); mkMember 3 (Some 2)]
            None keepOrder 0.

Definition threeStartWorld : World := Eval vm_compute in worldOr threeStart.

(** User 1 leads, users 2 and 3 pass, and so on until user 1 is about to
    play the last card of that hand. *)
Definition leadAndPasses (cardIds : list Card) : list Action :=
  [APlay 1 cardIds; APass 2; APass 3].

Definition threeTrace : list Action :=
  flat_map leadAndPasses
    [ ["AS"; "AH"]; ["3S"; "3H"]; ["4S"; "4H"]; ["5S"; "5H"]; ["6S"; "2S"];
      ["7S"; "2H"]; ["8S"]; ["9S"]; ["TS"]; ["JS"]; ["QS"] ].

Definition beforeLastCard : World :=
  Eval vm_compute in worldOr (runAll threeTrace threeStartWorld).

Definition afterLastCard : World :=
  Eval vm_compute in after (playCards 1 ["KS"] 0) beforeLastCard.

(** The same game after a first lead of the three of spades. *)
Definition afterFirstLead : World :=
  Eval vm_compute in after (playCards 1 ["3S"] 0) threeStartWorld.

(** The same game after a first lead of the seven of spades: user 2 is
    on turn and holds the hearts from the six to the king and the
    diamonds from the ace to the nine. *)
Definition afterLeadOfSeven : World :=
  Eval vm_compute in after (playCards 1 ["7S"] 0) threeStartWorld.

(** Two players, one deck: user 1 holds the spades and the hearts and
    plays them out pair by pair while user 2 passes; the host restarts
    and the exchange opens. *)
Definition twoStart : Outcome World :=
  startGame [mkMember 1 (Some 0); mkMember 2 (Some 1)] None keepOrder 0.

Definition twoStartWorld : World := Eval vm_compute in worldOr twoStart.

Definition leadAndPass (cardIds : list Card) : list Action :=
  [APlay 1 cardIds; APass 2].

Definition twoTrace : list Action :=
  flat_map leadAndPass
    [ ["AS"; "AH"; "2S"; "2H"]; ["3S"; "3H"]; ["4S"; "4H"]; ["5S"; "5H"];
      ["6S"; "6H"]; ["7S"; "7H"]; ["8S"; "8H"]; ["9S"; "9H"]; ["TS"; "TH"];
      ["JS"; "JH"]; ["QS"; "QH"] ].

Definition lastPairLeft : World :=
  Eval vm_compute in worldOr (runAll twoTrace twoStartWorld).

Definition roundOver : World :=
  Eval vm_compute in after (playCards 1 ["KS"; "KH"] 0) lastPairLeft.

Definition exchangeOpen : World :=
  Eval vm_compute in after (restartRound true keepOrder 0) roundOver.

(** ** Conservation of the deck pool *)

(** Hands and discard pile together hold [deckCount * 52] cards and no
    identifier more often than the assembled pool does. *)
Definition conserved (deckCount : nat) (w : World) : Prop :=
  length (cardsInPlay w) = deckCount * 52 /\
  forall c, count_occ string_dec (cardsInPlay w) c
            <= count_occ string_dec (buildDeck deckCount) c.

(** Four players in the exchange phase, three cards each. *)
Definition fourExchange : World :=
  mkWorld
    {| currentTurnUserId := Some 1; turnNumber := 7; turnStartedAt := 0;
       deck := []; discardPile := []; phase := exchange;
       lastPlayedCount := 0; lastPlayedRank := None; lastPlayedBy := None;
       passedUserIds := []; finishedOrder := None; roundLoserId := None;
       exchangePairs := Some (buildExchangePairs [1; 2; 3; 4] 4);
       exchangeSelections := Some []; roundLeaderId := Some 1 |}
    [ mkGamePlayer 0 1 0 ["AS"; "KS"; "QS"];
      mkGamePlayer 1 2 1 ["3H"; "4H"; "5H"];
      mkGamePlayer 2 3 2 ["3D"; "4D"; "5D"];
      mkGamePlayer 3 4 3 ["3C"; "4C"; "5C"] ].

Definition fourSubmissions : list Action :=
  [ ASubmit 1 ["AS"; "AS"]; ASubmit 4 ["3C"; "4C"]; ASubmit 2 ["3H"]; ASubmit 3 ["3D"] ].
From Stdlib Require Import Sorted ZArith DecimalString QArith Qround.
Local Close Scope Q_scope.


(** ** Further definitions: dealing *)

(** The number of cards [distributeEvenly] gives to seat [p] out of
    [total] cards and [numPlayers] seats. *)
Definition shareOf (total numPlayers p : nat) : nat :=
  total / numPlayers + (if p <? total mod numPlayers then 1 else 0).

(** The cards handed out before seat [p]. *)
Fixpoint sharesBefore (total numPlayers p : nat) : nat :=
  match p with
  | 0 => 0
  | S q => sharesBefore total numPlayers q + shareOf total numPlayers q
  end.

(** ** Further definitions: the start of a game *)

(** [Math.max(1, room.deckCount ?? 1)] of [startGame], on whole numbers. *)
Definition startDeckCount (roomDeckCount : option nat) : nat :=
  Nat.max 1 (match roomDeckCount with Some d => d | None => 1 end).

(** The sort key of a lobby member in [startGame]: [seatIndex ?? 999]. *)
Definition lobbySeat (m : RoomMember) : nat :=
  match memberSeatIndex m with Some i => i | None => 999 end.

(** ** Further definitions: the rotation *)

(** The test of the [for] loop of [getNextPlayerToPlay] on the seat
    [next]: another user, who has not passed and is not skipped. *)
Definition canTakeTurn (currentUserId : UserId) (passedSet skipSet : list UserId)
           (next : GamePlayer) : bool :=
  negb (userId next =? currentUserId)
  && negb (mem (userId next) passedSet)
  && negb (mem (userId next) skipSet).


(** ** Further definitions: the next round *)

(** What a record of [gamePlayers] says about its seat: who sits where
    with which hand. *)
Definition seatOf (p : GamePlayer) : UserId * nat * list Card :=
  (userId p, seatIndex p, hand p).

(** The order in which [restartRound] seats the users: the finishing order
    when it names every seat, the old seat order otherwise. *)
Definition seatingOrder (gs : GameState) (players0 : list GamePlayer) : list UserId :=
  if length (orEmpty (finishedOrder gs)) =? length players0
  then orEmpty (finishedOrder gs)
  else map userId (sortBySeat players0).

(** ** Further definitions: a leader who cannot lead *)

(** The holder of the turn, if seated, holds nothing but 2s (an empty hand
    included). *)
Definition leaderHoldsOnlyTwos (w : World) : Prop :=
  forall u gp, currentTurnUserId (gameState w) = Some u ->
               find (fun p => userId p =? u) (gamePlayers w) = Some gp ->
               wildcardsOnly (hand gp).

(** Four players, one deck dealt unshuffled: each user holds one suit.
    User 4 plays the clubs out first; user 1 then leads the four of spades,
    users 2 and 3 pass, and user 1 tops the four with the ace, the last
    card of that hand. *)
Definition fourStart : Outcome World :=
  startGame [mkMember 1 (Some 0); mkMember 2 (Some 1); mkMember 3 (Some 2);
             mkMember 4 (Some 3)] None keepOrder 0.

Definition fourStartWorld : World := Eval vm_compute in worldOr fourStart.

Definition duel (rank : string) : list Action :=
  [APlay 4 [(rank ++ "C")%string]; APlay 1 [(rank ++ "S")%string]].

Definition fourTrace : list Action :=
  [ APlay 1 ["3S"; "2S"]; APass 2; APass 3; APlay 4 ["3C"; "2C"]; APass 1;
    APlay 4 ["4C"]; APass 1; APass 2; APass 3;
    APlay 4 ["5C"]; APlay 1 ["5S"]; APass 2; APass 3 ]
  ++ flat_map duel ["6"; "7"; "8"; "9"; "T"; "J"; "Q"; "K"]
  ++ [ APlay 4 ["AC"]; APlay 1 ["4S"]; APass 2; APass 3 ].

Definition beforeLastAce : World :=
  Eval vm_compute in worldOr (runAll fourTrace fourStartWorld).

Definition leaderStuck : World :=
  Eval vm_compute in after (playCards 1 ["AS"] 0) beforeLastAce.

(** ** Further definitions: the helpers on hands

    [sortHandByRank], [pickBest], [pickWorst] and [removeCards] are defined
    in games.js next to the handlers; no handler calls them. *)

Definition sortHandByRank (hand : list Card) : list Card :=
  sortBy (fun c => rankValue (charAt0 c)) hand.

Definition pickBest (hand : list Card) (n : nat) : list Card :=
  let sorted := sortHandByRank hand in
  slice 0 (Nat.min n (length sorted)) sorted.

(** [l.slice(-m)]: the last [m] elements, and the whole array when [m] is
    0, since [-0] is the index 0. *)
Definition sliceLast {A} (m : nat) (l : list A) : list A :=
  if m =? 0 then l else skipn (length l - m) l.

Definition pickWorst (hand : list Card) (n : nat) : list Card :=
  let sorted := sortHandByRank hand in
  sliceLast (Nat.min n (length sorted)) sorted.

Definition removeCards (hand cardsToRemove : list Card) : list Card :=
  filter (fun c => negb (cardIn c cardsToRemove)) hand.

(** ** Further definitions: the table and the exchange on record *)

(** [lastPlayedCards] of the game page (app/game/page.jsx):
    [lastPlayedCount > 0 ? discardPile.slice(-lastPlayedCount) : []]. *)
Definition lastPlayedCards (gs : GameState) : list Card :=
  if 0 <? lastPlayedCount gs
  then sliceLast (lastPlayedCount gs) (discardPile gs)
  else [].

(** A selection on record names a giver of the exchange, has the size the
    giver owes and holds cards of the giver's hand only. *)
Definition validSelection (w : World) (s : ExchangeSelection) : Prop :=
  exists p gp,
    In p (orEmpty (exchangePairs (gameState w))) /\
    fromUserId p = selFrom s /\
    length (selCardIds s) = count p /\
    find (fun q => userId q =? selFrom s) (gamePlayers w) = Some gp /\
    incl (selCardIds s) (hand gp).

(** The standing play is on top of the pile: the cards the page shows as
    last played are 2s or cards of the standing rank, one of them a real
    card of that rank, played by a seated user; a clear table has no
    standing rank and no author. *)
Record tableOK (gs : GameState) (users : list UserId) : Prop := mkTableOK {
  tab_pile : lastPlayedCount gs <= length (discardPile gs);
  tab_cards :
    forall c, In c (lastPlayedCards gs) ->
              is2 (charAt0 c) = true \/ charAt0 c = lastPlayedRank gs;
  tab_rank :
    lastPlayedCount gs <> 0 ->
    exists c, In c (lastPlayedCards gs) /\
              charAt0 c = lastPlayedRank gs /\
              is2 (charAt0 c) = false;
  tab_author :
    lastPlayedCount gs <> 0 ->
    phase gs = play /\ exists u, lastPlayedBy gs = Some u /\ In u users;
  tab_quiet :
    lastPlayedCount gs = 0 -> lastPlayedRank gs = None /\ lastPlayedBy gs = None
}.

(** What holds of the table, of the cards and of the selections on record
    in every reachable state. *)
Record TableInv (w : World) : Prop := mkTableInv {
  tab_table : tableOK (gameState w) (userIds w);
  tab_deck : forall c, In c (cardsInPlay w) -> In c one_deck;
  tab_sel :
    phase (gameState w) = exchange ->
    NoDup (map selFrom (orEmpty (exchangeSelections (gameState w)))) /\
    forall s, In s (orEmpty (exchangeSelections (gameState w))) -> validSelection w s
}.

(** The two-player exchange with the selection of user 2 on record. *)
Definition oneSubmitted : World :=
  Eval vm_compute in after (submitExchangeSelection 2 ["AS"] 0) exchangeOpen.

(** ** Further definitions: the turn *)

(** The turn is with a seated user. *)
Definition turnSeated (w : World) : Prop :=
  exists u, currentTurnUserId (gameState w) = Some u /\ In u (userIds w).

(** * The lobby (convex/rooms.js)

    [joinRoom] and [leaveRoom] are embedded as functions on the rows of
    one room: its [adminId] and its [roomMembers], in the order of the
    [by_room] index (the order of insertion).  As for games.js the lookup
    of the room and the find-or-create of the user by name are over, and
    the user's id is an argument; [Date.now()] is the argument [now];
    [ctx.db.insert] hands out the ids [lobbyNextId], [lobbyNextId + 1],
    ... *)

Inductive Role := admin | player | spectator.

Definition isAdminRole (r : Role) : bool :=
  match r with admin => true | _ => false end.

Record Member := mkLobbyMember {
  mId : DocId;
  mUserId : UserId;
  mRole : Role;
  mSeatIndex : nat;
  mJoinedAt : nat
}.

Record Lobby := mkLobby {
  lobbyAdminId : UserId;
  lobbyMembers : list Member;
  lobbyNextId : DocId
}.

(** [createRoom]: the room belongs to the system user and has no member. *)
Definition createRoom (systemUser : UserId) (firstId : DocId) : Lobby :=
  mkLobby systemUser [] firstId.

Definition joinRoom (user : UserId) (now : nat) (l : Lobby) : Lobby :=
  match find (fun m => mUserId m =? user) (lobbyMembers l) with
  | Some _ => l
  | None =>
      let existingMembers := lobbyMembers l in
      let isFirst := length existingMembers =? 0 in
      mkLobby (lobbyAdminId l)
              (existingMembers ++
               [mkLobbyMember (lobbyNextId l) user (if isFirst then admin else player)
                              (length existingMembers) now])
              (S (lobbyNextId l))
  end.

Definition setRole (r : Role) (m : Member) : Member :=
  mkLobbyMember (mId m) (mUserId m) r (mSeatIndex m) (mJoinedAt m).

(** [remainingMembers.reduce((earliest, current) =>
      current.joinedAt < earliest.joinedAt ? current : earliest,
      remainingMembers[0])] *)
Definition earliestJoined (first : Member) (remainingMembers : list Member) : Member :=
  fold_left (fun earliest current =>
               if mJoinedAt current <? mJoinedAt earliest then current else earliest)
            remainingMembers first.

Definition leaveRoom (user : UserId) (l : Lobby) : Lobby :=
  match find (fun m => mUserId m =? user) (lobbyMembers l) with
  | None => l
  | Some member =>
      let wasHost := isAdminRole (mRole member) in
      let remainingMembers :=
        filter (fun m => negb (mId m =? mId member)) (lobbyMembers l) in
      if wasHost then
        match remainingMembers with
        | [] => mkLobby (lobbyAdminId l) [] (lobbyNextId l)
        | first :: _ =>
            let nextHost := earliestJoined first remainingMembers in
            mkLobby (mUserId nextHost)
                    (map (fun m => if mId m =? mId nextHost then setRole admin m else m)
                         remainingMembers)
                    (lobbyNextId l)
        end
      else mkLobby (lobbyAdminId l) remainingMembers (lobbyNextId l)
  end.

Inductive LobbyAction :=
| AJoin (user : UserId) (now : nat)
| ALeave (user : UserId).

Definition lobbyStep (a : LobbyAction) (l : Lobby) : Lobby :=
  match a with
  | AJoin user now => joinRoom user now l
  | ALeave user => leaveRoom user l
  end.

(** The lobbies that joins and leaves make of a new room. *)
Inductive lobbyReachable : Lobby -> Prop :=
| lobby_created systemUser firstId : lobbyReachable (createRoom systemUser firstId)
| lobby_step l a : lobbyReachable l -> lobbyReachable (lobbyStep a l).

(** What [startGame] reads of a member. *)
Definition toRoomMember (m : Member) : RoomMember :=
  mkMember (mUserId m) (Some (mSeatIndex m)).

Definition admins (l : Lobby) : list Member :=
  filter (fun m => isAdminRole (mRole m)) (lobbyMembers l).

Record LobbyInv (l : Lobby) : Prop := mkLobbyInv {
  lob_ids : NoDup (map mId (lobbyMembers l));
  lob_users : NoDup (map mUserId (lobbyMembers l));
  lob_fresh : forall m, In m (lobbyMembers l) -> mId m < lobbyNextId l;
  lob_host : lobbyMembers l <> [] -> length (admins l) = 1
}.

(** Users 1, 2 and 3 join a new room; then the host, user 1, leaves and
    user 4 joins. *)
Definition lobbyOfThree : Lobby :=
  Eval vm_compute in
    joinRoom 3 30 (joinRoom 2 20 (joinRoom 1 10 (createRoom 0 100))).


(** * The game page (app/game/page.jsx)

    The functions of the page that prepare a play: the sorted hand, its
    groups, and the selection the clicks build.  [undefined] is [None]; a
    JS [Set] of indexes is the list of its elements in insertion order. *)

Definition SUIT_ORDER : list string := ["H"; "S"; "D"; "C"].

(** [cardId && cardId[0] ? cardId[0] : ''] *)
Definition getRank (cardId : option Card) : string :=
  match cardId with
  | Some (String c _) => String c EmptyString
  | _ => ""
  end.

(** The page has its own [RANK_ORDER], equal to that of games.js. *)
Definition cardSortIndex (cardId : Card) : nat :=
  match cardId with
  | String rank (String suit _) =>
      let r := indexOf (String rank EmptyString) RANK_ORDER in
      let s := indexOf (String suit EmptyString) SUIT_ORDER in
      (match r with Some i => i | None => 99 end) * 10
      + (match s with Some i => i | None => 9 end)
  | _ => 0
  end.

Definition sortHand (hand : list Card) : list Card := sortBy cardSortIndex hand.

Record Group := mkGroup {
  groupRank : string;
  groupCards : list (Card * nat)
}.

(** The variables of [groupHandByRank]. *)
Record Grouping := mkGrouping {
  groups : list Group;
  currentRank : option string;
  currentCards : list (Card * nat)
}.

(** The group that is pushed when [currentRank !== null]. *)
Definition pushCurrent (st : Grouping) : list Group :=
  match currentRank st with
  | Some rank => groups st ++ [mkGroup rank (currentCards st)]
  | None => groups st
  end.

(** The body of [sortedHand.forEach((cardId, index) => ...)]. *)
Definition groupStep (st : Grouping) (ci : Card * nat) : Grouping :=
  let r := getRank (Some (fst ci)) in
  if match currentRank st with Some cr => String.eqb r cr | None => false end
  then mkGrouping (groups st) (currentRank st) (currentCards st ++ [ci])
  else mkGrouping (pushCurrent st) (Some r) [ci].

Definition groupHandByRank (sortedHand : list Card) : list Group :=
  pushCurrent (fold_left groupStep (mapi_from 0 (fun c i => (c, i)) sortedHand)
                         (mkGrouping [] None [])).

Definition IndexSet := list nat.

Definition setAdd (i : nat) (s : IndexSet) : IndexSet :=
  if mem i s then s else s ++ [i].

Definition setDelete (i : nat) (s : IndexSet) : IndexSet :=
  filter (fun j => negb (j =? i)) s.

(** The state update of [handleGroupAddOne(group, hand)]. *)
Definition handleGroupAddOne (group : Group) (hand : list Card) (prev : IndexSet)
  : IndexSet :=
  match find (fun c => negb (mem (snd c) prev)) (groupCards group) with
  | None => prev
  | Some firstUnselected =>
      let selectedNonTwoRanks :=
        filter (fun r => negb (String.eqb r "2"))
               (map (fun i => getRank (nth_error hand i)) prev) in
      let next :=
        match selectedNonTwoRanks with
        | uniqueNonTwoRank :: _ =>
            if negb (String.eqb uniqueNonTwoRank (groupRank group))
            then filter (fun i => String.eqb (getRank (nth_error hand i)) "2") prev
            else prev
        | [] => prev
        end in
      setAdd (snd firstUnselected) next
  end.

(** [.sort((a, b) => b - a)] on numbers. *)
Definition sortDescending (l : list nat) : list nat := rev (sortBy (fun i => i) l).

(** The state update of [handleGroupRemoveOne(group)]. *)
Definition handleGroupRemoveOne (group : Group) (prev : IndexSet) : IndexSet :=
  let selectedInGroup :=
    sortDescending (map snd (filter (fun c => mem (snd c) prev) (groupCards group))) in
  match selectedInGroup with
  | i :: _ => setDelete i prev
  | [] => prev
  end.

(** [[...selectedSet].map((i) => myHandSorted[i])] *)
Definition selectedCardIds (myHandSorted : list Card) (selectedSet : IndexSet)
  : list (option Card) :=
  map (nth_error myHandSorted) selectedSet.

Definition canPlaySelection (myHandSorted : list Card) (selectedSet : IndexSet) : bool :=
  let selectedRanks := map getRank (selectedCardIds myHandSorted selectedSet) in
  let allSelectedAreTwos :=
    (0 <? length selectedRanks) && forallb (fun r => String.eqb r "2") selectedRanks in
  (0 <? length selectedSet) && negb allSelectedAreTwos.

(** The selections the clicks on the groups of the hand can build. *)
Inductive selectable (myHandSorted : list Card) : IndexSet -> Prop :=
| sel_none : selectable myHandSorted []
| sel_add group s :
    In group (groupHandByRank myHandSorted) ->
    selectable myHandSorted s ->
    selectable myHandSorted (handleGroupAddOne group myHandSorted s)
| sel_remove group s :
    In group (groupHandByRank myHandSorted) ->
    selectable myHandSorted s ->
    selectable myHandSorted (handleGroupRemoveOne group s).

(** The selection has valid, distinct indexes, and its cards that are not
    2s share one rank. *)
Record selectionOK (hand : list Card) (s : IndexSet) : Prop := mkSelectionOK {
  sel_distinct : NoDup s;
  sel_valid : forall i, In i s -> i < length hand;
  sel_one_rank :
    forall i j, In i s -> In j s ->
      getRank (nth_error hand i) <> "2" -> getRank (nth_error hand j) <> "2" ->
      getRank (nth_error hand i) = getRank (nth_error hand j)
}.

(** A hand of four cards as the page shows it, and the three groups of
    it. *)
Definition pageHand : list Card := Eval vm_compute in sortHand ["3S"; "KD"; "2S"; "3H"].

Definition pageGroups : list Group := Eval vm_compute in groupHandByRank pageHand.

(** No two neighbours of the list are equal. *)
Fixpoint noRepeat (l : list string) : Prop :=
  match l with
  | a :: t => match t with
              | b :: _ => a <> b /\ noRepeat t
              | [] => True
              end
  | [] => True
  end.

(** The ranks of the groups pushed so far, then the rank in progress. *)
Definition ranksSoFar (st : Grouping) : list string :=
  map groupRank (groups st)
  ++ match currentRank st with Some r => [r] | None => [] end.


(** ** The place of a finisher (app/game/page.jsx)

    [placementLabel] works on JS numbers; here on integers, [%] being the
    remainder that takes the sign of the dividend ([Z.rem]).  An array
    read at a negative index or past the end is [undefined] ([None]). *)

Definition jsIndex {A} (l : list A) (k : Z) : option A :=
  if (k <? 0)%Z then None else nth_error l (Z.to_nat k).

(** [a || b] on strings that are never empty. *)
Definition orElse {A} (a b : option A) : option A :=
  match a with Some x => Some x | None => b end.

Definition placementSuffix (n : Z) : option string :=
  let s := ["th"; "st"; "nd"; "rd"] in
  let v := Z.rem n 100 in
  orElse (jsIndex s (Z.rem (v - 20) 10)) (orElse (jsIndex s v) (jsIndex s 0%Z)).

Definition placementLabel (n : Z) : string :=
  if (n <? 1)%Z then ""
  else (NilZero.string_of_int (Z.to_int n)
        ++ match placementSuffix n with Some x => x | None => "undefined" end)%string.

(** The ending of the English ordinal of [n]. *)
Definition ordinalEnding (n : Z) : string :=
  if ((n mod 10 =? 1) && negb (n mod 100 =? 11))%Z then "st"
  else if ((n mod 10 =? 2) && negb (n mod 100 =? 12))%Z then "nd"
  else if ((n mod 10 =? 3) && negb (n mod 100 =? 13))%Z then "rd"
  else "th".

(** * JavaScript numbers

    A [v.number()] of a Convex document or argument is an IEEE double:
    NaN, one of the two infinities, or a finite value.  The code below
    only compares numbers, takes [Math.max] and [Math.min] of them and
    counts up from 0 in steps of 1; all of that is exact on doubles, so a
    finite double is modelled by the rational number it denotes (0 and -0
    are not told apart: no operation here separates them). *)

Inductive JsNumber :=
| NaN
| NegInfinity
| PosInfinity
| Finite (q : Q).

(** [a <= b]: false as soon as an operand is NaN. *)
Definition jsLe (a b : JsNumber) : bool :=
  match a, b with
  | NaN, _ | _, NaN => false
  | NegInfinity, _ => true
  | _, PosInfinity => true
  | Finite x, Finite y => Qle_bool x y
  | _, _ => false
  end.

(** [a < b] *)
Definition jsLt (a b : JsNumber) : bool :=
  match a, b with
  | NaN, _ | _, NaN => false
  | _, _ => negb (jsLe b a)
  end.

(** [Math.max(a, b)] and [Math.min(a, b)]: NaN as soon as an argument is
    NaN; of two equal numbers the second is returned (they are the same
    double). *)
Definition Math_max (a b : JsNumber) : JsNumber :=
  match a, b with
  | NaN, _ | _, NaN => NaN
  | _, _ => if jsLe a b then b else a
  end.



(** A whole number as a JavaScript number. *)
Definition wholeNumber (n : nat) : JsNumber := Finite (inject_Z (Z.of_nat n)).

(** * The settings of a room (convex/rooms.js, app/room/page.jsx) *)

Inductive GameMode :=
| modeClassic | modeSpeed | modeTournament | modeCustom | modeChaos | modePresidents.

Definition isPresidents (g : GameMode) : bool :=
  match g with modePresidents => true | _ => false end.

Inductive RoomStatus :=
| statusWaiting | statusStarting | statusInProgress | statusFinished.

Definition isInProgress (s : RoomStatus) : bool :=
  match s with statusInProgress => true | _ => false end.

(** The fields of a [rooms] document that the handlers read or write. *)
Record Room := mkRoom {
  roomStatus : RoomStatus;
  roomIsPrivate : bool;
  roomGameMode : GameMode;
  roomMaxPlayers : JsNumber;
  roomDeckCount : option JsNumber;
  roomStartedAt : option nat
}.







(** * The whole of startGame (convex/games.js)

    [startGame] of the engine above is the handler from the count of the
    members on, for a room in Presidents mode with a whole deck count.
    Here is the handler with all its guards in their order, the deck
    count as the number it is, and the patch of the room that ends it.
    The [games] document it inserts (active, in the mode of the room) is
    what the lookups that open the other handlers find; like those
    lookups it is left out. *)

(** [d++] on a double: exact below 2^53, where [d + 1] rounds back to
    [d]. *)
Definition increment (d : N) : N :=
  if (d <? 2 ^ 53)%N then N.succ d else d.

(** The loop [for (let d = 0; d < deckCount; d++)] of [buildDeck] from
    the counter [d] on, each turn pushing one deck.  [fuel] bounds the
    number of turns; [None] says that the loop is still running. *)
Fixpoint buildDeckLoop (fuel : nat) (d : N) (deckCount : JsNumber)
  : option (list Card) :=
  match fuel with
  | 0 => None
  | S fuel' =>
      if jsLt (Finite (inject_Z (Z.of_N d))) deckCount
      then option_map (app one_deck) (buildDeckLoop fuel' (increment d) deckCount)
      else Some []
  end.

(** [buildDeck(deckCount)] on a number. *)
Definition buildDeckNumber (fuel : nat) (deckCount : JsNumber) : option (list Card) :=
  buildDeckLoop fuel 0 deckCount.


Inductive StartError :=
| ERoomNotFound          (* Room not found *)
| EGameInProgress        (* A game is already in progress *)
| EUserNotFound          (* User not found *)
| EOnlyHostStart         (* Only the host can start the game *)
| EOnlyPresidents        (* Only Presidents mode can be started. ... *)
| EThrown (e : Error).   (* Need at least 2 players to start; TypeError *)

Inductive StartOutcome :=
| Started (room : Room) (w : World)
| Refused (e : StartError)
| StillDealing.

(** [ctx.db.patch(room._id, { status: "in_progress", startedAt: now })] *)
Definition startedRoom (room : Room) (now : nat) : Room :=
  mkRoom statusInProgress (roomIsPrivate room) (roomGameMode room)
         (roomMaxPlayers room) (roomDeckCount room) (Some now).

(** The handler of [startGame]: [room] and [user] are what the lookups by
    code and by username find, [members] the members of the room in the
    order of the table, among which the caller's membership is looked
    up.  [Started] carries the room as patched and the documents
    inserted; a refusal writes nothing. *)
Definition startGameHandler (fuel : nat) (room : option Room) (user : option UserId)
           (members : list Member) (rnd : nat -> nat) (now : nat) : StartOutcome :=
  match room with
  | None => Refused ERoomNotFound
  | Some room =>
  if isInProgress (roomStatus room) then Refused EGameInProgress else
  match user with
  | None => Refused EUserNotFound
  | Some user =>
  match find (fun m => mUserId m =? user) members with
  | None => Refused EOnlyHostStart
  | Some member =>
  if negb (isAdminRole (mRole member)) then Refused EOnlyHostStart else
  if length members <? 2 then Refused (EThrown ENeedTwoPlayers) else
  if negb (isPresidents (roomGameMode room)) then Refused EOnlyPresidents else
  let deckCount :=
    Math_max (Finite 1)
             (match roomDeckCount room with Some d => d | None => Finite 1 end) in
  match buildDeckNumber fuel deckCount with
  | None => StillDealing
  | Some fullDeck =>
      match insertGame fullDeck (map toRoomMember members) rnd now with
      | Thrown e => Refused (EThrown e)
      | Ok w => Started (startedRoom room now) w
      end
  end end end end.




(** * The view of a game (convex/games.js, getGameByRoomCode) *)





(** * The swap that closes the exchange *)

(** All the cards of the hands in a map of hands by user. *)
Definition handsOf (handsByUserId : JsMap (list Card)) : list Card :=
  concat (map snd handsByUserId).

(** The cards the selection of user [u] names, if there is one. *)
Definition selectionOf (sels : list ExchangeSelection) (u : UserId) : list Card :=
  match findSel u sels with Some s => selCardIds s | None => [] end.

(** The cards user [u] gives, and those [u] receives, under [pairs]. *)
Definition given (sels : list ExchangeSelection) (pairs : list ExchangePair)
           (u : UserId) : list Card :=
  flat_map (fun p => if fromUserId p =? u then selectionOf sels (fromUserId p) else [])
           pairs.

Definition received (sels : list ExchangeSelection) (pairs : list ExchangePair)
           (u : UserId) : list Card :=
  flat_map (fun p => if toUserId p =? u then selectionOf sels (fromUserId p) else [])
           pairs.

(** No card identifier occurs twice, as a test. *)
Fixpoint distinctCards (l : list Card) : bool :=
  match l with
  | [] => true
  | c :: t => negb (cardIn c t) && distinctCards t
  end.
(** * Basic facts *)

Section ListFacts.

Lemma insertBy_perm A (key : A -> nat) p l : Permutation (insertBy key p l) (p :: l).
Proof.
  induction l as [|q t IH]; simpl; [reflexivity|].
  destruct (key q <? key p); [|reflexivity].
  rewrite IH. apply perm_swap.
Qed.

Lemma sortBy_perm A (key : A -> nat) l : Permutation (sortBy key l) l.
Proof.
  induction l as [|p t IH]; simpl; [constructor|].
  rewrite insertBy_perm. now constructor.
Qed.

Lemma sortBy_length A (key : A -> nat) l : length (sortBy key l) = length l.
Proof. apply Permutation_length, sortBy_perm. Qed.

Lemma findIndex_Some A (f : A -> bool) l i :
  findIndex f l = Some i ->
  i < length l /\ exists x, nth_error l i = Some x /\ f x = true.
Proof.
  revert i; induction l as [|x t IH]; simpl; intros i H; [discriminate|].
  destruct (f x) eqn:Fx.
  - inversion H; subst; split; [lia|]. exists x; auto.
  - destruct (findIndex f t) as [j|]; [|discriminate].
    inversion H; subst. destruct (IH j eq_refl) as [Hl [y [Hy Fy]]].
    split; [lia|]. exists y; auto.
Qed.

Lemma findIndex_None A (f : A -> bool) l :
  findIndex f l = None -> forall x, In x l -> f x = false.
Proof.
  induction l as [|y t IH]; simpl; intros H x Hx; [contradiction|].
  destruct (f y) eqn:Fy; [discriminate|].
  destruct (findIndex f t); [discriminate|].
  destruct Hx as [->|Hx]; auto.
Qed.

End ListFacts.

Lemma mem_In u l : mem u l = true <-> In u l.
Proof.
  unfold mem. rewrite existsb_exists. split.
  - intros [x [Hx E]]. apply Nat.eqb_eq in E. now subst.
  - intros H. exists u. split; auto. apply Nat.eqb_refl.
Qed.

Lemma mem_false u l : mem u l = false <-> ~ In u l.
Proof.
  rewrite <- mem_In. destruct (mem u l); split; intros; congruence.
Qed.

(** The rotation search only reads seats that exist, and what it returns
    is a seat other than the current one that is neither passed nor
    skipped. *)
Lemma nextLoop_ok sorted idx cur passed skip i fuel :
  sorted <> [] ->
  exists r, nextLoop sorted idx cur passed skip i fuel = Ok r /\
            forall u, r = Some u ->
                      In u (map userId sorted) /\ u <> cur /\
                      ~ In u passed /\ ~ In u skip.
Proof.
  intros Hne. revert i. induction fuel as [|f IH]; intros i; simpl.
  - exists None. split; auto. discriminate.
  - assert (Hlt : (idx + i) mod length sorted < length sorted).
    { apply Nat.mod_upper_bound. destruct sorted; simpl; [congruence|lia]. }
    destruct (nth_error sorted ((idx + i) mod length sorted)) as [next|] eqn:E.
    2:{ apply nth_error_None in E. lia. }
    destruct (negb (userId next =? cur) && negb (mem (userId next) passed)
              && negb (mem (userId next) skip)) eqn:C.
    + exists (Some (userId next)). split; auto.
      intros u Hu; inversion Hu; subst.
      apply andb_true_iff in C as [C C3]. apply andb_true_iff in C as [C1 C2].
      apply negb_true_iff in C1, C2, C3.
      apply Nat.eqb_neq in C1. apply mem_false in C2, C3.
      repeat split; auto. apply in_map. eapply nth_error_In; eauto.
    + apply IH.
Qed.

Lemma getNextPlayerToPlay_ok players cur passed skip :
  In cur (map userId players) ->
  exists r, getNextPlayerToPlay players cur passed skip = Ok r /\
            forall u, r = Some u ->
                      In u (map userId players) /\ u <> cur /\
                      ~ In u passed /\ ~ In u skip.
Proof.
  intros Hin. unfold getNextPlayerToPlay.
  assert (Hperm : Permutation (sortBySeat players) players) by apply sortBy_perm.
  destruct (findIndex (fun p => userId p =? cur) (sortBySeat players)) as [idx|] eqn:E.
  - assert (Hne : sortBySeat players <> []).
    { apply findIndex_Some in E as [Hl _]. destruct (sortBySeat players); simpl in *; [lia|congruence]. }
    destruct (nextLoop_ok (sortBySeat players) idx cur passed skip 1 (length (sortBySeat players) - 1) Hne)
      as [r [Hr Hs]].
    exists r. split; auto. intros u Hu. destruct (Hs u Hu) as [H1 H2].
    split; auto. eapply Permutation_in; [|exact H1]. now apply Permutation_map.
  - exfalso. apply in_map_iff in Hin as [p [Hp Hin]].
    eapply Permutation_in in Hin; [|symmetry; exact Hperm].
    pose proof (findIndex_None _ _ _ E p Hin) as F. simpl in F.
    subst. rewrite Nat.eqb_refl in F. discriminate.
Qed.

Lemma find_user_In players user gp :
  find (fun p => userId p =? user) players = Some gp ->
  In gp players /\ userId gp = user.
Proof.
  intros H. apply find_some in H as [H1 H2]. apply Nat.eqb_eq in H2. auto.
Qed.

Lemma find_user_in_ids players user gp :
  find (fun p => userId p =? user) players = Some gp ->
  In user (map userId players).
Proof.
  intros H. apply find_user_In in H as [H1 H2]. subst. now apply in_map.
Qed.

(** * The handlers, case by case *)

Lemma playCards_guarded user cardIds now w gp newHand :
  playGuards w user cardIds gp newHand ->
  playCards user cardIds now w =
  applyPlay (gameState w) (gamePlayers w) gp newHand (playRankOf cardIds)
            user cardIds now w.
Proof.
  unfold playGuards; cbv zeta. intros (H0 & Hp & Ht & Hf & Hs & H2 & H1 & Hl).
  unfold playCards, bind, readState, readPlayers; simpl.
  apply Nat.eqb_neq in H0; rewrite H0.
  rewrite Hp, Ht; simpl. rewrite Hf, Hs.
  apply Nat.eqb_neq in H2; rewrite H2.
  replace (1 <? _) with false by (symmetry; apply Nat.ltb_ge; exact H1).
  fold (playRankOf cardIds).
  destruct Hl as [Hl|[Hl1 Hl2]].
  - rewrite Hl. simpl. reflexivity.
  - replace (length cardIds <? _) with false by (symmetry; apply Nat.ltb_ge; exact Hl1).
    replace (rankValue _ <? rankValue _) with false by (symmetry; apply Nat.ltb_ge; exact Hl2).
    rewrite !andb_false_r. reflexivity.
Qed.

Lemma playCards_cases user cardIds now w :
  (exists e, playCards user cardIds now w = (Thrown e, w)) \/
  (exists gp newHand, playGuards w user cardIds gp newHand).
Proof.
  unfold playCards, bind, readState, readPlayers, throw; simpl.
  destruct (length cardIds =? 0) eqn:H0; [left; eauto|].
  destruct (phase (gameState w)) eqn:Hp; [|left; eauto|left; eauto].
  destruct (turnIs (gameState w) user) eqn:Ht; simpl; [|left; eauto].
  destruct (find _ (gamePlayers w)) as [gp|] eqn:Hf; [|left; eauto].
  destruct (spliceAll cardIds (hand gp)) as [newHand|] eqn:Hs; [|left; eauto].
  destruct (length (filter is2 _) =? length cardIds) eqn:H2; [left; eauto|].
  destruct (1 <? _) eqn:H1; [left; eauto|].
  fold (playRankOf cardIds).
  destruct ((0 <? lastPlayedCount (gameState w)) && (length cardIds <? _)) eqn:Hc;
    [left; eauto|].
  destruct ((0 <? lastPlayedCount (gameState w)) && (rankValue _ <? _)) eqn:Hr;
    [left; eauto|].
  right. exists gp, newHand. unfold playGuards; cbv zeta.
  apply Nat.eqb_neq in H0, H2. apply Nat.ltb_ge in H1.
  repeat (split; [assumption|]).
  destruct (lastPlayedCount (gameState w)) as [|k] eqn:Hk; [left; reflexivity|right].
  simpl in Hc, Hr. apply Nat.ltb_ge in Hc, Hr. split; assumption.
Qed.

Lemma applyPlay_run w gp newHand playRank user cardIds now nextRaw :
  playNext w user gp newHand = Ok nextRaw ->
  applyPlay (gameState w) (gamePlayers w) gp newHand playRank user cardIds now w =
  (Ok tt,
   mkWorld (stateAfterPlay (gameState w) (gamePlayers w) gp newHand playRank
                           user cardIds now nextRaw)
           (playersAfterPlay (gamePlayers w) gp newHand)).
Proof.
  intros Hn. unfold applyPlay, bind, patchPlayer, liftO. simpl.
  unfold playNext in Hn. rewrite Hn.
  unfold stateAfterPlay, playersAfterPlay. cbv zeta.
  fold (finishedAfterPlay (gameState w) user newHand).
  fold (endsRound (gamePlayers w) gp newHand).
  destruct (endsRound (gamePlayers w) gp newHand); reflexivity.
Qed.

Lemma playNext_ok w user gp newHand :
  find (fun p => userId p =? user) (gamePlayers w) = Some gp ->
  exists nextRaw, playNext w user gp newHand = Ok nextRaw /\
    forall u, nextRaw = Some u ->
      In u (map userId (gamePlayers w)) /\ u <> user /\
      ~ In u (passedUserIds (gameState w)).
Proof.
  intros Hf. apply find_user_in_ids in Hf.
  destruct (getNextPlayerToPlay_ok (gamePlayers w) user (passedUserIds (gameState w))
              (map userId (filter (fun p => cardsLeft gp newHand p =? 0) (gamePlayers w))) Hf)
    as [r [Hr Hs]].
  exists r. split; [exact Hr|]. intros u Hu. destruct (Hs u Hu) as (A & B & C & _). auto.
Qed.

Lemma pass_guarded user now w next :
  passGuards w user ->
  passNext w user = Ok next ->
  pass user now w =
  (Ok tt, mkWorld (stateAfterPass (gameState w) (length (gamePlayers w)) user now next)
                  (gamePlayers w)).
Proof.
  unfold passGuards; cbv zeta. intros (Hp & Ht & Hc) Hn.
  unfold pass, bind, readState, readPlayers, liftO; simpl.
  rewrite Hp, Ht; simpl. apply Nat.eqb_neq in Hc; rewrite Hc.
  unfold passNext in Hn. rewrite Hn. unfold stateAfterPass.
  destruct next as [nx|]; [|reflexivity].
  destruct (fullPassAround _ _ _ _); reflexivity.
Qed.

Lemma pass_cases user now w :
  (exists e, pass user now w = (Thrown e, w)) \/
  (passGuards w user /\ exists next, passNext w user = Ok next).
Proof.
  unfold pass, bind, readState, readPlayers, throw, liftO; simpl.
  destruct (phase (gameState w)) eqn:Hp; [|left; eauto|left; eauto].
  destruct (turnIs (gameState w) user) eqn:Ht; simpl; [|left; eauto].
  destruct (lastPlayedCount (gameState w) =? 0) eqn:Hc; [left; eauto|].
  fold (passNext w user).
  destruct (passNext w user) as [next|e] eqn:Hn; [|left; eauto].
  right. split; [|eauto]. unfold passGuards; cbv zeta.
  apply Nat.eqb_neq in Hc. auto.
Qed.

Lemma patchesOnly_forEach A (l : list A) (body : A -> M unit) :
  (forall x, patchesOnly (body x)) -> patchesOnly (forEach l body).
Proof.
  intros Hb. induction l as [|x t IH]; intros w; simpl.
  - exists (gamePlayers w). unfold ret. now destruct w.
  - unfold bind. destruct (Hb x w) as [ps Hps]. rewrite Hps.
    destruct (IH (mkWorld (gameState w) ps)) as [ps' Hps']. exists ps'. exact Hps'.
Qed.

Lemma patchesOnly_patchPlayer id f : patchesOnly (patchPlayer id f).
Proof. intros w. eexists. reflexivity. Qed.

Lemma patchesOnly_ret : patchesOnly (ret tt).
Proof. intros w. exists (gamePlayers w). unfold ret. now destruct w. Qed.

Lemma patchesOnly_reseatLoop players complete fo sorted nh hands n :
  patchesOnly (reseatLoop players complete fo sorted nh hands n).
Proof.
  apply patchesOnly_forEach. intros i.
  destruct (find _ players); [apply patchesOnly_patchPlayer|apply patchesOnly_ret].
Qed.

Lemma patchesOnly_restartLoop gs players rnd : patchesOnly (restartLoop gs players rnd).
Proof. apply patchesOnly_reseatLoop. Qed.

Lemma patchesOnly_swapLoop players hb : patchesOnly (swapLoop players hb).
Proof. apply patchesOnly_forEach. intros p. apply patchesOnly_patchPlayer. Qed.

Lemma patchesOnly_run m w :
  patchesOnly m -> m w = (Ok tt, mkWorld (gameState w) (gamePlayers (snd (m w)))).
Proof. intros H. destruct (H w) as [ps E]. rewrite E. reflexivity. Qed.

Lemma restartRound_cases isAdmin rnd now w :
  (exists e, restartRound isAdmin rnd now w = (Thrown e, w)) \/
  (isAdmin = true /\ phase (gameState w) = round_ended /\
   exists leader, firstLeader (gameState w) (gamePlayers w) = Some leader /\
     restartRound isAdmin rnd now w =
     (Ok tt,
      mkWorld (restartFields (gameState w) now leader
                 (buildExchangePairs (orEmpty (finishedOrder (gameState w)))
                                     (length (gamePlayers w)))
                 (gameState w))
              (gamePlayers (snd (restartLoop (gameState w) (gamePlayers w) rnd w))))).
Proof.
  unfold restartRound, bind, readState, readPlayers, throw; cbv beta iota zeta.
  destruct isAdmin; cbn [negb]; [|left; eauto].
  destruct (phase (gameState w)) eqn:Hp; [left; eauto| |left; eauto].
  fold (restartPlayers (gameState w) (gamePlayers w)).
  fold (firstLeader (gameState w) (gamePlayers w)).
  destruct (firstLeader (gameState w) (gamePlayers w)) as [leader|] eqn:Hl; [|left; eauto].
  right. split; [reflexivity|]. split; [reflexivity|]. exists leader. split; [reflexivity|].
  fold (restartHands (gameState w) (gamePlayers w) rnd).
  fold (restartHandsByOrder (gameState w) (gamePlayers w) rnd).
  fold (restartLoop (gameState w) (gamePlayers w) rnd).
  rewrite (patchesOnly_run _ w (patchesOnly_restartLoop _ _ _)) at 1.
  reflexivity.
Qed.

Lemma submit_guarded user cardIds now w myPair gp :
  submitGuards w user cardIds myPair gp ->
  submitExchangeSelection user cardIds now w =
  if completes w user cardIds
  then (Ok tt,
        mkWorld (exchangeDoneFields (gameState w) now (gameState w))
                (gamePlayers
                   (snd (swapLoop (gamePlayers w)
                           (exchangedHands (gamePlayers w)
                              (orEmpty (exchangePairs (gameState w)))
                              (selectionsAfter (gameState w) user cardIds)) w))))
  else (Ok tt,
        mkWorld (selectionFields (selectionsAfter (gameState w) user cardIds) (gameState w))
                (gamePlayers w)).
Proof.
  intros (Hp & Hm & Hc & Hf & Hh).
  unfold submitExchangeSelection, bind, readState, readPlayers; cbv beta iota zeta.
  rewrite Hp, Hm. apply Nat.eqb_eq in Hc. rewrite Hc. cbn [negb].
  rewrite Hf, Hh. cbn [negb].
  fold (selectionsAfter (gameState w) user cardIds).
  fold (completes w user cardIds).
  destruct (completes w user cardIds); [|reflexivity].
  rewrite (patchesOnly_run _ w (patchesOnly_swapLoop _ _)) at 1.
  reflexivity.
Qed.

Lemma submit_cases user cardIds now w :
  (exists e, submitExchangeSelection user cardIds now w = (Thrown e, w)) \/
  (exists myPair gp, submitGuards w user cardIds myPair gp).
Proof.
  unfold submitExchangeSelection, bind, readState, readPlayers, throw; cbv beta iota zeta.
  destruct (phase (gameState w)) eqn:Hp; [left; eauto|left; eauto|].
  destruct (find _ (orEmpty (exchangePairs (gameState w)))) as [myPair|] eqn:Hm;
    [|left; eauto].
  destruct (length cardIds =? count myPair) eqn:Hc;
    cbn [negb]; [|left; eauto].
  destruct (find _ (gamePlayers w)) as [gp|] eqn:Hf; [|left; eauto].
  destruct (forallb _ cardIds) eqn:Hh; cbn [negb]; [|left; eauto].
  right. exists myPair, gp. apply Nat.eqb_eq in Hc. repeat split; assumption.
Qed.

(** What an accepted request leaves behind, handler by handler. *)

Lemma playCards_accepted user cardIds now w :
  accepted (playCards user cardIds now) w ->
  exists gp newHand nextRaw,
    playGuards w user cardIds gp newHand /\
    playNext w user gp newHand = Ok nextRaw /\
    after (playCards user cardIds now) w =
    mkWorld (stateAfterPlay (gameState w) (gamePlayers w) gp newHand (playRankOf cardIds)
                            user cardIds now nextRaw)
            (playersAfterPlay (gamePlayers w) gp newHand).
Proof.
  unfold accepted, after. intros Hacc.
  destruct (playCards_cases user cardIds now w) as [[e He]|[gp [newHand Hg]]].
  - rewrite He in Hacc. discriminate.
  - exists gp, newHand.
    assert (Hf : find (fun p => userId p =? user) (gamePlayers w) = Some gp) by apply Hg.
    destruct (playNext_ok w user gp newHand Hf) as [nextRaw [Hn _]].
    exists nextRaw. split; [exact Hg|]. split; [exact Hn|].
    rewrite (playCards_guarded user cardIds now w gp newHand Hg). erewrite applyPlay_run by exact Hn. reflexivity.
Qed.

Lemma playCards_accepted_iff user cardIds now w :
  accepted (playCards user cardIds now) w <->
  exists gp newHand, playGuards w user cardIds gp newHand.
Proof.
  split.
  - intros H. apply playCards_accepted in H as (gp & nh & nx & Hg & _). eauto.
  - intros (gp & newHand & Hg). unfold accepted.
    assert (Hf : find (fun p => userId p =? user) (gamePlayers w) = Some gp) by apply Hg.
    destruct (playNext_ok w user gp newHand Hf) as [nextRaw [Hn _]].
    rewrite (playCards_guarded user cardIds now w gp newHand Hg). erewrite applyPlay_run by exact Hn. reflexivity.
Qed.

Lemma pass_accepted user now w :
  accepted (pass user now) w ->
  exists next,
    passGuards w user /\ passNext w user = Ok next /\
    after (pass user now) w =
    mkWorld (stateAfterPass (gameState w) (length (gamePlayers w)) user now next)
            (gamePlayers w).
Proof.
  unfold accepted, after. intros Hacc.
  destruct (pass_cases user now w) as [[e He]|[Hg [next Hn]]].
  - rewrite He in Hacc. discriminate.
  - exists next. split; [exact Hg|]. split; [exact Hn|].
    rewrite (pass_guarded user now w next Hg Hn). reflexivity.
Qed.

Lemma restartRound_accepted isAdmin rnd now w :
  accepted (restartRound isAdmin rnd now) w ->
  phase (gameState w) = round_ended /\
  exists leader, firstLeader (gameState w) (gamePlayers w) = Some leader /\
    after (restartRound isAdmin rnd now) w =
    mkWorld (restartFields (gameState w) now leader
               (buildExchangePairs (orEmpty (finishedOrder (gameState w)))
                                   (length (gamePlayers w)))
               (gameState w))
            (gamePlayers (snd (restartLoop (gameState w) (gamePlayers w) rnd w))).
Proof.
  unfold accepted, after. intros Hacc.
  destruct (restartRound_cases isAdmin rnd now w) as [[e He]|(_ & Hp & leader & Hl & E)].
  - rewrite He in Hacc. discriminate.
  - split; [exact Hp|]. exists leader. split; [exact Hl|]. rewrite E. reflexivity.
Qed.

Lemma submit_accepted user cardIds now w :
  accepted (submitExchangeSelection user cardIds now) w ->
  exists myPair gp,
    submitGuards w user cardIds myPair gp /\
    after (submitExchangeSelection user cardIds now) w =
    if completes w user cardIds
    then mkWorld (exchangeDoneFields (gameState w) now (gameState w))
                 (gamePlayers
                    (snd (swapLoop (gamePlayers w)
                            (exchangedHands (gamePlayers w)
                               (orEmpty (exchangePairs (gameState w)))
                               (selectionsAfter (gameState w) user cardIds)) w)))
    else mkWorld (selectionFields (selectionsAfter (gameState w) user cardIds) (gameState w))
                 (gamePlayers w).
Proof.
  unfold accepted, after. intros Hacc.
  destruct (submit_cases user cardIds now w) as [[e He]|(myPair & gp & Hg)].
  - rewrite He in Hacc. discriminate.
  - exists myPair, gp. split; [exact Hg|].
    rewrite (submit_guarded user cardIds now w _ _ Hg). destruct (completes w user cardIds); reflexivity.
Qed.

(** * Rejections *)

(** C9. A rejected request (playCards, pass, restartRound or
    submitExchangeSelection) has written nothing when it throws: the
    round-state record and every player's record, hands included, are
    exactly what they were. *)
Theorem rejected_request_leaves_state (a : Action) (now : nat) (w : World) :
  rejected (run a now) w -> after (run a now) w = w.
Proof.
  unfold rejected, after. intros [e He].
  destruct a as [user cardIds|user|isAdmin rnd|user cardIds]; simpl in *.
  - destruct (playCards_cases user cardIds now w) as [[e' E]|(gp & nh & Hg)].
    + rewrite E. reflexivity.
    + exfalso. assert (A : accepted (playCards user cardIds now) w)
        by (apply playCards_accepted_iff; eauto).
      unfold accepted in A. congruence.
  - destruct (pass_cases user now w) as [[e' E]|[Hg [next Hn]]].
    + rewrite E. reflexivity.
    + rewrite (pass_guarded user now w next Hg Hn) in He. discriminate.
  - destruct (restartRound_cases isAdmin rnd now w) as [[e' E]|(_ & _ & l & _ & E)].
    + rewrite E. reflexivity.
    + rewrite E in He. discriminate.
  - destruct (submit_cases user cardIds now w) as [[e' E]|(mp & gp & Hg)].
    + rewrite E. reflexivity.
    + rewrite (submit_guarded user cardIds now w _ _ Hg) in He.
      destruct (completes w user cardIds); discriminate.
Qed.

(** * The frame of a pass *)

(** C10. An accepted pass, whichever of its three branches it takes,
    leaves every player's record (hands included) and the discard pile
    as they were; of the round state it writes only the turn fields, the
    standing-play descriptor and the passed set. *)
Theorem pass_leaves_hands_and_discard (user : UserId) (now : nat) (w : World) :
  accepted (pass user now) w ->
  let w' := after (pass user now) w in
  gamePlayers w' = gamePlayers w /\
  discardPile (gameState w') = discardPile (gameState w) /\
  deck (gameState w') = deck (gameState w) /\
  phase (gameState w') = phase (gameState w) /\
  finishedOrder (gameState w') = finishedOrder (gameState w) /\
  roundLoserId (gameState w') = roundLoserId (gameState w) /\
  exchangePairs (gameState w') = exchangePairs (gameState w) /\
  exchangeSelections (gameState w') = exchangeSelections (gameState w) /\
  roundLeaderId (gameState w') = roundLeaderId (gameState w).
Proof.
  intros Hacc. apply pass_accepted in Hacc as (next & _ & _ & E).
  cbv zeta. rewrite E. unfold stateAfterPass.
  destruct next as [nx|]; [destruct (fullPassAround _ _ _ _)|];
    simpl; repeat split; reflexivity.
Qed.

(** * The turn counter *)

(** C7 (amended). Every accepted playCards, pass and restartRound, and
    the submitExchangeSelection that completes the exchange, store the
    prior turnNumber plus one; an accepted submission that leaves
    obligations open stores the turnNumber unchanged. *)
Theorem turn_counter_step (a : Action) (now : nat) (w : World) :
  accepted (run a now) w ->
  turnNumber (gameState (after (run a now) w)) =
  match a with
  | ASubmit user cardIds =>
      if completes w user cardIds then turnNumber (gameState w) + 1
      else turnNumber (gameState w)
  | _ => turnNumber (gameState w) + 1
  end.
Proof.
  destruct a as [user cardIds|user|isAdmin rnd|user cardIds]; simpl; intros Hacc.
  - apply playCards_accepted in Hacc as (gp & nh & nx & _ & _ & E). rewrite E.
    unfold stateAfterPlay. cbv zeta. destruct (endsRound _ _ _); reflexivity.
  - apply pass_accepted in Hacc as (next & _ & _ & E). rewrite E.
    unfold stateAfterPass.
    destruct next as [nx|]; [destruct (fullPassAround _ _ _ _)|]; reflexivity.
  - apply restartRound_accepted in Hacc as (_ & l & _ & E). rewrite E. reflexivity.
  - apply submit_accepted in Hacc as (mp & gp & _ & E). rewrite E.
    destruct (completes w user cardIds); reflexivity.
Qed.

(** * Resubmitting an exchange selection *)

Lemma filter_filter_same A (f : A -> bool) l : filter f (filter f l) = filter f l.
Proof.
  induction l as [|x t IH]; simpl; auto.
  destruct (f x) eqn:E; simpl; rewrite ?E, IH; reflexivity.
Qed.

Lemma selectionsAfter_again gs user cardIds cardIds' :
  selectionsAfter (selectionFields (selectionsAfter gs user cardIds) gs) user cardIds' =
  selectionsAfter gs user cardIds'.
Proof.
  unfold selectionsAfter. simpl. rewrite filter_app, filter_filter_same. simpl.
  rewrite Nat.eqb_refl. simpl. rewrite app_nil_r. reflexivity.
Qed.

Lemma selectionsAfter_mine gs user cardIds :
  filter (fun s => selFrom s =? user) (selectionsAfter gs user cardIds)
  = [mkSel user cardIds].
Proof.
  unfold selectionsAfter. rewrite filter_app. simpl. rewrite Nat.eqb_refl.
  replace (filter _ (filter _ _)) with (@nil ExchangeSelection); [reflexivity|].
  induction (orEmpty (exchangeSelections gs)) as [|s t IH]; simpl; auto.
  destruct (selFrom s =? user) eqn:E; simpl; rewrite ?E; auto.
Qed.

(** C8. While obligations are still open, submitting the same selection
    a second time is accepted and leaves the state exactly as the first
    submission left it; the recorded selections hold one entry for the
    giver, the submitted one (a resubmission replaces, it does not
    add). *)
Theorem resubmission_is_idempotent (user : UserId) (cardIds : list Card)
        (now now' : nat) (w : World) :
  accepted (submitExchangeSelection user cardIds now) w ->
  completes w user cardIds = false ->
  let w1 := after (submitExchangeSelection user cardIds now) w in
  accepted (submitExchangeSelection user cardIds now') w1 /\
  after (submitExchangeSelection user cardIds now') w1 = w1 /\
  filter (fun s => selFrom s =? user) (orEmpty (exchangeSelections (gameState w1)))
  = [mkSel user cardIds].
Proof.
  intros Hacc Hopen. apply submit_accepted in Hacc as (mp & gp & Hg & E).
  rewrite Hopen in E. cbv zeta. rewrite E. clear E.
  set (w1 := mkWorld _ _).
  assert (Hg1 : submitGuards w1 user cardIds mp gp) by exact Hg.
  assert (Hc1 : completes w1 user cardIds = false).
  { unfold completes, w1. simpl gameState. rewrite selectionsAfter_again. exact Hopen. }
  unfold accepted, after. rewrite (submit_guarded user cardIds now' w1 _ _ Hg1), Hc1.
  split; [reflexivity|]. split.
  - unfold w1. simpl. rewrite selectionsAfter_again. reflexivity.
  - unfold w1. simpl. apply selectionsAfter_mine.
Qed.

(** * Exchange obligations at restart *)

(** C4. An accepted restart computes the exchange pairs from the finish
    order and the player count: with 3 players and finish order
    [W; M; L] they are [(L->W,1); (W->L,1)], with 4 players and
    [A; B; C; D] they are [(A->D,2); (D->A,2); (B->C,1); (C->B,1)]; in
    general a complete finish order gives winner<->loser one card for 2
    or 3 players and first<->last two cards, second<->second-last one
    card from 4 players on.  If pairs are produced the phase becomes
    exchange and the leader (the first of the finish order) is recorded
    in roundLeaderId; otherwise the phase becomes play and the leader
    holds the turn at once. *)
Theorem restart_exchange_obligations (isAdmin : bool) (rnd : nat -> nat) (now : nat)
        (w : World) :
  accepted (restartRound isAdmin rnd now) w ->
  let gs' := gameState (after (restartRound isAdmin rnd now) w) in
  let fo := orEmpty (finishedOrder (gameState w)) in
  let n := length (gamePlayers w) in
  let pairs := buildExchangePairs fo n in
  (forall W M L, n = 3 -> fo = [W; M; L] ->
     pairs = [mkPair L W 1; mkPair W L 1]) /\
  (forall A B C D, n = 4 -> fo = [A; B; C; D] ->
     pairs = [mkPair A D 2; mkPair D A 2; mkPair B C 1; mkPair C B 1]) /\
  (length fo = n -> (n = 2 \/ n = 3) ->
     pairs = [mkPair (nth (n - 1) fo 0) (nth 0 fo 0) 1;
              mkPair (nth 0 fo 0) (nth (n - 1) fo 0) 1]) /\
  (length fo = n -> 4 <= n ->
     pairs = [mkPair (nth 0 fo 0) (nth (n - 1) fo 0) 2;
              mkPair (nth (n - 1) fo 0) (nth 0 fo 0) 2;
              mkPair (nth 1 fo 0) (nth (n - 2) fo 0) 1;
              mkPair (nth (n - 2) fo 0) (nth 1 fo 0) 1]) /\
  exists leader,
    firstLeader (gameState w) (gamePlayers w) = Some leader /\
    (forall u rest, fo = u :: rest -> leader = u) /\
    (pairs <> [] ->
       phase gs' = exchange /\ exchangePairs gs' = Some pairs /\
       roundLeaderId gs' = Some leader) /\
    (pairs = [] ->
       phase gs' = play /\ exchangePairs gs' = None /\
       currentTurnUserId gs' = Some leader).
Proof.
  intros Hacc. apply restartRound_accepted in Hacc as (Hp & leader & Hl & E).
  cbv zeta. rewrite E. clear E. simpl gameState.
  set (fo := orEmpty (finishedOrder (gameState w))) in *.
  set (n := length (gamePlayers w)) in *.
  split; [|split; [|split; [|split]]].
  - intros W M L Hn Hfo. rewrite Hn, Hfo. reflexivity.
  - intros A B C D Hn Hfo. rewrite Hn, Hfo. reflexivity.
  - intros Hlen Hn. unfold buildExchangePairs. rewrite Hlen, Nat.leb_refl.
    destruct Hn as [-> | ->]; reflexivity.
  - intros Hlen Hn. unfold buildExchangePairs. rewrite Hlen, Nat.leb_refl.
    replace ((n =? 2) || (n =? 3)) with false.
    + replace (4 <=? n) with true by (symmetry; apply Nat.leb_le; exact Hn). reflexivity.
    + symmetry. apply orb_false_iff. split; apply Nat.eqb_neq; lia.
  - exists leader. split; [exact Hl|]. split; [|split].
    + intros u rest Hfo. unfold firstLeader in Hl. fold fo in Hl. rewrite Hfo in Hl.
      simpl in Hl. congruence.
    + intros Hne. unfold restartFields. simpl.
      destruct (buildExchangePairs fo n) as [|p ps]; [congruence|]. simpl. auto.
    + intros He. unfold restartFields. simpl. rewrite He. simpl. auto.
Qed.

(** * Legal plays *)

Lemma rank_eqb_eq a b : rank_eqb a b = true <-> a = b.
Proof.
  destruct a as [x|], b as [y|]; simpl; split; try congruence; try discriminate.
  - intros H. apply String.eqb_eq in H. congruence.
  - intros H. inversion H. apply String.eqb_refl.
Qed.

Lemma is2_true c : is2 (charAt0 c) = true <-> isWild c.
Proof. unfold is2, isWild. apply rank_eqb_eq. Qed.

Lemma is2_false c : is2 (charAt0 c) = false <-> ~ isWild c.
Proof. rewrite <- is2_true. destruct (is2 (charAt0 c)); split; congruence. Qed.

Lemma spliceOne_Some cid hnd h' :
  spliceOne cid hnd = Some h' ->
  forall c, count_occ string_dec hnd c =
            count_occ string_dec h' c + (if string_dec cid c then 1 else 0).
Proof.
  revert h'. induction hnd as [|x t IH]; simpl; intros h' H c; [discriminate|].
  destruct (String.eqb x cid) eqn:E.
  - apply String.eqb_eq in E. inversion H; subst.
    destruct (string_dec cid c); lia.
  - destruct (spliceOne cid t) as [t'|]; [|discriminate]. inversion H; subst.
    simpl. specialize (IH t' eq_refl c).
    destruct (string_dec x c); lia.
Qed.

Lemma spliceOne_None cid hnd :
  spliceOne cid hnd = None -> count_occ string_dec hnd cid = 0.
Proof.
  induction hnd as [|x t IH]; simpl; intros H; [reflexivity|].
  destruct (String.eqb x cid) eqn:E; [discriminate|].
  destruct (spliceOne cid t); [discriminate|].
  apply String.eqb_neq in E. destruct (string_dec x cid); [congruence|auto].
Qed.

Lemma spliceAll_Some sel hnd h' :
  spliceAll sel hnd = Some h' ->
  forall c, count_occ string_dec hnd c = count_occ string_dec h' c + count_occ string_dec sel c.
Proof.
  revert hnd h'. induction sel as [|x t IH]; simpl; intros hnd h' H c.
  - inversion H; subst. lia.
  - destruct (spliceOne x hnd) as [h1|] eqn:E; [|discriminate].
    rewrite (spliceOne_Some _ _ _ E c), (IH _ _ H c).
    destruct (string_dec x c); lia.
Qed.

Lemma spliceOne_length cid hnd h' :
  spliceOne cid hnd = Some h' -> length hnd = S (length h').
Proof.
  revert h'. induction hnd as [|y u IH]; simpl; intros h' E; [discriminate|].
  destruct (String.eqb y cid); [inversion E; reflexivity|].
  destruct (spliceOne cid u) as [u'|]; [|discriminate]. inversion E; subst.
  simpl. f_equal. apply IH. reflexivity.
Qed.

Lemma spliceAll_length sel hnd h' :
  spliceAll sel hnd = Some h' -> length hnd = length h' + length sel.
Proof.
  revert hnd h'. induction sel as [|x t IH]; simpl; intros hnd h' H.
  - inversion H; subst. lia.
  - destruct (spliceOne x hnd) as [h1|] eqn:E; [|discriminate].
    apply spliceOne_length in E. apply IH in H. lia.
Qed.

Lemma spliceAll_subMultiset sel hnd :
  (exists h', spliceAll sel hnd = Some h') <-> subMultiset sel hnd.
Proof.
  split.
  - intros [h' H] c. rewrite (spliceAll_Some _ _ _ H c). lia.
  - revert hnd. induction sel as [|x t IH]; simpl; intros hnd Hs; [eauto|].
    destruct (spliceOne x hnd) as [h1|] eqn:E.
    + apply IH. intros c. specialize (Hs c). simpl in Hs.
      rewrite (spliceOne_Some _ _ _ E c) in Hs.
      destruct (string_dec x c); lia.
    + apply spliceOne_None in E. specialize (Hs x). simpl in Hs.
      destruct (string_dec x x); [lia|congruence].
Qed.

Lemma filter_length_all A (f : A -> bool) l :
  length (filter f l) = length l <-> forall x, In x l -> f x = true.
Proof.
  induction l as [|x t IH]; simpl.
  - split; [intros _ y []|reflexivity].
  - pose proof (filter_length_le f t) as Hle.
    destruct (f x) eqn:E; simpl.
    + split.
      * intros H y [->|Hy]; [exact E|]. apply IH; [lia|exact Hy].
      * intros H. f_equal. apply IH. intros y Hy. apply H. auto.
    + split; [lia|]. intros H. specialize (H x (or_introl eq_refl)). congruence.
Qed.

Lemma twos_all sel :
  length (filter is2 (map charAt0 sel)) = length sel <-> wildcardsOnly sel.
Proof.
  rewrite <- (length_map charAt0 sel). rewrite filter_length_all.
  unfold wildcardsOnly. split.
  - intros H c Hc. apply is2_true. apply H. now apply in_map.
  - intros H r Hr. apply in_map_iff in Hr as [c [<- Hc]]. apply is2_true. auto.
Qed.

Lemma setOf_In l r : In r (setOf l) <-> In r l.
Proof.
  induction l as [|x t IH]; simpl; [tauto|].
  rewrite filter_In, IH. split.
  - intros [H|[H _]]; auto.
  - intros [H|H]; auto.
    destruct (rank_eqb r x) eqn:E.
    + apply rank_eqb_eq in E. left. congruence.
    + right. split; auto.
Qed.

Lemma setOf_le1 l :
  length (setOf l) <= 1 <-> forall a b, In a l -> In b l -> a = b.
Proof.
  destruct l as [|x t]; simpl.
  - split; [intros _ a b []|lia].
  - split.
    + intros H.
      assert (He : filter (fun y => negb (rank_eqb y x)) (setOf t) = []).
      { destruct (filter _ (setOf t)); [reflexivity|simpl in H; lia]. }
      assert (Hx : forall a, In a t -> a = x).
      { intros a Ha. destruct (rank_eqb a x) eqn:E; [now apply rank_eqb_eq|].
        assert (Hin : In a (filter (fun y => negb (rank_eqb y x)) (setOf t))).
        { apply filter_In. split; [now apply setOf_In|]. now rewrite E. }
        rewrite He in Hin. destruct Hin. }
      intros a b [<-|Ha] [<-|Hb]; auto.
      * symmetry; auto.
      * rewrite (Hx a Ha), (Hx b Hb). reflexivity.
    + intros H.
      replace (filter (fun y => negb (rank_eqb y x)) (setOf t)) with (@nil Rank);
        [simpl; lia|].
      symmetry. destruct (filter _ (setOf t)) as [|a u] eqn:E; [reflexivity|].
      assert (Hin : In a (filter (fun y => negb (rank_eqb y x)) (setOf t)))
        by (rewrite E; left; reflexivity).
      apply filter_In in Hin as [Ha Hne]. apply (proj1 (setOf_In _ _)) in Ha.
      assert (a = x) by (apply H; [right; exact Ha|left; reflexivity]). subst.
      assert (R : rank_eqb x x = true) by now apply rank_eqb_eq.
      rewrite R in Hne. discriminate.
Qed.

Lemma nonTwos_In sel r :
  In r (filter (fun r => negb (is2 r)) (map charAt0 sel)) <-> effectiveRank sel r.
Proof.
  rewrite filter_In, in_map_iff. unfold effectiveRank. split.
  - intros [[c [Hc Hin]] Hn]. exists c. subst r. apply negb_true_iff in Hn.
    apply is2_false in Hn. auto.
  - intros [c (Hin & Hw & Hc)]. subst r. split; [eauto|].
    apply negb_true_iff. now apply is2_false.
Qed.

Lemma atMostOneRank_setOf sel :
  length (setOf (filter (fun r => negb (is2 r)) (map charAt0 sel))) <= 1
  <-> atMostOneRank sel.
Proof.
  rewrite setOf_le1. unfold atMostOneRank. split.
  - intros H c1 c2 H1 H2 W1 W2. apply H; apply nonTwos_In.
    + exists c1; auto.
    + exists c2; auto.
  - intros H a b Ha Hb. apply nonTwos_In in Ha as [c1 (H1 & W1 & <-)].
    apply nonTwos_In in Hb as [c2 (H2 & W2 & <-)]. auto.
Qed.

Lemma playRankOf_effective sel :
  ~ wildcardsOnly sel -> effectiveRank sel (playRankOf sel).
Proof.
  intros Hn. unfold playRankOf.
  destruct (filter (fun r => negb (is2 r)) (map charAt0 sel)) as [|x t] eqn:E.
  - exfalso. apply Hn. intros c Hc.
    destruct (is2 (charAt0 c)) eqn:W; [now apply is2_true|].
    assert (Hin : In (charAt0 c) (filter (fun r => negb (is2 r)) (map charAt0 sel))).
    { apply nonTwos_In. exists c. split; [exact Hc|]. split; [now apply is2_false|reflexivity]. }
    rewrite E in Hin. destruct Hin.
  - simpl. apply nonTwos_In. rewrite E. left. reflexivity.
Qed.

Lemma effectiveRank_unique sel r r' :
  atMostOneRank sel -> effectiveRank sel r -> effectiveRank sel r' -> r = r'.
Proof.
  intros H [c (Hc & Wc & <-)] [c' (Hc' & Wc' & <-)]. auto.
Qed.

Lemma turnIs_true gs user : turnIs gs user = true <-> currentTurnUserId gs = Some user.
Proof.
  unfold turnIs. destruct (currentTurnUserId gs) as [t|]; split; try congruence.
  - intros H. apply Nat.eqb_eq in H. congruence.
  - intros H. inversion H. apply Nat.eqb_refl.
Qed.

Lemma playGuards_iff_legal w user sel :
  (exists gp newHand, playGuards w user sel gp newHand) <-> legalPlay w user sel.
Proof.
  unfold playGuards, legalPlay, holdsTurn, actorHand, tableClear, sameOrStronger.
  cbv zeta. split.
  - intros (gp & nh & H0 & Hp & Ht & Hf & Hs & H2 & H1 & Hl).
    assert (Hnw : ~ wildcardsOnly sel) by (rewrite <- twos_all; exact H2).
    split; [exact Hp|]. split; [now apply turnIs_true|]. split.
    { exists (hand gp). rewrite Hf. split; [reflexivity|].
      apply spliceAll_subMultiset. eauto. }
    split; [now apply atMostOneRank_setOf|]. split; [exact Hnw|].
    destruct Hl as [Hl|[Hl1 Hl2]]; [left; exact Hl|right].
    split; [exact Hl1|]. exists (playRankOf sel). split; [|exact Hl2].
    now apply playRankOf_effective.
  - intros (Hp & Ht & (hnd & Hh & Hs) & H1 & Hnw & Hl).
    destruct (find (fun p => userId p =? user) (gamePlayers w)) as [gp|] eqn:Hf;
      [|discriminate].
    simpl in Hh. inversion Hh; subst hnd. clear Hh.
    apply spliceAll_subMultiset in Hs as [nh Hs].
    exists gp, nh.
    split. { intros H0. apply Hnw. destruct sel; [intros c []|discriminate]. }
    split; [exact Hp|]. split; [now apply turnIs_true|]. split; [reflexivity|].
    split; [exact Hs|]. split. { rewrite twos_all. exact Hnw. }
    split; [now apply atMostOneRank_setOf|].
    destruct Hl as [Hl|[Hl1 (r & Hr & Hl2)]]; [left; exact Hl|right].
    split; [exact Hl1|].
    rewrite (effectiveRank_unique sel _ _ H1 (playRankOf_effective sel Hnw) Hr). exact Hl2.
Qed.

Lemma not_accepted_rejected m w : ~ accepted m w -> rejected m w.
Proof.
  unfold accepted, rejected. destruct (fst (m w)) as [[]|e]; [congruence|eauto].
Qed.

(** * Records, keys and seats *)

Lemma NoDup_map_eq A B (f : A -> B) l x y :
  NoDup (map f l) -> In x l -> In y l -> f x = f y -> x = y.
Proof.
  induction l as [|a t IH]; simpl; intros Hnd Hx Hy E; [contradiction|].
  inversion Hnd as [|? ? Hna Hnt]; subst.
  destruct Hx as [<-|Hx], Hy as [<-|Hy]; auto.
  - exfalso. apply Hna. rewrite E. now apply in_map.
  - exfalso. apply Hna. rewrite <- E. now apply in_map.
Qed.

Lemma find_map_user (g : GamePlayer -> GamePlayer) u l :
  (forall p, userId (g p) = userId p) ->
  find (fun p => userId p =? u) (map g l) = option_map g (find (fun p => userId p =? u) l).
Proof.
  intros Hg. induction l as [|a t IH]; simpl; [reflexivity|].
  rewrite Hg. destruct (userId a =? u); [reflexivity|exact IH].
Qed.

Lemma find_user_unique l u p :
  NoDup (map userId l) -> In p l -> userId p = u ->
  find (fun q => userId q =? u) l = Some p.
Proof.
  intros Hnd Hin Hu.
  destruct (find (fun q => userId q =? u) l) as [q|] eqn:E.
  - apply find_user_In in E as [Hq Hqu]. f_equal.
    apply (@NoDup_map_eq _ _ userId l); auto. congruence.
  - exfalso. pose proof (find_none _ _ E p Hin) as F. simpl in F.
    rewrite Hu, Nat.eqb_refl in F. discriminate.
Qed.

Lemma find_user_None l u :
  find (fun q => userId q =? u) l = None -> ~ In u (map userId l).
Proof.
  intros E Hin. apply in_map_iff in Hin as [p [Hp Hin]].
  pose proof (find_none _ _ E p Hin) as F. simpl in F.
  rewrite Hp, Nat.eqb_refl in F. discriminate.
Qed.

Lemma holdsCards_true p : holdsCards p = true <-> hand p <> [].
Proof.
  unfold holdsCards. rewrite Nat.ltb_lt. destruct (hand p); simpl; split; intros;
    try lia; congruence.
Qed.

Lemma two_holders l p q :
  In p l -> In q l -> p <> q -> holdsCards p = true -> holdsCards q = true ->
  2 <= seatsWithCards l.
Proof.
  unfold seatsWithCards. intros Hp Hq Hne Cp Cq.
  assert (Hp' : In p (filter holdsCards l)) by (apply filter_In; auto).
  assert (Hq' : In q (filter holdsCards l)) by (apply filter_In; auto).
  destruct (filter holdsCards l) as [|a [|b t]].
  - destruct Hp'.
  - destruct Hp' as [<-|[]], Hq' as [<-|[]]. congruence.
  - simpl. lia.
Qed.

Lemma playersAfterPlay_ids ps gp nh :
  map _id (playersAfterPlay ps gp nh) = map _id ps.
Proof.
  unfold playersAfterPlay. rewrite map_map. apply map_ext. intros p.
  destruct (_id p =? _id gp); reflexivity.
Qed.

Lemma playersAfterPlay_users ps gp nh :
  map userId (playersAfterPlay ps gp nh) = map userId ps.
Proof.
  unfold playersAfterPlay. rewrite map_map. apply map_ext. intros p.
  destruct (_id p =? _id gp); reflexivity.
Qed.

Lemma playersAfterPlay_length ps gp nh :
  length (playersAfterPlay ps gp nh) = length ps.
Proof. unfold playersAfterPlay. apply length_map. Qed.

Lemma playersAfterPlay_find ps gp nh u :
  find (fun p => userId p =? u) (playersAfterPlay ps gp nh) =
  option_map (fun p => if _id p =? _id gp then setHand nh p else p)
             (find (fun p => userId p =? u) ps).
Proof.
  unfold playersAfterPlay. apply find_map_user. intros p.
  destruct (_id p =? _id gp); reflexivity.
Qed.

Lemma hand_after_play gp nh p :
  length (hand (if _id p =? _id gp then setHand nh p else p)) = cardsLeft gp nh p.
Proof. unfold cardsLeft. destruct (_id p =? _id gp); reflexivity. Qed.

Lemma seats_after_play ps gp nh :
  seatsWithCards (playersAfterPlay ps gp nh) =
  length (filter (fun c => 0 <? c) (map (cardsLeft gp nh) ps)).
Proof.
  unfold seatsWithCards, playersAfterPlay.
  induction ps as [|p t IH]; simpl; [reflexivity|].
  unfold holdsCards at 1. rewrite hand_after_play.
  destruct (0 <? cardsLeft gp nh p); simpl; rewrite IH; reflexivity.
Qed.

Lemma seats_grow ps gp nh :
  nh <> [] -> seatsWithCards ps <= seatsWithCards (playersAfterPlay ps gp nh).
Proof.
  intros Hne. unfold seatsWithCards, playersAfterPlay.
  induction ps as [|p t IH]; simpl; [lia|].
  destruct (_id p =? _id gp).
  - replace (holdsCards (setHand nh p)) with true
      by (symmetry; apply holdsCards_true; exact Hne).
    destruct (holdsCards p); simpl; lia.
  - destruct (holdsCards p); simpl; lia.
Qed.

Lemma seats_same_off_record ps gp nh :
  ~ In (_id gp) (map _id ps) ->
  seatsWithCards (playersAfterPlay ps gp nh) = seatsWithCards ps.
Proof.
  unfold seatsWithCards, playersAfterPlay.
  induction ps as [|p t IH]; simpl; intros Hn; [reflexivity|].
  destruct (_id p =? _id gp) eqn:E.
  - apply Nat.eqb_eq in E. exfalso. apply Hn. auto.
  - destruct (holdsCards p); simpl; rewrite IH; auto.
Qed.

Lemma seats_drop_one ps gp nh :
  NoDup (map _id ps) ->
  seatsWithCards ps <= S (seatsWithCards (playersAfterPlay ps gp nh)).
Proof.
  induction ps as [|p t IH]; intros Hnd; [simpl; lia|].
  inversion Hnd as [|? ? Hna Hnt]; subst.
  destruct (_id p =? _id gp) eqn:E.
  - apply Nat.eqb_eq in E. rewrite E in Hna.
    pose proof (seats_same_off_record t gp nh Hna) as Hs.
    unfold seatsWithCards, playersAfterPlay in *. simpl.
    apply Nat.eqb_eq in E. rewrite E.
    destruct (holdsCards p), (holdsCards (setHand nh p)); simpl; lia.
  - specialize (IH Hnt). unfold seatsWithCards, playersAfterPlay in *. simpl.
    rewrite E. destruct (holdsCards p); simpl; lia.
Qed.

(** * The invariant is kept by every accepted request *)

Section PlayStep.

Variables (w : World) (user : UserId) (sel : list Card) (gp : GamePlayer) (nh : list Card).
Hypothesis HI : Inv w.
Hypothesis HG : playGuards w user sel gp nh.

Let ps := gamePlayers w.
Let gs := gameState w.
Let ps' := playersAfterPlay ps gp nh.
Let fo1 := finishedAfterPlay gs user nh.

Lemma play_phase : phase gs = play.
Proof. apply HG. Qed.

Lemma play_gp : In gp ps /\ userId gp = user.
Proof.
  destruct HG as (_ & _ & _ & Hf & _). apply find_user_In in Hf. exact Hf.
Qed.

Lemma play_find : find (fun p => userId p =? user) ps = Some gp.
Proof. apply HG. Qed.

Lemma play_sel_nonempty : length sel <> 0.
Proof. apply HG. Qed.

Lemma play_hand_nonempty : hand gp <> [].
Proof.
  destruct HG as (H0 & _ & _ & _ & Hs & _). apply spliceAll_length in Hs.
  intros E. rewrite E in Hs. simpl in Hs. lia.
Qed.

Lemma play_turn : currentTurnUserId gs = Some user.
Proof. apply turnIs_true. apply HG. Qed.

Lemma play_seats_before : 2 <= seatsWithCards ps.
Proof.
  destruct (inv_cards w HI play_phase) as [H|[_ H]]; [exact H|].
  exfalso. apply play_hand_nonempty. apply (H user gp play_turn play_find).
Qed.

Lemma play_record_of_id p : In p ps -> _id p = _id gp -> p = gp.
Proof.
  intros Hp E. apply (@NoDup_map_eq _ _ _id ps); auto.
  - apply (inv_ids w HI).
  - apply play_gp.
Qed.

Lemma play_finished :
  NoDup fo1 /\ incl fo1 (userIds w) /\
  forall u p', In u fo1 -> find (fun p => userId p =? u) ps' = Some p' -> hand p' = [].
Proof.
  assert (Hph : phase gs <> exchange) by (rewrite play_phase; discriminate).
  destruct (inv_finished w HI Hph) as [Hnd Hincl].
  assert (Hold : forall u p', In u (orEmpty (finishedOrder gs)) ->
            find (fun p => userId p =? u) ps' = Some p' -> hand p' = []).
  { intros u p' Hu Hf. unfold ps' in Hf. rewrite playersAfterPlay_find in Hf.
    destruct (find (fun p => userId p =? u) ps) as [p|] eqn:Ep; [|discriminate].
    simpl in Hf. inversion Hf; subst p'. clear Hf.
    pose proof (inv_finished_empty w HI play_phase u p Hu Ep) as Hh.
    destruct (_id p =? _id gp) eqn:Eid; [|exact Hh].
    exfalso. apply Nat.eqb_eq in Eid. apply find_user_In in Ep as [Hp _].
    apply play_hand_nonempty. rewrite <- (play_record_of_id p Hp Eid). exact Hh. }
  unfold fo1, finishedAfterPlay.
  destruct ((length nh =? 0) && negb (includes user (orEmpty (finishedOrder gs)))) eqn:E.
  - apply andb_true_iff in E as [E1 E2]. apply Nat.eqb_eq in E1.
    apply negb_true_iff in E2. apply mem_false in E2.
    split; [|split].
    + apply NoDup_app; [exact Hnd|constructor; [intros []|constructor]|].
      intros u Hu [<-|[]]. contradiction.
    + intros u Hu. apply in_app_or in Hu as [Hu|[<-|[]]]; [auto|].
      unfold userIds. destruct play_gp as [Hin <-]. now apply in_map.
    + intros u p' Hu Hf. apply in_app_or in Hu as [Hu|[<-|[]]]; [eauto|].
      unfold ps' in Hf. rewrite playersAfterPlay_find, play_find in Hf. simpl in Hf.
      rewrite Nat.eqb_refl in Hf. inversion Hf; subst p'. simpl.
      destruct nh; [reflexivity|discriminate].
  - auto.
Qed.

Lemma play_loser p :
  find (fun p => 0 <? cardsLeft gp nh p) ps = Some p -> ~ In (userId p) fo1.
Proof.
  intros Hf Hin. apply find_some in Hf as [Hp Hc]. apply Nat.ltb_lt in Hc.
  destruct play_finished as (_ & _ & He).
  assert (Hfind : find (fun q => userId q =? userId p) ps' =
                  Some (if _id p =? _id gp then setHand nh p else p)).
  { unfold ps'. rewrite playersAfterPlay_find.
    rewrite (find_user_unique ps (userId p) p (inv_users w HI) Hp eq_refl). reflexivity. }
  specialize (He _ _ Hin Hfind).
  pose proof (hand_after_play gp nh p) as Hl. rewrite He in Hl. simpl in Hl. lia.
Qed.

Lemma seats_cards l : 1 <= seatsWithCards l -> 1 <= length (flat_map hand l).
Proof.
  unfold seatsWithCards. induction l as [|p t IH]; simpl; [lia|].
  rewrite length_app. destruct (holdsCards p) eqn:E; simpl; intros H.
  - apply holdsCards_true in E. destruct (hand p); [congruence|simpl; lia].
  - specialize (IH H). lia.
Qed.

End PlayStep.

Lemma Inv_playCards w user sel now :
  Inv w -> accepted (playCards user sel now) w ->
  Inv (after (playCards user sel now) w).
Proof.
  intros HI Hacc.
  apply playCards_accepted in Hacc as (gp & nh & nx & HG & Hn & E). rewrite E. clear E.
  assert (Hf := play_find w user sel gp nh HG).
  destruct (playNext_ok w user gp nh Hf) as (nx' & Hn' & Hnx).
  rewrite Hn in Hn'. inversion Hn'; subst nx'. clear Hn'.
  pose proof (play_phase w user sel gp nh HG) as Hp.
  pose proof (play_finished w user sel gp nh HI HG) as (Fnd & Fincl & Fempty).
  pose proof (play_seats_before w user sel gp nh HI HG) as Hseats.
  pose proof (play_gp w user sel gp nh HG) as [Hgp Hgu].
  assert (Huser : In user (userIds w)).
  { unfold userIds. rewrite <- Hgu. now apply in_map. }
  unfold stateAfterPlay. cbv zeta.
  destruct (endsRound (gamePlayers w) gp nh) eqn:Hend.
  - (* the round ends *)
    unfold endsRound in Hend. apply andb_true_iff in Hend as [Hjf Hone].
    apply Nat.eqb_eq in Hone.
    constructor; unfold userIds; simpl;
      rewrite ?playersAfterPlay_ids, ?playersAfterPlay_users, ?playersAfterPlay_length;
      try (intros; discriminate).
    + apply (inv_ids w HI).
    + apply (inv_users w HI).
    + apply (inv_two w HI).
    + intros _.
      destruct (find (fun p => 0 <? cardsLeft gp nh p) (gamePlayers w)) as [p|] eqn:El;
        simpl; [|auto].
      pose proof (play_loser w user sel gp nh HI HG p El) as Hnot.
      apply find_some in El as [Hpin _].
      split.
      * apply NoDup_app; [exact Fnd|constructor; [intros []|constructor]|].
        intros u Hu [<-|[]]. contradiction.
      * intros u Hu. apply in_app_or in Hu as [Hu|[<-|[]]]; [auto|]. now apply in_map.
    + intros _. rewrite length_app.
      pose proof (play_sel_nonempty w user sel gp nh HG).
      assert (1 <= length (flat_map hand (playersAfterPlay (gamePlayers w) gp nh))).
      { apply seats_cards. rewrite seats_after_play, Hone. lia. }
      lia.
  - (* the turn moves on *)
    assert (Hseats' : 2 <= seatsWithCards (playersAfterPlay (gamePlayers w) gp nh)).
    { destruct nh as [|c nh'] eqn:Enh.
      - unfold endsRound in Hend. simpl in Hend. apply Nat.eqb_neq in Hend.
        rewrite <- seats_after_play in Hend.
        pose proof (seats_drop_one (gamePlayers w) gp [] (inv_ids w HI)). lia.
      - pose proof (seats_grow (gamePlayers w) gp (c :: nh')). 
        assert (c :: nh' <> []) by discriminate. specialize (H H0). lia. }
    assert (Hfo : orEmpty (if 0 <? length (finishedAfterPlay (gameState w) user nh)
                           then Some (finishedAfterPlay (gameState w) user nh)
                           else finishedOrder (gameState w))
                  = finishedAfterPlay (gameState w) user nh).
    { destruct (0 <? length (finishedAfterPlay (gameState w) user nh)) eqn:E0;
        [reflexivity|].
      apply Nat.ltb_ge in E0. unfold finishedAfterPlay in *.
      destruct (_ && _); [rewrite length_app in E0; simpl in E0; lia|reflexivity]. }
    constructor; unfold userIds, leaderEmptyHanded; simpl;
      rewrite ?playersAfterPlay_ids, ?playersAfterPlay_users, ?playersAfterPlay_length,
              ?Hfo;
      try (intros Hx; rewrite Hp in Hx; discriminate).
    + apply (inv_ids w HI).
    + apply (inv_users w HI).
    + apply (inv_two w HI).
    + intros _. left. exact Hseats'.
    + intros _. split; assumption.
    + intros _. exact Fempty.
    + intros _. destruct nx as [u|]; simpl.
      * destruct (length nh =? 0); simpl.
        -- split; [constructor|]. intros ? _ [].
        -- destruct (Hnx u eq_refl) as (_ & _ & Hnp).
           split; [apply (inv_passed w HI Hp)|].
           intros u' Hu'. inversion Hu'; subst. exact Hnp.
      * split; [constructor|]. intros ? _ [].
    + intros _ Hcount. destruct nx as [u|].
      * exists u. split; [reflexivity|]. apply (Hnx u eq_refl).
      * exfalso. apply Hcount. rewrite orb_true_r. reflexivity.
Qed.

Lemma passNext_ok w user :
  In user (userIds w) ->
  exists next, passNext w user = Ok next /\
    forall u, next = Some u ->
      In u (userIds w) /\ u <> user /\
      ~ In u (passedUserIds (gameState w) ++ [user]).
Proof.
  intros Hin.
  destruct (getNextPlayerToPlay_ok (gamePlayers w) user
              (passedUserIds (gameState w) ++ [user])
              (map userId (filter (fun p => length (hand p) =? 0) (gamePlayers w))) Hin)
    as [r [Hr Hs]].
  exists r. split; [exact Hr|]. intros u Hu. destruct (Hs u Hu) as (A & B & C & _). auto.
Qed.

Lemma Inv_pass w user now :
  Inv w -> accepted (pass user now) w -> Inv (after (pass user now) w).
Proof.
  intros HI Hacc.
  apply pass_accepted in Hacc as (next & HG & Hn & E). rewrite E. clear E.
  destruct HG as (Hp & Ht & Hc). apply turnIs_true in Ht.
  destruct (inv_turn w HI Hp Hc) as (u0 & Hu0 & Huser).
  rewrite Ht in Hu0. inversion Hu0; subst u0. clear Hu0.
  destruct (passNext_ok w user Huser) as (next' & Hn' & Hnx).
  rewrite Hn in Hn'. inversion Hn'; subst next'. clear Hn'.
  destruct (inv_passed w HI Hp) as [Pnd Pturn].
  assert (Hseats : 2 <= seatsWithCards (gamePlayers w)).
  { destruct (inv_cards w HI Hp) as [H|[H _]]; [exact H|congruence]. }
  assert (Hcleared : Inv (mkWorld (clearedFields (gameState w) now
                                     (lastPlayedBy (gameState w)) (gameState w))
                                  (gamePlayers w))).
  { constructor; unfold userIds; simpl; try (intros Hx; rewrite Hp in Hx; discriminate).
    - apply (inv_ids w HI).
    - apply (inv_users w HI).
    - apply (inv_two w HI).
    - intros _. left. exact Hseats.
    - apply (inv_finished w HI).
    - apply (inv_finished_empty w HI).
    - intros _. split; [constructor|]. intros ? _ [].
    - intros _ Hx. congruence. }
  unfold stateAfterPass.
  destruct next as [nx|]; [|exact Hcleared].
  destruct (fullPassAround _ _ _ _); [exact Hcleared|].
  destruct (Hnx nx eq_refl) as (Hin & Hne & Hnp).
  constructor; unfold userIds; simpl; try (intros Hx; rewrite Hp in Hx; discriminate).
  - apply (inv_ids w HI).
  - apply (inv_users w HI).
  - apply (inv_two w HI).
  - intros _. left. exact Hseats.
  - apply (inv_finished w HI).
  - apply (inv_finished_empty w HI).
  - intros _. split.
    + apply NoDup_app; [exact Pnd|constructor; [intros []|constructor]|].
      intros u Hu [<-|[]]. exact (Pturn user Ht Hu).
    + intros u Hu. inversion Hu; subst. exact Hnp.
  - intros _ _. exists nx. split; [reflexivity|exact Hin].
Qed.

(** * Dealing *)

Lemma set_nth_length A i (x : A) l : length (set_nth i x l) = length l.
Proof.
  revert i; induction l as [|y t IH]; intros [|i]; simpl; auto.
Qed.

Lemma swap_length A i j (l : list A) : length (swap i j l) = length l.
Proof.
  unfold swap. destruct (nth_error l i), (nth_error l j); auto.
  now rewrite !set_nth_length.
Qed.

Lemma shuffleLoop_length A rnd i (l : list A) : length (shuffleLoop rnd i l) = length l.
Proof.
  revert l; induction i as [|i IH]; intros l; simpl; auto.
  rewrite IH. apply swap_length.
Qed.

Lemma shuffleArray_length A rnd (l : list A) : length (shuffleArray rnd l) = length l.
Proof. apply shuffleLoop_length. Qed.

Lemma buildDeck_length d : length (buildDeck d) = 52 * d.
Proof.
  induction d as [|d IH]; [reflexivity|].
  change (buildDeck (S d)) with (one_deck ++ buildDeck d).
  rewrite length_app, IH. change (length one_deck) with 52. lia.
Qed.

Lemma distributeLoop_length A (deck : list A) b r p idx fuel :
  length (distributeLoop deck b r p idx fuel) = fuel.
Proof.
  revert p idx; induction fuel as [|f IH]; intros p idx; simpl; auto.
Qed.

Lemma distributeEvenly_length A (deck : list A) n :
  length (distributeEvenly deck n) = n.
Proof. apply distributeLoop_length. Qed.

Lemma slice_nonempty A (l : list A) a b :
  a < b -> a < length l -> slice a b l <> [].
Proof.
  intros Hab Hal. unfold slice.
  assert (Hs : 0 < length (skipn a l)) by (rewrite length_skipn; lia).
  destruct (skipn a l) as [|x t]; [simpl in Hs; lia|].
  destruct (b - a) as [|k] eqn:E; [lia|]. simpl. discriminate.
Qed.

Lemma distributeLoop_two A (deck : list A) b r k :
  distributeLoop deck b r 0 0 (S (S k)) =
  slice 0 (b + (if 0 <? r then 1 else 0)) deck
  :: slice (b + (if 0 <? r then 1 else 0))
           (b + (if 0 <? r then 1 else 0) + (b + (if 1 <? r then 1 else 0))) deck
  :: distributeLoop deck b r 2
       (b + (if 0 <? r then 1 else 0) + (b + (if 1 <? r then 1 else 0))) k.
Proof. reflexivity. Qed.

Lemma distribute_two A (deck : list A) n :
  2 <= length deck -> 2 <= n ->
  exists h0 h1 rest,
    distributeEvenly deck n = h0 :: h1 :: rest /\ h0 <> [] /\ h1 <> [].
Proof.
  intros Hd Hn. destruct n as [|[|k]]; try lia.
  unfold distributeEvenly. rewrite distributeLoop_two.
  set (n := S (S k)) in *. set (total := length deck) in *.
  set (b := total / n). set (r := total mod n).
  assert (Hdm : total = n * b + r) by (apply Nat.div_mod_eq).
  assert (Hr : r < n) by (apply Nat.mod_upper_bound; lia).
  do 3 eexists. split; [reflexivity|].
  assert (Hn2 : n = S (S k)) by reflexivity. clearbody n.
  destruct (Nat.ltb_spec 0 r), (Nat.ltb_spec 1 r);
    split; apply slice_nonempty; fold total; try lia; try nia.
Qed.

Lemma mapi_from_length A B (f : A -> nat -> B) k l :
  length (mapi_from k f l) = length l.
Proof. revert k; induction l as [|x t IH]; intros k; simpl; auto. Qed.

Lemma mapi_from_map A B C (g : B -> C) (f : A -> nat -> B) k l :
  map g (mapi_from k f l) = mapi_from k (fun x i => g (f x i)) l.
Proof. revert k; induction l as [|x t IH]; intros k; simpl; [|rewrite IH]; auto. Qed.

Lemma mapi_from_index A k (l : list A) :
  mapi_from k (fun _ i => i) l = seq k (length l).
Proof. revert k; induction l as [|x t IH]; intros k; simpl; [|rewrite IH]; auto. Qed.

Lemma mapi_from_plain A B (g : A -> B) k (l : list A) :
  mapi_from k (fun x _ => g x) l = map g l.
Proof. revert k; induction l as [|x t IH]; intros k; simpl; [|rewrite IH]; auto. Qed.

Lemma Inv_start members deckCount rnd now w :
  NoDup (map memberUserId members) ->
  startGame members deckCount rnd now = Ok w ->
  Inv w.
Proof.
  intros Hnd Hs. unfold startGame in Hs. cbv zeta in Hs.
  destruct (length members <? 2) eqn:Hlen; [discriminate|]. apply Nat.ltb_ge in Hlen.
  set (key := fun m => match memberSeatIndex m with Some i => i | None => 999 end) in *.
  set (d := Nat.max 1 match deckCount with Some d => d | None => 1 end) in *.
  set (hands := distributeEvenly (shuffleArray rnd (buildDeck d)) (length members)) in *.
  set (mk := fun (m : RoomMember) (i : nat) =>
              mkGamePlayer i (memberUserId m) i (nth i hands [])) in *.
  pose proof (sortBy_perm _ key members) as Hperm.
  pose proof (Permutation_length Hperm) as Hsl.
  assert (Hdeck : 2 <= length (shuffleArray rnd (buildDeck d))).
  { rewrite shuffleArray_length, buildDeck_length. unfold d. lia. }
  destruct (distribute_two _ _ (length members) Hdeck Hlen)
    as (h0 & h1 & hs & Eh & Hh0 & Hh1).
  fold hands in Eh.
  assert (Hids : map _id (mapi_from 0 mk (sortBy key members))
                 = seq 0 (length (sortBy key members))).
  { rewrite mapi_from_map. unfold mk. simpl. apply mapi_from_index. }
  assert (Husers : map userId (mapi_from 0 mk (sortBy key members))
                   = map memberUserId (sortBy key members)).
  { rewrite mapi_from_map. unfold mk. simpl. apply mapi_from_plain. }
  assert (Hseats : 2 <= seatsWithCards (mapi_from 0 mk (sortBy key members))).
  { destruct (sortBy key members) as [|m0 [|m1 rest]]; simpl in Hsl; try lia.
    simpl mapi_from. unfold seatsWithCards. simpl filter.
    unfold holdsCards at 1 2. unfold mk at 1 2. simpl hand. rewrite Eh. simpl nth.
    destruct h0; [congruence|]. destruct h1; [congruence|]. simpl. lia. }
  remember (mapi_from 0 mk (sortBy key members)) as players eqn:Ep.
  assert (Hlp : length players = length members).
  { rewrite Ep, mapi_from_length. exact Hsl. }
  destruct (sortBy key members) as [|m0 rest]; [discriminate|].
  inversion Hs; subst w; clear Hs.
  constructor; unfold userIds, leaderEmptyHanded; simpl;
    try (intros; discriminate).
  - rewrite Hids. apply seq_NoDup.
  - rewrite Husers. eapply Permutation_NoDup; [|exact Hnd].
    symmetry. apply (Permutation_map memberUserId) in Hperm. exact Hperm.
  - lia.
  - intros _. left. exact Hseats.
  - intros _. split; [constructor|intros ? []].
  - intros _ ? ? [].
  - intros _. split; [constructor|]. intros ? _ [].
  - intros _ Hx. congruence.
Qed.

(** * Loops of patches as updates by user *)

Lemma keyOf_id p q : keyOf p = keyOf q -> _id p = _id q.
Proof. unfold keyOf. congruence. Qed.

Lemma keyOf_user p q : keyOf p = keyOf q -> userId p = userId q.
Proof. unfold keyOf. congruence. Qed.

Lemma keepsKey_setHand h : keepsKey (setHand h).
Proof. intros p. reflexivity. Qed.

Lemma keepsKey_setSeatHand i h : keepsKey (setSeatHand i h).
Proof. intros p. reflexivity. Qed.

Lemma coherent_refl l : coherent l l.
Proof. intros p Hp. exists p. auto. Qed.

Lemma coherent_perm db snap : Permutation snap db -> coherent db snap.
Proof.
  intros Hperm p Hp. exists p. split; [|reflexivity].
  eapply Permutation_in; [symmetry; exact Hperm|exact Hp].
Qed.

Lemma coherent_updUser db snap u f :
  keepsKey f -> coherent db snap -> coherent (updUser u f db) snap.
Proof.
  intros Hf Hc p Hp. unfold updUser in Hp. apply in_map_iff in Hp as [p0 [E Hp0]].
  destruct (Hc p0 Hp0) as [q [Hq Hk]]. exists q. split; [exact Hq|].
  rewrite Hk. subst p. destruct (userId p0 =? u); [symmetry; apply Hf|reflexivity].
Qed.

Lemma patch_id_user db snap gp f :
  NoDup (map _id snap) -> NoDup (map userId snap) ->
  coherent db snap -> In gp snap ->
  map (fun p => if _id p =? _id gp then f p else p) db = updUser (userId gp) f db.
Proof.
  intros Hid Hus Hc Hgp. unfold updUser. apply map_ext_in. intros p Hp.
  destruct (Hc p Hp) as [q [Hq Hk]].
  pose proof (keyOf_id _ _ Hk) as Ki. pose proof (keyOf_user _ _ Hk) as Ku.
  destruct (_id p =? _id gp) eqn:E1, (userId p =? userId gp) eqn:E2; try reflexivity.
  - apply Nat.eqb_eq in E1. apply Nat.eqb_neq in E2. exfalso. apply E2.
    assert (q = gp) by (apply (NoDup_map_eq _ _ _id snap); auto; congruence).
    congruence.
  - apply Nat.eqb_neq in E1. apply Nat.eqb_eq in E2. exfalso. apply E1.
    assert (q = gp) by (apply (NoDup_map_eq _ _ userId snap); auto; congruence).
    congruence.
Qed.

Lemma updUser_absent db snap u f :
  coherent db snap -> find (fun q => userId q =? u) snap = None ->
  updUser u f db = db.
Proof.
  intros Hc Hn. unfold updUser. rewrite <- (map_id db) at 2.
  apply map_ext_in. intros p Hp. destruct (Hc p Hp) as [q [Hq Hk]].
  destruct (userId p =? u) eqn:E; [|reflexivity].
  exfalso. apply Nat.eqb_eq in E. apply (find_user_None _ _ Hn).
  apply keyOf_user in Hk. rewrite <- E, <- Hk. now apply in_map.
Qed.

Lemma forEach_applyUps A (l : list A) (body : A -> M unit)
      (up : A -> UserId * (GamePlayer -> GamePlayer)) snap :
  (forall x, keepsKey (snd (up x))) ->
  (forall x w, In x l -> coherent (gamePlayers w) snap ->
     body x w = (Ok tt, mkWorld (gameState w)
                                (updUser (fst (up x)) (snd (up x)) (gamePlayers w)))) ->
  forall w, coherent (gamePlayers w) snap ->
    forEach l body w =
    (Ok tt, mkWorld (gameState w) (applyUps (map up l) (gamePlayers w))).
Proof.
  intros Hk. induction l as [|x t IH]; intros Hb w Hc; simpl.
  - unfold ret. destruct w; reflexivity.
  - unfold bind. rewrite (Hb x w (or_introl eq_refl) Hc).
    rewrite IH.
    + reflexivity.
    + intros y w' Hy. apply Hb. now right.
    + simpl. apply coherent_updUser; [apply Hk|exact Hc].
Qed.

Lemma updUser_keys u f db : keepsKey f -> map keyOf (updUser u f db) = map keyOf db.
Proof.
  intros Hf. unfold updUser. rewrite map_map. apply map_ext. intros p.
  destruct (userId p =? u); [apply Hf|reflexivity].
Qed.

Lemma applyUps_keys ups db :
  (forall uf, In uf ups -> keepsKey (snd uf)) ->
  map keyOf (applyUps ups db) = map keyOf db.
Proof.
  revert db. induction ups as [|uf t IH]; intros db Hk; simpl; [reflexivity|].
  unfold applyUps in *. simpl. rewrite IH.
  - apply updUser_keys. apply Hk. now left.
  - intros uf' H. apply Hk. now right.
Qed.

Lemma keys_ids l l' : map keyOf l = map keyOf l' -> map _id l = map _id l'.
Proof.
  intros H. apply (f_equal (map fst)) in H. rewrite !map_map in H. exact H.
Qed.

Lemma keys_users l l' : map keyOf l = map keyOf l' -> map userId l = map userId l'.
Proof.
  intros H. apply (f_equal (map snd)) in H. rewrite !map_map in H. exact H.
Qed.

Lemma keys_length l l' : map keyOf l = map keyOf l' -> length l = length l'.
Proof.
  intros H. apply (f_equal (@length _)) in H. rewrite !length_map in H. exact H.
Qed.

Lemma applyUps_others ups db u (f : GamePlayer -> GamePlayer) :
  (forall p, In p db -> userId p = u -> exists q, p = f q) ->
  (forall uf, In uf ups -> fst uf <> u /\ keepsKey (snd uf)) ->
  forall p, In p (applyUps ups db) -> userId p = u -> exists q, p = f q.
Proof.
  revert db. induction ups as [|[u' f'] t IH]; intros db Hdb Hups; [exact Hdb|].
  unfold applyUps in *. simpl. apply IH.
  - intros p Hp Hu. unfold updUser in Hp. apply in_map_iff in Hp as [p0 [E Hp0]].
    destruct (Hups (u', f') (or_introl eq_refl)) as [Hne Hk]. simpl in Hne, Hk.
    destruct (userId p0 =? u') eqn:E'.
    + exfalso. apply Nat.eqb_eq in E'. subst p.
      pose proof (keyOf_user _ _ (Hk p0)). congruence.
    + subst p. apply Hdb; assumption.
  - intros uf H. apply Hups. now right.
Qed.

Lemma applyUps_last ups1 u f ups2 db :
  (forall uf, In uf ups2 -> fst uf <> u /\ keepsKey (snd uf)) ->
  forall p, In p (applyUps (ups1 ++ (u, f) :: ups2) db) -> userId p = u ->
            exists q, p = f q.
Proof.
  intros Hups. unfold applyUps. rewrite fold_left_app. simpl.
  apply (applyUps_others ups2 _ u f); [|exact Hups].
  intros p Hp Hu. unfold updUser in Hp. apply in_map_iff in Hp as [p0 [E Hp0]].
  destruct (userId p0 =? u) eqn:E'.
  - eauto.
  - apply Nat.eqb_neq in E'. subst p. contradiction.
Qed.

Lemma world_eta w : mkWorld (gameState w) (gamePlayers w) = w.
Proof. destruct w; reflexivity. Qed.

Lemma reseatLoop_run snap complete fo sorted nh hands n w :
  NoDup (map _id snap) -> NoDup (map userId snap) ->
  coherent (gamePlayers w) snap ->
  reseatLoop snap complete fo sorted nh hands n w =
  (Ok tt, mkWorld (gameState w)
                  (applyUps (map (reseatUp complete fo sorted nh hands) (seq 0 n))
                            (gamePlayers w))).
Proof.
  intros Hid Hus Hc. unfold reseatLoop.
  apply (forEach_applyUps _ _ _ (reseatUp complete fo sorted nh hands) snap);
    [intros i; apply keepsKey_setSeatHand| |exact Hc].
  intros i w' _ Hc'. unfold reseatUp. simpl fst. simpl snd.
  destruct (find _ snap) as [gp|] eqn:E.
  - apply find_user_In in E as [Hgp Hu]. unfold patchPlayer.
    rewrite (patch_id_user _ snap gp _ Hid Hus Hc' Hgp), Hu. reflexivity.
  - rewrite (updUser_absent _ snap _ _ Hc' E). unfold ret. now rewrite world_eta.
Qed.

Lemma swapLoop_run players hb w :
  NoDup (map _id players) -> NoDup (map userId players) ->
  coherent (gamePlayers w) players ->
  swapLoop players hb w =
  (Ok tt, mkWorld (gameState w) (applyUps (map (swapUp hb) players) (gamePlayers w))).
Proof.
  intros Hid Hus Hc. unfold swapLoop.
  apply (forEach_applyUps _ _ _ (swapUp hb) players);
    [intros p; apply keepsKey_setHand| |exact Hc].
  intros p w' Hp Hc'. unfold swapUp. simpl fst. simpl snd. unfold patchPlayer.
  rewrite (patch_id_user _ players p _ Hid Hus Hc' Hp). reflexivity.
Qed.

Lemma restartPlayers_perm gs ps : Permutation (restartPlayers gs ps) ps.
Proof.
  unfold restartPlayers. destruct (0 <? _); [reflexivity|apply sortBy_perm].
Qed.

Lemma reseatUp_keeps complete fo sorted nh hands l :
  forall uf, In uf (map (reseatUp complete fo sorted nh hands) l) -> keepsKey (snd uf).
Proof.
  intros uf H. apply in_map_iff in H as [i [<- _]]. apply keepsKey_setSeatHand.
Qed.

Lemma swapUp_keeps hb l :
  forall uf, In uf (map (swapUp hb) l) -> keepsKey (snd uf).
Proof.
  intros uf H. apply in_map_iff in H as [i [<- _]]. apply keepsKey_setHand.
Qed.

Lemma restartLoop_players w rnd :
  Inv w ->
  gamePlayers (snd (restartLoop (gameState w) (gamePlayers w) rnd w)) =
  applyUps (map (reseatUp (length (orEmpty (finishedOrder (gameState w)))
                            =? length (gamePlayers w))
                          (orEmpty (finishedOrder (gameState w)))
                          (sortBySeat (restartPlayers (gameState w) (gamePlayers w)))
                          (restartHandsByOrder (gameState w) (gamePlayers w) rnd)
                          (restartHands (gameState w) (gamePlayers w) rnd))
                (seq 0 (length (gamePlayers w))))
           (gamePlayers w).
Proof.
  intros HI. unfold restartLoop.
  pose proof (restartPlayers_perm (gameState w) (gamePlayers w)) as Hperm.
  rewrite (reseatLoop_run (restartPlayers (gameState w) (gamePlayers w))).
  - reflexivity.
  - eapply Permutation_NoDup; [|apply (inv_ids w HI)].
    symmetry. now apply Permutation_map.
  - eapply Permutation_NoDup; [|apply (inv_users w HI)].
    symmetry. now apply Permutation_map.
  - now apply coherent_perm.
Qed.

(** Without a complete finish order the two lowest seats get the two
    first hands, which are not empty. *)
Lemma restart_seats w rnd :
  Inv w -> phase (gameState w) = round_ended ->
  length (orEmpty (finishedOrder (gameState w))) <> length (gamePlayers w) ->
  2 <= seatsWithCards (gamePlayers (snd (restartLoop (gameState w) (gamePlayers w) rnd w))).
Proof.
  intros HI Hp Hinc. rewrite (restartLoop_players w rnd HI).
  apply Nat.eqb_neq in Hinc. rewrite Hinc.
  pose proof (restartPlayers_perm (gameState w) (gamePlayers w)) as Hperm.
  pose proof (inv_two w HI) as Hn.
  assert (Hcards : 2 <= length (shuffleArray rnd
             (flat_map hand (restartPlayers (gameState w) (gamePlayers w))
              ++ discardPile (gameState w)))).
  { rewrite shuffleArray_length, length_app.
    rewrite (Permutation_length (Permutation_flat_map hand Hperm)).
    apply (inv_ended w HI Hp). }
  destruct (distribute_two _ _ (length (gamePlayers w)) Hcards Hn)
    as (h0 & h1 & hs & Eh & Hh0 & Hh1).
  change (distributeEvenly _ _) with (restartHands (gameState w) (gamePlayers w) rnd) in Eh.
  rewrite Eh. clear Eh Hcards.
  set (gs := gameState w) in *. set (ps := gamePlayers w) in *.
  set (snap := restartPlayers gs ps) in *.
  set (sorted := sortBySeat snap).
  set (up := reseatUp false _ sorted _ (h0 :: h1 :: hs)).
  assert (Hsp : Permutation sorted ps).
  { unfold sorted. etransitivity; [apply sortBy_perm|exact Hperm]. }
  assert (Hsl : length sorted = length ps) by (apply Permutation_length; exact Hsp).
  assert (Hsnd : NoDup (map userId sorted)).
  { eapply Permutation_NoDup; [|apply (inv_users w HI)].
    symmetry. now apply Permutation_map. }
  destruct sorted as [|s0 [|s1 srest]] eqn:Es; simpl in Hsl; try lia.
  destruct (length ps) as [|[|k]] eqn:En; try lia.
  assert (Hseq : seq 0 (S (S k)) = 0 :: 1 :: seq 2 k) by reflexivity.
  rewrite Hseq. simpl map.
  simpl in Hsnd. apply NoDup_cons_iff in Hsnd as [Hn0 Hnd1].
  apply NoDup_cons_iff in Hnd1 as [Hn1 Hnd2].
  assert (Hlate : forall uf, In uf (map up (seq 2 k)) ->
            fst uf <> userId s0 /\ fst uf <> userId s1 /\ keepsKey (snd uf)).
  { intros uf Huf. apply in_map_iff in Huf as [j [<- Hj]]. apply in_seq in Hj.
    unfold up, reseatUp. simpl fst. simpl snd. unfold seatUser.
    destruct j as [|[|j]]; try lia. simpl nth_error.
    destruct (nth_error srest j) as [sj|] eqn:Ej.
    - apply nth_error_In in Ej. apply (in_map userId) in Ej.
      repeat split; try apply keepsKey_setSeatHand.
      + intros E. apply Hn0. right. congruence.
      + intros E. apply Hn1. congruence.
    - apply nth_error_None in Ej. simpl in Hsl. lia. }
  assert (Hu01 : userId s0 <> userId s1).
  { intros E. apply Hn0. left. congruence. }
  set (ps' := applyUps (up 0 :: up 1 :: map up (seq 2 k)) ps).
  assert (Hkeys : map keyOf ps' = map keyOf ps).
  { apply applyUps_keys. intros uf [<-|[<-|H]]; try apply keepsKey_setSeatHand.
    apply (Hlate uf H). }
  assert (H0 : forall p, In p ps' -> userId p = userId s0 -> hand p = h0).
  { intros p Hin Hu.
    assert (Hex : exists q, p = setSeatHand 0 h0 q).
    { apply (applyUps_last [] (userId s0) (setSeatHand 0 h0)
                           (up 1 :: map up (seq 2 k)) ps); [|exact Hin|exact Hu].
      intros uf [<-|H].
      - split; [|apply keepsKey_setSeatHand]. simpl. congruence.
      - destruct (Hlate uf H) as (A & _ & C). auto. }
    destruct Hex as [q ->]. reflexivity. }
  assert (H1 : forall p, In p ps' -> userId p = userId s1 -> hand p = h1).
  { intros p Hin Hu.
    assert (Hex : exists q, p = setSeatHand 1 h1 q).
    { apply (applyUps_last [up 0] (userId s1) (setSeatHand 1 h1)
                           (map up (seq 2 k)) ps); [|exact Hin|exact Hu].
      intros uf H. destruct (Hlate uf H) as (_ & B & C). auto. }
    destruct Hex as [q ->]. reflexivity. }
  assert (Hin0 : In (userId s0) (map userId ps')).
  { rewrite (keys_users _ _ Hkeys). eapply Permutation_in.
    - apply (Permutation_map userId Hsp).
    - left. reflexivity. }
  assert (Hin1 : In (userId s1) (map userId ps')).
  { rewrite (keys_users _ _ Hkeys). eapply Permutation_in.
    - apply (Permutation_map userId Hsp).
    - right. left. reflexivity. }
  apply in_map_iff in Hin0 as [p0 [Hp0 Hi0]]. apply in_map_iff in Hin1 as [p1 [Hp1 Hi1]].
  apply (two_holders ps' p0 p1 Hi0 Hi1).
  - intros E. subst p1. congruence.
  - apply holdsCards_true. rewrite (H0 p0 Hi0 Hp0). exact Hh0.
  - apply holdsCards_true. rewrite (H1 p1 Hi1 Hp1). exact Hh1.
Qed.

Lemma pairs_nil_incomplete fo n :
  2 <= n -> buildExchangePairs fo n = [] -> length fo < n.
Proof.
  intros Hn E. unfold buildExchangePairs in E.
  destruct (n <=? length fo) eqn:L; [|apply Nat.leb_gt in L; exact L].
  destruct ((n =? 2) || (n =? 3)) eqn:E23; [discriminate|].
  destruct (4 <=? n) eqn:E4; [discriminate|].
  apply orb_false_iff in E23 as [A B].
  apply Nat.eqb_neq in A, B. apply Nat.leb_gt in E4. lia.
Qed.

Lemma pairs_some_complete fo n :
  buildExchangePairs fo n <> [] -> n <= length fo.
Proof.
  intros E. unfold buildExchangePairs in E.
  destruct (n <=? length fo) eqn:L; [apply Nat.leb_le in L; exact L|congruence].
Qed.

Lemma Inv_restartRound w isAdmin rnd now :
  Inv w -> accepted (restartRound isAdmin rnd now) w ->
  Inv (after (restartRound isAdmin rnd now) w).
Proof.
  intros HI Hacc.
  apply restartRound_accepted in Hacc as (Hp & leader & Hl & E). rewrite E. clear E.
  set (ps' := gamePlayers (snd (restartLoop (gameState w) (gamePlayers w) rnd w))).
  assert (Hkeys : map keyOf ps' = map keyOf (gamePlayers w)).
  { unfold ps'. rewrite (restartLoop_players w rnd HI). apply applyUps_keys.
    apply reseatUp_keeps. }
  pose proof (keys_ids _ _ Hkeys) as Kid.
  pose proof (keys_users _ _ Hkeys) as Kus.
  pose proof (keys_length _ _ Hkeys) as Klen.
  assert (Hph : phase (gameState w) <> exchange) by (rewrite Hp; discriminate).
  destruct (inv_finished w HI Hph) as [Fnd Fincl].
  set (fo := orEmpty (finishedOrder (gameState w))) in *.
  set (n := length (gamePlayers w)) in *.
  assert (Hfolen : length fo <= n).
  { unfold n. rewrite <- (length_map userId). apply NoDup_incl_length; assumption. }
  pose proof (inv_two w HI) as Hn. fold n in Hn.
  destruct (buildExchangePairs fo n) as [|pr prs] eqn:Epairs.
  - (* straight back to play *)
    assert (Hinc : length fo <> n).
    { pose proof (pairs_nil_incomplete fo n Hn Epairs). lia. }
    pose proof (restart_seats w rnd HI Hp Hinc) as Hseats. fold ps' in Hseats.
    constructor; unfold userIds, leaderEmptyHanded; simpl; rewrite ?Kid, ?Kus, ?Klen;
      try (intros; discriminate).
    + apply (inv_ids w HI).
    + apply (inv_users w HI).
    + exact Hn.
    + intros _. left. exact Hseats.
    + intros _. split; [constructor|intros ? []].
    + intros _ ? ? [].
    + intros _. split; [constructor|]. intros ? _ [].
    + intros _ Hx. congruence.
  - (* the exchange opens *)
    assert (Hcomplete : length fo = n).
    { assert (n <= length fo) by (apply pairs_some_complete; rewrite Epairs; discriminate).
      lia. }
    constructor; unfold userIds, leaderEmptyHanded; simpl; rewrite ?Kid, ?Kus, ?Klen;
      try (intros; discriminate).
    + apply (inv_ids w HI).
    + apply (inv_users w HI).
    + exact Hn.
    + intros _. split; [constructor|intros ? []].
    + intros _. exists fo. fold n. rewrite Epairs.
      repeat split; auto.
      unfold firstLeader in Hl. fold fo in Hl.
      destruct fo as [|u rest]; [simpl in Hcomplete; lia|]. simpl in Hl. simpl.
      congruence.
Qed.

(** * The swap *)

Lemma mapGet_set_eq V k (v : V) m : mapGet k (mapSet k v m) = Some v.
Proof.
  induction m as [|[k' v'] t IH]; simpl.
  - now rewrite Nat.eqb_refl.
  - destruct (k' =? k) eqn:E; simpl; [now rewrite Nat.eqb_refl|]. rewrite E. exact IH.
Qed.

Lemma mapGet_set_neq V k k' (v : V) m : k <> k' -> mapGet k (mapSet k' v m) = mapGet k m.
Proof.
  intros Hne. induction m as [|[k2 v2] t IH]; simpl.
  - destruct (k' =? k) eqn:E; [apply Nat.eqb_eq in E; congruence|reflexivity].
  - destruct (k2 =? k') eqn:E; simpl.
    + apply Nat.eqb_eq in E. subst k2.
      destruct (k' =? k) eqn:E'; [apply Nat.eqb_eq in E'; congruence|reflexivity].
    + destruct (k2 =? k); [reflexivity|exact IH].
Qed.

Lemma applyPair_to sels m p sel :
  findSel (fromUserId p) sels = Some sel ->
  length (selCardIds sel) = count p ->
  mapGet (toUserId p) (applyPair sels m p) =
  Some (orEmpty (mapGet (toUserId p) m) ++ selCardIds sel).
Proof.
  intros Hf Hl. unfold applyPair. rewrite Hf.
  apply Nat.eqb_eq in Hl. rewrite Hl. simpl. apply mapGet_set_eq.
Qed.

Lemma applyPair_other sels m p u :
  u <> fromUserId p -> u <> toUserId p ->
  mapGet u (applyPair sels m p) = mapGet u m.
Proof.
  intros H1 H2. unfold applyPair.
  destruct (findSel (fromUserId p) sels) as [sel|]; [|reflexivity].
  destruct (negb _); [reflexivity|].
  rewrite mapGet_set_neq by exact H2. apply mapGet_set_neq. exact H1.
Qed.

Lemma allIn_pair pairs sels p :
  allIn pairs sels = true -> In p pairs ->
  exists sel, findSel (fromUserId p) sels = Some sel /\
              length (selCardIds sel) = count p.
Proof.
  intros Hall Hp. unfold allIn in Hall. rewrite forallb_forall in Hall.
  specialize (Hall p Hp). destruct (findSel (fromUserId p) sels) as [sel|]; [|discriminate].
  exists sel. split; [reflexivity|]. now apply Nat.eqb_eq.
Qed.

(** Once the swap loop has run, the record of a user holds the hand the
    map has for that user. *)
Lemma swapLoop_hand ps hb w p0 :
  NoDup (map _id ps) -> NoDup (map userId ps) -> gamePlayers w = ps ->
  In p0 ps ->
  forall p', In p' (gamePlayers (snd (swapLoop ps hb w))) ->
             userId p' = userId p0 -> hand p' = handAfterExchange hb p0.
Proof.
  intros Hid Hus Hw Hp0 p' Hp' Hu.
  rewrite (swapLoop_run ps hb w Hid Hus) in Hp'
    by (rewrite Hw; apply coherent_refl).
  simpl in Hp'. rewrite Hw in Hp'.
  destruct (in_split _ _ Hp0) as (l1 & l2 & El).
  assert (Hex : exists q, p' = setHand (handAfterExchange hb p0) q).
  { apply (applyUps_last (map (swapUp hb) l1) (userId p0) _ (map (swapUp hb) l2) ps);
      [| |exact Hu].
    - intros uf Huf. apply in_map_iff in Huf as [q [<- Hq]]. simpl.
      split; [|apply keepsKey_setHand].
      rewrite El, map_app in Hus. simpl in Hus. apply NoDup_remove_2 in Hus.
      intros E. apply Hus. apply in_or_app. right. rewrite <- E. now apply in_map.
    - rewrite El in Hp' at 1. rewrite map_app in Hp'. exact Hp'. }
  destruct Hex as [q ->]. reflexivity.
Qed.

Lemma swapLoop_keys ps hb w :
  NoDup (map _id ps) -> NoDup (map userId ps) -> gamePlayers w = ps ->
  map keyOf (gamePlayers (snd (swapLoop ps hb w))) = map keyOf ps.
Proof.
  intros Hid Hus Hw.
  rewrite (swapLoop_run ps hb w Hid Hus) by (rewrite Hw; apply coherent_refl).
  simpl. rewrite Hw. apply applyUps_keys. apply swapUp_keeps.
Qed.

Lemma handAfterExchange_some hb p h :
  mapGet (userId p) hb = Some h -> handAfterExchange hb p = h.
Proof. unfold handAfterExchange. intros ->. reflexivity. Qed.

Lemma app_sel_nonempty (h : list Card) sel k :
  length (selCardIds sel) = S k -> h ++ selCardIds sel <> [].
Proof.
  intros Hl E. apply (f_equal (@length _)) in E. rewrite length_app in E. simpl in E. lia.
Qed.

Section ExchangeDone.

Variables (w : World) (sels : list ExchangeSelection).
Hypothesis HI : Inv w.
Hypothesis Hp : phase (gameState w) = exchange.
Hypothesis Hall : allIn (orEmpty (exchangePairs (gameState w))) sels = true.

Let ps := gamePlayers w.
Let hb := exchangedHands ps (orEmpty (exchangePairs (gameState w))) sels.
Let ps' := gamePlayers (snd (swapLoop ps hb w)).

Lemma exchange_keys : map keyOf ps' = map keyOf ps.
Proof.
  apply swapLoop_keys; [apply (inv_ids w HI)|apply (inv_users w HI)|reflexivity].
Qed.

Lemma exchange_record u :
  In u (userIds w) ->
  exists p0 p', In p0 ps /\ userId p0 = u /\ In p' ps' /\ userId p' = u /\
                hand p' = handAfterExchange hb p0.
Proof.
  intros Hu. unfold userIds in Hu. apply in_map_iff in Hu as [p0 [Hu0 Hin0]].
  assert (Hu' : In u (map userId ps')).
  { rewrite (keys_users _ _ exchange_keys). rewrite <- Hu0. now apply in_map. }
  apply in_map_iff in Hu' as [p' [Hu' Hin']].
  exists p0, p'. repeat split; auto.
  apply (swapLoop_hand ps hb w p0); auto.
  - apply (inv_ids w HI).
  - apply (inv_users w HI).
  - congruence.
Qed.

Lemma exchange_holder u h :
  In u (userIds w) -> mapGet u hb = Some h -> h <> [] ->
  exists p', In p' ps' /\ userId p' = u /\ holdsCards p' = true.
Proof.
  intros Hu Hg Hne. destruct (exchange_record u Hu) as (p0 & p' & H0 & Hu0 & H' & Hu' & Hh).
  exists p'. repeat split; auto. apply holdsCards_true. rewrite Hh.
  rewrite (handAfterExchange_some hb p0 h); [exact Hne|congruence].
Qed.

Lemma exchange_all_of_user u p0 :
  In p0 ps -> userId p0 = u ->
  forall gp, find (fun p => userId p =? u) ps' = Some gp ->
             hand gp = handAfterExchange hb p0.
Proof.
  intros H0 Hu0 gp Hf. apply find_user_In in Hf as [Hin Hu].
  apply (swapLoop_hand ps hb w p0); auto.
  - apply (inv_ids w HI).
  - apply (inv_users w HI).
  - congruence.
Qed.

(** After the swap two seats hold cards, or the recorded leader holds
    none. *)
Lemma exchange_seats :
  2 <= seatsWithCards ps' \/
  (forall leader gp, roundLeaderId (gameState w) = Some leader ->
     find (fun p => userId p =? leader) ps' = Some gp -> hand gp = []).
Proof.
  destruct (inv_exchange w HI Hp)
    as (fo & Fnd & Fincl & Flen & Epairs & Elead & _).
  pose proof (inv_two w HI) as Hn.
  fold ps in Flen, Epairs, Hn.
  set (n := length ps) in *.
  assert (Hnth : forall i, i < n -> In (nth i fo 0) (userIds w)).
  { intros i Hi. apply Fincl. apply nth_In. lia. }
  assert (Hdiff : forall i j, i < n -> j < n -> i <> j -> nth i fo 0 <> nth j fo 0).
  { intros i j Hi Hj Hij E. apply Hij.
    apply (proj1 (NoDup_nth fo 0) Fnd); try lia; try exact E. }
  assert (Ehb : hb = fold_left (applyPair sels) (buildExchangePairs fo n)
                       (mapOfEntries (map (fun p => (userId p, hand p)) ps))).
  { unfold hb, exchangedHands. rewrite Epairs. reflexivity. }
  rewrite Epairs in Hall. simpl orEmpty in Hall.
  unfold buildExchangePairs in Ehb, Hall. rewrite Flen, Nat.leb_refl in Ehb, Hall.
  set (m0 := mapOfEntries (map (fun p => (userId p, hand p)) ps)) in *.
  destruct ((n =? 2) || (n =? 3)) eqn:E23.
  - (* winner and loser swap one card *)
    set (W := nth 0 fo 0) in *. set (L := nth (n - 1) fo 0) in *.
    assert (HWL : W <> L) by (apply Hdiff; lia).
    destruct (allIn_pair _ sels (mkPair W L 1) Hall) as (selW & HfW & HlW);
      [right; left; reflexivity|].
    simpl fold_left in Ehb.
    set (m1 := applyPair sels m0 (mkPair L W 1)) in *.
    assert (GL : mapGet L hb = Some (orEmpty (mapGet L m1) ++ selCardIds selW)).
    { rewrite Ehb. apply (applyPair_to sels m1 (mkPair W L 1) selW HfW HlW). }
    destruct (exchange_holder L _ (Hnth (n - 1) ltac:(lia)) GL
                (app_sel_nonempty _ selW 0 HlW)) as (pL & HpL & HuL & HcL).
    destruct (exchange_record W (Hnth 0 ltac:(lia)))
      as (p0 & pW & H0 & Hu0 & HpW & HuW & HhW).
    destruct (handAfterExchange hb p0) as [|c hW] eqn:EhW.
    + right. intros leader gp El Hf. rewrite Elead in El. inversion El; subst leader.
      fold W in Hf. rewrite (exchange_all_of_user W p0 H0 Hu0 gp Hf). exact EhW.
    + left. apply (two_holders _ pW pL HpW HpL).
      * intros E. subst pL. congruence.
      * apply holdsCards_true. rewrite HhW. discriminate.
      * exact HcL.
  - (* first and last swap two cards, second and second-last one *)
    apply orb_false_iff in E23 as [E2 E3]. apply Nat.eqb_neq in E2, E3.
    assert (Hn4 : 4 <= n) by lia.
    replace (4 <=? n) with true in Ehb, Hall by (symmetry; now apply Nat.leb_le).
    set (A := nth 0 fo 0) in *. set (D := nth (n - 1) fo 0) in *.
    set (B := nth 1 fo 0) in *. set (C := nth (n - 2) fo 0) in *.
    assert (HAB : A <> B) by (apply Hdiff; lia).
    assert (HAC : A <> C) by (apply Hdiff; lia).
    destruct (allIn_pair _ sels (mkPair D A 2) Hall) as (selD & HfD & HlD);
      [right; left; reflexivity|].
    destruct (allIn_pair _ sels (mkPair C B 1) Hall) as (selC & HfC & HlC);
      [right; right; right; left; reflexivity|].
    simpl fold_left in Ehb.
    set (m1 := applyPair sels m0 (mkPair A D 2)) in *.
    set (m2 := applyPair sels m1 (mkPair D A 2)) in *.
    set (m3 := applyPair sels m2 (mkPair B C 1)) in *.
    assert (GA : mapGet A hb = Some (orEmpty (mapGet A m1) ++ selCardIds selD)).
    { rewrite Ehb. rewrite applyPair_other by (simpl; congruence).
      unfold m3. rewrite applyPair_other by (simpl; congruence).
      apply (applyPair_to sels m1 (mkPair D A 2) selD HfD HlD). }
    assert (GB : mapGet B hb = Some (orEmpty (mapGet B m3) ++ selCardIds selC)).
    { rewrite Ehb. apply (applyPair_to sels m3 (mkPair C B 1) selC HfC HlC). }
    destruct (exchange_holder A _ (Hnth 0 ltac:(lia)) GA (app_sel_nonempty _ selD 1 HlD))
      as (pA & HpA & HuA & HcA).
    destruct (exchange_holder B _ (Hnth 1 ltac:(lia)) GB (app_sel_nonempty _ selC 0 HlC))
      as (pB & HpB & HuB & HcB).
    left. apply (two_holders _ pA pB HpA HpB); auto.
    intros E. subst pB. congruence.
Qed.

End ExchangeDone.

Lemma Inv_submit w user cardIds now :
  Inv w -> accepted (submitExchangeSelection user cardIds now) w ->
  Inv (after (submitExchangeSelection user cardIds now) w).
Proof.
  intros HI Hacc.
  apply submit_accepted in Hacc as (mp & gp & HG & E). rewrite E. clear E.
  assert (Hp : phase (gameState w) = exchange) by apply HG.
  destruct (inv_exchange w HI Hp)
    as (fo & Fnd & Fincl & Flen & Epairs & Elead & Ecount & Epassed & Efin).
  destruct (completes w user cardIds) eqn:Hc.
  - (* the exchange completes *)
    unfold completes in Hc.
    pose proof (exchange_keys w (selectionsAfter (gameState w) user cardIds) HI) as Hkeys.
    pose proof (exchange_seats w (selectionsAfter (gameState w) user cardIds) HI Hp Hc)
      as Hseats.
    cbv zeta in Hkeys, Hseats.
    set (ps' := gamePlayers (snd (swapLoop _ _ w))) in *.
    pose proof (keys_ids _ _ Hkeys) as Kid.
    pose proof (keys_users _ _ Hkeys) as Kus.
    pose proof (keys_length _ _ Hkeys) as Klen.
    constructor; unfold userIds, leaderEmptyHanded; simpl; rewrite ?Kid, ?Kus, ?Klen;
      try (intros; discriminate).
    + apply (inv_ids w HI).
    + apply (inv_users w HI).
    + apply (inv_two w HI).
    + intros _. destruct Hseats as [H|H]; [left; exact H|right].
      split; [exact Ecount|]. intros u gp' Hu Hf. apply (H u gp' Hu Hf).
    + intros _. rewrite Efin. split; [constructor|intros ? []].
    + intros _ u gp'. rewrite Efin. intros [].
    + intros _. rewrite Epassed. split; [constructor|]. intros ? _ [].
    + intros _ Hx. congruence.
  - (* obligations stay open *)
    constructor; unfold userIds; simpl;
      try (intros Hx; rewrite Hp in Hx; discriminate);
      try (intros Hx; congruence).
    + apply (inv_ids w HI).
    + apply (inv_users w HI).
    + apply (inv_two w HI).
    + intros _. exists fo. repeat split; auto.
Qed.

(** A deal of no card gives every seat the empty hand. *)
Lemma distributeLoop_nil A b r p idx fuel h :
  In h (distributeLoop (@nil A) b r p idx fuel) -> h = [].
Proof.
  revert p idx. induction fuel as [|f IH]; intros p idx; simpl; [intros []|].
  intros [<-|Hin]; [|exact (IH _ _ Hin)].
  unfold slice. rewrite skipn_nil. apply firstn_nil.
Qed.

Lemma distributeEvenly_nil A n i :
  nth i (distributeEvenly (@nil A) n) [] = [].
Proof.
  destruct (Nat.lt_ge_cases i (length (distributeEvenly (@nil A) n))) as [Hlt|Hge].
  - unfold distributeEvenly in *. cbv zeta in *.
    eapply distributeLoop_nil. apply nth_In. exact Hlt.
  - now apply nth_overflow.
Qed.

(** The game started on no card: every hand is empty, the table is
    clear and the turn is with the first seat. *)
Lemma Inv_start_empty members rnd now w :
  NoDup (map memberUserId members) ->
  2 <= length members ->
  insertGame [] members rnd now = Ok w ->
  Inv w.
Proof.
  intros Hnd Hlen Hs. unfold insertGame in Hs. cbv zeta in Hs.
  set (key := fun m => match memberSeatIndex m with Some i => i | None => 999 end) in *.
  set (hands := distributeEvenly (shuffleArray rnd []) (length members)) in *.
  set (mk := fun (m : RoomMember) (i : nat) =>
              mkGamePlayer i (memberUserId m) i (nth i hands [])) in *.
  pose proof (sortBy_perm _ key members) as Hperm.
  pose proof (Permutation_length Hperm) as Hsl.
  assert (Hids : map _id (mapi_from 0 mk (sortBy key members))
                 = seq 0 (length (sortBy key members))).
  { rewrite mapi_from_map. unfold mk. simpl. apply mapi_from_index. }
  assert (Husers : map userId (mapi_from 0 mk (sortBy key members))
                   = map memberUserId (sortBy key members)).
  { rewrite mapi_from_map. unfold mk. simpl. apply mapi_from_plain. }
  assert (Hhands : forall gp, In gp (mapi_from 0 mk (sortBy key members)) -> hand gp = []).
  { intros gp Hgp. apply (in_map hand) in Hgp. rewrite mapi_from_map in Hgp.
    unfold mk in Hgp. cbn [hand] in Hgp.
    assert (Hall : forall k l, In (hand gp)
                     (mapi_from k (fun (_ : RoomMember) (i : nat) => nth i hands []) l) ->
                   hand gp = []).
    { intros k l. revert k. induction l as [|x t IHl]; intros k; simpl; [intros []|].
      intros [<-|Hin]; [|exact (IHl _ Hin)].
      unfold hands. change (shuffleArray rnd (@nil Card)) with (@nil Card).
      apply distributeEvenly_nil. }
    exact (Hall _ _ Hgp). }
  remember (mapi_from 0 mk (sortBy key members)) as players eqn:Ep.
  assert (Hlp : length players = length members).
  { rewrite Ep, mapi_from_length. exact Hsl. }
  destruct (sortBy key members) as [|m0 rest]; [discriminate|].
  inversion Hs; subst w; clear Hs.
  constructor; unfold userIds, leaderEmptyHanded; simpl;
    try (intros; discriminate).
  - rewrite Hids. apply seq_NoDup.
  - rewrite Husers. eapply Permutation_NoDup; [|exact Hnd].
    symmetry. apply (Permutation_map memberUserId) in Hperm. exact Hperm.
  - lia.
  - intros _. right. split; [reflexivity|].
    intros u gp _ Hf. apply Hhands. apply find_some in Hf. apply Hf.
  - intros _. split; [constructor|intros ? []].
  - intros _ ? ? [].
  - intros _. split; [constructor|]. intros ? _ [].
  - intros _ Hx. congruence.
Qed.

(** Every reachable state satisfies the invariant. *)
Lemma reachable_Inv w : reachable w -> Inv w.
Proof.
  induction 1 as [members deckCount rnd now w Hnd Hs
                 |members rnd now w Hnd Hlen Hs
                 |w a now Hr IH Hacc].
  - exact (Inv_start members deckCount rnd now w Hnd Hs).
  - exact (Inv_start_empty members rnd now w Hnd Hlen Hs).
  - destruct a as [user cardIds|user|isAdmin rnd|user cardIds]; simpl in *.
    + now apply Inv_playCards.
    + now apply Inv_pass.
    + now apply Inv_restartRound.
    + now apply Inv_submit.
Qed.

(** * Round end *)





(** * Passing *)

(** C5. From a reachable state, an accepted pass clears the table and
    returns the turn to the author of the standing play if and only if
    the rotation search finds no eligible seat, or finds the author and
    the distinct passers (the actor included) number at least the player
    count minus one; when the table clears, the standing-play descriptor
    is reset and the passed set is emptied. *)
Theorem pass_clears_iff (w : World) (user : UserId) (now : nat) :
  reachable w ->
  accepted (pass user now) w ->
  let gs := gameState w in
  let gs' := gameState (after (pass user now) w) in
  let passers := passedUserIds gs ++ [user] in
  exists next,
    passNext w user = Ok next /\
    ((lastPlayedCount gs' = 0 /\ currentTurnUserId gs' = lastPlayedBy gs) <->
     (next = None \/
      exists author, next = Some author /\ lastPlayedBy gs = Some author /\
                     length (gamePlayers w) - 1 <= distinctPassers passers)) /\
    (lastPlayedCount gs' = 0 ->
     lastPlayedRank gs' = None /\ lastPlayedBy gs' = None /\ passedUserIds gs' = []).
Proof.
  intros Hr Hacc. pose proof (reachable_Inv w Hr) as HI.
  apply pass_accepted in Hacc as (next & HG & Hn & E).
  cbv zeta. rewrite E. clear E. simpl gameState.
  destruct HG as (Hp & Ht & Hc). apply turnIs_true in Ht.
  destruct (inv_passed w HI Hp) as [Pnd Pturn].
  assert (Hdist : distinctPassers (passedUserIds (gameState w) ++ [user])
                  = length (passedUserIds (gameState w) ++ [user])).
  { unfold distinctPassers. rewrite nodup_fixed_point; [reflexivity|].
    apply NoDup_app; [exact Pnd|constructor; [intros []|constructor]|].
    intros u Hu [<-|[]]. exact (Pturn user Ht Hu). }
  rewrite Hdist.
  exists next. split; [exact Hn|].
  unfold stateAfterPass.
  destruct next as [nx|].
  - unfold fullPassAround.
    destruct (lastPlayedBy (gameState w)) as [author|] eqn:El.
    + destruct ((nx =? author) && (length (gamePlayers w) <=?
                  length (passedUserIds (gameState w) ++ [user]) + 1)) eqn:Ef.
      * apply andb_true_iff in Ef as [E1 E2].
        apply Nat.eqb_eq in E1. apply Nat.leb_le in E2. subst author. simpl.
        split; [|auto]. split; [|auto].
        intros _. right. exists nx. repeat split; auto. lia.
      * simpl. split; [|intros; contradiction].
        split; [intros [H _]; contradiction|].
        intros [H|(a & Ha & Hb & Hl)]; [discriminate|].
        inversion Ha; subst a. inversion Hb; subst author.
        rewrite Nat.eqb_refl in Ef. simpl in Ef. apply Nat.leb_gt in Ef. lia.
    + simpl. split; [|intros; contradiction].
      split; [intros [H _]; contradiction|].
      intros [H|(a & Ha & Hb & Hl)]; discriminate.
  - simpl. split; [|auto]. split; auto.
Qed.

Lemma quietRun_passed w0 user :
  reachable w0 -> phase (gameState w0) = play ->
  In user (passedUserIds (gameState w0)) ->
  forall w, quietRun w0 w ->
    reachable w /\ phase (gameState w) = play /\ In user (passedUserIds (gameState w)).
Proof.
  intros Hr0 Hp0 Hin0 w Hq. induction Hq as [|w a now Hq IH Hacc Hst]; [auto|].
  destruct IH as (Hr & Hp & Hin).
  split; [now apply reach_step|].
  unfold standing in Hst.
  destruct a as [actor cardIds|actor|isAdmin rnd|actor cardIds]; simpl in *.
  - apply playCards_accepted in Hacc as (gp & nh & nx & HG & Hn & E).
    rewrite E in *. clear E. simpl in *. unfold stateAfterPlay in *. cbv zeta in *.
    destruct (endsRound (gamePlayers w) gp nh); simpl in *; [congruence|].
    split; [exact Hp|].
    destruct (length nh =? 0); simpl in *; [congruence|].
    destruct nx; simpl in *; [exact Hin|congruence].
  - apply pass_accepted in Hacc as (next & HG & Hn & E).
    rewrite E in *. clear E. simpl in *. unfold stateAfterPass in *.
    destruct next as [nx|]; simpl in *; [|congruence].
    destruct (fullPassAround _ _ _ _); simpl in *; [congruence|].
    split; [exact Hp|]. apply in_or_app. now left.
  - apply restartRound_accepted in Hacc as (Hp' & _). congruence.
  - apply submit_accepted in Hacc as (mp & gp & HG & _).
    destruct HG as (Hp' & _). congruence.
Qed.

(** C6. After an accepted pass that leaves a play standing, in every
    state reached without the table clearing the passing seat is still
    in the passed set and does not hold the turn, and no rotation search
    run from such a state (by a play or by a pass of a seated actor)
    selects it. *)
Theorem passer_skipped_until_clear (w : World) (user : UserId) (now : nat) :
  reachable w ->
  accepted (pass user now) w ->
  standing (after (pass user now) w) ->
  forall w2, quietRun (after (pass user now) w) w2 ->
    In user (passedUserIds (gameState w2)) /\
    currentTurnUserId (gameState w2) <> Some user /\
    (forall actor gp nh r,
       find (fun p => userId p =? actor) (gamePlayers w2) = Some gp ->
       playNext w2 actor gp nh = Ok r -> r <> Some user) /\
    (forall actor r,
       In actor (userIds w2) -> passNext w2 actor = Ok r -> r <> Some user).
Proof.
  intros Hr Hacc Hst w2 Hq.
  assert (Hr1 : reachable (after (pass user now) w)).
  { apply (reach_step w (APass user) now Hr Hacc). }
  assert (H1 : phase (gameState (after (pass user now) w)) = play /\
               In user (passedUserIds (gameState (after (pass user now) w)))).
  { unfold standing in Hst.
    apply pass_accepted in Hacc as (next & HG & Hn & E). rewrite E in *. clear E.
    destruct HG as (Hp & _). simpl in *. unfold stateAfterPass in *.
    destruct next as [nx|]; simpl in *; [|congruence].
    destruct (fullPassAround _ _ _ _); simpl in *; [congruence|].
    split; [exact Hp|]. apply in_or_app. right. now left. }
  destruct H1 as [Hp1 Hin1].
  destruct (quietRun_passed _ user Hr1 Hp1 Hin1 w2 Hq) as (Hr2 & Hp2 & Hin2).
  pose proof (reachable_Inv w2 Hr2) as HI2.
  split; [exact Hin2|]. split; [|split].
  - intros Ht. destruct (inv_passed w2 HI2 Hp2) as [_ Pturn]. exact (Pturn user Ht Hin2).
  - intros actor gp nh r Hf Hn Er. subst r.
    destruct (playNext_ok w2 actor gp nh Hf) as (r' & Hn' & Hs).
    rewrite Hn in Hn'. inversion Hn'; subst r'.
    destruct (Hs user eq_refl) as (_ & _ & Hnot). contradiction.
  - intros actor r Ha Hn Er. subst r.
    destruct (passNext_ok w2 actor Ha) as (r' & Hn' & Hs).
    rewrite Hn in Hn'. inversion Hn'; subst r'.
    destruct (Hs user eq_refl) as (_ & _ & Hnot).
    apply Hnot. apply in_or_app. now left.
Qed.

(** * Two games played out *)

Lemma runAll_reachable l w w' : reachable w -> runAll l w = Ok w' -> reachable w'.
Proof.
  revert w. induction l as [|a t IH]; intros w Hr H; simpl in H.
  - inversion H; subst. exact Hr.
  - destruct (run a 0 w) as [[[]|e] w1] eqn:E; [|discriminate].
    apply (IH w1); [|exact H].
    replace w1 with (after (run a 0) w) by (unfold after; now rewrite E).
    apply reach_step; [exact Hr|]. unfold accepted. now rewrite E.
Qed.

Lemma threeStartWorld_reachable : reachable threeStartWorld.
Proof.
  apply (reach_start [mkMember 1 (Some 0); mkMember 2 (Some 1); mkMember 3 (Some 2)]
                     None keepOrder 0).
  - repeat constructor; simpl; intuition discriminate.
  - vm_compute. reflexivity.
Qed.

Lemma beforeLastCard_reachable : reachable beforeLastCard.
Proof.
  apply (runAll_reachable threeTrace threeStartWorld);
    [exact threeStartWorld_reachable|vm_compute; reflexivity].
Qed.

Lemma afterLastCard_reachable : reachable afterLastCard.
Proof.
  apply (runAll_reachable [APlay 1 ["KS"]] beforeLastCard);
    [exact beforeLastCard_reachable|vm_compute; reflexivity].
Qed.

Lemma afterFirstLead_reachable : reachable afterFirstLead.
Proof.
  apply (runAll_reachable [APlay 1 ["3S"]] threeStartWorld);
    [exact threeStartWorld_reachable|vm_compute; reflexivity].
Qed.

Lemma twoStartWorld_reachable : reachable twoStartWorld.
Proof.
  apply (reach_start [mkMember 1 (Some 0); mkMember 2 (Some 1)] None keepOrder 0).
  - repeat constructor; simpl; intuition discriminate.
  - vm_compute. reflexivity.
Qed.

Lemma lastPairLeft_reachable : reachable lastPairLeft.
Proof.
  apply (runAll_reachable twoTrace twoStartWorld);
    [exact twoStartWorld_reachable|vm_compute; reflexivity].
Qed.

Lemma roundOver_reachable : reachable roundOver.
Proof.
  apply (runAll_reachable [APlay 1 ["KS"; "KH"]] lastPairLeft);
    [exact lastPairLeft_reachable|vm_compute; reflexivity].
Qed.

Lemma exchangeOpen_reachable : reachable exchangeOpen.
Proof.
  apply (runAll_reachable [ARestart true keepOrder] roundOver);
    [exact roundOver_reachable|vm_compute; reflexivity].
Qed.

Lemma conserved_by_splice d w :
  length (cardsInPlay w) = d * 52 ->
  (exists rest, spliceAll (cardsInPlay w) (buildDeck d) = Some rest) ->
  conserved d w.
Proof.
  intros Hl Hs. split; [exact Hl|]. now apply spliceAll_subMultiset.
Qed.

(** * Conservation of the deck pool *)

Lemma spliceOne_perm cid hnd h' :
  spliceOne cid hnd = Some h' -> Permutation hnd (cid :: h').
Proof.
  revert h'. induction hnd as [|x t IH]; simpl; intros h' H; [discriminate|].
  destruct (String.eqb x cid) eqn:E.
  - apply String.eqb_eq in E. inversion H; subst. reflexivity.
  - destruct (spliceOne cid t) as [t'|]; [|discriminate]. inversion H; subst.
    rewrite (IH t' eq_refl). apply perm_swap.
Qed.

Lemma spliceAll_perm sel hnd h' :
  spliceAll sel hnd = Some h' -> Permutation hnd (h' ++ sel).
Proof.
  revert hnd h'. induction sel as [|x t IH]; simpl; intros hnd h' H.
  - inversion H; subst. now rewrite app_nil_r.
  - destruct (spliceOne x hnd) as [h1|] eqn:E; [|discriminate].
    rewrite (spliceOne_perm _ _ _ E), (IH _ _ H).
    apply Permutation_cons_app. reflexivity.
Qed.

Lemma playersAfterPlay_split l1 gp l2 nh :
  NoDup (map _id (l1 ++ gp :: l2)) ->
  playersAfterPlay (l1 ++ gp :: l2) gp nh = l1 ++ setHand nh gp :: l2.
Proof.
  intros Hnd. unfold playersAfterPlay. rewrite map_app. simpl. rewrite Nat.eqb_refl.
  rewrite map_app in Hnd. simpl in Hnd. apply NoDup_remove_2 in Hnd.
  f_equal; [|f_equal]; rewrite <- map_id; apply map_ext_in; intros p Hp;
    destruct (_id p =? _id gp) eqn:E; try reflexivity;
    apply Nat.eqb_eq in E; exfalso; apply Hnd; apply in_or_app;
    [left|right]; rewrite <- E; now apply in_map.
Qed.

(** An accepted play that does not clear the table, or that ends the
    round, moves the played cards from the hand to the pile and loses
    none. *)
Lemma play_keeps_the_pool w user sel now :
  Inv w -> accepted (playCards user sel now) w ->
  standing (after (playCards user sel now) w) \/
  phase (gameState (after (playCards user sel now) w)) = round_ended ->
  Permutation (cardsInPlay (after (playCards user sel now) w)) (cardsInPlay w).
Proof.
  intros HI Hacc Hkeep.
  apply playCards_accepted in Hacc as (gp & nh & nx & HG & Hn & E).
  rewrite E in *. clear E.
  pose proof (play_phase w user sel gp nh HG) as Hp.
  pose proof (play_gp w user sel gp nh HG) as [Hgp _].
  assert (Hs : spliceAll sel (hand gp) = Some nh) by apply HG.
  apply spliceAll_perm in Hs.
  assert (Hdiscard : discardPile (stateAfterPlay (gameState w) (gamePlayers w) gp nh
                        (playRankOf sel) user sel now nx)
                     = discardPile (gameState w) ++ sel).
  { unfold standing, stateAfterPlay in *. cbv zeta in *. simpl in Hkeep.
    destruct (endsRound _ _ _); simpl in *; [reflexivity|].
    destruct ((length nh =? 0) || _); simpl in *; [|reflexivity].
    destruct Hkeep; congruence. }
  unfold cardsInPlay. simpl gamePlayers. simpl gameState. rewrite Hdiscard.
  destruct (in_split _ _ Hgp) as (l1 & l2 & El).
  pose proof (inv_ids w HI) as Hnd. rewrite El in *.
  rewrite (playersAfterPlay_split l1 gp l2 nh Hnd).
  rewrite !flat_map_app. simpl flat_map. rewrite Hs.
  rewrite <- !app_assoc. do 2 apply Permutation_app_head.
  rewrite app_assoc. apply Permutation_app_comm.
Qed.

(** An accepted pass leaves the pool as it is. *)
Lemma pass_keeps_the_pool w user now :
  accepted (pass user now) w ->
  cardsInPlay (after (pass user now) w) = cardsInPlay w.
Proof.
  intros Hacc. apply pass_accepted in Hacc as (next & _ & _ & E). rewrite E.
  unfold cardsInPlay, stateAfterPass. simpl.
  destruct next as [nx|]; [destruct (fullPassAround _ _ _ _)|]; reflexivity.
Qed.


(** C1 (defect in the code). Hands and discard pile are meant to make
    up the deck pool at all times.  In a three-player, one-deck game the
    pool is intact from the deal up to the moment the first player is
    left with one card; when that card is played, playCards clears the
    table by writing an empty discard pile, and the 18 cards played so
    far are in no hand and no pile any more: 34 cards remain of 52. *)
Theorem cards_vanish_when_a_play_clears_the_table :
  reachable threeStartWorld /\ conserved 1 threeStartWorld /\
  reachable beforeLastCard /\ conserved 1 beforeLastCard /\
  accepted (playCards 1 ["KS"] 0) beforeLastCard /\
  after (playCards 1 ["KS"] 0) beforeLastCard = afterLastCard /\
  reachable afterLastCard /\
  discardPile (gameState afterLastCard) = [] /\
  length (cardsInPlay afterLastCard) = 34 /\
  ~ conserved 1 afterLastCard.
Proof.
  split; [exact threeStartWorld_reachable|].
  split; [apply conserved_by_splice; [reflexivity|vm_compute; eauto]|].
  split; [exact beforeLastCard_reachable|].
  split; [apply conserved_by_splice; [reflexivity|vm_compute; eauto]|].
  split; [vm_compute; reflexivity|].
  split; [vm_compute; reflexivity|].
  split; [exact afterLastCard_reachable|].
  split; [reflexivity|]. split; [reflexivity|].
  intros [Hl _]. vm_compute in Hl. discriminate.
Qed.

(** The swap of submitExchangeSelection checks and removes the selected
    cards through a Set: a giver owing two cards may name the one card
    held twice; the giver loses it once and the receiver gets it twice. *)
Lemma exchange_can_duplicate_a_card :
  exists w, runAll fourSubmissions fourExchange = Ok w /\
    length (cardsInPlay fourExchange) = 12 /\
    count_occ string_dec (cardsInPlay fourExchange) "AS" = 1 /\
    length (cardsInPlay w) = 13 /\
    count_occ string_dec (cardsInPlay w) "AS" = 2.
Proof.
  eexists. split; [vm_compute; reflexivity|]. vm_compute. auto.
Qed.

(** * The turn counter during the exchange *)

(** C7 as stated fails: in the exchange opened by the restart of a
    two-player game, the loser's submission is accepted and leaves
    obligations open; the stored turnNumber stays 24, it does not
    become 25. *)
Lemma turn_counter_counterexample :
  reachable exchangeOpen /\
  accepted (run (ASubmit 2 ["AS"]) 0) exchangeOpen /\
  turnNumber (gameState exchangeOpen) = 24 /\
  turnNumber (gameState (after (run (ASubmit 2 ["AS"]) 0) exchangeOpen)) = 24 /\
  turnNumber (gameState (after (run (ASubmit 2 ["AS"]) 0) exchangeOpen))
  <> turnNumber (gameState exchangeOpen) + 1.
Proof.
  split; [exact exchangeOpen_reachable|].
  split; [vm_compute; reflexivity|].
  split; [reflexivity|]. split; [vm_compute; reflexivity|].
  vm_compute. discriminate.
Qed.

(** * The theorems at work on the two games *)


Lemma restart_exchange_obligations_witness :
  accepted (restartRound true keepOrder 0) roundOver /\
  buildExchangePairs (orEmpty (finishedOrder (gameState roundOver)))
                     (length (gamePlayers roundOver))
  = [mkPair 2 1 1; mkPair 1 2 1].
Proof.
  split; [vm_compute; reflexivity|].
  destruct (restart_exchange_obligations true keepOrder 0 roundOver
              ltac:(vm_compute; reflexivity)) as (_ & _ & H23 & _).
  exact (H23 eq_refl (or_introl eq_refl)).
Defined.

Lemma pass_clears_iff_witness :
  reachable afterFirstLead /\
  accepted (pass 2 0) afterFirstLead /\
  exists next,
    passNext afterFirstLead 2 = Ok next /\
    ((lastPlayedCount (gameState (after (pass 2 0) afterFirstLead)) = 0 /\
      currentTurnUserId (gameState (after (pass 2 0) afterFirstLead))
      = lastPlayedBy (gameState afterFirstLead)) <->
     (next = None \/
      exists author, next = Some author /\
        lastPlayedBy (gameState afterFirstLead) = Some author /\
        length (gamePlayers afterFirstLead) - 1
        <= distinctPassers (passedUserIds (gameState afterFirstLead) ++ [2]))) /\
    (lastPlayedCount (gameState (after (pass 2 0) afterFirstLead)) = 0 ->
     lastPlayedRank (gameState (after (pass 2 0) afterFirstLead)) = None /\
     lastPlayedBy (gameState (after (pass 2 0) afterFirstLead)) = None /\
     passedUserIds (gameState (after (pass 2 0) afterFirstLead)) = []).
Proof.
  split; [exact afterFirstLead_reachable|].
  split; [vm_compute; reflexivity|].
  apply (pass_clears_iff afterFirstLead 2 0).
  - exact afterFirstLead_reachable.
  - vm_compute; reflexivity.
Defined.

Lemma passer_skipped_until_clear_witness :
  reachable afterFirstLead /\
  accepted (pass 2 0) afterFirstLead /\
  standing (after (pass 2 0) afterFirstLead) /\
  quietRun (after (pass 2 0) afterFirstLead)
           (after (run (APlay 3 ["TD"]) 0) (after (pass 2 0) afterFirstLead)) /\
  In 2 (passedUserIds
          (gameState (after (run (APlay 3 ["TD"]) 0) (after (pass 2 0) afterFirstLead)))) /\
  currentTurnUserId
    (gameState (after (run (APlay 3 ["TD"]) 0) (after (pass 2 0) afterFirstLead)))
  <> Some 2.
Proof.
  assert (Hst : standing (after (pass 2 0) afterFirstLead))
    by (vm_compute; discriminate).
  assert (Hq : quietRun (after (pass 2 0) afterFirstLead)
                 (after (run (APlay 3 ["TD"]) 0) (after (pass 2 0) afterFirstLead))).
  { apply quiet_next.
    - apply quiet_here.
    - vm_compute; reflexivity.
    - vm_compute; discriminate. }
  split; [exact afterFirstLead_reachable|].
  split; [vm_compute; reflexivity|].
  split; [exact Hst|]. split; [exact Hq|].
  destruct (passer_skipped_until_clear afterFirstLead 2 0 afterFirstLead_reachable
              ltac:(vm_compute; reflexivity) Hst _ Hq) as (H1 & H2 & _).
  split; [exact H1|exact H2].
Defined.

Lemma turn_counter_step_witness :
  accepted (run (APlay 1 ["3S"]) 0) threeStartWorld /\
  turnNumber (gameState (after (run (APlay 1 ["3S"]) 0) threeStartWorld))
  = turnNumber (gameState threeStartWorld) + 1 /\
  accepted (run (ASubmit 2 ["AS"]) 0) exchangeOpen /\
  turnNumber (gameState (after (run (ASubmit 2 ["AS"]) 0) exchangeOpen))
  = turnNumber (gameState exchangeOpen).
Proof.
  split; [vm_compute; reflexivity|]. split.
  - apply (turn_counter_step (APlay 1 ["3S"]) 0 threeStartWorld).
    vm_compute; reflexivity.
  - split; [vm_compute; reflexivity|].
    apply (turn_counter_step (ASubmit 2 ["AS"]) 0 exchangeOpen).
    vm_compute; reflexivity.
Defined.

Lemma resubmission_is_idempotent_witness :
  accepted (submitExchangeSelection 2 ["AS"] 0) exchangeOpen /\
  completes exchangeOpen 2 ["AS"] = false /\
  accepted (submitExchangeSelection 2 ["AS"] 5)
           (after (submitExchangeSelection 2 ["AS"] 0) exchangeOpen) /\
  after (submitExchangeSelection 2 ["AS"] 5)
        (after (submitExchangeSelection 2 ["AS"] 0) exchangeOpen)
  = after (submitExchangeSelection 2 ["AS"] 0) exchangeOpen /\
  filter (fun s => selFrom s =? 2)
         (orEmpty (exchangeSelections
            (gameState (after (submitExchangeSelection 2 ["AS"] 0) exchangeOpen))))
  = [mkSel 2 ["AS"]].
Proof.
  split; [vm_compute; reflexivity|].
  split; [vm_compute; reflexivity|].
  apply (resubmission_is_idempotent 2 ["AS"] 0 5 exchangeOpen).
  - vm_compute; reflexivity.
  - vm_compute; reflexivity.
Defined.

Lemma rejected_request_leaves_state_witness :
  rejected (run (APass 1) 0) threeStartWorld /\
  after (run (APass 1) 0) threeStartWorld = threeStartWorld.
Proof.
  assert (Hrej : rejected (run (APass 1) 0) threeStartWorld).
  { exists EMustLead. vm_compute. reflexivity. }
  split; [exact Hrej|].
  apply (rejected_request_leaves_state (APass 1) 0 threeStartWorld Hrej).
Defined.

Lemma pass_leaves_hands_and_discard_witness :
  accepted (pass 2 0) afterFirstLead /\
  gamePlayers (after (pass 2 0) afterFirstLead) = gamePlayers afterFirstLead /\
  discardPile (gameState (after (pass 2 0) afterFirstLead))
  = discardPile (gameState afterFirstLead).
Proof.
  split; [vm_compute; reflexivity|].
  destruct (pass_leaves_hands_and_discard 2 0 afterFirstLead
              ltac:(vm_compute; reflexivity)) as (H1 & H2 & _).
  split; [exact H1|exact H2].
Defined.

(** * The strength order of the ranks *)

(** [rankValue] is the position in the strength order of the rules. *)
Lemma specRankValue_rankValue r i :
  specRankValue r = Some i -> rankValue (Some r) = i.
Proof.
  unfold specRankValue.
  repeat match goal with
         | |- context [String.eqb r ?s] =>
             destruct (String.eqb_spec r s) as [->|?];
             [intros E; injection E as <-; reflexivity|]
         end.
  discriminate.
Qed.

(** The ranks of the rules are the thirteen ranks of a deck. *)
Lemma specRankValue_RANKS r :
  In r RANKS <-> exists i, specRankValue r = Some i.
Proof.
  split.
  - intros H. simpl in H.
    repeat (destruct H as [<-|H]; [eexists; reflexivity|]). contradiction.
  - intros [i H]. unfold specRankValue in H.
    repeat match type of H with
           | context [String.eqb r ?s] =>
               destruct (String.eqb_spec r s) as [->|?]; [simpl; tauto|]
           end.
    discriminate.
Qed.

Lemma afterLeadOfSeven_reachable : reachable afterLeadOfSeven.
Proof.
  apply (runAll_reachable [APlay 1 ["7S"]] threeStartWorld);
    [exact threeStartWorld_reachable|vm_compute; reflexivity].
Qed.

(** C2. A play is accepted if and only if the phase is play, the actor
    holds the turn, the selection is a sub-multiset of the actor's hand,
    the selection without its 2s has at most one distinct rank and is
    not made of 2s only, and the table is clear or the selection is at
    least as long as the standing count and its effective rank is the
    same as or stronger than the standing rank.  Same or stronger is the
    order of the rules, strongest first 2, A, K, Q, J, 10, 9, ..., 3: on
    the thirteen ranks the comparison of the code is the comparison of
    their positions in that sequence, so on a table where a play of a
    real rank stands a selection of a real rank is accepted exactly when
    the other conditions hold and its rank does not come later in the
    sequence than the standing one.  A play of ["2S"] alone is rejected
    in every state; ["2S"; "2H"; "5C"] led by the holder of a full deck
    is accepted and stands as a play of rank 5 and size 3.  On a standing
    seven, in a game that is being played, a six, a three and a six with
    a 2 are refused, while a seven, a king, an ace and an eight with a 2
    are accepted. *)
Theorem play_accepted_iff_legal :
  (forall w user sel now,
     accepted (playCards user sel now) w <-> legalPlay w user sel) /\
  (forall w user now, rejected (playCards user ["2S"] now) w) /\
  (exists w0, twoDeckStart = Ok w0 /\
     accepted (playCards 1 ["2S"; "2H"; "5C"] 0) w0 /\
     let gs' := gameState (after (playCards 1 ["2S"; "2H"; "5C"] 0) w0) in
     lastPlayedCount gs' = 3 /\ lastPlayedRank gs' = Some "5" /\
     lastPlayedBy gs' = Some 1) /\
  (forall r s i j,
     specRankValue r = Some i -> specRankValue s = Some j ->
     (sameOrStronger (Some r) (Some s) <-> i <= j)) /\
  (forall w user sel now r s i j,
     standing w ->
     lastPlayedRank (gameState w) = Some s ->
     effectiveRank sel (Some r) ->
     specRankValue r = Some i -> specRankValue s = Some j ->
     (accepted (playCards user sel now) w <->
      phase (gameState w) = play /\
      holdsTurn w user /\
      (exists hnd, actorHand w user = Some hnd /\ subMultiset sel hnd) /\
      atMostOneRank sel /\
      lastPlayedCount (gameState w) <= length sel /\
      i <= j)) /\
  (reachable afterLeadOfSeven /\
   holdsTurn afterLeadOfSeven 2 /\
   lastPlayedCount (gameState afterLeadOfSeven) = 1 /\
   lastPlayedRank (gameState afterLeadOfSeven) = Some "7" /\
   rejected (playCards 2 ["6H"] 0) afterLeadOfSeven /\
   rejected (playCards 2 ["3D"] 0) afterLeadOfSeven /\
   rejected (playCards 2 ["2D"; "6H"] 0) afterLeadOfSeven /\
   accepted (playCards 2 ["7H"] 0) afterLeadOfSeven /\
   accepted (playCards 2 ["KH"] 0) afterLeadOfSeven /\
   accepted (playCards 2 ["AD"] 0) afterLeadOfSeven /\
   accepted (playCards 2 ["2D"; "8H"] 0) afterLeadOfSeven).
Proof.
  assert (Hiff : forall w user sel now,
             accepted (playCards user sel now) w <-> legalPlay w user sel).
  { intros w user sel now. rewrite playCards_accepted_iff. apply playGuards_iff_legal. }
  assert (Hord : forall r s i j,
             specRankValue r = Some i -> specRankValue s = Some j ->
             (sameOrStronger (Some r) (Some s) <-> i <= j)).
  { intros r s i j Hr Hs. unfold sameOrStronger.
    rewrite (specRankValue_rankValue r i Hr), (specRankValue_rankValue s j Hs).
    reflexivity. }
  split; [exact Hiff|]. split; [|split; [|split; [exact Hord|split]]].
  - intros w user now. apply not_accepted_rejected. rewrite playCards_accepted_iff.
    rewrite playGuards_iff_legal. intros (_ & _ & _ & _ & Hnw & _). apply Hnw.
    intros c [<-|[]]. reflexivity.
  - eexists. split; [vm_compute; reflexivity|].
    split; [vm_compute; reflexivity|]. vm_compute. auto.
  - intros w user sel now r s i j Hst Hs Hr Hi Hj.
    rewrite Hiff. unfold legalPlay, tableClear. unfold standing in Hst.
    rewrite Hs. split.
    + intros (Hp & Ht & Hh & H1 & _ & [H0|[Hc (r' & Hr' & Hle)]]); [contradiction|].
      rewrite <- (effectiveRank_unique sel (Some r) r' H1 Hr Hr') in Hle.
      apply (Hord r s i j Hi Hj) in Hle. tauto.
    + intros (Hp & Ht & Hh & H1 & Hc & Hle).
      repeat (split; [assumption|]). split.
      * destruct Hr as (c & Hin & Hw & _). intros Hall. apply Hw, Hall, Hin.
      * right. split; [exact Hc|]. exists (Some r). split; [exact Hr|].
        apply (Hord r s i j Hi Hj). exact Hle.
  - split; [exact afterLeadOfSeven_reachable|].
    split; [reflexivity|]. split; [reflexivity|]. split; [reflexivity|].
    split; [exists ESameOrHigher; vm_compute; reflexivity|].
    split; [exists ESameOrHigher; vm_compute; reflexivity|].
    split; [exists ESameOrHigher; vm_compute; reflexivity|].
    repeat split; vm_compute; reflexivity.
Qed.

(** * More of games.js: decks, shuffling and dealing *)

Lemma nth_error_set_nth A i j (x : A) l :
  nth_error (set_nth i x l) j =
  if i =? j then (if i <? length l then Some x else None) else nth_error l j.
Proof.
  revert i j. induction l as [|y t IH]; intros i j.
  - simpl. destruct (i =? j), i, j; reflexivity.
  - destruct i as [|i], j as [|j]; simpl; try reflexivity.
    rewrite IH. destruct (i =? j); [|reflexivity].
    destruct (i <? length t) eqn:E1, (S i <? S (length t)) eqn:E2; try reflexivity.
    + apply Nat.ltb_lt in E1. apply Nat.ltb_ge in E2. lia.
    + apply Nat.ltb_ge in E1. apply Nat.ltb_lt in E2. lia.
Qed.

Lemma set_nth_perm A i (x a : A) l :
  nth_error l i = Some a -> Permutation (x :: l) (a :: set_nth i x l).
Proof.
  revert i. induction l as [|y t IH]; intros i H.
  - destruct i; discriminate.
  - destruct i as [|i]; simpl in *.
    + inversion H; subst. apply perm_swap.
    + rewrite perm_swap. rewrite (IH i H). apply perm_swap.
Qed.

Lemma swap_perm A i j (l : list A) : Permutation (swap i j l) l.
Proof.
  unfold swap.
  destruct (nth_error l i) as [a|] eqn:Ei; [|reflexivity].
  destruct (nth_error l j) as [b|] eqn:Ej; [|reflexivity].
  assert (Hj : nth_error (set_nth i b l) j = Some b).
  { rewrite nth_error_set_nth. destruct (i =? j) eqn:E; [|exact Ej].
    assert (i < length l) by (apply nth_error_Some; congruence).
    replace (i <? length l) with true by (symmetry; now apply Nat.ltb_lt). reflexivity. }
  apply (Permutation_cons_inv (a := b)).
  rewrite <- (set_nth_perm _ j a b (set_nth i b l) Hj).
  symmetry. apply set_nth_perm. exact Ei.
Qed.

Lemma shuffleLoop_perm A rnd i (l : list A) : Permutation (shuffleLoop rnd i l) l.
Proof.
  revert l. induction i as [|i IH]; intros l; simpl; [reflexivity|].
  rewrite IH. apply swap_perm.
Qed.

Lemma shuffleArray_perm A rnd (l : list A) : Permutation (shuffleArray rnd l) l.
Proof. apply shuffleLoop_perm. Qed.

(** X1. Whatever the random draws, [shuffleArray] returns a
    permutation of its argument (every element kept, with its
    multiplicity), of the same length. *)
Theorem shuffleArray_is_a_permutation (A : Type) (rnd : nat -> nat) (arr : list A) :
  Permutation (shuffleArray rnd arr) arr /\
  length (shuffleArray rnd arr) = length arr.
Proof.
  split; [apply shuffleArray_perm|apply shuffleArray_length].
Qed.

Lemma firstn_plus A (l : list A) a b :
  firstn (a + b) l = firstn a l ++ firstn b (skipn a l).
Proof.
  revert l. induction a as [|a IH]; intros l; simpl; [reflexivity|].
  destruct l as [|x t]; simpl.
  - now rewrite firstn_nil.
  - now rewrite IH.
Qed.

Lemma slice_app A (l : list A) a b c :
  a <= b -> b <= c -> slice a b l ++ slice b c l = slice a c l.
Proof.
  intros Hab Hbc. unfold slice.
  replace (c - a) with ((b - a) + (c - b)) by lia.
  rewrite firstn_plus. f_equal.
  rewrite skipn_skipn. replace (b - a + a) with b by lia. reflexivity.
Qed.

Lemma slice_all A (l : list A) : slice 0 (length l) l = l.
Proof. unfold slice. simpl. rewrite Nat.sub_0_r. apply firstn_all. Qed.

Lemma slice_length A (l : list A) a b :
  b <= length l -> length (slice a b l) = b - a.
Proof.
  intros Hb. unfold slice. rewrite length_firstn, length_skipn. lia.
Qed.

(** The loop, stated over its own counters: what it returns from seat
    [p] on is the deck cut at the running sums. *)
Lemma distributeLoop_spec A (deck : list A) n p fuel :
  distributeLoop deck (length deck / n) (length deck mod n) p
                 (sharesBefore (length deck) n p) fuel
  = map (fun q => slice (sharesBefore (length deck) n q)
                        (sharesBefore (length deck) n (S q)) deck)
        (seq p fuel).
Proof.
  revert p. induction fuel as [|f IH]; intros p; simpl; [reflexivity|].
  f_equal. apply (IH (S p)).
Qed.

Lemma sharesBefore_mono total n p q :
  p <= q -> sharesBefore total n p <= sharesBefore total n q.
Proof.
  induction 1 as [|q Hle IH]; [lia|]. simpl. lia.
Qed.

Lemma sharesBefore_closed total n p :
  sharesBefore total n p = p * (total / n) + Nat.min p (total mod n).
Proof.
  induction p as [|p IH]; [reflexivity|].
  simpl sharesBefore. rewrite IH. unfold shareOf.
  destruct (Nat.ltb_spec p (total mod n)); lia.
Qed.

Lemma sharesBefore_all total n : 0 < n -> sharesBefore total n n = total.
Proof.
  intros Hn. rewrite sharesBefore_closed.
  pose proof (Nat.mod_upper_bound total n ltac:(lia)).
  pose proof (Nat.div_mod_eq total n). lia.
Qed.

Lemma concat_slices A (deck : list A) (f : nat -> nat) p fuel :
  (forall q, f q <= f (S q)) ->
  concat (map (fun q => slice (f q) (f (S q)) deck) (seq p fuel))
  = slice (f p) (f (p + fuel)) deck.
Proof.
  intros Hf. revert p. induction fuel as [|k IH]; intros p; simpl.
  - rewrite Nat.add_0_r. unfold slice. rewrite Nat.sub_diag. reflexivity.
  - rewrite IH. replace (p + S k) with (S p + k) by lia. apply slice_app.
    + apply Hf.
    + clear IH. induction k as [|k IHk]; [rewrite Nat.add_0_r; lia|].
      rewrite Nat.add_succ_r. etransitivity; [exact IHk|apply Hf].
Qed.

Lemma distributeEvenly_slices A (deck : list A) n :
  distributeEvenly deck n =
  map (fun q => slice (sharesBefore (length deck) n q)
                      (sharesBefore (length deck) n (S q)) deck)
      (seq 0 n).
Proof.
  unfold distributeEvenly. cbv zeta. apply (distributeLoop_spec A deck n 0 n).
Qed.

Lemma distributeEvenly_concat A (deck : list A) n :
  0 < n -> concat (distributeEvenly deck n) = deck.
Proof.
  intros Hn. rewrite distributeEvenly_slices, concat_slices.
  - simpl. rewrite (sharesBefore_all _ _ Hn). apply slice_all.
  - intros q. simpl. lia.
Qed.

Lemma distributeEvenly_share A (deck : list A) n p :
  p < n -> length (nth p (distributeEvenly deck n) []) = shareOf (length deck) n p.
Proof.
  intros Hp. rewrite distributeEvenly_slices.
  set (g := fun q => slice (sharesBefore (length deck) n q)
                           (sharesBefore (length deck) n (S q)) deck).
  rewrite (nth_indep _ [] (g 0)) by (rewrite length_map, length_seq; exact Hp).
  rewrite map_nth, seq_nth by exact Hp. unfold g. simpl plus.
  rewrite slice_length.
  - simpl. lia.
  - rewrite <- (sharesBefore_all (length deck) n) at 2 by lia.
    apply sharesBefore_mono. lia.
Qed.

(** X2. [distributeEvenly] cuts the deck into [numPlayers]
    consecutive hands: put end to end they are the deck again, and
    seat [p] gets [floor(len/n)] cards plus one if [p < len mod n], so
    that no two hands differ by more than one card.  With no players it
    returns no hand at all. *)
Theorem distributeEvenly_partitions (A : Type) (deck : list A) (numPlayers : nat) :
  length (distributeEvenly deck numPlayers) = numPlayers /\
  (0 < numPlayers -> concat (distributeEvenly deck numPlayers) = deck) /\
  (forall p, p < numPlayers ->
     length (nth p (distributeEvenly deck numPlayers) [])
     = shareOf (length deck) numPlayers p) /\
  (forall p q, p < numPlayers -> q < numPlayers ->
     length (nth p (distributeEvenly deck numPlayers) [])
     <= length (nth q (distributeEvenly deck numPlayers) []) + 1) /\
  (numPlayers = 0 -> distributeEvenly deck numPlayers = []).
Proof.
  split; [apply distributeEvenly_length|].
  split; [apply distributeEvenly_concat|].
  split; [apply distributeEvenly_share|]. split.
  - intros p q Hp Hq. rewrite !distributeEvenly_share by assumption.
    unfold shareOf. destruct (p <? _), (q <? _); lia.
  - intros ->. reflexivity.
Qed.

Lemma one_deck_NoDup : NoDup one_deck.
Proof.
  assert (E : nodup string_dec one_deck = one_deck) by (vm_compute; reflexivity).
  rewrite <- E. apply NoDup_nodup.
Qed.

Lemma count_occ_buildDeck d c :
  count_occ string_dec (buildDeck d) c = d * count_occ string_dec one_deck c.
Proof.
  induction d as [|d IH]; [reflexivity|].
  change (buildDeck (S d)) with (one_deck ++ buildDeck d).
  rewrite count_occ_app. unfold Card in *. rewrite IH. lia.
Qed.

Lemma one_deck_In c :
  In c one_deck <->
  exists rank suit, In rank RANKS /\ In suit SUITS /\ c = (rank ++ suit)%string.
Proof.
  unfold one_deck, one_suit. rewrite in_flat_map. split.
  - intros (suit & Hs & Hc). apply in_map_iff in Hc as (rank & <- & Hr). eauto.
  - intros (rank & suit & Hr & Hs & ->). exists suit. split; [exact Hs|].
    apply in_map_iff. eauto.
Qed.

Lemma buildDeck_In d c : In c (buildDeck d) -> In c one_deck.
Proof.
  induction d as [|d IH]; [intros []|].
  change (buildDeck (S d)) with (one_deck ++ buildDeck d).
  intros H. apply in_app_or in H as [H|H]; auto.
Qed.

(** X3. [buildDeck deckCount] holds [52 * deckCount] cards: each of
    the 52 identifiers rank+suit exactly [deckCount] times and no other
    string; every card has a rank known to [rankValue] (a value below
    13). *)
Theorem buildDeck_multiplicities (deckCount : nat) :
  length (buildDeck deckCount) = 52 * deckCount /\
  (forall c, In c one_deck ->
             count_occ string_dec (buildDeck deckCount) c = deckCount) /\
  (forall c, ~ In c one_deck ->
             count_occ string_dec (buildDeck deckCount) c = 0) /\
  (forall c, In c (buildDeck deckCount) ->
     (exists rank suit, In rank RANKS /\ In suit SUITS /\ c = (rank ++ suit)%string) /\
     rankValue (charAt0 c) < 13).
Proof.
  split; [apply buildDeck_length|]. split; [|split].
  - intros c Hc. rewrite count_occ_buildDeck.
    rewrite (proj1 (NoDup_count_occ' string_dec one_deck) one_deck_NoDup c Hc). lia.
  - intros c Hc. rewrite count_occ_buildDeck.
    rewrite (proj1 (count_occ_not_In string_dec one_deck c) Hc). lia.
  - intros c Hc. apply buildDeck_In in Hc. apply one_deck_In in Hc.
    split; [exact Hc|].
    destruct Hc as (rank & suit & Hr & _ & ->).
    simpl in Hr.
    repeat (destruct Hr as [<-|Hr]; [vm_compute; lia|]). destruct Hr.
Qed.

(** * More of games.js: the start of a game *)

Lemma map_nth_seq A (l : list A) d :
  map (fun i => nth i l d) (seq 0 (length l)) = l.
Proof.
  induction l as [|x t IH]; [reflexivity|].
  simpl. f_equal. rewrite <- seq_shift, map_map. exact IH.
Qed.

Lemma mapi_from_seq A B (f : A -> nat -> B) k l d :
  mapi_from k f l = map (fun i => f (nth (i - k) l d) i) (seq k (length l)).
Proof.
  revert k. induction l as [|x t IH]; intros k; [reflexivity|].
  simpl. rewrite Nat.sub_diag. f_equal. rewrite (IH (S k)).
  apply map_ext_in. intros i Hi. apply in_seq in Hi.
  replace (i - k) with (S (i - S k)) by lia. reflexivity.
Qed.

Lemma insertBy_sorted A (key : A -> nat) p l :
  StronglySorted (fun a b => key a <= key b) l ->
  StronglySorted (fun a b => key a <= key b) (insertBy key p l).
Proof.
  induction 1 as [|q t Hs IH Hall]; simpl.
  - constructor; constructor.
  - destruct (Nat.ltb_spec (key q) (key p)).
    + constructor; [exact IH|].
      apply Forall_forall. intros x Hx.
      apply (Permutation_in _ (insertBy_perm A key p t)) in Hx.
      destruct Hx as [<-|Hx]; [lia|]. rewrite Forall_forall in Hall. auto.
    + constructor; [constructor; assumption|].
      constructor; [exact H|].
      rewrite Forall_forall in *. intros x Hx. specialize (Hall x Hx). lia.
Qed.

Lemma sortBy_sorted A (key : A -> nat) l :
  StronglySorted (fun a b => key a <= key b) (sortBy key l).
Proof.
  induction l as [|p t IH]; simpl; [constructor|]. now apply insertBy_sorted.
Qed.

Lemma startGame_Ok members deckCount rnd now w :
  startGame members deckCount rnd now = Ok w ->
  2 <= length members /\
  exists first rest,
    sortBy (fun m => match memberSeatIndex m with Some i => i | None => 999 end) members
    = first :: rest /\
    gameState w =
      {| currentTurnUserId := Some (memberUserId first); turnNumber := 0;
         turnStartedAt := now; deck := []; discardPile := []; phase := play;
         lastPlayedCount := 0; lastPlayedRank := None; lastPlayedBy := None;
         passedUserIds := []; finishedOrder := None; roundLoserId := None;
         exchangePairs := None; exchangeSelections := None; roundLeaderId := None |} /\
    gamePlayers w =
      mapi_from 0 (fun (m : RoomMember) (i : nat) =>
                     mkGamePlayer i (memberUserId m) i
                       (nth i (distributeEvenly
                                 (shuffleArray rnd
                                    (buildDeck (Nat.max 1 match deckCount with
                                                          | Some d => d
                                                          | None => 1
                                                          end)))
                                 (length members)) []))
                (first :: rest).
Proof.
  unfold startGame. cbv zeta.
  destruct (length members <? 2) eqn:Hlen; [discriminate|]. apply Nat.ltb_ge in Hlen.
  destruct (sortBy _ members) as [|first rest] eqn:Es; [discriminate|].
  intros H. inversion H; subst w; clear H. split; [exact Hlen|].
  exists first, rest. repeat split.
Qed.

Lemma startGame_players members deckCount rnd now w :
  startGame members deckCount rnd now = Ok w ->
  map hand (gamePlayers w) =
    distributeEvenly (shuffleArray rnd (buildDeck (startDeckCount deckCount)))
                     (length members) /\
  map userId (gamePlayers w) = map memberUserId (sortBy lobbySeat members) /\
  map seatIndex (gamePlayers w) = seq 0 (length members) /\
  map _id (gamePlayers w) = seq 0 (length members).
Proof.
  intros H. destruct (startGame_Ok _ _ _ _ _ H) as [Hlen [first [rest [Es [Hgs Hgp]]]]].
  assert (El : length (first :: rest) = length members).
  { rewrite <- Es. apply sortBy_length. }
  unfold lobbySeat. rewrite Es, Hgp. clear Hgp Hgs H.
  fold (startDeckCount deckCount).
  set (hands := distributeEvenly _ _).
  assert (Hh : length hands = length members) by apply distributeEvenly_length.
  rewrite (mapi_from_seq _ _ _ 0 (first :: rest) first), El.
  rewrite !map_map. cbv beta. cbn [hand userId seatIndex _id].
  repeat split.
  - rewrite <- Hh. apply map_nth_seq.
  - rewrite <- El.
    erewrite map_ext; [|intros a; rewrite Nat.sub_0_r; reflexivity].
    rewrite <- (map_map (fun i => nth i (first :: rest) first) memberUserId).
    now rewrite map_nth_seq.
  - apply map_id.
  - apply map_id.
Qed.


(** * The whole of startGame: numbers, the deck loop and the guards *)













Lemma buildDeckLoop_NaN (fuel : nat) (d : N) :
  buildDeckLoop (S fuel) d NaN = Some [].
Proof. reflexivity. Qed.

(** ** The documents of a new game *)



Lemma insertGame_players fullDeck members rnd now w :
  insertGame fullDeck members rnd now = Ok w ->
  map hand (gamePlayers w) =
    distributeEvenly (shuffleArray rnd fullDeck) (length members) /\
  map userId (gamePlayers w) = map memberUserId (sortBy lobbySeat members) /\
  map seatIndex (gamePlayers w) = seq 0 (length members) /\
  gameState w =
    {| currentTurnUserId := option_map userId (hd_error (gamePlayers w));
       turnNumber := 0; turnStartedAt := now; deck := []; discardPile := [];
       phase := play; lastPlayedCount := 0; lastPlayedRank := None;
       lastPlayedBy := None; passedUserIds := []; finishedOrder := None;
       roundLoserId := None; exchangePairs := None; exchangeSelections := None;
       roundLeaderId := None |}.
Proof.
  unfold insertGame, lobbySeat. cbv zeta.
  destruct (sortBy _ members) as [|first rest] eqn:Es; [discriminate|].
  assert (El : length (first :: rest) = length members).
  { rewrite <- Es. apply sortBy_length. }
  set (hands := distributeEvenly _ _).
  assert (Hh : length hands = length members) by apply distributeEvenly_length.
  set (players := mapi_from 0 _ (first :: rest)).
  intros H. injection H as <-. cbn [gamePlayers gameState]. unfold players.
  split; [|split; [|split]].
  - rewrite (mapi_from_seq _ _ _ 0 (first :: rest) first), El, map_map.
    cbn [hand]. rewrite <- Hh. apply map_nth_seq.
  - rewrite mapi_from_map. cbn [userId]. apply mapi_from_plain.
  - rewrite mapi_from_map. cbn [seatIndex]. rewrite mapi_from_index. now rewrite El.
  - reflexivity.
Qed.


(** ** The guards of the handler *)






Lemma insertGame_deals fullDeck members rnd now w :
  insertGame fullDeck members rnd now = Ok w ->
  1 <= length members ->
  Permutation (flat_map hand (gamePlayers w)) fullDeck /\
  forall i p, nth_error (gamePlayers w) i = Some p ->
              length (hand p) = shareOf (length fullDeck) (length members) i.
Proof.
  intros Hw Hn. destruct (insertGame_players _ _ _ _ _ Hw) as (Hh & _).
  split.
  - rewrite flat_map_concat_map, Hh, distributeEvenly_concat by lia.
    apply shuffleArray_perm.
  - intros i p Hi.
    assert (Hi' : nth_error (map hand (gamePlayers w)) i = Some (hand p)).
    { rewrite nth_error_map, Hi. reflexivity. }
    rewrite Hh in Hi'.
    assert (Hlt : i < length members).
    { rewrite <- (distributeEvenly_length _ (shuffleArray rnd fullDeck) (length members)).
      apply nth_error_Some. rewrite Hi'. discriminate. }
    apply (nth_error_nth _ _ []) in Hi'. rewrite <- Hi'.
    rewrite distributeEvenly_share by exact Hlt.
    now rewrite shuffleArray_length.
Qed.

Lemma insertGame_empty members rnd now w :
  insertGame [] members rnd now = Ok w -> 1 <= length members -> cardsInPlay w = [].
Proof.
  intros Hw Hn. destruct (insertGame_players _ _ _ _ _ Hw) as (_ & _ & _ & Hgs).
  destruct (insertGame_deals _ _ _ _ _ Hw Hn) as (Hperm & _).
  unfold cardsInPlay. rewrite Hgs. cbn [discardPile]. rewrite app_nil_r.
  apply Permutation_nil. now apply Permutation_sym.
Qed.

Lemma startedRoom_in_progress room now fuel user members rnd now' :
  startGameHandler fuel (Some (startedRoom room now)) user members rnd now'
  = Refused EGameInProgress.
Proof. reflexivity. Qed.


(** * More of games.js: the rotation *)

Lemma nextLoop_nearest sorted idx cur passed skip i fuel :
  sorted <> [] ->
  (nextLoop sorted idx cur passed skip i fuel = Ok None /\
   forall j q, i <= j < i + fuel ->
     nth_error sorted ((idx + j) mod length sorted) = Some q ->
     canTakeTurn cur passed skip q = false) \/
  (exists k next,
     i <= k < i + fuel /\
     nth_error sorted ((idx + k) mod length sorted) = Some next /\
     canTakeTurn cur passed skip next = true /\
     nextLoop sorted idx cur passed skip i fuel = Ok (Some (userId next)) /\
     forall j q, i <= j < k ->
       nth_error sorted ((idx + j) mod length sorted) = Some q ->
       canTakeTurn cur passed skip q = false).
Proof.
  intros Hne. revert i. induction fuel as [|f IH]; intros i.
  - left. split; [reflexivity|]. intros j q Hj. lia.
  - cbn [nextLoop].
    assert (Hlt : (idx + i) mod length sorted < length sorted).
    { apply Nat.mod_upper_bound. destruct sorted; simpl; [congruence|lia]. }
    destruct (nth_error sorted ((idx + i) mod length sorted)) as [next|] eqn:E.
    2:{ apply nth_error_None in E. lia. }
    fold (canTakeTurn cur passed skip next).
    destruct (canTakeTurn cur passed skip next) eqn:Ec.
    + right. exists i, next. repeat split; try lia; auto.
    + destruct (IH (S i)) as [[Hn Hall]|[k [nx [Hk [Hnth [Hc [Hr Hall]]]]]]].
      * left. split; [exact Hn|]. intros j q Hj Hq.
        destruct (Nat.eq_dec j i) as [->|Hji].
        -- rewrite E in Hq. inversion Hq; subst. exact Ec.
        -- apply (Hall j q); [lia|exact Hq].
      * right. exists k, nx. repeat split; try lia; auto.
        intros j q Hj Hq.
        destruct (Nat.eq_dec j i) as [->|Hji].
        -- rewrite E in Hq. inversion Hq; subst. exact Ec.
        -- apply (Hall j q); [lia|exact Hq].
Qed.

Lemma rotation_reaches n idx m :
  idx < n -> m < n -> m <> idx ->
  exists j, 1 <= j < 1 + (n - 1) /\ (idx + j) mod n = m.
Proof.
  intros Hi Hm Hne.
  destruct (Nat.lt_ge_cases idx m) as [Hlt|Hge].
  - exists (m - idx). split; [lia|].
    replace (idx + (m - idx)) with m by lia. now apply Nat.mod_small.
  - exists (n + m - idx). split; [lia|].
    replace (idx + (n + m - idx)) with (m + 1 * n) by lia.
    rewrite Nat.Div0.mod_add. now apply Nat.mod_small.
Qed.

Lemma findIndex_user_Some players cur :
  In cur (map userId players) ->
  exists idx, findIndex (fun p => userId p =? cur) players = Some idx.
Proof.
  induction players as [|p t IH]; simpl; [contradiction|].
  intros [<-|H].
  - rewrite Nat.eqb_refl. eauto.
  - destruct (userId p =? cur); [eauto|].
    destruct (IH H) as [i ->]. eauto.
Qed.

(** X5. When the current user is seated, [getNextPlayerToPlay] walks
    the seats after that user in seat order, wrapping around, and returns
    the first seat of another user who has neither passed nor is skipped;
    it returns null exactly when no seat at all qualifies. *)
Theorem getNextPlayerToPlay_nearest (players : list GamePlayer) (cur : UserId)
        (passed skip : list UserId) :
  In cur (map userId players) ->
  exists idx,
    findIndex (fun p => userId p =? cur) (sortBySeat players) = Some idx /\
    ((getNextPlayerToPlay players cur passed skip = Ok None /\
      forall p, In p players -> canTakeTurn cur passed skip p = false) \/
     (exists k next,
        1 <= k < length players /\
        nth_error (sortBySeat players) ((idx + k) mod length players) = Some next /\
        canTakeTurn cur passed skip next = true /\
        getNextPlayerToPlay players cur passed skip = Ok (Some (userId next)) /\
        forall j q, 1 <= j < k ->
          nth_error (sortBySeat players) ((idx + j) mod length players) = Some q ->
          canTakeTurn cur passed skip q = false)).
Proof.
  intros Hin.
  assert (Hperm : Permutation (sortBySeat players) players) by apply sortBy_perm.
  assert (Hlen : length (sortBySeat players) = length players) by apply sortBy_length.
  assert (Hin' : In cur (map userId (sortBySeat players))).
  { apply (Permutation_in cur (Permutation_sym (Permutation_map userId Hperm))), Hin. }
  destruct (findIndex_user_Some _ _ Hin') as [idx Eidx].
  exists idx. split; [exact Eidx|].
  destruct (findIndex_Some _ _ _ _ Eidx) as [Hidx [x [Hx Fx]]].
  assert (Hne : sortBySeat players <> []).
  { intros E. rewrite E in Hidx. simpl in Hidx. lia. }
  unfold getNextPlayerToPlay. cbv zeta. rewrite Eidx.
  destruct (nextLoop_nearest (sortBySeat players) idx cur passed skip 1
              (length (sortBySeat players) - 1) Hne)
    as [[Hn Hall]|[k [nx [Hk [Hnth [Hc [Hr Hall]]]]]]].
  - left. split; [exact Hn|]. intros p Hp.
    apply (Permutation_in p (Permutation_sym Hperm)) in Hp.
    destruct (In_nth_error _ _ Hp) as [m Hm].
    assert (Hml : m < length (sortBySeat players)).
    { apply nth_error_Some. rewrite Hm. discriminate. }
    destruct (Nat.eq_dec m idx) as [->|Hmi].
    + rewrite Hx in Hm. inversion Hm; subst.
      unfold canTakeTurn. rewrite Fx. reflexivity.
    + destruct (rotation_reaches _ idx m Hidx Hml Hmi) as [j [Hj Ej]].
      apply (Hall j p Hj). rewrite Ej. exact Hm.
  - right. exists k, nx. rewrite <- Hlen. repeat split; try lia; auto.
Qed.

(** X6. A current user who holds no seat gets the lowest seat as next
    player whatever the passed and skipped sets say, even a seat that has
    passed; with no seat at all the lookup of [sorted[0].userId] throws. *)
Theorem getNextPlayerToPlay_unseated (players : list GamePlayer) (cur : UserId)
        (passed skip : list UserId) :
  ~ In cur (map userId players) ->
  match sortBySeat players with
  | [] => players = [] /\
          getNextPlayerToPlay players cur passed skip = Thrown TypeError
  | first :: _ =>
      getNextPlayerToPlay players cur passed skip = Ok (Some (userId first)) /\
      In first players /\
      forall p, In p players -> seatIndex first <= seatIndex p
  end.
Proof.
  intros Hnot.
  assert (Hperm : Permutation (sortBySeat players) players) by apply sortBy_perm.
  assert (En : findIndex (fun p => userId p =? cur) (sortBySeat players) = None).
  { destruct (findIndex _ (sortBySeat players)) as [i|] eqn:E; [|reflexivity].
    exfalso. apply findIndex_Some in E as [_ [x [Hx Fx]]].
    apply Nat.eqb_eq in Fx. apply Hnot. rewrite <- Fx.
    apply in_map. apply (Permutation_in x Hperm). eapply nth_error_In; eauto. }
  unfold getNextPlayerToPlay. cbv zeta. rewrite En.
  pose proof (sortBy_sorted _ seatIndex players) as Hs. fold (sortBySeat players) in Hs.
  destruct (sortBySeat players) as [|first rest] eqn:Es.
  - split; [|reflexivity]. apply Permutation_nil. exact Hperm.
  - split; [reflexivity|]. split.
    + apply (Permutation_in first Hperm). now left.
    + intros p Hp. apply (Permutation_in p (Permutation_sym Hperm)) in Hp.
      apply StronglySorted_inv in Hs as [_ Hall]. rewrite Forall_forall in Hall.
      destruct Hp as [->|Hp]; [lia|auto].
Qed.

Lemma getNextPlayerToPlay_nearest_witness :
  In 1 (map userId (gamePlayers threeStartWorld)) /\
  exists idx,
    findIndex (fun p => userId p =? 1) (sortBySeat (gamePlayers threeStartWorld)) = Some idx /\
    ((getNextPlayerToPlay (gamePlayers threeStartWorld) 1 [2] [] = Ok None /\
      forall p, In p (gamePlayers threeStartWorld) -> canTakeTurn 1 [2] [] p = false) \/
     (exists k next,
        1 <= k < length (gamePlayers threeStartWorld) /\
        nth_error (sortBySeat (gamePlayers threeStartWorld))
                  ((idx + k) mod length (gamePlayers threeStartWorld)) = Some next /\
        canTakeTurn 1 [2] [] next = true /\
        getNextPlayerToPlay (gamePlayers threeStartWorld) 1 [2] [] = Ok (Some (userId next)) /\
        forall j q, 1 <= j < k ->
          nth_error (sortBySeat (gamePlayers threeStartWorld))
                    ((idx + j) mod length (gamePlayers threeStartWorld)) = Some q ->
          canTakeTurn 1 [2] [] q = false)).
Proof.
  split; [vm_compute; auto|].
  apply (getNextPlayerToPlay_nearest (gamePlayers threeStartWorld) 1 [2] []).
  vm_compute; auto.
Defined.

Lemma getNextPlayerToPlay_unseated_witness :
  ~ In 9 (map userId (gamePlayers threeStartWorld)) /\
  getNextPlayerToPlay (gamePlayers threeStartWorld) 9 [1] [] = Ok (Some 1).
Proof.
  assert (H : ~ In 9 (map userId (gamePlayers threeStartWorld))).
  { vm_compute. intuition discriminate. }
  split; [exact H|].
  exact (proj1 (getNextPlayerToPlay_unseated (gamePlayers threeStartWorld) 9 [1] [] H)).
Defined.

(** * More of games.js: the deal of the next round *)

Lemma updUser_notin u f db : ~ In u (map userId db) -> updUser u f db = db.
Proof.
  unfold updUser. induction db as [|p d IH]; simpl; intros H; [reflexivity|].
  destruct (Nat.eqb_spec (userId p) u) as [E|E]; [exfalso; auto|].
  f_equal. apply IH. intros Hin. apply H. now right.
Qed.

Lemma updUser_users u f db :
  keepsKey f -> map userId (updUser u f db) = map userId db.
Proof. intros Hf. apply keys_users. now apply updUser_keys. Qed.

Lemma updUser_once u k hk t db :
  NoDup (map userId db) -> In u (map userId db) -> ~ In u t ->
  Permutation
    (map seatOf (filter (fun p => negb (mem (userId p) t))
                        (updUser u (setSeatHand k hk) db)))
    ((u, k, hk) :: map seatOf (filter (fun p => negb (mem (userId p) (u :: t))) db)).
Proof.
  intros Hnd Hin Hut. induction db as [|p d IH]; [contradiction|].
  simpl in Hnd. apply NoDup_cons_iff in Hnd as [Hp Hd].
  assert (Hstep : updUser u (setSeatHand k hk) (p :: d) =
                  (if userId p =? u then setSeatHand k hk p else p)
                    :: updUser u (setSeatHand k hk) d) by reflexivity.
  rewrite Hstep. clear Hstep.
  destruct (Nat.eqb_spec (userId p) u) as [E|E].
  - subst u. rewrite (updUser_notin _ _ d Hp).
    cbn [filter]. cbn [setSeatHand userId].
    assert (M1 : mem (userId p) t = false) by (apply mem_false; exact Hut).
    assert (M2 : mem (userId p) (userId p :: t) = true) by (apply mem_In; now left).
    rewrite M1, M2. cbn [negb map]. unfold seatOf at 1. cbn [userId seatIndex hand].
    apply perm_skip.
    rewrite (filter_ext_in (fun q => negb (mem (userId q) (userId p :: t)))
                           (fun q => negb (mem (userId q) t)) d); [reflexivity|].
    intros q Hq. cbv beta. f_equal.
    destruct (mem (userId q) t) eqn:Mq.
    + apply mem_In. right. now apply mem_In.
    + apply mem_false. intros [Eq|Hq']; [|apply mem_false in Mq; auto].
      apply Hp. rewrite Eq. now apply in_map.
  - destruct Hin as [Hin|Hin]; [contradiction|]. specialize (IH Hd Hin).
    cbn [filter].
    destruct (mem (userId p) t) eqn:Mp.
    + assert (M2 : mem (userId p) (u :: t) = true).
      { apply mem_In. right. now apply mem_In. }
      rewrite M2. cbn [negb]. exact IH.
    + assert (M2 : mem (userId p) (u :: t) = false).
      { apply mem_false. intros [Eq|Hq']; [congruence|apply mem_false in Mp; auto]. }
      rewrite M2. cbn [negb map].
      rewrite IH. apply perm_swap.
Qed.

Lemma reseat_perm (h : nat -> list Card) us :
  forall k db,
    NoDup us -> NoDup (map userId db) -> incl us (map userId db) ->
    Permutation
      (map seatOf
           (applyUps (map (fun i => (nth (i - k) us 0, setSeatHand i (h i)))
                          (seq k (length us))) db))
      (map (fun i => (nth (i - k) us 0, i, h i)) (seq k (length us))
       ++ map seatOf (filter (fun p => negb (mem (userId p) us)) db)).
Proof.
  induction us as [|u t IH]; intros k db Hus Hdb Hincl.
  - cbn [length seq map app]. unfold applyUps. cbn [fold_left].
    assert (E : forall f : GamePlayer -> bool,
               (forall p, f p = true) -> filter f db = db).
    { clear. intros f Hf. induction db as [|p d IH]; simpl; [reflexivity|].
      rewrite Hf. now f_equal. }
    rewrite E; [reflexivity|]. intros p. reflexivity.
  - apply NoDup_cons_iff in Hus as [Hut Ht].
    cbn [length seq map]. rewrite Nat.sub_diag.
    change (nth 0 (u :: t) 0) with u.
    assert (Hu : In u (map userId db)) by (apply Hincl; now left).
    assert (Hrest : forall B (g1 g2 : nat -> B),
               (forall i, S k <= i -> g1 i = g2 i) ->
               map g1 (seq (S k) (length t)) = map g2 (seq (S k) (length t))).
    { intros B g1 g2 Hg. apply map_ext_in. intros i Hi. apply in_seq in Hi.
      apply Hg. lia. }
    rewrite (Hrest _ (fun i => (nth (i - k) (u :: t) 0, setSeatHand i (h i)))
                     (fun i => (nth (i - S k) t 0, setSeatHand i (h i)))).
    2:{ intros i Hi. replace (i - k) with (S (i - S k)) by lia. reflexivity. }
    rewrite (Hrest _ (fun i => (nth (i - k) (u :: t) 0, i, h i))
                     (fun i => (nth (i - S k) t 0, i, h i))).
    2:{ intros i Hi. replace (i - k) with (S (i - S k)) by lia. reflexivity. }
    change (applyUps ((u, setSeatHand k (h k)) :: ?r) db)
      with (applyUps r (updUser u (setSeatHand k (h k)) db)).
    assert (Hk : keepsKey (setSeatHand k (h k))) by apply keepsKey_setSeatHand.
    rewrite (IH (S k) (updUser u (setSeatHand k (h k)) db)).
    + rewrite (updUser_once u k (h k) t db Hdb Hu Hut).
      symmetry. apply Permutation_middle.
    + exact Ht.
    + rewrite updUser_users by exact Hk. exact Hdb.
    + rewrite updUser_users by exact Hk. intros x Hx. apply Hincl. now right.
Qed.

Lemma filter_none_left us db :
  incl (map userId db) us ->
  filter (fun p => negb (mem (userId p) us)) db = [].
Proof.
  intros Hincl. induction db as [|p d IH]; [reflexivity|].
  cbn [filter].
  assert (M : mem (userId p) us = true).
  { apply mem_In. apply Hincl. now left. }
  rewrite M. cbn [negb]. apply IH. intros x Hx. apply Hincl. now right.
Qed.

Lemma sortBy_of_sorted A (key : A -> nat) l :
  StronglySorted (fun a b => key a <= key b) l -> sortBy key l = l.
Proof.
  induction 1 as [|p t Hs IH Hall]; [reflexivity|].
  change (sortBy key (p :: t)) with (insertBy key p (sortBy key t)). rewrite IH.
  destruct t as [|q t']; [reflexivity|]. simpl.
  apply Forall_inv in Hall.
  destruct (Nat.ltb_spec (key q) (key p)); [lia|reflexivity].
Qed.

Lemma sortBySeat_restartPlayers gs ps :
  sortBySeat (restartPlayers gs ps) = sortBySeat ps.
Proof.
  unfold restartPlayers. destruct (0 <? _); [reflexivity|].
  unfold sortBySeat. apply sortBy_of_sorted, sortBy_sorted.
Qed.

Lemma seatUser_nth complete fo sorted i :
  seatUser complete fo sorted i =
  nth i (if complete then fo else map userId sorted) 0.
Proof.
  unfold seatUser. destruct complete; [reflexivity|].
  revert i. induction sorted as [|p t IH]; intros [|i]; simpl; auto.
Qed.

Lemma mapGet_fold_notin V k (entries : list (UserId * V)) :
  forall m, ~ In k (map fst entries) ->
    mapGet k (fold_left (fun m kv => mapSet (fst kv) (snd kv) m) entries m) = mapGet k m.
Proof.
  induction entries as [|[k1 v1] t IH]; intros m Hk; [reflexivity|].
  simpl. rewrite IH.
  - apply mapGet_set_neq. intros E. apply Hk. left. simpl. congruence.
  - intros Hin. apply Hk. now right.
Qed.

Lemma mapGet_mapOfEntries V k (v : V) entries :
  NoDup (map fst entries) -> In (k, v) entries ->
  mapGet k (mapOfEntries entries) = Some v.
Proof.
  unfold mapOfEntries. generalize (@nil (UserId * V)) as m.
  induction entries as [|[k1 v1] t IH]; intros m Hnd Hin; [contradiction|].
  simpl in Hnd. apply NoDup_cons_iff in Hnd as [Hk1 Hnd].
  simpl. destruct Hin as [E|Hin].
  - inversion E; subst. rewrite mapGet_fold_notin by exact Hk1.
    apply mapGet_set_eq.
  - apply IH; assumption.
Qed.

Lemma hands_by_finish_order (sorted : list GamePlayer) (hands : list (list Card)) fo :
  NoDup (map userId sorted) -> length hands = length sorted ->
  Permutation fo (map userId sorted) ->
  Permutation
    (map (fun u => match mapGet u (mapOfEntries
                                     (mapi_from 0 (fun p i => (userId p, i)) sorted)) with
                   | Some i => nth i hands []
                   | None => []
                   end) fo)
    hands.
Proof.
  intros Hnd Hlen Hperm.
  assert (Hd : sorted = [] \/ exists p0 : GamePlayer, In p0 sorted).
  { destruct sorted as [|p0 rest]; [now left|right; exists p0; now left]. }
  destruct Hd as [->|[p0 _]].
  { apply Permutation_sym, Permutation_nil in Hperm. subst fo.
    destruct hands; [constructor|discriminate]. }
  set (idx := mapOfEntries _).
  rewrite (Permutation_map _ Hperm). rewrite map_map.
  match goal with |- Permutation (map ?g sorted) hands =>
    assert (E : map g sorted = map (fun i => nth i hands []) (seq 0 (length hands)))
  end.
  2:{ rewrite E, map_nth_seq. reflexivity. }
  rewrite <- (map_nth_seq _ sorted p0) at 1. rewrite map_map. rewrite Hlen.
  apply map_ext_in.
  intros i Hi. apply in_seq in Hi. cbv beta.
  assert (Hget : mapGet (userId (nth i sorted p0)) idx = Some i).
  { unfold idx. apply mapGet_mapOfEntries.
    - rewrite mapi_from_map. cbn [fst]. rewrite mapi_from_plain. exact Hnd.
    - rewrite (mapi_from_seq _ _ _ 0 sorted p0). apply in_map_iff.
      exists i. rewrite Nat.sub_0_r. split; [reflexivity|]. apply in_seq. lia. }
  rewrite Hget. reflexivity.
Qed.

Lemma seatingOrder_perm w :
  Inv w -> phase (gameState w) = round_ended ->
  Permutation (seatingOrder (gameState w) (gamePlayers w)) (userIds w).
Proof.
  intros HI Hp. unfold seatingOrder.
  destruct (Nat.eqb_spec (length (orEmpty (finishedOrder (gameState w))))
                         (length (gamePlayers w))) as [E|E].
  - assert (Hph : phase (gameState w) <> exchange) by (rewrite Hp; discriminate).
    destruct (inv_finished w HI Hph) as [Fnd Fincl].
    apply NoDup_Permutation_bis; [exact Fnd| |exact Fincl].
    unfold userIds. rewrite length_map. lia.
  - unfold userIds. apply Permutation_map. apply sortBy_perm.
Qed.

Lemma restart_seating w rnd :
  Inv w -> phase (gameState w) = round_ended ->
  Permutation
    (map seatOf (gamePlayers (snd (restartLoop (gameState w) (gamePlayers w) rnd w))))
    (map (fun i => (nth i (seatingOrder (gameState w) (gamePlayers w)) 0, i,
                    seatHand (length (orEmpty (finishedOrder (gameState w)))
                              =? length (gamePlayers w))
                             (restartHandsByOrder (gameState w) (gamePlayers w) rnd)
                             (restartHands (gameState w) (gamePlayers w) rnd) i))
         (seq 0 (length (gamePlayers w)))).
Proof.
  intros HI Hp. rewrite (restartLoop_players w rnd HI).
  pose proof (seatingOrder_perm w HI Hp) as Hperm.
  assert (Hlen : length (seatingOrder (gameState w) (gamePlayers w))
                 = length (gamePlayers w)).
  { rewrite (Permutation_length Hperm). unfold userIds. apply length_map. }
  set (us := seatingOrder (gameState w) (gamePlayers w)) in *.
  set (h := seatHand _ _ _).
  assert (Eups :
    map (reseatUp (length (orEmpty (finishedOrder (gameState w)))
                   =? length (gamePlayers w))
                  (orEmpty (finishedOrder (gameState w)))
                  (sortBySeat (restartPlayers (gameState w) (gamePlayers w)))
                  (restartHandsByOrder (gameState w) (gamePlayers w) rnd)
                  (restartHands (gameState w) (gamePlayers w) rnd))
        (seq 0 (length (gamePlayers w)))
    = map (fun i => (nth (i - 0) us 0, setSeatHand i (h i))) (seq 0 (length us))).
  { rewrite Hlen. apply map_ext. intros i. unfold reseatUp.
    rewrite seatUser_nth, sortBySeat_restartPlayers, Nat.sub_0_r. reflexivity. }
  rewrite Eups.
  rewrite (reseat_perm h us 0 (gamePlayers w)).
  - rewrite filter_none_left, app_nil_r, Hlen.
    + erewrite map_ext; [reflexivity|]. intros i. now rewrite Nat.sub_0_r.
    + intros x Hx. apply (Permutation_in x (Permutation_sym Hperm)). exact Hx.
  - apply (Permutation_NoDup (Permutation_sym Hperm)). apply (inv_users w HI).
  - apply (inv_users w HI).
  - intros x Hx. apply (Permutation_in x Hperm). exact Hx.
Qed.

Lemma restart_hands_perm w rnd :
  Inv w -> phase (gameState w) = round_ended ->
  Permutation
    (map (seatHand (length (orEmpty (finishedOrder (gameState w)))
                    =? length (gamePlayers w))
                   (restartHandsByOrder (gameState w) (gamePlayers w) rnd)
                   (restartHands (gameState w) (gamePlayers w) rnd))
         (seq 0 (length (gamePlayers w))))
    (restartHands (gameState w) (gamePlayers w) rnd).
Proof.
  intros HI Hp.
  assert (Hh : length (restartHands (gameState w) (gamePlayers w) rnd)
               = length (gamePlayers w)) by apply distributeEvenly_length.
  unfold seatHand, restartHandsByOrder. cbv zeta.
  destruct (Nat.eqb_spec (length (orEmpty (finishedOrder (gameState w))))
                         (length (gamePlayers w))) as [E|E].
  - rewrite sortBySeat_restartPlayers.
    set (nh := map _ (orEmpty (finishedOrder (gameState w)))).
    assert (Hnh : length nh = length (gamePlayers w)).
    { unfold nh. rewrite length_map. exact E. }
    rewrite <- Hnh, map_nth_seq. unfold nh.
    apply hands_by_finish_order.
    + apply (Permutation_NoDup (Permutation_sym
               (Permutation_map userId (sortBy_perm _ seatIndex (gamePlayers w))))).
      apply (inv_users w HI).
    + rewrite Hh. symmetry. apply sortBy_length.
    + pose proof (seatingOrder_perm w HI Hp) as Hperm. unfold seatingOrder in Hperm.
      apply Nat.eqb_eq in E. rewrite E in Hperm. rewrite Hperm.
      unfold userIds. apply Permutation_map. symmetry. apply sortBy_perm.
  - rewrite <- Hh, map_nth_seq. reflexivity.
Qed.

Lemma concat_perm A (l l' : list (list A)) :
  Permutation l l' -> Permutation (concat l) (concat l').
Proof.
  induction 1 as [|x l l' _ IH|x y l|l l' l'' _ IH1 _ IH2]; simpl.
  - constructor.
  - now apply Permutation_app_head.
  - rewrite !app_assoc. apply Permutation_app_tail. apply Permutation_app_comm.
  - now rewrite IH1.
Qed.

(** X7. An accepted [restartRound] in a reachable state deals every
    card that was in a hand or on the discard pile, and nothing else, back
    into the hands and empties the pile.  The seats become 0, 1, ..., one
    each; they follow the finishing order when it names every player and
    the old seat order otherwise; and no hand is more than one card larger
    than another. *)
Theorem restartRound_redeals_every_card (w : World) (isAdmin : bool)
        (rnd : nat -> nat) (now : nat) :
  reachable w ->
  accepted (restartRound isAdmin rnd now) w ->
  Permutation (flat_map hand (gamePlayers (after (restartRound isAdmin rnd now) w)))
              (cardsInPlay w) /\
  discardPile (gameState (after (restartRound isAdmin rnd now) w)) = [] /\
  Permutation (map seatIndex (gamePlayers (after (restartRound isAdmin rnd now) w)))
              (seq 0 (length (gamePlayers w))) /\
  (forall p, In p (gamePlayers (after (restartRound isAdmin rnd now) w)) ->
     nth_error (seatingOrder (gameState w) (gamePlayers w)) (seatIndex p)
     = Some (userId p)) /\
  (forall p q, In p (gamePlayers (after (restartRound isAdmin rnd now) w)) ->
               In q (gamePlayers (after (restartRound isAdmin rnd now) w)) ->
               length (hand p) <= length (hand q) + 1).
Proof.
  intros Hr Hacc. pose proof (reachable_Inv w Hr) as HI.
  apply restartRound_accepted in Hacc as (Hp & leader & Hl & E). rewrite E. clear E.
  cbn [gamePlayers gameState restartFields discardPile].
  pose proof (restart_seating w rnd HI Hp) as Hseat.
  pose proof (restart_hands_perm w rnd HI Hp) as Hhands.
  pose proof (seatingOrder_perm w HI Hp) as Hus.
  assert (Hlen : length (seatingOrder (gameState w) (gamePlayers w))
                 = length (gamePlayers w)).
  { rewrite (Permutation_length Hus). unfold userIds. apply length_map. }
  pose proof (inv_two w HI) as Hn.
  set (ps' := gamePlayers (snd (restartLoop (gameState w) (gamePlayers w) rnd w))) in *.
  set (h := seatHand _ _ _) in *.
  set (us := seatingOrder (gameState w) (gamePlayers w)) in *.
  assert (Hmh : Permutation (map hand ps') (restartHands (gameState w) (gamePlayers w) rnd)).
  { rewrite <- Hhands.
    replace (map hand ps') with (map snd (map seatOf ps'))
      by (rewrite map_map; reflexivity).
    rewrite (Permutation_map snd Hseat). rewrite map_map. reflexivity. }
  split.
  { rewrite flat_map_concat_map.
    rewrite (concat_perm _ _ _ Hmh).
    unfold restartHands. rewrite distributeEvenly_concat by lia.
    rewrite shuffleArray_perm. unfold cardsInPlay.
    apply Permutation_app_tail. apply Permutation_flat_map.
    apply restartPlayers_perm. }
  split; [reflexivity|].
  split.
  { replace (map seatIndex ps') with (map (fun x => snd (fst x)) (map seatOf ps'))
      by (rewrite map_map; reflexivity).
    rewrite (Permutation_map (fun x => snd (fst x)) Hseat). rewrite map_map.
    cbn [fst snd]. rewrite map_id. reflexivity. }
  split.
  { intros p Hin.
    assert (Hs : In (seatOf p) (map seatOf ps')) by (apply in_map; exact Hin).
    apply (Permutation_in _ Hseat) in Hs.
    apply in_map_iff in Hs as [i [Ei Hi]]. apply in_seq in Hi.
    unfold seatOf in Ei. inversion Ei as [[Eu Es Eh]].
    rewrite <- Es. apply nth_error_nth'. lia. }
  assert (Hsize : forall p, In p ps' ->
            exists j, j < length (gamePlayers w) /\
              length (hand p) =
              shareOf (length (shuffleArray rnd
                         (flat_map hand (restartPlayers (gameState w) (gamePlayers w))
                          ++ discardPile (gameState w))))
                      (length (gamePlayers w)) j).
  { intros p Hin.
    assert (Hh : In (hand p) (map hand ps')) by (apply in_map; exact Hin).
    apply (Permutation_in _ Hmh) in Hh.
    destruct (In_nth _ _ [] Hh) as [j [Hj Ej]].
    unfold restartHands in Hj. rewrite distributeEvenly_length in Hj.
    exists j. split; [exact Hj|]. rewrite <- Ej. unfold restartHands.
    apply distributeEvenly_share. exact Hj. }
  intros p q Hpin Hqin.
  destruct (Hsize p Hpin) as [j [_ ->]]. destruct (Hsize q Hqin) as [j' [_ ->]].
  unfold shareOf.
  destruct (j <? _); destruct (j' <? _); lia.
Qed.

Lemma restartRound_redeals_every_card_witness :
  reachable roundOver /\
  accepted (restartRound true keepOrder 0) roundOver /\
  Permutation
    (flat_map hand (gamePlayers (after (restartRound true keepOrder 0) roundOver)))
    (cardsInPlay roundOver).
Proof.
  split; [exact roundOver_reachable|].
  split; [vm_compute; reflexivity|].
  exact (proj1 (restartRound_redeals_every_card roundOver true keepOrder 0
                  roundOver_reachable ltac:(vm_compute; reflexivity))).
Defined.

(** * More of games.js: a leader who cannot lead *)

Lemma accepted_or_rejected (m : M unit) w : accepted m w \/ rejected m w.
Proof.
  unfold accepted, rejected. destruct (fst (m w)) as [[]|e]; eauto.
Qed.

Lemma filter_is2_all sel :
  wildcardsOnly sel ->
  length (filter is2 (map charAt0 sel)) = length sel.
Proof.
  unfold wildcardsOnly, isWild. induction sel as [|c t IH]; intros H; [reflexivity|].
  simpl. rewrite (H c (or_introl eq_refl)). simpl. f_equal.
  apply IH. intros c' Hc. apply H. now right.
Qed.

(** X8. While a round is played and the table is clear, a turn holder
    whose hand holds nothing but 2s (or nothing at all) blocks the game:
    the holder cannot play (2s alone are refused) and cannot pass (the
    table is clear), nobody else holds the turn, the round has not ended
    and no exchange is open, so every request is rejected. *)
Theorem leader_with_only_twos_blocks_the_game (w : World) :
  phase (gameState w) = play ->
  tableClear (gameState w) ->
  leaderHoldsOnlyTwos w ->
  forall a now, rejected (run a now) w.
Proof.
  intros Hp Hc Hl a now.
  destruct (accepted_or_rejected (run a now) w) as [Hacc|Hrej]; [exfalso|exact Hrej].
  destruct a as [user sel|user|isAdmin rnd|user sel]; simpl in Hacc.
  - apply playCards_accepted_iff in Hacc as (gp & newHand & Hg).
    destruct Hg as (_ & _ & Ht & Hf & Hs & H2 & _).
    apply turnIs_true in Ht. apply H2. apply filter_is2_all.
    intros c Hin. apply (Hl user gp Ht Hf).
    apply (Permutation_in c (Permutation_sym (spliceAll_perm _ _ _ Hs))).
    apply in_or_app. now right.
  - apply pass_accepted in Hacc as (next & (_ & _ & Hn) & _). exact (Hn Hc).
  - apply restartRound_accepted in Hacc as (He & _). congruence.
  - apply submit_accepted in Hacc as (myPair & gp & (He & _) & _). congruence.
Qed.

Lemma fourStartWorld_reachable : reachable fourStartWorld.
Proof.
  apply (reach_start [mkMember 1 (Some 0); mkMember 2 (Some 1); mkMember 3 (Some 2);
                      mkMember 4 (Some 3)] None keepOrder 0).
  - repeat constructor; simpl; intuition discriminate.
  - vm_compute. reflexivity.
Qed.

Lemma beforeLastAce_reachable : reachable beforeLastAce.
Proof.
  apply (runAll_reachable fourTrace fourStartWorld);
    [exact fourStartWorld_reachable|vm_compute; reflexivity].
Qed.

Lemma leaderStuck_reachable : reachable leaderStuck.
Proof.
  apply (runAll_reachable [APlay 1 ["AS"]] beforeLastAce);
    [exact beforeLastAce_reachable|vm_compute; reflexivity].
Qed.

Lemma leader_with_only_twos_blocks_the_game_witness :
  reachable leaderStuck /\
  phase (gameState leaderStuck) = play /\
  tableClear (gameState leaderStuck) /\
  leaderHoldsOnlyTwos leaderStuck /\
  2 <= seatsWithCards (gamePlayers leaderStuck) /\
  forall a now, rejected (run a now) leaderStuck.
Proof.
  assert (Hl : leaderHoldsOnlyTwos leaderStuck).
  { intros u gp Hu Hf. vm_compute in Hu. inversion Hu; subst u.
    vm_compute in Hf. inversion Hf; subst gp. intros c []. }
  split; [exact leaderStuck_reachable|].
  split; [reflexivity|]. split; [reflexivity|]. split; [exact Hl|].
  split; [vm_compute; lia|].
  exact (leader_with_only_twos_blocks_the_game leaderStuck eq_refl eq_refl Hl).
Defined.

(** * More of games.js: the helpers on hands *)

Lemma In_skipn_In_aux A (l : list A) k x : In x (skipn k l) -> In x l.
Proof.
  intros H. rewrite <- (firstn_skipn k l). apply in_or_app. now right.
Qed.

Lemma sorted_split A (key : A -> nat) (l : list A) k :
  StronglySorted (fun a b => key a <= key b) l ->
  forall a b, In a (firstn k l) -> In b (skipn k l) -> key a <= key b.
Proof.
  intros Hs. revert k. induction Hs as [|x t Hs IH Hall]; intros k a b Ha Hb.
  - rewrite firstn_nil in Ha. contradiction.
  - destruct k as [|k]; [contradiction|].
    simpl in Ha, Hb. destruct Ha as [<-|Ha].
    + rewrite Forall_forall in Hall. apply Hall.
      apply (In_skipn_In_aux _ t k). exact Hb.
    + apply (IH k); assumption.
Qed.

(** X9. [sortHandByRank] keeps every card and orders the hand from the
    strongest rank (2, then A, K, ...) to the weakest.  [pickBest] returns
    [min n (hand size)] cards, none weaker than a card it leaves.
    [pickWorst] does the same from the weak end when [n] is positive, but
    [pickWorst hand 0] returns the whole sorted hand, because
    [slice(-0)] is [slice(0)]. *)
Theorem pickBest_pickWorst_spec (hand : list Card) (n : nat) :
  Permutation (sortHandByRank hand) hand /\
  StronglySorted (fun a b => rankValue (charAt0 a) <= rankValue (charAt0 b))
                 (sortHandByRank hand) /\
  (exists rest,
     sortHandByRank hand = pickBest hand n ++ rest /\
     length (pickBest hand n) = Nat.min n (length hand) /\
     forall a b, In a (pickBest hand n) -> In b rest ->
                 rankValue (charAt0 a) <= rankValue (charAt0 b)) /\
  (0 < n ->
   exists rest,
     sortHandByRank hand = rest ++ pickWorst hand n /\
     length (pickWorst hand n) = Nat.min n (length hand) /\
     forall a b, In a rest -> In b (pickWorst hand n) ->
                 rankValue (charAt0 a) <= rankValue (charAt0 b)) /\
  pickWorst hand 0 = sortHandByRank hand /\
  pickBest hand 0 = [].
Proof.
  assert (Hperm : Permutation (sortHandByRank hand) hand) by apply sortBy_perm.
  assert (Hs : StronglySorted (fun a b => rankValue (charAt0 a) <= rankValue (charAt0 b))
                              (sortHandByRank hand)).
  { exact (sortBy_sorted _ (fun c => rankValue (charAt0 c)) hand). }
  assert (Hlen : length (sortHandByRank hand) = length hand) by apply sortBy_length.
  split; [exact Hperm|]. split; [exact Hs|].
  split; [|split; [|split]].
  - exists (skipn (Nat.min n (length hand)) (sortHandByRank hand)).
    unfold pickBest, slice. cbv zeta. rewrite Hlen, Nat.sub_0_r. cbn [skipn].
    split; [symmetry; apply firstn_skipn|].
    split; [rewrite length_firstn, Hlen; lia|].
    intros a b. apply (sorted_split _ (fun c => rankValue (charAt0 c)) _ _ Hs).
  - intros Hn. unfold pickWorst, sliceLast. cbv zeta. rewrite Hlen.
    destruct (Nat.eqb_spec (Nat.min n (length hand)) 0) as [E|E].
    + assert (E0 : length hand = 0) by lia.
      assert (Es : sortHandByRank hand = []).
      { destruct (sortHandByRank hand); [reflexivity|simpl in Hlen; lia]. }
      exists []. rewrite Es. repeat split; [simpl; lia|]. intros a b [].
    + exists (firstn (length hand - Nat.min n (length hand)) (sortHandByRank hand)).
      split; [symmetry; apply firstn_skipn|].
      split; [rewrite length_skipn, Hlen; lia|].
      intros a b. apply (sorted_split _ (fun c => rankValue (charAt0 c)) _ _ Hs).
  - unfold pickWorst, sliceLast. reflexivity.
  - unfold pickBest, slice. reflexivity.
Qed.

Lemma cardIn_In c l : cardIn c l = true <-> In c l.
Proof.
  unfold cardIn. rewrite existsb_exists. split.
  - intros [x [Hx E]]. apply String.eqb_eq in E. now subst.
  - intros H. exists c. split; [exact H|apply String.eqb_refl].
Qed.

Lemma cardIn_false c l : cardIn c l = false <-> ~ In c l.
Proof.
  rewrite <- cardIn_In. destruct (cardIn c l); split; intros; congruence.
Qed.

Lemma removeCards_count hand ids c :
  count_occ string_dec (removeCards hand ids) c =
  if cardIn c ids then 0 else count_occ string_dec hand c.
Proof.
  unfold removeCards. induction hand as [|x t IH]; simpl.
  - destruct (cardIn c ids); reflexivity.
  - destruct (cardIn x ids) eqn:Ex; simpl.
    + rewrite IH. destruct (string_dec x c) as [->|Hne]; [|reflexivity].
      rewrite Ex. reflexivity.
    + destruct (string_dec x c) as [->|Hne].
      * rewrite IH, Ex. reflexivity.
      * exact IH.
Qed.

Lemma removeCards_keeps hand ids :
  (forall c, In c ids -> ~ In c hand) -> removeCards hand ids = hand.
Proof.
  intros H. unfold removeCards. induction hand as [|x t IH]; [reflexivity|].
  simpl. assert (Ex : cardIn x ids = false).
  { apply cardIn_false. intros Hin. apply (H x Hin). now left. }
  rewrite Ex. simpl. f_equal. apply IH.
  intros c Hc Hin. apply (H c Hc). now right.
Qed.

Lemma spliceOne_removeCards hand c :
  NoDup hand -> In c hand -> spliceOne c hand = Some (removeCards hand [c]).
Proof.
  induction hand as [|x t IH]; intros Hnd Hin; [contradiction|].
  apply NoDup_cons_iff in Hnd as [Hx Hnd]. simpl.
  unfold removeCards. simpl. rewrite orb_false_r.
  destruct (String.eqb_spec x c) as [->|Hne].
  - simpl. f_equal. symmetry. apply (removeCards_keeps t [c]).
    intros c' [<-|[]]. exact Hx.
  - simpl. destruct Hin as [E|Hin]; [congruence|].
    fold (removeCards t [c]). rewrite (IH Hnd Hin). reflexivity.
Qed.

Lemma removeCards_cons hand c ids :
  removeCards (removeCards hand [c]) ids = removeCards hand (c :: ids).
Proof.
  unfold removeCards. induction hand as [|x t IH]; [reflexivity|].
  simpl. rewrite orb_false_r.
  destruct (String.eqb x c); simpl; [exact IH|].
  destruct (cardIn x ids); simpl; [exact IH|now f_equal].
Qed.

Lemma spliceAll_removeCards ids :
  forall hand, NoDup hand -> NoDup ids -> incl ids hand ->
    spliceAll ids hand = Some (removeCards hand ids).
Proof.
  induction ids as [|c t IH]; intros hand Hh Hi Hincl.
  - simpl. f_equal. symmetry. apply removeCards_keeps. intros c [].
  - apply NoDup_cons_iff in Hi as [Hc Ht]. simpl.
    rewrite (spliceOne_removeCards hand c Hh (Hincl c (or_introl eq_refl))).
    rewrite IH.
    + now rewrite removeCards_cons.
    + unfold removeCards. apply NoDup_filter. exact Hh.
    + exact Ht.
    + intros x Hx. unfold removeCards. apply filter_In.
      split; [apply Hincl; now right|].
      apply negb_true_iff. apply cardIn_false. intros [E|[]]. congruence.
Qed.

(** X10. [removeCards] works on identifiers, not on copies: of a card
    named in [cardsToRemove] it removes every copy the hand holds,
    whatever the number of times the card is named, and it leaves every
    other card with its multiplicity.  On a hand without repeated
    identifiers, and for distinct cards of that hand, it agrees with the
    [indexOf]/[splice] removal of [playCards]. *)
Theorem removeCards_drops_every_copy (hand cardsToRemove : list Card) :
  (forall c, count_occ string_dec (removeCards hand cardsToRemove) c =
             if cardIn c cardsToRemove then 0 else count_occ string_dec hand c) /\
  (forall c, In c (removeCards hand cardsToRemove) <->
             In c hand /\ ~ In c cardsToRemove) /\
  (NoDup hand -> NoDup cardsToRemove -> incl cardsToRemove hand ->
   spliceAll cardsToRemove hand = Some (removeCards hand cardsToRemove)) /\
  (forall c, 2 <= count_occ string_dec hand c -> In c cardsToRemove ->
   forall rest, spliceAll [c] hand = Some rest ->
     In c rest /\ ~ In c (removeCards hand cardsToRemove)).
Proof.
  split; [intros c; apply removeCards_count|].
  assert (Hin : forall c, In c (removeCards hand cardsToRemove) <->
                          In c hand /\ ~ In c cardsToRemove).
  { intros c. unfold removeCards. rewrite filter_In, negb_true_iff, cardIn_false.
    reflexivity. }
  split; [exact Hin|].
  split; [apply spliceAll_removeCards|].
  intros c Hc Hrem rest Hs. split.
  - apply (count_occ_In string_dec).
    pose proof (spliceAll_Some _ _ _ Hs c) as E. simpl in E.
    destruct (string_dec c c); [lia|congruence].
  - rewrite Hin. tauto.
Qed.


(** * The table, the cards and the selections in reachable states *)

Lemma tableOK_clear gs users :
  lastPlayedCount gs = 0 -> lastPlayedRank gs = None -> lastPlayedBy gs = None ->
  tableOK gs users.
Proof.
  intros Hc Hr Hb.
  assert (El : lastPlayedCards gs = []) by (unfold lastPlayedCards; now rewrite Hc).
  constructor.
  - rewrite Hc. lia.
  - rewrite El. intros c [].
  - intros H. contradiction.
  - intros H. contradiction.
  - intros _. split; assumption.
Qed.

Lemma tableOK_same gs gs' users users' :
  lastPlayedCount gs' = lastPlayedCount gs ->
  lastPlayedRank gs' = lastPlayedRank gs ->
  lastPlayedBy gs' = lastPlayedBy gs ->
  discardPile gs' = discardPile gs ->
  (lastPlayedCount gs <> 0 -> phase gs = play -> phase gs' = play) ->
  incl users users' ->
  tableOK gs users -> tableOK gs' users'.
Proof.
  intros Hc Hr Hb Hd Hp Hu [H1 H2 H3 H4 H5].
  assert (El : lastPlayedCards gs' = lastPlayedCards gs).
  { unfold lastPlayedCards. now rewrite Hc, Hd. }
  constructor.
  - rewrite Hc, Hd. exact H1.
  - rewrite El, Hr. exact H2.
  - rewrite Hc, El, Hr. exact H3.
  - rewrite Hc, Hb. intros Hne. destruct (H4 Hne) as [Hph [u [Eu Hin]]].
    split; [now apply Hp|]. exists u. split; [exact Eu|now apply Hu].
  - rewrite Hc, Hr, Hb. exact H5.
Qed.

Lemma skipn_app_exact A (l1 l2 : list A) :
  skipn (length (l1 ++ l2) - length l2) (l1 ++ l2) = l2.
Proof.
  rewrite length_app. replace (length l1 + length l2 - length l2) with (length l1) by lia.
  rewrite skipn_app, Nat.sub_diag, skipn_all. reflexivity.
Qed.

Lemma playRank_of_card sel c :
  length (setOf (filter (fun r => negb (is2 r)) (map charAt0 sel))) <= 1 ->
  In c sel -> is2 (charAt0 c) = false -> charAt0 c = playRankOf sel.
Proof.
  intros H1 Hin H2.
  assert (Hf : In (charAt0 c) (filter (fun r => negb (is2 r)) (map charAt0 sel))).
  { apply filter_In. split; [now apply in_map|]. now rewrite H2. }
  unfold playRankOf.
  destruct (setOf (filter (fun r => negb (is2 r)) (map charAt0 sel))) as [|r t] eqn:Es.
  - apply setOf_In in Hf. rewrite Es in Hf. destruct Hf.
  - apply setOf_In in Hf. rewrite Es in Hf.
    destruct t; [|simpl in H1; lia]. destruct Hf as [<-|[]]. reflexivity.
Qed.

Lemma not_all_twos sel :
  length (filter is2 (map charAt0 sel)) <> length sel ->
  exists c, In c sel /\ is2 (charAt0 c) = false.
Proof.
  induction sel as [|x t IH]; simpl; intros H; [congruence|].
  destruct (is2 (charAt0 x)) eqn:E.
  - destruct IH as [c [Hc H2]]; [simpl in H; lia|]. exists c. split; [now right|exact H2].
  - exists x. split; [now left|exact E].
Qed.

Lemma tableOK_play gs gs' users user sel :
  length sel <> 0 ->
  length (filter is2 (map charAt0 sel)) <> length sel ->
  length (setOf (filter (fun r => negb (is2 r)) (map charAt0 sel))) <= 1 ->
  lastPlayedCount gs' = length sel ->
  lastPlayedRank gs' = playRankOf sel ->
  lastPlayedBy gs' = Some user ->
  discardPile gs' = discardPile gs ++ sel ->
  phase gs' = play -> In user users ->
  tableOK gs' users.
Proof.
  intros H0 H2 H1 Hc Hr Hb Hd Hp Hu.
  assert (El : lastPlayedCards gs' = sel).
  { unfold lastPlayedCards, sliceLast. rewrite Hc, Hd.
    destruct (Nat.ltb_spec 0 (length sel)) as [_|]; [|lia].
    destruct (Nat.eqb_spec (length sel) 0) as [|_]; [lia|].
    apply skipn_app_exact. }
  constructor.
  - rewrite Hc, Hd, length_app. lia.
  - rewrite El, Hr. intros c Hin.
    destruct (is2 (charAt0 c)) eqn:E; [now left|right].
    now apply playRank_of_card.
  - intros _. rewrite El, Hr. destruct (not_all_twos sel H2) as [c [Hin E]].
    exists c. split; [exact Hin|]. split; [now apply playRank_of_card|exact E].
  - intros _. split; [exact Hp|]. exists user. split; assumption.
  - rewrite Hc. intros E. contradiction.
Qed.

Lemma startGame_pool members deckCount rnd now w :
  startGame members deckCount rnd now = Ok w ->
  Permutation (cardsInPlay w) (buildDeck (startDeckCount deckCount)).
Proof.
  intros Hw.
  destruct (startGame_players _ _ _ _ _ Hw) as [Hh _].
  destruct (startGame_Ok _ _ _ _ _ Hw) as [Hlen [first [rest [_ [Hgs _]]]]].
  unfold cardsInPlay. rewrite Hgs. cbn [discardPile]. rewrite app_nil_r.
  rewrite flat_map_concat_map, Hh, distributeEvenly_concat by lia.
  apply shuffleArray_perm.
Qed.

Lemma TableInv_start members deckCount rnd now w :
  startGame members deckCount rnd now = Ok w -> TableInv w.
Proof.
  intros Hw.
  pose proof (startGame_pool _ _ _ _ _ Hw) as Hpool.
  destruct (startGame_Ok _ _ _ _ _ Hw) as [_ [first [rest [_ [Hgs _]]]]].
  constructor.
  - apply tableOK_clear; rewrite Hgs; reflexivity.
  - intros c Hc. apply (buildDeck_In (startDeckCount deckCount)).
    apply (Permutation_in c Hpool Hc).
  - rewrite Hgs. discriminate.
Qed.

Lemma TableInv_start_empty members rnd now w :
  2 <= length members -> insertGame [] members rnd now = Ok w -> TableInv w.
Proof.
  intros Hlen Hw.
  destruct (insertGame_players _ _ _ _ _ Hw) as (_ & _ & _ & Hgs).
  assert (Hpool : cardsInPlay w = []) by (apply (insertGame_empty _ _ _ _ Hw); lia).
  constructor.
  - apply tableOK_clear; rewrite Hgs; reflexivity.
  - intros c Hc. rewrite Hpool in Hc. contradiction.
  - rewrite Hgs. discriminate.
Qed.

Lemma TableInv_pass w user now :
  TableInv w -> accepted (pass user now) w -> TableInv (after (pass user now) w).
Proof.
  intros [Ht Hd Hs] Hacc.
  pose proof (pass_keeps_the_pool w user now Hacc) as Hpool.
  apply pass_accepted in Hacc as (next & (Hp & _ & _) & _ & E).
  rewrite E in *. clear E.
  assert (Hph : phase (stateAfterPass (gameState w) (length (gamePlayers w)) user now next)
                = play).
  { unfold stateAfterPass.
    destruct next as [nx|]; [destruct (fullPassAround _ _ _ _)|]; exact Hp. }
  constructor.
  - unfold userIds. cbn [gameState gamePlayers]. unfold stateAfterPass.
    destruct next as [nx|]; [destruct (fullPassAround _ _ _ _)|];
      try (apply tableOK_clear; reflexivity).
    apply (tableOK_same (gameState w) _ (userIds w)); auto. apply incl_refl.
  - rewrite Hpool. exact Hd.
  - cbn [gameState]. rewrite Hph. discriminate.
Qed.

Lemma TableInv_playCards w user sel now :
  TableInv w -> accepted (playCards user sel now) w ->
  TableInv (after (playCards user sel now) w).
Proof.
  intros [Ht Hd Hs] Hacc.
  apply playCards_accepted in Hacc as (gp & nh & nx & HG & _ & E). rewrite E. clear E.
  destruct HG as (H0 & Hp & _ & Hf & Hsp & H2 & H1 & _).
  apply find_user_In in Hf as [Hgp Hu].
  pose proof (spliceAll_perm _ _ _ Hsp) as Hperm.
  assert (Hsel : forall c, In c sel -> In c one_deck).
  { intros c Hc. apply Hd. unfold cardsInPlay. apply in_or_app. left.
    apply in_flat_map. exists gp. split; [exact Hgp|].
    apply (Permutation_in c (Permutation_sym Hperm)). apply in_or_app. now right. }
  assert (Hnh : forall c, In c nh -> In c one_deck).
  { intros c Hc. apply Hd. unfold cardsInPlay. apply in_or_app. left.
    apply in_flat_map. exists gp. split; [exact Hgp|].
    apply (Permutation_in c (Permutation_sym Hperm)). apply in_or_app. now left. }
  assert (Hpile : forall c, In c (discardPile (gameState w)) -> In c one_deck).
  { intros c Hc. apply Hd. unfold cardsInPlay. apply in_or_app. now right. }
  assert (Hin : In user (userIds w)).
  { unfold userIds. rewrite <- Hu. now apply in_map. }
  constructor.
  - unfold userIds. cbn [gameState gamePlayers]. rewrite playersAfterPlay_users.
    unfold stateAfterPlay. cbv zeta.
    destruct (endsRound _ _ _); [apply tableOK_clear; reflexivity|].
    unfold nextTurnFields. cbv zeta.
    destruct ((length nh =? 0) || match nx with Some _ => false | None => true end) eqn:Ec.
    + apply tableOK_clear; reflexivity.
    + apply (tableOK_play (gameState w) _ (userIds w) user sel); auto;
        reflexivity || exact Hp.
  - intros c Hc. unfold cardsInPlay in Hc. cbn [gameState gamePlayers] in Hc.
    apply in_app_or in Hc as [Hc|Hc].
    + apply in_flat_map in Hc as [p' [Hp' Hc]].
      unfold playersAfterPlay in Hp'. apply in_map_iff in Hp' as [p [Ep Hin']].
      destruct (_id p =? _id gp); subst p'.
      * apply Hnh. exact Hc.
      * apply Hd. unfold cardsInPlay. apply in_or_app. left.
        apply in_flat_map. exists p. split; assumption.
    + assert (Hc' : In c (discardPile (gameState w) ++ sel)).
      { revert Hc. unfold stateAfterPlay. cbv zeta.
        destruct (endsRound _ _ _); [cbn; auto|].
        unfold nextTurnFields. cbv zeta. cbn.
        destruct (_ || _); [intros []|auto]. }
      apply in_app_or in Hc' as [H|H]; auto.
  - cbn [gameState]. intros Hph. exfalso. revert Hph.
    unfold stateAfterPlay. cbv zeta.
    destruct (endsRound _ _ _); [cbn; discriminate|].
    unfold nextTurnFields. cbn. rewrite Hp. discriminate.
Qed.

Lemma restart_pool_perm w rnd :
  Inv w -> phase (gameState w) = round_ended ->
  Permutation
    (flat_map hand (gamePlayers (snd (restartLoop (gameState w) (gamePlayers w) rnd w))))
    (cardsInPlay w).
Proof.
  intros HI Hp.
  pose proof (restart_seating w rnd HI Hp) as Hseat.
  pose proof (restart_hands_perm w rnd HI Hp) as Hhands.
  pose proof (inv_two w HI) as Hn.
  set (ps' := gamePlayers (snd (restartLoop (gameState w) (gamePlayers w) rnd w))) in *.
  assert (Hmh : Permutation (map hand ps') (restartHands (gameState w) (gamePlayers w) rnd)).
  { rewrite <- Hhands.
    replace (map hand ps') with (map snd (map seatOf ps'))
      by (rewrite map_map; reflexivity).
    rewrite (Permutation_map snd Hseat). rewrite map_map. reflexivity. }
  rewrite flat_map_concat_map.
  rewrite (concat_perm _ _ _ Hmh).
  unfold restartHands. rewrite distributeEvenly_concat by lia.
  rewrite shuffleArray_perm. unfold cardsInPlay.
  apply Permutation_app_tail. apply Permutation_flat_map.
  apply restartPlayers_perm.
Qed.

Lemma TableInv_restartRound w isAdmin rnd now :
  Inv w -> TableInv w -> accepted (restartRound isAdmin rnd now) w ->
  TableInv (after (restartRound isAdmin rnd now) w).
Proof.
  intros HI [Ht Hd Hs] Hacc.
  apply restartRound_accepted in Hacc as (Hp & leader & Hl & E). rewrite E. clear E.
  constructor.
  - apply tableOK_clear; reflexivity.
  - intros c Hc. unfold cardsInPlay in Hc.
    cbn [gameState gamePlayers restartFields discardPile] in Hc.
    rewrite app_nil_r in Hc. apply Hd.
    apply (Permutation_in c (restart_pool_perm w rnd HI Hp) Hc).
  - intros _. cbn. split; [constructor|intros s []].
Qed.

Lemma mapGet_fold_In V k (h : V) (entries : list (UserId * V)) :
  forall m,
    mapGet k (fold_left (fun m kv => mapSet (fst kv) (snd kv) m) entries m) = Some h ->
    In (k, h) entries \/ mapGet k m = Some h.
Proof.
  induction entries as [|[k1 v1] t IH]; intros m H; [now right|].
  simpl in H. apply IH in H as [H|H]; [left; now right|].
  cbn [fst snd] in H.
  destruct (Nat.eq_dec k k1) as [->|Hne].
  - rewrite mapGet_set_eq in H. inversion H; subst. left. now left.
  - rewrite mapGet_set_neq in H by exact Hne. now right.
Qed.

Lemma applyPair_cards (Q : Card -> Prop) sels m p :
  (forall s, In s sels -> forall c, In c (selCardIds s) -> Q c) ->
  (forall u h, mapGet u m = Some h -> forall c, In c h -> Q c) ->
  forall u h, mapGet u (applyPair sels m p) = Some h -> forall c, In c h -> Q c.
Proof.
  intros Hsel Hm u h. unfold applyPair.
  destruct (findSel (fromUserId p) sels) as [sel|] eqn:Ef; [|apply Hm].
  destruct (negb _); [apply Hm|]. cbv zeta.
  apply find_some in Ef as [Hin _].
  assert (Hfrom : forall c, In c (orEmpty (mapGet (fromUserId p) m)) -> Q c).
  { destruct (mapGet (fromUserId p) m) as [h0|] eqn:E; [|intros c []].
    exact (Hm _ _ E). }
  assert (Hto : forall c, In c (orEmpty (mapGet (toUserId p) m)) -> Q c).
  { destruct (mapGet (toUserId p) m) as [h0|] eqn:E; [|intros c []].
    exact (Hm _ _ E). }
  destruct (Nat.eq_dec u (toUserId p)) as [->|Hne].
  - rewrite mapGet_set_eq. intros E c Hc. inversion E; subst h.
    apply in_app_or in Hc as [Hc|Hc]; [now apply Hto|exact (Hsel sel Hin c Hc)].
  - rewrite mapGet_set_neq by exact Hne.
    destruct (Nat.eq_dec u (fromUserId p)) as [->|Hne'].
    + rewrite mapGet_set_eq. intros E c Hc. inversion E; subst h.
      apply filter_In in Hc as [Hc _]. now apply Hfrom.
    + rewrite mapGet_set_neq by exact Hne'. apply Hm.
Qed.

Lemma exchangedHands_cards (Q : Card -> Prop) ps pairs sels :
  (forall p, In p ps -> forall c, In c (hand p) -> Q c) ->
  (forall s, In s sels -> forall c, In c (selCardIds s) -> Q c) ->
  forall u h, mapGet u (exchangedHands ps pairs sels) = Some h ->
              forall c, In c h -> Q c.
Proof.
  intros Hps Hsel. unfold exchangedHands.
  assert (H0 : forall u h,
             mapGet u (mapOfEntries (map (fun p => (userId p, hand p)) ps)) = Some h ->
             forall c, In c h -> Q c).
  { intros u h E. unfold mapOfEntries in E. apply mapGet_fold_In in E as [E|E].
    - apply in_map_iff in E as [p [Ep Hp]]. inversion Ep; subst. now apply Hps.
    - discriminate. }
  revert H0. generalize (mapOfEntries (map (fun p => (userId p, hand p)) ps)).
  induction pairs as [|p t IH]; intros m Hm; [exact Hm|].
  simpl. apply IH. now apply applyPair_cards.
Qed.

Lemma NoDup_map_filter A B (f : A -> B) (g : A -> bool) l :
  NoDup (map f l) -> NoDup (map f (filter g l)).
Proof.
  induction l as [|x t IH]; simpl; intros H; [constructor|].
  apply NoDup_cons_iff in H as [Hx Ht].
  destruct (g x); simpl; [|now apply IH].
  constructor; [|now apply IH].
  intros Hin. apply Hx. apply in_map_iff in Hin as [y [Ey Hy]].
  apply filter_In in Hy as [Hy _]. rewrite <- Ey. now apply in_map.
Qed.

Lemma selectionsAfter_givers gs user cardIds :
  NoDup (map selFrom (orEmpty (exchangeSelections gs))) ->
  NoDup (map selFrom (selectionsAfter gs user cardIds)).
Proof.
  intros Hnd. unfold selectionsAfter. rewrite map_app. simpl.
  apply NoDup_app.
  - now apply NoDup_map_filter.
  - repeat constructor. intros [].
  - intros u Hin [<-|[]]. apply in_map_iff in Hin as [s [Es Hs]].
    apply filter_In in Hs as [_ Hs]. rewrite Es, Nat.eqb_refl in Hs. discriminate.
Qed.

Lemma hand_cards_in_deck w p c :
  (forall c, In c (cardsInPlay w) -> In c one_deck) ->
  In p (gamePlayers w) -> In c (hand p) -> In c one_deck.
Proof.
  intros Hd Hp Hc. apply Hd. unfold cardsInPlay. apply in_or_app. left.
  apply in_flat_map. exists p. split; assumption.
Qed.

Lemma submitted_cards_in_hand cardIds (h : list Card) :
  forallb (fun cid => cardIn cid h) cardIds = true -> incl cardIds h.
Proof.
  intros H c Hc. rewrite forallb_forall in H. apply cardIn_In. now apply H.
Qed.

Lemma TableInv_submit w user cardIds now :
  Inv w -> TableInv w -> accepted (submitExchangeSelection user cardIds now) w ->
  TableInv (after (submitExchangeSelection user cardIds now) w).
Proof.
  intros HI [Ht Hd Hs] Hacc.
  apply submit_accepted in Hacc as (mp & gp & HG & E). rewrite E. clear E.
  destruct HG as (Hp & Hmp & Hlen & Hgp & Hcards).
  destruct (Hs Hp) as [Hnd Hvalid].
  apply submitted_cards_in_hand in Hcards.
  assert (Hnew : forall s, In s (selectionsAfter (gameState w) user cardIds) ->
                           validSelection w s).
  { intros s Hin. unfold selectionsAfter in Hin. apply in_app_or in Hin as [Hin|Hin].
    - apply filter_In in Hin as [Hin _]. now apply Hvalid.
    - destruct Hin as [<-|[]]. exists mp, gp. cbn [selFrom selCardIds].
      apply find_some in Hmp as [Hin Hfrom]. apply Nat.eqb_eq in Hfrom. auto. }
  destruct (completes w user cardIds) eqn:Hc.
  - pose proof (exchange_keys w (selectionsAfter (gameState w) user cardIds) HI) as Hkeys.
    constructor.
    + unfold userIds. cbn [gameState gamePlayers].
      rewrite (keys_users _ _ Hkeys).
      apply (tableOK_same (gameState w) _ (userIds w)); auto. apply incl_refl.
    + intros c Hin. unfold cardsInPlay in Hin. cbn [gameState gamePlayers] in Hin.
      apply in_app_or in Hin as [Hin|Hin].
      2:{ apply Hd. unfold cardsInPlay. apply in_or_app. now right. }
      apply in_flat_map in Hin as [p' [Hp' Hin]].
      assert (Hu : In (userId p') (map userId (gamePlayers w))).
      { rewrite <- (keys_users _ _ Hkeys). now apply in_map. }
      apply in_map_iff in Hu as [p0 [Eu Hp0]].
      rewrite (swapLoop_hand (gamePlayers w) _ w p0 (inv_ids w HI) (inv_users w HI)
                 eq_refl Hp0 p' Hp' (eq_sym Eu)) in Hin.
      unfold handAfterExchange in Hin.
      destruct (mapGet (userId p0) _) as [h|] eqn:Eg.
      * revert c Hin.
        apply (exchangedHands_cards (fun c => In c one_deck) _ _ _
                 (fun p Hp c Hc => hand_cards_in_deck w p c Hd Hp Hc)
                 (fun s Hs0 c Hc0 =>
                    match Hnew s Hs0 with
                    | ex_intro _ p1 (ex_intro _ g1 (conj _ (conj _ (conj _ (conj Hf Hi))))) =>
                        hand_cards_in_deck w g1 c Hd
                          (proj1 (find_user_In _ _ _ Hf)) (Hi c Hc0)
                    end)
                 (userId p0) h Eg).
      * exact (hand_cards_in_deck w p0 c Hd Hp0 Hin).
    + cbn. discriminate.
  - constructor.
    + apply (tableOK_same (gameState w) _ (userIds w)); auto. apply incl_refl.
    + exact Hd.
    + intros _. cbn [gameState selectionFields exchangeSelections orEmpty].
      split; [now apply selectionsAfter_givers|].
      intros s Hin. destruct (Hnew s Hin) as (p1 & g1 & H1 & H2 & H3 & H4 & H5).
      exists p1, g1. auto.
Qed.

Lemma reachable_TableInv w : reachable w -> TableInv w.
Proof.
  induction 1 as [members deckCount rnd now w Hnd Hs
                 |members rnd now w Hnd Hlen Hs
                 |w a now Hr IH Hacc].
  - exact (TableInv_start members deckCount rnd now w Hs).
  - exact (TableInv_start_empty members rnd now w Hlen Hs).
  - pose proof (reachable_Inv w Hr) as HI.
    destruct a as [user cardIds|user|isAdmin rnd|user cardIds]; simpl in *.
    + now apply TableInv_playCards.
    + now apply TableInv_pass.
    + now apply TableInv_restartRound.
    + now apply TableInv_submit.
Qed.

Lemma deck_card_rank c :
  In c one_deck ->
  exists r, In r RANKS /\ charAt0 c = Some r /\ rankValue (Some r) < 13 /\
            (is2 (Some r) = false -> 1 <= rankValue (Some r)).
Proof.
  intros H. apply one_deck_In in H as (rank & suit & Hr & _ & ->).
  exists rank. split; [exact Hr|].
  unfold RANKS in Hr. simpl in Hr.
  repeat (destruct Hr as [<-|Hr];
          [split; [reflexivity|split; [vm_compute; lia|]];
           vm_compute; intros; (discriminate || lia)|]).
  destruct Hr.
Qed.

Lemma lastPlayedCards_pile gs c : In c (lastPlayedCards gs) -> In c (discardPile gs).
Proof.
  unfold lastPlayedCards, sliceLast.
  destruct (0 <? lastPlayedCount gs); [|intros []].
  destruct (lastPlayedCount gs =? 0); [auto|]. apply In_skipn_In_aux.
Qed.

Lemma lastPlayedCards_length gs :
  lastPlayedCount gs <= length (discardPile gs) ->
  length (lastPlayedCards gs) = lastPlayedCount gs.
Proof.
  intros H. unfold lastPlayedCards, sliceLast.
  destruct (Nat.ltb_spec 0 (lastPlayedCount gs)); [|simpl; lia].
  destruct (Nat.eqb_spec (lastPlayedCount gs) 0); [lia|].
  rewrite length_skipn. lia.
Qed.

(** X12. In every reachable state the standing play lies on top of the
    discard pile: the cards the game page shows as last played are as many
    as [lastPlayedCount] says, and each is a 2 or a card of
    [lastPlayedRank].  While a play stands, the round is being played, its
    author is seated, and the standing rank is a real rank other than 2,
    carried by one of those cards.  On a clear table neither rank nor
    author is set. *)
Theorem standing_play_is_on_top_of_the_pile (w : World) :
  reachable w ->
  length (lastPlayedCards (gameState w)) = lastPlayedCount (gameState w) /\
  (forall c, In c (lastPlayedCards (gameState w)) ->
     charAt0 c = Some "2" \/ charAt0 c = lastPlayedRank (gameState w)) /\
  (lastPlayedCount (gameState w) <> 0 ->
     phase (gameState w) = play /\
     (exists u, lastPlayedBy (gameState w) = Some u /\ In u (userIds w)) /\
     exists r c, lastPlayedRank (gameState w) = Some r /\
                 In r RANKS /\ r <> "2" /\
                 1 <= rankValue (Some r) < 13 /\
                 In c (lastPlayedCards (gameState w)) /\ charAt0 c = Some r) /\
  (lastPlayedCount (gameState w) = 0 ->
     lastPlayedRank (gameState w) = None /\ lastPlayedBy (gameState w) = None /\
     lastPlayedCards (gameState w) = []).
Proof.
  intros Hr. destruct (reachable_TableInv w Hr) as [[H1 H2 H3 H4 H5] Hd _].
  split; [now apply lastPlayedCards_length|].
  split.
  { intros c Hc. destruct (H2 c Hc) as [E|E]; [left|now right].
    unfold is2 in E. destruct (charAt0 c) as [r|]; [|discriminate].
    simpl in E. apply String.eqb_eq in E. now subst. }
  split.
  - intros Hne. destruct (H4 Hne) as [Hp Hu]. split; [exact Hp|]. split; [exact Hu|].
    destruct (H3 Hne) as [c [Hc [Er E2]]].
    assert (Hdeck : In c one_deck).
    { apply Hd. unfold cardsInPlay. apply in_or_app. right.
      now apply lastPlayedCards_pile. }
    destruct (deck_card_rank c Hdeck) as [r [Hin [Ec [Hlt Hge]]]].
    exists r, c. rewrite <- Er, Ec. rewrite Ec in E2.
    split; [reflexivity|]. split; [exact Hin|].
    split; [intros ->; discriminate|].
    split; [split; [now apply Hge|exact Hlt]|]. split; [exact Hc|reflexivity].
  - intros E. destruct (H5 E) as [Hr0 Hb]. split; [exact Hr0|]. split; [exact Hb|].
    unfold lastPlayedCards. now rewrite E.
Qed.

Lemma standing_play_is_on_top_of_the_pile_witness :
  reachable afterFirstLead /\
  lastPlayedCards (gameState afterFirstLead) = ["3S"] /\
  lastPlayedRank (gameState afterFirstLead) = Some "3" /\
  length (lastPlayedCards (gameState afterFirstLead))
  = lastPlayedCount (gameState afterFirstLead).
Proof.
  split; [exact afterFirstLead_reachable|].
  split; [reflexivity|]. split; [reflexivity|].
  exact (proj1 (standing_play_is_on_top_of_the_pile afterFirstLead
                  afterFirstLead_reachable)).
Defined.

(** X13. Every card in a hand or on the discard pile of a reachable
    state is one of the 52 identifiers rank+suit of the deck, so its first
    character is a rank [rankValue] knows: the fallback value 999 never
    arises in play. *)
Theorem every_card_in_play_is_a_deck_card (w : World) :
  reachable w ->
  forall c, In c (cardsInPlay w) ->
    In c one_deck /\
    (exists rank suit, In rank RANKS /\ In suit SUITS /\ c = (rank ++ suit)%string) /\
    rankValue (charAt0 c) < 13.
Proof.
  intros Hr c Hc. destruct (reachable_TableInv w Hr) as [_ Hd _].
  pose proof (Hd c Hc) as Hdeck. split; [exact Hdeck|].
  split; [now apply one_deck_In|].
  destruct (deck_card_rank c Hdeck) as [r [_ [Ec [Hlt _]]]]. now rewrite Ec.
Qed.

Lemma every_card_in_play_is_a_deck_card_witness :
  reachable leaderStuck /\
  In "2H" (cardsInPlay leaderStuck) /\
  rankValue (charAt0 "2H") < 13.
Proof.
  assert (Hin : In "2H" (cardsInPlay leaderStuck)) by (vm_compute; auto 20).
  split; [exact leaderStuck_reachable|]. split; [exact Hin|].
  exact (proj2 (proj2 (every_card_in_play_is_a_deck_card leaderStuck
                         leaderStuck_reachable "2H" Hin))).
Defined.

Lemma oneSubmitted_reachable : reachable oneSubmitted.
Proof.
  apply (runAll_reachable [ASubmit 2 ["AS"]] exchangeOpen);
    [exact exchangeOpen_reachable|vm_compute; reflexivity].
Qed.

(** X14. While an exchange is open in a reachable state, the
    selections on record are sound: no giver has two of them, and each
    names a giver of the exchange, has exactly the size that giver owes
    and holds only cards of the giver's present hand. *)
Theorem recorded_selections_are_valid (w : World) :
  reachable w ->
  phase (gameState w) = exchange ->
  NoDup (map selFrom (orEmpty (exchangeSelections (gameState w)))) /\
  (forall s, In s (orEmpty (exchangeSelections (gameState w))) -> validSelection w s) /\
  length (orEmpty (exchangeSelections (gameState w)))
  <= length (orEmpty (exchangePairs (gameState w))).
Proof.
  intros Hr Hp. destruct (reachable_TableInv w Hr) as [_ _ Hs].
  destruct (Hs Hp) as [Hnd Hv]. split; [exact Hnd|]. split; [exact Hv|].
  rewrite <- (length_map selFrom), <- (length_map fromUserId).
  apply NoDup_incl_length; [exact Hnd|].
  intros u Hu. apply in_map_iff in Hu as [s [Es Hin]].
  destruct (Hv s Hin) as (p & _ & Hpin & Hfrom & _).
  rewrite <- Es, <- Hfrom. now apply in_map.
Qed.

Lemma recorded_selections_are_valid_witness :
  reachable oneSubmitted /\
  phase (gameState oneSubmitted) = exchange /\
  orEmpty (exchangeSelections (gameState oneSubmitted)) = [mkSel 2 ["AS"]] /\
  validSelection oneSubmitted (mkSel 2 ["AS"]).
Proof.
  split; [exact oneSubmitted_reachable|].
  split; [reflexivity|]. split; [reflexivity|].
  apply (proj1 (proj2 (recorded_selections_are_valid oneSubmitted
                         oneSubmitted_reachable eq_refl))).
  vm_compute. auto.
Defined.

(** * The end of the exchange *)

Lemma pairs_givers_distinct fo n :
  NoDup fo -> length fo = n ->
  NoDup (map fromUserId (buildExchangePairs fo n)).
Proof.
  intros Hnd Hlen.
  assert (Hdiff : forall i j, i < n -> j < n -> i <> j -> nth i fo 0 <> nth j fo 0).
  { intros i j Hi Hj Hij E. apply Hij.
    apply (proj1 (NoDup_nth fo 0) Hnd i j); lia. }
  unfold buildExchangePairs.
  destruct (n <=? length fo); [|constructor].
  destruct ((n =? 2) || (n =? 3)) eqn:E23.
  - assert (Hn : n = 2 \/ n = 3).
    { apply orb_true_iff in E23 as [E|E]; apply Nat.eqb_eq in E; auto. }
    cbn [map fromUserId]. constructor; [|repeat constructor; intros []].
    intros [E|[]]. revert E. apply Hdiff; lia.
  - destruct (Nat.leb_spec 4 n) as [H4|H4]; [|constructor].
    cbn [map fromUserId].
    repeat constructor; cbn [In];
      intros H; repeat (destruct H as [H|H]; [revert H; apply Hdiff; lia|]);
      exact H.
Qed.

Lemma selectionsAfter_valid w user cardIds mp gp :
  submitGuards w user cardIds mp gp ->
  (forall s, In s (orEmpty (exchangeSelections (gameState w))) -> validSelection w s) ->
  forall s, In s (selectionsAfter (gameState w) user cardIds) -> validSelection w s.
Proof.
  intros (Hp & Hmp & Hlen & Hgp & Hcards) Hvalid s Hin.
  apply submitted_cards_in_hand in Hcards.
  unfold selectionsAfter in Hin. apply in_app_or in Hin as [Hin|Hin].
  - apply filter_In in Hin as [Hin _]. now apply Hvalid.
  - destruct Hin as [<-|[]]. exists mp, gp. cbn [selFrom selCardIds].
    apply find_some in Hmp as [Hin Hfrom]. apply Nat.eqb_eq in Hfrom. auto.
Qed.

Lemma findSel_some u sels :
  In u (map selFrom sels) ->
  exists s, findSel u sels = Some s /\ In s sels /\ selFrom s = u.
Proof.
  intros Hin. unfold findSel.
  destruct (find (fun s => selFrom s =? u) sels) as [s|] eqn:E.
  - exists s. apply find_some in E as [H1 H2]. apply Nat.eqb_eq in H2. auto.
  - exfalso. apply in_map_iff in Hin as [s [Es Hs]].
    pose proof (find_none _ _ E s Hs) as F. cbv beta in F.
    rewrite Es, Nat.eqb_refl in F. discriminate.
Qed.

Lemma selectionsAfter_givers_are gs user cardIds u :
  In u (map selFrom (selectionsAfter gs user cardIds)) <->
  u = user \/ In u (map selFrom (orEmpty (exchangeSelections gs))).
Proof.
  unfold selectionsAfter. rewrite map_app, in_app_iff. simpl. split.
  - intros [H|[H|[]]]; [right|left; auto].
    apply in_map_iff in H as [s [Es Hs]]. apply filter_In in Hs as [Hs _].
    rewrite <- Es. now apply in_map.
  - intros [->|H]; [right; now left|].
    destruct (Nat.eq_dec u user) as [->|Hne]; [right; now left|left].
    apply in_map_iff in H as [s [Es Hs]]. apply in_map_iff. exists s.
    split; [exact Es|]. apply filter_In. split; [exact Hs|].
    rewrite Es. apply negb_true_iff. now apply Nat.eqb_neq.
Qed.

(** X15. An accepted submission in a reachable state closes the exchange
    (the phase returns to play) exactly when every other giver of the
    exchange already has a selection on record; otherwise the exchange
    stays open and only the selections on record change. *)
Theorem exchange_closes_with_the_last_giver (w : World) (user : UserId)
        (cardIds : list Card) (now : nat) :
  reachable w ->
  accepted (submitExchangeSelection user cardIds now) w ->
  (phase (gameState (after (submitExchangeSelection user cardIds now) w)) = play <->
   forall p, In p (orEmpty (exchangePairs (gameState w))) ->
     fromUserId p = user \/
     In (fromUserId p) (map selFrom (orEmpty (exchangeSelections (gameState w))))) /\
  (phase (gameState (after (submitExchangeSelection user cardIds now) w)) <> play ->
   after (submitExchangeSelection user cardIds now) w =
   mkWorld (selectionFields (selectionsAfter (gameState w) user cardIds) (gameState w))
           (gamePlayers w)).
Proof.
  intros Hr Hacc.
  pose proof (reachable_Inv w Hr) as HI.
  destruct (reachable_TableInv w Hr) as [_ _ Hs].
  apply submit_accepted in Hacc as (mp & gp & HG & E). rewrite E. clear E.
  assert (Hp : phase (gameState w) = exchange) by apply HG.
  destruct (Hs Hp) as [_ Hvalid].
  pose proof (selectionsAfter_valid w user cardIds mp gp HG Hvalid) as Hnew.
  destruct (inv_exchange w HI Hp) as (fo & Fnd & _ & Flen & Epairs & _).
  assert (Hgivers : NoDup (map fromUserId (orEmpty (exchangePairs (gameState w))))).
  { rewrite Epairs. cbn [orEmpty]. now apply pairs_givers_distinct. }
  assert (Hiff : completes w user cardIds = true <->
                 forall p, In p (orEmpty (exchangePairs (gameState w))) ->
                   fromUserId p = user \/
                   In (fromUserId p)
                      (map selFrom (orEmpty (exchangeSelections (gameState w))))).
  { unfold completes, allIn. rewrite forallb_forall. split.
    - intros Hall p Hin. specialize (Hall p Hin).
      destruct (findSel (fromUserId p) (selectionsAfter (gameState w) user cardIds))
        as [s|] eqn:Ef; [|discriminate].
      apply find_some in Ef as [Hs0 Hu]. apply Nat.eqb_eq in Hu.
      assert (Hg : In (fromUserId p)
                      (map selFrom (selectionsAfter (gameState w) user cardIds))).
      { rewrite <- Hu. now apply in_map. }
      apply selectionsAfter_givers_are in Hg. exact Hg.
    - intros Hall p Hin.
      assert (Hg : In (fromUserId p)
                      (map selFrom (selectionsAfter (gameState w) user cardIds))).
      { apply selectionsAfter_givers_are. destruct (Hall p Hin); auto. }
      destruct (findSel_some _ _ Hg) as [s [Ef [Hs0 Hu]]]. rewrite Ef.
      destruct (Hnew s Hs0) as (p' & _ & Hp' & Hfrom & Hlen & _).
      assert (p' = p).
      { apply (NoDup_map_eq _ _ fromUserId _ p' p Hgivers Hp' Hin). congruence. }
      subst p'. now apply Nat.eqb_eq. }
  destruct (completes w user cardIds) eqn:Hc.
  - cbn [gameState exchangeDoneFields phase]. split.
    + split; [intros _; now apply Hiff|reflexivity].
    + intros H. contradiction.
  - cbn [gameState selectionFields phase]. split.
    + split; [rewrite Hp; discriminate|].
      intros H. apply Hiff in H. discriminate.
    + reflexivity.
Qed.

Lemma exchange_closes_with_the_last_giver_witness :
  reachable oneSubmitted /\
  accepted (submitExchangeSelection 1 ["AD"] 0) oneSubmitted /\
  phase (gameState (after (submitExchangeSelection 1 ["AD"] 0) oneSubmitted)) = play /\
  forall p, In p (orEmpty (exchangePairs (gameState oneSubmitted))) ->
    fromUserId p = 1 \/
    In (fromUserId p)
       (map selFrom (orEmpty (exchangeSelections (gameState oneSubmitted)))).
Proof.
  assert (Hacc : accepted (submitExchangeSelection 1 ["AD"] 0) oneSubmitted)
    by (vm_compute; reflexivity).
  assert (Hplay : phase (gameState
                           (after (submitExchangeSelection 1 ["AD"] 0) oneSubmitted))
                  = play) by (vm_compute; reflexivity).
  split; [exact oneSubmitted_reachable|]. split; [exact Hacc|]. split; [exact Hplay|].
  exact (proj1 (proj1 (exchange_closes_with_the_last_giver oneSubmitted 1 ["AD"] 0
                         oneSubmitted_reachable Hacc)) Hplay).
Defined.

(** * The turn in reachable states *)

Lemma firstLeader_seated w leader :
  Inv w -> phase (gameState w) = round_ended ->
  firstLeader (gameState w) (gamePlayers w) = Some leader ->
  In leader (userIds w).
Proof.
  intros HI Hp Hl. unfold firstLeader in Hl.
  assert (Hph : phase (gameState w) <> exchange) by (rewrite Hp; discriminate).
  destruct (inv_finished w HI Hph) as [_ Fincl].
  destruct (Nat.ltb_spec 0 (length (orEmpty (finishedOrder (gameState w))))) as [Hlt|_].
  - inversion Hl; subst leader. apply Fincl. apply nth_In. exact Hlt.
  - destruct (nth_error (restartPlayers (gameState w) (gamePlayers w)) 0) as [p|] eqn:E;
      [|discriminate].
    inversion Hl; subst leader. unfold userIds. apply in_map.
    apply (Permutation_in p (restartPlayers_perm (gameState w) (gamePlayers w))).
    eapply nth_error_In; exact E.
Qed.

Lemma turnSeated_start members deckCount rnd now w :
  startGame members deckCount rnd now = Ok w -> turnSeated w.
Proof.
  intros Hw.
  destruct (startGame_players _ _ _ _ _ Hw) as [_ [Hu _]].
  destruct (startGame_Ok _ _ _ _ _ Hw) as [_ [first [rest [Es [Hgs _]]]]].
  exists (memberUserId first). split; [rewrite Hgs; reflexivity|].
  unfold userIds. rewrite Hu. unfold lobbySeat. rewrite Es. now left.
Qed.

Lemma turnSeated_start_empty members rnd now w :
  insertGame [] members rnd now = Ok w -> turnSeated w.
Proof.
  intros Hw. destruct (insertGame_players _ _ _ _ _ Hw) as (_ & Hu & _ & Hgs).
  unfold insertGame in Hw. cbv zeta in Hw. unfold lobbySeat in Hu.
  destruct (sortBy _ members) as [|first rest] eqn:Es; [discriminate|].
  exists (memberUserId first). split.
  - injection Hw as <-. reflexivity.
  - unfold userIds. rewrite Hu. now left.
Qed.

Lemma turnSeated_step w a now :
  Inv w -> TableInv w -> turnSeated w -> accepted (run a now) w ->
  turnSeated (after (run a now) w).
Proof.
  intros HI HT Hturn Hacc.
  destruct a as [user sel|user|isAdmin rnd|user sel]; simpl in Hacc |- *.
  - apply playCards_accepted in Hacc as (gp & nh & nx & HG & Hn & E). rewrite E. clear E.
    assert (Hf : find (fun p => userId p =? user) (gamePlayers w) = Some gp) by apply HG.
    destruct (playNext_ok w user gp nh Hf) as [nx' [Hn' Hnx]].
    rewrite Hn in Hn'. inversion Hn'; subst nx'. clear Hn'.
    exists (match nx with Some u => u | None => user end). split.
    + cbn [gameState]. unfold stateAfterPlay. cbv zeta.
      destruct (endsRound _ _ _); reflexivity.
    + unfold userIds. cbn [gamePlayers]. rewrite playersAfterPlay_users.
      destruct nx as [u|]; [apply (Hnx u eq_refl)|exact (find_user_in_ids _ _ _ Hf)].
  - apply pass_accepted in Hacc as (next & (Hp & Ht & Hc) & Hn & E). rewrite E. clear E.
    apply turnIs_true in Ht.
    assert (Hin : In user (userIds w)).
    { destruct Hturn as [u [Eu Hu]]. congruence. }
    destruct (passNext_ok w user Hin) as [next' [Hn' Hnx]].
    rewrite Hn in Hn'. inversion Hn'; subst next'. clear Hn'.
    destruct (tab_author _ _ (tab_table w HT) Hc) as [_ [author [Ea Hauthor]]].
    unfold turnSeated, userIds. cbn [gameState gamePlayers]. unfold stateAfterPass.
    destruct next as [nx|].
    + destruct (fullPassAround _ _ _ _).
      * exists author. split; [exact Ea|exact Hauthor].
      * exists nx. split; [reflexivity|apply (Hnx nx eq_refl)].
    + exists author. split; [exact Ea|exact Hauthor].
  - apply restartRound_accepted in Hacc as (Hp & leader & Hl & E). rewrite E. clear E.
    exists leader. split; [reflexivity|].
    unfold userIds. cbn [gamePlayers].
    rewrite (restartLoop_players w rnd HI).
    rewrite (keys_users _ _ (applyUps_keys _ _ (reseatUp_keeps _ _ _ _ _ _))).
    exact (firstLeader_seated w leader HI Hp Hl).
  - apply submit_accepted in Hacc as (mp & gp & HG & E). rewrite E. clear E.
    assert (Hp : phase (gameState w) = exchange) by apply HG.
    destruct (completes w user sel).
    + destruct (inv_exchange w HI Hp) as (fo & _ & Fincl & Flen & _ & Elead & _).
      exists (nth 0 fo 0). split; [exact Elead|].
      unfold userIds. cbn [gamePlayers].
      rewrite (keys_users _ _ (exchange_keys w (selectionsAfter (gameState w) user sel) HI)).
      apply Fincl. apply nth_In. pose proof (inv_two w HI). lia.
    + exact Hturn.
Qed.

Lemma reachable_turnSeated w : reachable w -> turnSeated w.
Proof.
  induction 1 as [members deckCount rnd now w Hnd Hs
                 |members rnd now w Hnd Hlen Hs
                 |w a now Hr IH Hacc].
  - exact (turnSeated_start members deckCount rnd now w Hs).
  - exact (turnSeated_start_empty members rnd now w Hs).
  - apply turnSeated_step; auto using reachable_Inv, reachable_TableInv.
Qed.

(** X16. In every reachable state, whatever the phase, the turn is with
    a user who is seated in the game (it is never unset), and that user
    has exactly one record in [gamePlayers]. *)
Theorem turn_is_always_with_a_seated_user (w : World) :
  reachable w ->
  exists u gp,
    currentTurnUserId (gameState w) = Some u /\
    find (fun p => userId p =? u) (gamePlayers w) = Some gp /\
    userId gp = u /\
    forall q, In q (gamePlayers w) -> userId q = u -> q = gp.
Proof.
  intros Hr. destruct (reachable_turnSeated w Hr) as [u [Eu Hu]].
  pose proof (reachable_Inv w Hr) as HI.
  unfold userIds in Hu. apply in_map_iff in Hu as [gp [Egp Hin]].
  exists u, gp. split; [exact Eu|].
  split; [apply find_user_unique; [apply (inv_users w HI)|exact Hin|exact Egp]|].
  split; [exact Egp|].
  intros q Hq Equ. apply (NoDup_map_eq _ _ userId (gamePlayers w)); auto.
  - apply (inv_users w HI).
  - congruence.
Qed.

Lemma turn_is_always_with_a_seated_user_witness :
  reachable leaderStuck /\
  exists u gp,
    currentTurnUserId (gameState leaderStuck) = Some u /\
    find (fun p => userId p =? u) (gamePlayers leaderStuck) = Some gp /\
    userId gp = u /\
    forall q, In q (gamePlayers leaderStuck) -> userId q = u -> q = gp.
Proof.
  split; [exact leaderStuck_reachable|].
  exact (turn_is_always_with_a_seated_user leaderStuck leaderStuck_reachable).
Defined.

(** * Requests that are always open *)

Lemma spliceOne_In c h : In c h -> exists h', spliceOne c h = Some h'.
Proof.
  induction h as [|x t IH]; intros Hin; [contradiction|]. simpl.
  destruct (String.eqb_spec x c) as [_|Hne]; [eauto|].
  destruct Hin as [E|Hin]; [congruence|].
  destruct (IH Hin) as [t' ->]. eauto.
Qed.

Lemma is2_not_wild c : ~ isWild c -> is2 (charAt0 c) = false.
Proof.
  unfold isWild, is2. intros H. destruct (charAt0 c) as [r|]; [|reflexivity].
  simpl. apply String.eqb_neq. intros ->. now apply H.
Qed.

Lemma find_pair_unique pairs p :
  NoDup (map fromUserId pairs) -> In p pairs ->
  find (fun q => fromUserId q =? fromUserId p) pairs = Some p.
Proof.
  intros Hnd Hin.
  destruct (find (fun q => fromUserId q =? fromUserId p) pairs) as [q|] eqn:E.
  - apply find_some in E as [Hq Hu]. apply Nat.eqb_eq in Hu. f_equal.
    apply (NoDup_map_eq _ _ fromUserId pairs); auto.
  - exfalso. pose proof (find_none _ _ E p Hin) as F. cbv beta in F.
    rewrite Nat.eqb_refl in F. discriminate.
Qed.

Lemma restartRound_run rnd now w leader :
  phase (gameState w) = round_ended ->
  firstLeader (gameState w) (gamePlayers w) = Some leader ->
  accepted (restartRound true rnd now) w.
Proof.
  intros Hp Hl.
  destruct (restartRound_cases true rnd now w) as [[e He]|(_ & _ & l & _ & E)].
  - exfalso. revert He.
    unfold restartRound, bind, readState, readPlayers, throw; cbv beta iota zeta.
    cbn [negb]. rewrite Hp.
    fold (restartPlayers (gameState w) (gamePlayers w)).
    fold (firstLeader (gameState w) (gamePlayers w)). rewrite Hl.
    fold (restartHands (gameState w) (gamePlayers w) rnd).
    fold (restartHandsByOrder (gameState w) (gamePlayers w) rnd).
    fold (restartLoop (gameState w) (gamePlayers w) rnd).
    rewrite (patchesOnly_run _ w (patchesOnly_restartLoop _ _ _)) at 1.
    discriminate.
  - unfold accepted. rewrite E. reflexivity.
Qed.

Lemma firstLeader_exists w :
  Inv w -> exists leader, firstLeader (gameState w) (gamePlayers w) = Some leader.
Proof.
  intros HI. unfold firstLeader.
  destruct (0 <? _); [eauto|].
  pose proof (inv_two w HI) as Hn.
  pose proof (Permutation_length (restartPlayers_perm (gameState w) (gamePlayers w))) as El.
  destruct (restartPlayers (gameState w) (gamePlayers w)) as [|p t];
    [simpl in El; lia|]. simpl. eauto.
Qed.

(** X17. A reachable state always leaves a way on, except at a clear
    table: while a play stands the turn holder may pass; on a clear table
    the turn holder may lead any single card of the hand that is not a 2;
    once the round has ended the host may restart; and while an exchange
    is open a giver who holds a card may submit, if need be the same card
    as many times as cards are owed. *)
Theorem requests_that_are_always_open (w : World) :
  reachable w ->
  (phase (gameState w) = play -> lastPlayedCount (gameState w) <> 0 ->
   exists u, currentTurnUserId (gameState w) = Some u /\
             forall now, accepted (pass u now) w) /\
  (phase (gameState w) = play -> tableClear (gameState w) ->
   forall u gp c now,
     currentTurnUserId (gameState w) = Some u ->
     find (fun p => userId p =? u) (gamePlayers w) = Some gp ->
     In c (hand gp) -> ~ isWild c ->
     accepted (playCards u [c] now) w) /\
  (phase (gameState w) = round_ended ->
   forall rnd now, accepted (restartRound true rnd now) w) /\
  (phase (gameState w) = exchange ->
   forall p gp c now,
     In p (orEmpty (exchangePairs (gameState w))) ->
     find (fun q => userId q =? fromUserId p) (gamePlayers w) = Some gp ->
     In c (hand gp) ->
     accepted (submitExchangeSelection (fromUserId p) (repeat c (count p)) now) w).
Proof.
  intros Hr. pose proof (reachable_Inv w Hr) as HI.
  destruct (reachable_turnSeated w Hr) as [holder [Eh Hseat]].
  split; [|split; [|split]].
  - intros Hp Hc. exists holder. split; [exact Eh|]. intros now.
    destruct (passNext_ok w holder Hseat) as [next [Hn _]].
    unfold accepted.
    rewrite (pass_guarded holder now w next); [reflexivity| |exact Hn].
    split; [exact Hp|]. split; [now apply turnIs_true|exact Hc].
  - intros Hp Hc u gp c now Eu Hf Hin Hw.
    apply playCards_accepted_iff.
    destruct (spliceOne_In c (hand gp) Hin) as [nh Es].
    pose proof (is2_not_wild c Hw) as E2.
    exists gp, nh. unfold playGuards. cbv zeta.
    split; [simpl; lia|]. split; [exact Hp|].
    split; [now apply turnIs_true|]. split; [exact Hf|].
    split; [simpl; now rewrite Es|].
    split; [simpl; rewrite E2; simpl; lia|].
    split; [simpl; rewrite E2; simpl; lia|].
    left. exact Hc.
  - intros Hp rnd now. destruct (firstLeader_exists w HI) as [leader Hl].
    exact (restartRound_run rnd now w leader Hp Hl).
  - intros Hp p gp c now Hpin Hf Hin.
    destruct (inv_exchange w HI Hp) as (fo & Fnd & _ & Flen & Epairs & _).
    assert (Hgivers : NoDup (map fromUserId (orEmpty (exchangePairs (gameState w))))).
    { rewrite Epairs. cbn [orEmpty]. now apply pairs_givers_distinct. }
    unfold accepted.
    rewrite (submit_guarded (fromUserId p) (repeat c (count p)) now w p gp).
    + destruct (completes w (fromUserId p) (repeat c (count p))); reflexivity.
    + split; [exact Hp|]. split; [now apply find_pair_unique|].
      split; [apply repeat_length|]. split; [exact Hf|].
      apply forallb_forall. intros x Hx. apply repeat_spec in Hx. subst x.
      now apply cardIn_In.
Qed.

Lemma requests_that_are_always_open_witness :
  reachable oneSubmitted /\
  accepted (submitExchangeSelection 1 ["KC"] 0) oneSubmitted.
Proof.
  split; [exact oneSubmitted_reachable|].
  destruct (requests_that_are_always_open oneSubmitted oneSubmitted_reachable)
    as (_ & _ & _ & H).
  apply (H eq_refl (mkPair 1 2 1)
           (nth 0 (gamePlayers oneSubmitted) (mkGamePlayer 0 0 0 [])) "KC" 0).
  - vm_compute. auto.
  - vm_compute. reflexivity.
  - vm_compute. auto 30.
Defined.

(** * The lobby (rooms.js) *)

Lemma find_member_In user ms m :
  find (fun m => mUserId m =? user) ms = Some m -> In m ms /\ mUserId m = user.
Proof.
  intros H. apply find_some in H as [H1 H2]. apply Nat.eqb_eq in H2. auto.
Qed.

Lemma find_member_None user ms :
  find (fun m => mUserId m =? user) ms = None -> ~ In user (map mUserId ms).
Proof.
  intros E Hin. apply in_map_iff in Hin as [m [Hm Hin]].
  pose proof (find_none _ _ E m Hin) as F. cbv beta in F.
  rewrite Hm, Nat.eqb_refl in F. discriminate.
Qed.

Lemma earliestJoined_In ms : forall first, In (earliestJoined first ms) (first :: ms).
Proof.
  unfold earliestJoined. induction ms as [|m t IH]; intros first; [now left|].
  simpl. destruct (mJoinedAt m <? mJoinedAt first).
  - destruct (IH m) as [H|H]; [right; left; exact H|right; right; exact H].
  - destruct (IH first) as [H|H]; [left; exact H|right; right; exact H].
Qed.


Lemma filter_remove_count (P : Member -> bool) ms member :
  NoDup (map mId ms) -> In member ms ->
  length (filter P ms) =
  length (filter P (filter (fun m => negb (mId m =? mId member)) ms))
  + (if P member then 1 else 0).
Proof.
  induction ms as [|x t IH]; intros Hnd Hin; [contradiction|].
  simpl in Hnd. apply NoDup_cons_iff in Hnd as [Hx Hnd].
  destruct Hin as [->|Hin].
  - cbn [filter]. rewrite Nat.eqb_refl. cbn [negb].
    assert (E : filter (fun m => negb (mId m =? mId member)) t = t).
    { clear IH. induction t as [|y u IHu]; [reflexivity|].
      cbn [filter]. destruct (Nat.eqb_spec (mId y) (mId member)) as [Ey|Ey].
      - exfalso. apply Hx. rewrite <- Ey. now left.
      - cbn [negb]. f_equal. apply IHu.
        + intros H. apply Hx. now right.
        + simpl in Hnd. now apply NoDup_cons_iff in Hnd as [_ Hnd']. }
    rewrite E. destruct (P member); simpl; lia.
  - cbn [filter]. destruct (Nat.eqb_spec (mId x) (mId member)) as [Ex|Ex].
    + exfalso. apply Hx. rewrite Ex. now apply in_map.
    + cbn [negb filter]. specialize (IH Hnd Hin).
      destruct (P x); simpl; lia.
Qed.

Lemma promote_one ms host :
  NoDup (map mId ms) -> In host ms ->
  length (filter (fun m => isAdminRole (mRole m)) ms) = 0 ->
  length (filter (fun m => isAdminRole (mRole m))
                 (map (fun m => if mId m =? mId host then setRole admin m else m) ms)) = 1.
Proof.
  induction ms as [|x t IH]; intros Hnd Hin H0; [contradiction|].
  simpl in Hnd. apply NoDup_cons_iff in Hnd as [Hx Hnd].
  cbn [filter] in H0. destruct (isAdminRole (mRole x)) eqn:Ex; [simpl in H0; lia|].
  destruct Hin as [->|Hin].
  - cbn [map filter]. rewrite Nat.eqb_refl. cbn [setRole mRole isAdminRole].
    cbn [length]. f_equal. rewrite <- H0. f_equal.
    rewrite <- (map_id t) at 2. f_equal. symmetry. apply map_ext_in. intros y Hy.
    destruct (Nat.eqb_spec (mId y) (mId host)) as [E|_]; [|reflexivity].
    exfalso. apply Hx. rewrite <- E. now apply in_map.
  - cbn [map filter].
    destruct (Nat.eqb_spec (mId x) (mId host)) as [E|_].
    + exfalso. apply Hx. rewrite E. now apply in_map.
    + rewrite Ex. now apply IH.
Qed.

Lemma promote_keeps (f : Member -> nat) host ms :
  (forall m, f (setRole admin m) = f m) ->
  map f (map (fun m => if mId m =? mId host then setRole admin m else m) ms) = map f ms.
Proof.
  intros Hf. rewrite map_map. apply map_ext. intros m.
  destruct (mId m =? mId host); [apply Hf|reflexivity].
Qed.

Lemma LobbyInv_created systemUser firstId : LobbyInv (createRoom systemUser firstId).
Proof.
  constructor; simpl; try constructor; try (intros m []). intros H. congruence.
Qed.

Lemma LobbyInv_joinRoom user now l : LobbyInv l -> LobbyInv (joinRoom user now l).
Proof.
  intros [Hid Hus Hfr Hh]. unfold joinRoom.
  destruct (find (fun m => mUserId m =? user) (lobbyMembers l)) as [m|] eqn:E;
    [constructor; assumption|].
  apply find_member_None in E. cbv zeta.
  constructor; cbn [lobbyMembers lobbyNextId].
  - rewrite map_app. cbn [map mId]. apply NoDup_app; [exact Hid|repeat constructor; intros []|].
    intros i Hi [<-|[]]. apply in_map_iff in Hi as [m [Em Hm]].
    specialize (Hfr m Hm). lia.
  - rewrite map_app. cbn [map mUserId]. apply NoDup_app; [exact Hus|repeat constructor; intros []|].
    intros u Hu [<-|[]]. contradiction.
  - intros m Hm. apply in_app_or in Hm as [Hm|[<-|[]]]; [specialize (Hfr m Hm); lia|].
    cbn [mId]. lia.
  - intros _. unfold admins. cbn [lobbyMembers]. rewrite filter_app, length_app.
    destruct (Nat.eqb_spec (length (lobbyMembers l)) 0) as [E0|E0].
    + apply length_zero_iff_nil in E0. rewrite E0. reflexivity.
    + cbn [filter mRole isAdminRole length].
      rewrite Nat.add_0_r. apply Hh. intros E1. rewrite E1 in E0. now apply E0.
Qed.

Lemma LobbyInv_leaveRoom user l : LobbyInv l -> LobbyInv (leaveRoom user l).
Proof.
  intros [Hid Hus Hfr Hh]. unfold leaveRoom.
  destruct (find (fun m => mUserId m =? user) (lobbyMembers l)) as [member|] eqn:E;
    [|constructor; assumption].
  apply find_member_In in E as [Hin Hu]. cbv zeta.
  assert (Hne : lobbyMembers l <> []) by (intros E0; rewrite E0 in Hin; destruct Hin).
  pose proof (filter_remove_count (fun m => isAdminRole (mRole m)) _ member Hid Hin) as Hcount.
  fold (admins l) in Hcount. rewrite (Hh Hne) in Hcount.
  set (remaining := filter (fun m => negb (mId m =? mId member)) (lobbyMembers l)) in *.
  assert (Rid : NoDup (map mId remaining)) by (apply NoDup_map_filter; exact Hid).
  assert (Rus : NoDup (map mUserId remaining)) by (apply NoDup_map_filter; exact Hus).
  assert (Rfr : forall m, In m remaining -> mId m < lobbyNextId l).
  { intros m Hm. apply filter_In in Hm as [Hm _]. now apply Hfr. }
  destruct (isAdminRole (mRole member)) eqn:Er.
  - destruct remaining as [|first rest] eqn:Erem.
    + constructor; cbn; try constructor; try (intros m []). intros H. congruence.
    + rewrite <- Erem in *.
      assert (Hhost : In (earliestJoined first remaining) remaining).
      { destruct (earliestJoined_In remaining first) as [<-|H]; [|exact H].
        rewrite Erem. now left. }
      constructor; cbn [lobbyMembers lobbyNextId].
      * rewrite (promote_keeps mId); [exact Rid|reflexivity].
      * rewrite (promote_keeps mUserId); [exact Rus|reflexivity].
      * intros m Hm. apply in_map_iff in Hm as [m0 [Em Hm0]].
        specialize (Rfr m0 Hm0). destruct (mId m0 =? _); subst m; exact Rfr.
      * intros _. unfold admins. cbn [lobbyMembers].
        apply promote_one; [exact Rid|exact Hhost|lia].
  - constructor; cbn [lobbyMembers lobbyNextId]; auto.
    intros _. unfold admins. cbn [lobbyMembers]. lia.
Qed.

Lemma lobbyReachable_Inv l : lobbyReachable l -> LobbyInv l.
Proof.
  induction 1 as [s f|l a _ IH]; [apply LobbyInv_created|].
  destruct a; simpl; [now apply LobbyInv_joinRoom|now apply LobbyInv_leaveRoom].
Qed.

Lemma startGame_total members deckCount rnd now :
  2 <= length members -> exists w, startGame members deckCount rnd now = Ok w.
Proof.
  intros Hge. unfold startGame. cbv zeta.
  destruct (Nat.ltb_spec (length members) 2) as [Hlt|_]; [lia|].
  destruct (sortBy _ members) as [|first rest] eqn:Es.
  - apply (f_equal (@length RoomMember)) in Es.
    rewrite sortBy_length in Es. simpl in Es. lia.
  - eexists. reflexivity.
Qed.


Lemma lobbyOfThree_reachable : lobbyReachable lobbyOfThree.
Proof.
  change lobbyOfThree
    with (lobbyStep (AJoin 3 30)
            (lobbyStep (AJoin 2 20) (lobbyStep (AJoin 1 10) (createRoom 0 100)))).
  repeat apply lobby_step. apply lobby_created.
Qed.






(** X19. [joinRoom] never refuses.  For a user who is a member it
    changes nothing, so joining twice is joining once.  For any other user
    it appends one member, whatever the size of the lobby and the room's
    player limit, with the number of members found as seat index; the new
    member is the host exactly when the lobby was empty, and the room's
    [adminId] is left as it was even then. *)
Theorem joinRoom_appends_once (user : UserId) (now : nat) (l : Lobby) :
  (In user (map mUserId (lobbyMembers l)) -> joinRoom user now l = l) /\
  (~ In user (map mUserId (lobbyMembers l)) ->
   exists m,
     lobbyMembers (joinRoom user now l) = lobbyMembers l ++ [m] /\
     mUserId m = user /\
     mSeatIndex m = length (lobbyMembers l) /\
     mJoinedAt m = now /\
     (mRole m = admin <-> lobbyMembers l = []) /\
     (mRole m = player <-> lobbyMembers l <> [])) /\
  (forall now', joinRoom user now' (joinRoom user now l) = joinRoom user now l) /\
  In user (map mUserId (lobbyMembers (joinRoom user now l))) /\
  lobbyAdminId (joinRoom user now l) = lobbyAdminId l.
Proof.
  assert (Hmem : forall n0 l0, In user (map mUserId (lobbyMembers l0)) ->
                               joinRoom user n0 l0 = l0).
  { intros n0 l0 Hin. unfold joinRoom.
    destruct (find (fun m => mUserId m =? user) (lobbyMembers l0)) eqn:E; [reflexivity|].
    apply find_member_None in E. contradiction. }
  assert (Hnew : ~ In user (map mUserId (lobbyMembers l)) ->
                 joinRoom user now l =
                 mkLobby (lobbyAdminId l)
                   (lobbyMembers l ++
                    [mkLobbyMember (lobbyNextId l) user
                       (if length (lobbyMembers l) =? 0 then admin else player)
                       (length (lobbyMembers l)) now])
                   (S (lobbyNextId l))).
  { intros Hnot. unfold joinRoom.
    destruct (find (fun m => mUserId m =? user) (lobbyMembers l)) as [m|] eqn:E;
      [|reflexivity].
    apply find_member_In in E as [Hin Hu]. exfalso. apply Hnot.
    rewrite <- Hu. now apply in_map. }
  assert (Hin' : In user (map mUserId (lobbyMembers (joinRoom user now l)))).
  { destruct (in_dec Nat.eq_dec user (map mUserId (lobbyMembers l))) as [Hin|Hnot].
    - now rewrite Hmem.
    - rewrite (Hnew Hnot). cbn [lobbyMembers]. rewrite map_app. apply in_or_app.
      right. now left. }
  split; [apply Hmem|]. split; [|split; [|split]].
  - intros Hnot. rewrite (Hnew Hnot). eexists. split; [reflexivity|].
    cbn [mUserId mSeatIndex mJoinedAt mRole]. repeat split; try reflexivity.
    + intros E. destruct (Nat.eqb_spec (length (lobbyMembers l)) 0) as [E0|_];
        [now apply length_zero_iff_nil|discriminate].
    + intros ->. reflexivity.
    + intros E E0. rewrite E0 in E. discriminate.
    + intros Hne. destruct (Nat.eqb_spec (length (lobbyMembers l)) 0) as [E0|_];
        [|reflexivity].
      apply length_zero_iff_nil in E0. contradiction.
  - intros now'. now apply Hmem.
  - exact Hin'.
  - destruct (in_dec Nat.eq_dec user (map mUserId (lobbyMembers l))) as [Hin|Hnot].
    + now rewrite Hmem.
    + now rewrite (Hnew Hnot).
Qed.

(** X20. Seat indexes of the lobby are not unique: when a member other
    than the one at the highest seat [n - 1] leaves a lobby of [n] members
    and a new user joins, the newcomer gets seat [n - 1] as well. *)
Theorem a_seat_index_can_be_given_twice (l : Lobby) (leaver joiner : UserId)
        (now : nat) (top : Member) :
  lobbyReachable l ->
  In leaver (map mUserId (lobbyMembers l)) ->
  ~ In joiner (map mUserId (lobbyMembers l)) ->
  In top (lobbyMembers l) ->
  mUserId top <> leaver ->
  mSeatIndex top = length (lobbyMembers l) - 1 ->
  exists m1 m2,
    In m1 (lobbyMembers (joinRoom joiner now (leaveRoom leaver l))) /\
    In m2 (lobbyMembers (joinRoom joiner now (leaveRoom leaver l))) /\
    mUserId m1 = mUserId top /\ mUserId m2 = joiner /\
    mUserId m1 <> mUserId m2 /\
    mSeatIndex m1 = mSeatIndex m2.
Proof.
  intros Hr Hleaver Hjoiner Htop Hne Hseat.
  pose proof (lobbyReachable_Inv l Hr) as HI.
  destruct (find (fun m => mUserId m =? leaver) (lobbyMembers l)) as [member|] eqn:E.
  2:{ apply find_member_None in E. contradiction. }
  pose proof (find_member_In _ _ _ E) as [Hin Hu].
  set (remaining := filter (fun m => negb (mId m =? mId member)) (lobbyMembers l)).
  assert (Hlen : length remaining = length (lobbyMembers l) - 1).
  { pose proof (filter_remove_count (fun _ => true) _ member (lob_ids l HI) Hin) as Hc.
    fold remaining in Hc.
    assert (Hall : forall ms : list Member, filter (fun _ => true) ms = ms).
    { induction ms as [|x t IH]; simpl; congruence. }
    rewrite !Hall in Hc. lia. }
  assert (Htop' : In top remaining).
  { apply filter_In. split; [exact Htop|]. apply negb_true_iff. apply Nat.eqb_neq.
    intros Eid. apply Hne. rewrite <- Hu. f_equal.
    apply (NoDup_map_eq _ _ mId (lobbyMembers l)); auto. apply (lob_ids l HI). }
  assert (Hleft : exists ms' top',
             lobbyMembers (leaveRoom leaver l) = ms' /\ length ms' = length remaining /\
             map mUserId ms' = map mUserId remaining /\
             In top' ms' /\ mUserId top' = mUserId top /\ mSeatIndex top' = mSeatIndex top).
  { unfold leaveRoom. rewrite E. cbv zeta. fold remaining.
    destruct (isAdminRole (mRole member)).
    - destruct remaining as [|first rest] eqn:Er; [destruct Htop'|].
      rewrite <- Er in *. eexists. 
      exists (if mId top =? mId (earliestJoined first remaining)
              then setRole admin top else top).
      cbn [lobbyMembers]. split; [reflexivity|]. split; [apply length_map|].
      split; [apply promote_keeps; reflexivity|].
      split; [apply (in_map (fun m => if mId m =? mId (earliestJoined first remaining)
                                      then setRole admin m else m)); exact Htop'|].
      destruct (mId top =? _); split; reflexivity.
    - exists remaining, top. cbn [lobbyMembers]. repeat split; auto. }
  destruct Hleft as (ms' & top' & Ems & Elen & Eus & Hin' & Eu & Es).
  assert (Hnot : ~ In joiner (map mUserId (lobbyMembers (leaveRoom leaver l)))).
  { rewrite Ems, Eus. intros H. apply Hjoiner.
    apply in_map_iff in H as [m [Em Hm]]. apply filter_In in Hm as [Hm _].
    rewrite <- Em. now apply in_map. }
  unfold joinRoom at 1 2.
  destruct (find (fun m => mUserId m =? joiner) (lobbyMembers (leaveRoom leaver l)))
    as [m|] eqn:Ej.
  { exfalso. apply find_member_In in Ej as [Hm Hmu]. apply Hnot.
    rewrite <- Hmu. now apply in_map. }
  cbv zeta. cbn [lobbyMembers]. rewrite Ems.
  eexists top', _. split; [apply in_or_app; left; exact Hin'|].
  split; [apply in_or_app; right; left; reflexivity|].
  cbn [mUserId mSeatIndex]. split; [exact Eu|]. split; [reflexivity|].
  split.
  - rewrite Eu. intros Ej'. apply Hjoiner. rewrite <- Ej'. now apply in_map.
  - rewrite Es, Hseat, Elen, Hlen. reflexivity.
Qed.

Lemma a_seat_index_can_be_given_twice_witness :
  lobbyReachable lobbyOfThree /\
  exists m1 m2,
    In m1 (lobbyMembers (joinRoom 4 40 (leaveRoom 1 lobbyOfThree))) /\
    In m2 (lobbyMembers (joinRoom 4 40 (leaveRoom 1 lobbyOfThree))) /\
    mUserId m1 = 3 /\ mUserId m2 = 4 /\
    mUserId m1 <> mUserId m2 /\
    mSeatIndex m1 = mSeatIndex m2.
Proof.
  split; [exact lobbyOfThree_reachable|].
  apply (a_seat_index_can_be_given_twice lobbyOfThree 1 4 40
           (mkLobbyMember 102 3 player 2 30) lobbyOfThree_reachable).
  - vm_compute. auto.
  - vm_compute. intuition discriminate.
  - vm_compute. auto.
  - vm_compute. discriminate.
  - vm_compute. reflexivity.
Defined.



(** * The game page (page.jsx): groups and selection *)

Section Grouping.

Variable hand : list Card.

(** An entry of a group names a card of the hand and its index. *)
Let entryOK (ci : Card * nat) : Prop := nth_error hand (snd ci) = Some (fst ci).

Let stateOK (st : Grouping) : Prop :=
  (forall g, In g (groups st) ->
     groupCards g <> [] /\
     forall ci, In ci (groupCards g) ->
       entryOK ci /\ getRank (Some (fst ci)) = groupRank g) /\
  (forall ci, In ci (currentCards st) ->
     entryOK ci /\ currentRank st = Some (getRank (Some (fst ci)))) /\
  (currentRank st = None -> currentCards st = [] /\ groups st = []) /\
  (currentRank st <> None -> currentCards st <> []).

Lemma groupStep_ok st ci : stateOK st -> entryOK ci -> stateOK (groupStep st ci).
Proof.
  intros (Hg & Hc & Hn & Hs) Hci. unfold groupStep, pushCurrent. cbv zeta.
  destruct (currentRank st) as [cr|] eqn:Ecr.
  - destruct (String.eqb_spec (getRank (Some (fst ci))) cr) as [E|E];
      (split; [|split; [|split]]); cbn [groups currentRank currentCards];
      rewrite ?Ecr.
    + exact Hg.
    + intros c H. apply in_app_or in H as [H|[<-|[]]].
      * apply (Hc c H).
      * split; [exact Hci|]. now rewrite E.
    + discriminate.
    + intros _ H. apply app_eq_nil in H as [_ H]. discriminate.
    + intros g H. apply in_app_or in H as [H|[<-|[]]]; [apply (Hg g H)|].
      cbn [groupCards groupRank]. split; [apply Hs; discriminate|].
      intros c Hin. destruct (Hc c Hin) as [H1 H2]. split; [exact H1|congruence].
    + intros c [<-|[]]. split; [exact Hci|reflexivity].
    + discriminate.
    + intros _. discriminate.
  - destruct (Hn eq_refl) as [Hc0 Hg0].
    (split; [|split; [|split]]); cbn [groups currentRank currentCards].
    + rewrite Hg0. intros g [].
    + intros c [<-|[]]. split; [exact Hci|reflexivity].
    + discriminate.
    + intros _. discriminate.
Qed.

Lemma groupLoop_ok l : forall st,
  stateOK st -> (forall ci, In ci l -> entryOK ci) -> stateOK (fold_left groupStep l st).
Proof.
  induction l as [|ci t IH]; intros st Hst Hl; [exact Hst|].
  simpl. apply IH.
  - apply groupStep_ok; [exact Hst|apply Hl; now left].
  - intros c Hc. apply Hl. now right.
Qed.

Lemma indexed_entries k (l : list Card) ci :
  In ci (mapi_from k (fun c i => (c, i)) l) ->
  k <= snd ci /\ nth_error l (snd ci - k) = Some (fst ci).
Proof.
  revert k. induction l as [|c t IH]; intros k H; [destruct H|].
  simpl in H. destruct H as [<-|H].
  - simpl. rewrite Nat.sub_diag. split; [lia|reflexivity].
  - destruct (IH (S k) H) as [Hk Hn]. split; [lia|].
    replace (snd ci - k) with (S (snd ci - S k)) by lia. exact Hn.
Qed.

Lemma group_entries g ci :
  In g (groupHandByRank hand) -> In ci (groupCards g) ->
  nth_error hand (snd ci) = Some (fst ci) /\ getRank (Some (fst ci)) = groupRank g.
Proof.
  unfold groupHandByRank.
  assert (Hst : stateOK (fold_left groupStep (mapi_from 0 (fun c i => (c, i)) hand)
                                   (mkGrouping [] None []))).
  { apply groupLoop_ok.
    - split; [|split; [|split]]; cbn [groups currentRank currentCards].
      + intros g0 [].
      + intros c0 [].
      + intros _. split; reflexivity.
      + intros H. now contradiction H.
    - intros c Hc. apply indexed_entries in Hc as [_ Hc].
      rewrite Nat.sub_0_r in Hc. exact Hc. }
  destruct Hst as (Hg & Hc & _ & _). unfold pushCurrent.
  destruct (currentRank _) as [cr|] eqn:Ecr.
  - intros Hin Hci. apply in_app_or in Hin as [Hin|[<-|[]]].
    + apply (Hg g Hin). exact Hci.
    + cbn [groupCards groupRank] in *. destruct (Hc ci Hci) as [H1 H2].
      split; [exact H1|]. congruence.
  - intros Hin Hci. apply (Hg g Hin). exact Hci.
Qed.

End Grouping.

Lemma selectionOK_sub hand s s' :
  NoDup s' -> incl s' s -> selectionOK hand s -> selectionOK hand s'.
Proof.
  intros Hnd Hincl [H1 H2 H3]. constructor; [exact Hnd| |]; auto.
Qed.

Lemma selectionOK_filter hand (f : nat -> bool) s :
  selectionOK hand s -> selectionOK hand (filter f s).
Proof.
  intros H. apply (selectionOK_sub hand s); [|intros i Hi; now apply filter_In in Hi|exact H].
  apply NoDup_filter. apply (sel_distinct hand s H).
Qed.

Lemma selectionOK_add hand s idx c :
  selectionOK hand s -> ~ In idx s -> nth_error hand idx = Some c ->
  (forall i, In i s -> getRank (nth_error hand i) <> "2" ->
             getRank (nth_error hand i) = getRank (Some c)) ->
  selectionOK hand (setAdd idx s).
Proof.
  intros [H1 H2 H3] Hnot Hc Hr. unfold setAdd.
  assert (M : mem idx s = false) by (now apply mem_false). rewrite M.
  constructor.
  - apply NoDup_app; [exact H1|repeat constructor; intros []|].
    intros i Hi [<-|[]]. contradiction.
  - intros i Hi. apply in_app_or in Hi as [Hi|[<-|[]]]; [now apply H2|].
    apply nth_error_Some. rewrite Hc. discriminate.
  - intros i j Hi Hj Ni Nj.
    apply in_app_or in Hi as [Hi|[<-|[]]]; apply in_app_or in Hj as [Hj|[<-|[]]].
    + now apply H3.
    + rewrite Hc. now apply Hr.
    + rewrite Hc. symmetry. now apply Hr.
    + reflexivity.
Qed.

Lemma no_selected_rank hand s :
  filter (fun r => negb (String.eqb r "2"))
         (map (fun i => getRank (nth_error hand i)) s) = [] ->
  forall i, In i s -> getRank (nth_error hand i) = "2".
Proof.
  intros E i Hi.
  destruct (String.eqb_spec (getRank (nth_error hand i)) "2") as [H|H]; [exact H|].
  assert (Hin : In (getRank (nth_error hand i))
                   (filter (fun r => negb (String.eqb r "2"))
                           (map (fun i => getRank (nth_error hand i)) s))).
  { apply filter_In. split.
    - apply (in_map (fun i => getRank (nth_error hand i))). exact Hi.
    - apply negb_true_iff. now apply String.eqb_neq. }
  rewrite E in Hin. destruct Hin.
Qed.

Lemma first_selected_rank hand s r t :
  filter (fun r => negb (String.eqb r "2"))
         (map (fun i => getRank (nth_error hand i)) s) = r :: t ->
  exists i, In i s /\ getRank (nth_error hand i) = r /\ r <> "2".
Proof.
  intros E.
  assert (Hin : In r (filter (fun r => negb (String.eqb r "2"))
                             (map (fun i => getRank (nth_error hand i)) s))).
  { rewrite E. now left. }
  apply filter_In in Hin as [Hin Hr]. apply in_map_iff in Hin as [i [Ei Hi]].
  exists i. split; [exact Hi|]. split; [exact Ei|].
  apply negb_true_iff in Hr. now apply String.eqb_neq.
Qed.

Lemma handleGroupAddOne_ok hand g s :
  In g (groupHandByRank hand) -> selectionOK hand s ->
  selectionOK hand (handleGroupAddOne g hand s).
Proof.
  intros Hg Hs. unfold handleGroupAddOne.
  destruct (find (fun c => negb (mem (snd c) s)) (groupCards g)) as [[c idx]|] eqn:Ef;
    [|exact Hs].
  apply find_some in Ef as [Hin Hun]. cbn [snd] in *.
  apply negb_true_iff in Hun. apply mem_false in Hun.
  destruct (group_entries hand g (c, idx) Hg Hin) as [Hc Hr]. cbn [fst snd] in *.
  cbv zeta.
  destruct (filter _ (map _ s)) as [|r t] eqn:Esel.
  - apply (selectionOK_add hand s idx c Hs Hun Hc).
    intros i Hi Ni. exfalso. apply Ni. now apply (no_selected_rank hand s Esel).
  - destruct (first_selected_rank hand s r t Esel) as [i0 [Hi0 [Er0 Hr2]]].
    destruct (String.eqb_spec r (groupRank g)) as [Erg|Erg]; cbn [negb].
    + apply (selectionOK_add hand s idx c Hs Hun Hc).
      intros i Hi Ni. rewrite Hr, <- Erg, <- Er0.
      apply (sel_one_rank hand s Hs i i0 Hi Hi0 Ni). now rewrite Er0.
    + apply (selectionOK_add hand _ idx c (selectionOK_filter hand _ s Hs)).
      * intros H. apply filter_In in H as [H _]. contradiction.
      * exact Hc.
      * intros i Hi Ni. exfalso. apply filter_In in Hi as [_ Hi].
        apply String.eqb_eq in Hi. contradiction.
Qed.

Lemma handleGroupRemoveOne_ok g hand s :
  selectionOK hand s -> selectionOK hand (handleGroupRemoveOne g s).
Proof.
  intros Hs. unfold handleGroupRemoveOne. cbv zeta.
  destruct (sortDescending _); [exact Hs|].
  unfold setDelete. now apply selectionOK_filter.
Qed.

Lemma selectable_ok hand s : selectable hand s -> selectionOK hand s.
Proof.
  induction 1 as [|g s Hg _ IH|g s Hg _ IH].
  - constructor; [constructor|intros i []|intros i j []].
  - now apply handleGroupAddOne_ok.
  - now apply handleGroupRemoveOne_ok.
Qed.

Lemma getRank_wild c : getRank (Some c) = "2" <-> isWild c.
Proof.
  unfold isWild. destruct c as [|ch rest]; simpl.
  - split; discriminate.
  - split; intros H; inversion H; reflexivity.
Qed.

Lemma getRank_charAt0 c1 c2 :
  getRank (Some c1) = getRank (Some c2) -> charAt0 c1 = charAt0 c2.
Proof.
  destruct c1 as [|a r1], c2 as [|b r2]; simpl; intros H;
    try reflexivity; try discriminate.
  inversion H. reflexivity.
Qed.

Lemma picked_submultiset (hand : list Card) s :
  forall l, NoDup s -> incl s l ->
    forall c, count_occ string_dec (map (fun i => nth i hand "") s) c
              <= count_occ string_dec (map (fun i => nth i hand "") l) c.
Proof.
  induction s as [|i t IH]; intros l Hnd Hincl c; [simpl; lia|].
  apply NoDup_cons_iff in Hnd as [Hi Ht].
  destruct (in_split i l (Hincl i (or_introl eq_refl))) as (l1 & l2 & El).
  assert (Hperm : Permutation l (i :: l1 ++ l2)).
  { rewrite El. symmetry. apply Permutation_middle. }
  assert (Hc : count_occ string_dec (map (fun i => nth i hand "") l) c
               = count_occ string_dec (map (fun i => nth i hand "") (i :: l1 ++ l2)) c).
  { apply (proj1 (Permutation_count_occ string_dec _ _)).
    apply Permutation_map. exact Hperm. }
  rewrite Hc.
  assert (Hincl' : incl t (l1 ++ l2)).
  { intros j Hj. assert (Hjl : In j l) by (apply Hincl; now right).
    rewrite El in Hjl. apply in_app_or in Hjl as [H|[H|H]].
    - apply in_or_app. now left.
    - subst j. contradiction.
    - apply in_or_app. now right. }
  specialize (IH (l1 ++ l2) Ht Hincl' c). simpl.
  destruct (string_dec (nth i hand "") c); lia.
Qed.

(** X22. A selection built by clicks on the groups of the sorted hand
    names distinct cards of the hand, and its cards other than 2s share
    one rank; the Play button is enabled exactly when the selection holds
    a card that is not a 2.  So for an enabled selection the server's
    checks of the hand and of the ranks always pass: [playCards] accepts
    it if and only if the round is being played, the user holds the turn,
    and the table is clear or the selection is large and strong enough. *)
Theorem a_selection_of_the_page_fits_the_hand (myHandSorted : list Card)
        (selectedSet : IndexSet) :
  selectable myHandSorted selectedSet ->
  exists cardIds,
    selectedCardIds myHandSorted selectedSet = map Some cardIds /\
    subMultiset cardIds myHandSorted /\
    atMostOneRank cardIds /\
    (canPlaySelection myHandSorted selectedSet = true <-> ~ wildcardsOnly cardIds) /\
    forall w user gp now,
      canPlaySelection myHandSorted selectedSet = true ->
      find (fun p => userId p =? user) (gamePlayers w) = Some gp ->
      Permutation myHandSorted (hand gp) ->
      (accepted (playCards user cardIds now) w <->
       phase (gameState w) = play /\ holdsTurn w user /\
       (tableClear (gameState w) \/
        (lastPlayedCount (gameState w) <= length cardIds /\
         exists r, effectiveRank cardIds r /\
                   sameOrStronger r (lastPlayedRank (gameState w))))).
Proof.
  intros Hsel. destruct (selectable_ok _ _ Hsel) as [Hnd Hvalid Hrank].
  set (cardIds := map (fun i => nth i myHandSorted "") selectedSet).
  assert (Hnth : forall i, In i selectedSet ->
                   nth_error myHandSorted i = Some (nth i myHandSorted "")).
  { intros i Hi. apply nth_error_nth'. now apply Hvalid. }
  assert (Hsub : subMultiset cardIds myHandSorted).
  { intros c. unfold cardIds.
    assert (Hincl : incl selectedSet (seq 0 (length myHandSorted))).
    { intros i Hi. apply in_seq. specialize (Hvalid i Hi). lia. }
    pose proof (picked_submultiset myHandSorted selectedSet _ Hnd Hincl c) as H.
    rewrite map_nth_seq in H. exact H. }
  assert (Hone : atMostOneRank cardIds).
  { intros c1 c2 H1 H2 W1 W2. unfold cardIds in H1, H2.
    apply in_map_iff in H1 as [i [E1 Hi]]. apply in_map_iff in H2 as [j [E2 Hj]].
    apply getRank_charAt0. rewrite <- E1, <- E2, <- (Hnth i Hi), <- (Hnth j Hj).
    apply Hrank; auto.
    - rewrite (Hnth i Hi), E1. intros H. now apply W1, getRank_wild.
    - rewrite (Hnth j Hj), E2. intros H. now apply W2, getRank_wild. }
  assert (Hids : selectedCardIds myHandSorted selectedSet = map Some cardIds).
  { unfold selectedCardIds, cardIds. rewrite map_map. apply map_ext_in. exact Hnth. }
  assert (Hcan : canPlaySelection myHandSorted selectedSet = true <->
                 ~ wildcardsOnly cardIds).
  { unfold canPlaySelection. cbv zeta. rewrite Hids, !length_map, map_map.
    assert (Hall : forallb (fun r => String.eqb r "2")
                           (map (fun c => getRank (Some c)) cardIds) = true <->
                   wildcardsOnly cardIds).
    { rewrite forallb_forall. unfold wildcardsOnly. split.
      - intros H c Hc. apply getRank_wild. apply String.eqb_eq. apply H.
        apply (in_map (fun c => getRank (Some c))). exact Hc.
      - intros H r Hr. apply in_map_iff in Hr as [c [<- Hc]].
        apply String.eqb_eq. apply getRank_wild. now apply H. }
    assert (El : length cardIds = length selectedSet) by apply length_map.
    rewrite El.
    destruct (Nat.ltb_spec 0 (length selectedSet)) as [Hpos|Hzero]; cbn [andb].
    - rewrite negb_true_iff, <- Hall.
      destruct (forallb _ _); intuition congruence.
    - split; [discriminate|]. intros H. exfalso. apply H.
      assert (E0 : cardIds = []) by (apply length_zero_iff_nil; lia).
      rewrite E0. intros c []. }
  exists cardIds. split; [exact Hids|]. split; [exact Hsub|]. split; [exact Hone|].
  split; [exact Hcan|].
  intros w user gp now Hplay Hf Hperm.
  rewrite playCards_accepted_iff, playGuards_iff_legal. unfold legalPlay.
  apply Hcan in Hplay.
  assert (Hhand : exists hnd, actorHand w user = Some hnd /\ subMultiset cardIds hnd).
  { exists (hand gp). unfold actorHand. rewrite Hf. split; [reflexivity|].
    intros c. rewrite <- (proj1 (Permutation_count_occ string_dec _ _) Hperm c).
    apply Hsub. }
  tauto.
Qed.

Lemma pageGroups_selectable : selectable pageHand [0; 2; 3].
Proof.
  change [0; 2; 3]
    with (handleGroupAddOne (mkGroup "3" [("3H", 2); ("3S", 3)]) pageHand
            (handleGroupAddOne (mkGroup "3" [("3H", 2); ("3S", 3)]) pageHand
               (handleGroupAddOne (mkGroup "2" [("2S", 0)]) pageHand []))).
  repeat (apply sel_add; [vm_compute; auto|]). apply sel_none.
Qed.

Lemma a_selection_of_the_page_fits_the_hand_witness :
  selectable pageHand [0; 2; 3] /\
  exists cardIds,
    selectedCardIds pageHand [0; 2; 3] = map Some cardIds /\
    subMultiset cardIds pageHand /\
    atMostOneRank cardIds.
Proof.
  split; [exact pageGroups_selectable|].
  destruct (a_selection_of_the_page_fits_the_hand pageHand [0; 2; 3]
              pageGroups_selectable) as (cardIds & H1 & H2 & H3 & _).
  exists cardIds. auto.
Defined.

Lemma noRepeat_snoc l a b :
  noRepeat (l ++ [a]) -> a <> b -> noRepeat ((l ++ [a]) ++ [b]).
Proof.
  rewrite <- app_assoc. cbn [app].
  induction l as [|x t IH]; intros H Hab.
  - simpl. auto.
  - destruct t as [|y u].
    + simpl in *. tauto.
    + change (noRepeat (x :: y :: (u ++ [a]))) in H.
      change (noRepeat (x :: y :: (u ++ [a; b]))).
      cbn [noRepeat] in H |- *. destruct H as [Hxy Hu]. split; [exact Hxy|].
      apply IH; assumption.
Qed.

Lemma groupStep_parts st ci done :
  (flat_map groupCards (groups st) ++ currentCards st = done /\
   (currentRank st = None -> currentCards st = [] /\ groups st = []) /\
   noRepeat (ranksSoFar st)) ->
  flat_map groupCards (groups (groupStep st ci)) ++ currentCards (groupStep st ci)
  = done ++ [ci] /\
  (currentRank (groupStep st ci) = None ->
   currentCards (groupStep st ci) = [] /\ groups (groupStep st ci) = []) /\
  noRepeat (ranksSoFar (groupStep st ci)).
Proof.
  intros (Hd & Hn & Hr). unfold groupStep, pushCurrent, ranksSoFar in *. cbv zeta.
  destruct (currentRank st) as [cr|] eqn:Ecr.
  - destruct (String.eqb_spec (getRank (Some (fst ci))) cr) as [E|E];
      cbn [groups currentRank currentCards]; rewrite ?Ecr.
    + split; [now rewrite app_assoc, Hd|]. split; [discriminate|exact Hr].
    + split.
      { rewrite flat_map_app. cbn [flat_map groupCards]. rewrite app_nil_r.
        now rewrite Hd. }
      split; [discriminate|].
      rewrite map_app. cbn [map groupRank].
      apply noRepeat_snoc; [exact Hr|congruence].
  - destruct (Hn eq_refl) as [Hc0 Hg0]. cbn [groups currentRank currentCards].
    rewrite Hg0, Hc0 in *. cbn in Hd |- *. subst done.
    split; [reflexivity|]. split; [discriminate|exact I].
Qed.

Lemma groupLoop_parts l : forall st done,
  (flat_map groupCards (groups st) ++ currentCards st = done /\
   (currentRank st = None -> currentCards st = [] /\ groups st = []) /\
   noRepeat (ranksSoFar st)) ->
  let st' := fold_left groupStep l st in
  flat_map groupCards (groups st') ++ currentCards st' = done ++ l /\
  (currentRank st' = None -> currentCards st' = [] /\ groups st' = []) /\
  noRepeat (ranksSoFar st').
Proof.
  induction l as [|ci t IH]; intros st done H; cbv zeta.
  - rewrite app_nil_r. exact H.
  - simpl. replace (done ++ ci :: t) with ((done ++ [ci]) ++ t)
      by (rewrite <- app_assoc; reflexivity).
    apply IH. now apply groupStep_parts.
Qed.

(** X23. [groupHandByRank] cuts the hand into runs: read one after the
    other, the groups list every card of the hand once, in order and with
    its index; a group is never empty and holds cards of its own rank
    only; and two neighbouring groups never have the same rank. *)
Theorem groupHandByRank_cuts_the_hand_into_runs (sortedHand : list Card) :
  flat_map groupCards (groupHandByRank sortedHand)
  = mapi_from 0 (fun c i => (c, i)) sortedHand /\
  map fst (flat_map groupCards (groupHandByRank sortedHand)) = sortedHand /\
  map snd (flat_map groupCards (groupHandByRank sortedHand))
  = seq 0 (length sortedHand) /\
  (forall g, In g (groupHandByRank sortedHand) ->
     groupCards g <> [] /\
     forall ci, In ci (groupCards g) ->
       nth_error sortedHand (snd ci) = Some (fst ci) /\
       getRank (Some (fst ci)) = groupRank g) /\
  noRepeat (map groupRank (groupHandByRank sortedHand)).
Proof.
  pose proof (groupLoop_parts (mapi_from 0 (fun c i => (c, i)) sortedHand)
                (mkGrouping [] None []) []) as H.
  cbv zeta in H. destruct H as (Hd & Hn & Hr).
  { cbn. repeat split; auto. }
  assert (Hflat : flat_map groupCards (groupHandByRank sortedHand)
                  = mapi_from 0 (fun c i => (c, i)) sortedHand).
  { unfold groupHandByRank, pushCurrent.
    destruct (currentRank _) as [cr|] eqn:Ecr.
    - rewrite flat_map_app. cbn [flat_map groupCards]. rewrite app_nil_r. exact Hd.
    - destruct (Hn eq_refl) as [Hc0 _]. rewrite Hc0, app_nil_r in Hd. exact Hd. }
  split; [exact Hflat|].
  split; [rewrite Hflat, mapi_from_map; cbn [fst]; rewrite mapi_from_plain; apply map_id|].
  split; [rewrite Hflat, mapi_from_map; cbn [snd]; apply mapi_from_index|].
  split.
  - intros g Hg. split.
    + unfold groupHandByRank in Hg.
      assert (Hne : forall l st,
                (forall g0, In g0 (groups st) -> groupCards g0 <> []) ->
                (currentRank st <> None -> currentCards st <> []) ->
                let st' := fold_left groupStep l st in
                (forall g0, In g0 (groups st') -> groupCards g0 <> []) /\
                (currentRank st' <> None -> currentCards st' <> [])).
      { induction l as [|ci t IH]; intros st H1 H2; cbv zeta; [auto|].
        simpl. apply IH.
        - unfold groupStep, pushCurrent. cbv zeta.
          destruct (currentRank st) as [cr|] eqn:Ecr.
          + destruct (String.eqb _ cr); cbn [groups]; [exact H1|].
            intros g0 Hin. apply in_app_or in Hin as [Hin|[<-|[]]]; [now apply H1|].
            cbn [groupCards]. apply H2. discriminate.
          + cbn [groups]. exact H1.
        - unfold groupStep. cbv zeta.
          destruct (match currentRank st with Some cr => _ | None => false end);
            cbn [currentCards]; intros _.
          + intros E. apply app_eq_nil in E as [_ E]. discriminate.
          + discriminate. }
      destruct (Hne (mapi_from 0 (fun c i => (c, i)) sortedHand) (mkGrouping [] None []))
        as [G1 G2]; [intros g0 []|intros H0; now contradiction H0|].
      cbv zeta in G1, G2. unfold pushCurrent in Hg.
      destruct (currentRank _) as [cr|] eqn:Ecr; [|now apply G1].
      apply in_app_or in Hg as [Hg|[<-|[]]]; [now apply G1|].
      cbn [groupCards]. apply G2. discriminate.
    + intros ci Hci. exact (group_entries sortedHand g ci Hg Hci).
  - unfold groupHandByRank, pushCurrent. unfold ranksSoFar in Hr.
    destruct (currentRank _) as [cr|] eqn:Ecr.
    + rewrite map_app. exact Hr.
    + rewrite app_nil_r in Hr. exact Hr.
Qed.

(** * The game page (page.jsx): the order of the hand *)





(** * The game page (page.jsx): the place of a finisher *)

Lemma suffix_table :
  forallb (fun k => match placementSuffix (Z.of_nat k) with
                    | Some x => String.eqb x (ordinalEnding (Z.of_nat k))
                    | None => false
                    end) (seq 0 100) = true.
Proof. vm_compute. reflexivity. Qed.

Lemma placementSuffix_small (v : Z) :
  (0 <= v < 100)%Z -> placementSuffix v = Some (ordinalEnding v).
Proof.
  intros Hv. pose proof suffix_table as T. rewrite forallb_forall in T.
  specialize (T (Z.to_nat v)).
  rewrite Z2Nat.id in T by lia.
  assert (Hin : In (Z.to_nat v) (seq 0 100)) by (apply in_seq; lia).
  specialize (T Hin).
  destruct (placementSuffix v) as [x|]; [|discriminate].
  apply String.eqb_eq in T. now subst.
Qed.

(** X25. For a whole number [n] of 1 or more, [placementLabel] is [n]
    followed by the ending of its English ordinal: st, nd, rd for the last
    digits 1, 2, 3 except in 11, 12, 13, and th otherwise; below 1 it is
    the empty string. *)
Theorem placementLabel_is_the_english_ordinal (n : Z) :
  placementLabel n =
  if (n <? 1)%Z then ""
  else (NilZero.string_of_int (Z.to_int n) ++ ordinalEnding n)%string.
Proof.
  unfold placementLabel. destruct (Z.ltb_spec n 1) as [Hlt|Hge]; [reflexivity|].
  f_equal.
  assert (Hv : (0 <= Z.rem n 100 < 100)%Z) by (apply Z.rem_bound_pos; lia).
  assert (Hrem : Z.rem n 100 = (n mod 100)%Z) by (apply Z.rem_mod_nonneg; lia).
  assert (Hs : placementSuffix n = placementSuffix (Z.rem n 100)).
  { unfold placementSuffix. cbv zeta.
    rewrite (Z.rem_small (Z.rem n 100) 100) by exact Hv. reflexivity. }
  rewrite Hs, (placementSuffix_small _ Hv). unfold ordinalEnding.
  rewrite Hrem.
  assert (H10 : ((n mod 100) mod 10 = n mod 10)%Z).
  { apply Z.mod_mod_divide. exists 10%Z. reflexivity. }
  rewrite H10, Z.mod_mod by lia. reflexivity.
Qed.

(** * The settings of a room (rooms.js) *)





(** * The view of a game (games.js) *)



(** * The swap that closes the exchange *)

Lemma mapSet_absent V k (v : V) m :
  ~ In k (map fst m) -> mapSet k v m = m ++ [(k, v)].
Proof.
  induction m as [|[k' v'] t IH]; intros H; [reflexivity|].
  simpl. destruct (Nat.eqb_spec k' k) as [E|E].
  - exfalso. apply H. left. exact E.
  - f_equal. apply IH. intros Hin. apply H. now right.
Qed.

Lemma mapOfEntries_fold V (es : list (UserId * V)) :
  forall m, NoDup (map fst (m ++ es)) ->
    fold_left (fun m kv => mapSet (fst kv) (snd kv) m) es m = m ++ es.
Proof.
  induction es as [|[k v] t IH]; intros m Hnd; [now rewrite app_nil_r|].
  simpl. rewrite mapSet_absent.
  - rewrite IH; rewrite <- app_assoc; [reflexivity|exact Hnd].
  - rewrite map_app in Hnd. simpl in Hnd. apply NoDup_remove_2 in Hnd.
    intros Hin. apply Hnd. apply in_or_app. now left.
Qed.

Lemma mapOfEntries_nodup V (es : list (UserId * V)) :
  NoDup (map fst es) -> mapOfEntries es = es.
Proof. intros H. unfold mapOfEntries. now rewrite mapOfEntries_fold. Qed.

Lemma mapSet_keys V k (v old : V) m :
  mapGet k m = Some old -> map fst (mapSet k v m) = map fst m.
Proof.
  induction m as [|[k' v'] t IH]; intros H; [discriminate|].
  simpl in *. destruct (Nat.eqb_spec k' k) as [E|E].
  - simpl. now rewrite E.
  - simpl. f_equal. now apply IH.
Qed.

Lemma mapSet_cards k v old (m : JsMap (list Card)) :
  mapGet k m = Some old ->
  Permutation (handsOf (mapSet k v m) ++ old) (handsOf m ++ v).
Proof.
  unfold handsOf. induction m as [|[k' v'] t IH]; intros H; [discriminate|].
  simpl in *. destruct (Nat.eqb_spec k' k) as [E|E].
  - inversion H; subst v'. simpl.
    rewrite <- !app_assoc.
    rewrite (Permutation_app_comm (concat (map snd t)) old).
    rewrite (Permutation_app_comm (concat (map snd t)) v).
    rewrite !app_assoc. apply Permutation_app_tail. apply Permutation_app_comm.
  - simpl. rewrite <- !app_assoc. apply Permutation_app_head. now apply IH.
Qed.

Lemma mapGet_In_value V k (v : V) m : mapGet k m = Some v -> In (k, v) m.
Proof.
  induction m as [|[k' v'] t IH]; intros H; [discriminate|].
  simpl in H. destruct (Nat.eqb_spec k' k) as [E|E].
  - inversion H; subst. now left.
  - right. now apply IH.
Qed.

Lemma mapGet_key V k m : In k (map fst m) -> exists v : V, mapGet k m = Some v.
Proof.
  induction m as [|[k' v'] t IH]; intros H; [destruct H|].
  simpl. destruct (Nat.eqb_spec k' k) as [E|E]; [eauto|].
  destruct H as [H|H]; [simpl in H; congruence|]. now apply IH.
Qed.

Lemma handsOf_value k h (m : JsMap (list Card)) :
  mapGet k m = Some h -> NoDup (handsOf m) -> NoDup h.
Proof.
  intros Hg Hnd. apply mapGet_In_value in Hg.
  destruct (in_split _ _ Hg) as (l1 & l2 & E). unfold handsOf in Hnd.
  rewrite E, map_app, concat_app in Hnd. simpl in Hnd.
  apply NoDup_app_remove_l in Hnd. now apply NoDup_app_remove_r in Hnd.
Qed.

Lemma filter_split_perm (h sel : list Card) :
  NoDup h -> NoDup sel -> incl sel h ->
  Permutation h (filter (fun c => negb (cardIn c sel)) h ++ sel).
Proof.
  intros Hh Hs Hincl. apply NoDup_Permutation; [exact Hh| |].
  - apply NoDup_app; [now apply NoDup_filter|exact Hs|].
    intros c Hc Hin. apply filter_In in Hc as [_ Hc].
    apply negb_true_iff in Hc. apply cardIn_false in Hc. contradiction.
  - intros c. rewrite in_app_iff, filter_In, negb_true_iff, cardIn_false. split.
    + intros H. destruct (in_dec string_dec c sel); auto.
    + intros [[H _]|H]; auto.
Qed.

Lemma given_snoc sels done p u :
  given sels (done ++ [p]) u =
  given sels done u ++ (if fromUserId p =? u then selectionOf sels (fromUserId p) else []).
Proof. unfold given. rewrite flat_map_app. simpl. now rewrite app_nil_r. Qed.

Lemma received_snoc sels done p u :
  received sels (done ++ [p]) u =
  received sels done u ++ (if toUserId p =? u then selectionOf sels (fromUserId p) else []).
Proof. unfold received. rewrite flat_map_app. simpl. now rewrite app_nil_r. Qed.

Lemma given_none sels done u :
  ~ In u (map fromUserId done) -> given sels done u = [].
Proof.
  unfold given. induction done as [|p t IH]; intros H; [reflexivity|].
  simpl. destruct (Nat.eqb_spec (fromUserId p) u) as [E|E].
  - exfalso. apply H. left. exact E.
  - simpl. apply IH. intros Hin. apply H. now right.
Qed.

Ltac perm_count :=
  apply (proj2 (Permutation_count_occ string_dec _ _));
  let c := fresh "c" in
  intros c;
  repeat match goal with
         | H : Permutation ?a ?b |- _ =>
             let H' := fresh "Hc" in
             pose proof (proj1 (Permutation_count_occ string_dec a b) H c) as H';
             clear H
         end;
  rewrite ?count_occ_app in *; unfold Card in *; lia.

Section Swap.

Variables (ps : list GamePlayer) (sels : list ExchangeSelection).
Hypothesis Hus : NoDup (map userId ps).
Hypothesis Hcards : NoDup (flat_map hand ps).

Let stepInv (m : JsMap (list Card)) (done : list ExchangePair) : Prop :=
  map fst m = map userId ps /\
  Permutation (handsOf m) (flat_map hand ps) /\
  forall q, In q ps ->
    exists h, mapGet (userId q) m = Some h /\
              Permutation (h ++ given sels done (userId q))
                          (hand q ++ received sels done (userId q)).

Let pairOK (done : list ExchangePair) (p : ExchangePair) : Prop :=
  fromUserId p <> toUserId p /\
  In (toUserId p) (map userId ps) /\
  ~ In (fromUserId p) (map fromUserId done) /\
  exists s gp,
    findSel (fromUserId p) sels = Some s /\
    length (selCardIds s) = count p /\
    In gp ps /\ userId gp = fromUserId p /\
    incl (selCardIds s) (hand gp) /\ NoDup (selCardIds s).

Lemma swap_step m done p :
  stepInv m done -> pairOK done p -> stepInv (applyPair sels m p) (done ++ [p]).
Proof.
  intros (Hkeys & Htotal & Huser) (Hft & Hto & Hfresh & s & gp & Hfs & Hlen & Hgp & Hgu & Hincl & Hnds).
  assert (Hndm : NoDup (handsOf m)).
  { apply (Permutation_NoDup (Permutation_sym Htotal)). exact Hcards. }
  destruct (Huser gp Hgp) as (hf & Hgf & Hpf). rewrite Hgu in Hgf, Hpf.
  rewrite (given_none sels done _ Hfresh), app_nil_r in Hpf.
  assert (Hnf : NoDup hf) by exact (handsOf_value _ _ _ Hgf Hndm).
  assert (Hsub : incl (selCardIds s) hf).
  { intros c Hc. apply (Permutation_in c (Permutation_sym Hpf)).
    apply in_or_app. left. now apply Hincl. }
  pose proof (filter_split_perm hf (selCardIds s) Hnf Hnds Hsub) as Hsplit.
  destruct (mapGet_key _ (toUserId p) m) as [ht Hgt]; [rewrite Hkeys; exact Hto|].
  assert (Eap : applyPair sels m p =
                mapSet (toUserId p) (ht ++ selCardIds s)
                  (mapSet (fromUserId p)
                          (filter (fun c => negb (cardIn c (selCardIds s))) hf) m)).
  { unfold applyPair. rewrite Hfs.
    apply Nat.eqb_eq in Hlen. rewrite Hlen. cbn [negb]. cbv zeta.
    rewrite Hgf, Hgt. reflexivity. }
  rewrite Eap.
  set (kept := filter (fun c => negb (cardIn c (selCardIds s))) hf) in *.
  set (m1 := mapSet (fromUserId p) kept m).
  assert (Hgt1 : mapGet (toUserId p) m1 = Some ht).
  { unfold m1. rewrite mapGet_set_neq; [exact Hgt|]. intros E. now apply Hft. }
  assert (Hsel : selectionOf sels (fromUserId p) = selCardIds s).
  { unfold selectionOf. now rewrite Hfs. }
  split; [|split].
  - rewrite (mapSet_keys _ _ _ ht _ Hgt1). unfold m1.
    rewrite (mapSet_keys _ _ _ hf _ Hgf). exact Hkeys.
  - pose proof (mapSet_cards (fromUserId p) kept hf m Hgf) as P1.
    pose proof (mapSet_cards (toUserId p) (ht ++ selCardIds s) ht m1 Hgt1) as P2.
    fold m1 in P1. clear Hpf. perm_count.
  - intros q Hq. destruct (Huser q Hq) as (h & Hg & Hp).
    rewrite given_snoc, received_snoc, Hsel.
    destruct (Nat.eqb_spec (toUserId p) (userId q)) as [Et|Et].
    + destruct (Nat.eqb_spec (fromUserId p) (userId q)) as [Ef|Ef]; [congruence|].
      rewrite <- Et. rewrite mapGet_set_eq. eexists. split; [reflexivity|].
      rewrite <- Et in Hg, Hp. rewrite Hgt in Hg. inversion Hg; subst h.
      rewrite !app_nil_r. clear Htotal Hsplit Hpf. perm_count.
    + rewrite mapGet_set_neq by (intros E; now apply Et).
      destruct (Nat.eqb_spec (fromUserId p) (userId q)) as [Ef|Ef].
      * unfold m1. rewrite <- Ef, mapGet_set_eq. eexists. split; [reflexivity|].
        rewrite <- Ef in Hg, Hp. rewrite Hgf in Hg. inversion Hg; subst h.
        rewrite app_nil_r. clear Htotal Hpf. perm_count.
      * unfold m1. rewrite mapGet_set_neq by (intros E; now apply Ef).
        exists h. split; [exact Hg|]. now rewrite !app_nil_r.
Qed.

Lemma swap_loop todo : forall m done,
  stepInv m done ->
  NoDup (map fromUserId (done ++ todo)) ->
  (forall p, In p todo ->
     fromUserId p <> toUserId p /\ In (toUserId p) (map userId ps) /\
     exists s gp,
       findSel (fromUserId p) sels = Some s /\
       length (selCardIds s) = count p /\
       In gp ps /\ userId gp = fromUserId p /\
       incl (selCardIds s) (hand gp) /\ NoDup (selCardIds s)) ->
  stepInv (fold_left (applyPair sels) todo m) (done ++ todo).
Proof.
  induction todo as [|p t IH]; intros m done Hinv Hnd Hall.
  - now rewrite app_nil_r.
  - simpl. replace (done ++ p :: t) with ((done ++ [p]) ++ t)
      by (rewrite <- app_assoc; reflexivity).
    apply IH.
    + apply swap_step; [exact Hinv|].
      destruct (Hall p (or_introl eq_refl)) as (H1 & H2 & H3).
      split; [exact H1|]. split; [exact H2|]. split; [|exact H3].
      rewrite map_app in Hnd. simpl in Hnd. apply NoDup_remove_2 in Hnd.
      intros Hin. apply Hnd. apply in_or_app. now left.
    + rewrite <- app_assoc. exact Hnd.
    + intros q Hq. apply Hall. now right.
Qed.

Lemma swap_all pairs :
  NoDup (map fromUserId pairs) ->
  (forall p, In p pairs ->
     fromUserId p <> toUserId p /\ In (toUserId p) (map userId ps) /\
     exists s gp,
       findSel (fromUserId p) sels = Some s /\
       length (selCardIds s) = count p /\
       In gp ps /\ userId gp = fromUserId p /\
       incl (selCardIds s) (hand gp) /\ NoDup (selCardIds s)) ->
  map fst (exchangedHands ps pairs sels) = map userId ps /\
  Permutation (handsOf (exchangedHands ps pairs sels)) (flat_map hand ps) /\
  forall q, In q ps ->
    exists h, mapGet (userId q) (exchangedHands ps pairs sels) = Some h /\
              Permutation (h ++ given sels pairs (userId q))
                          (hand q ++ received sels pairs (userId q)).
Proof.
  intros Hnd Hall. unfold exchangedHands.
  assert (Hkeys0 : map fst (map (fun p => (userId p, hand p)) ps) = map userId ps).
  { rewrite map_map. reflexivity. }
  rewrite mapOfEntries_nodup by (rewrite Hkeys0; exact Hus).
  apply (swap_loop pairs _ []); [|exact Hnd|exact Hall].
  split; [exact Hkeys0|]. split.
  - unfold handsOf. rewrite map_map. cbn [snd]. now rewrite flat_map_concat_map.
  - intros q Hq. exists (hand q). split; [|reflexivity].
    assert (Hg : exists v, mapGet (userId q) (map (fun p => (userId p, hand p)) ps) = Some v).
    { apply mapGet_key. rewrite Hkeys0. now apply in_map. }
    destruct Hg as [v Hv]. rewrite Hv. f_equal.
    apply mapGet_In_value in Hv. apply in_map_iff in Hv as [q' [E Hq']].
    inversion E. subst v. f_equal.
    apply (NoDup_map_eq _ _ userId ps); auto.
Qed.

End Swap.

Lemma pairs_wellformed fo n p :
  NoDup fo -> length fo = n -> In p (buildExchangePairs fo n) ->
  fromUserId p <> toUserId p /\ In (fromUserId p) fo /\ In (toUserId p) fo.
Proof.
  intros Hnd Hlen Hin.
  assert (Hdiff : forall i j, i < n -> j < n -> i <> j -> nth i fo 0 <> nth j fo 0).
  { intros i j Hi Hj Hij E. apply Hij.
    apply (proj1 (NoDup_nth fo 0) Hnd i j); lia. }
  assert (Hnth : forall i, i < n -> In (nth i fo 0) fo).
  { intros i Hi. apply nth_In. lia. }
  unfold buildExchangePairs in Hin.
  destruct (n <=? length fo); [|destruct Hin].
  destruct ((n =? 2) || (n =? 3)) eqn:E23.
  - assert (Hn : n = 2 \/ n = 3).
    { apply orb_true_iff in E23 as [E|E]; apply Nat.eqb_eq in E; auto. }
    cbv zeta in Hin.
    destruct Hin as [<-|[<-|[]]]; cbn [fromUserId toUserId];
      (split; [apply Hdiff; lia|split; apply Hnth; lia]).
  - destruct (Nat.leb_spec 4 n) as [H4|H4]; [|destruct Hin].
    cbv zeta in Hin.
    destruct Hin as [<-|[<-|[<-|[<-|[]]]]]; cbn [fromUserId toUserId];
      (split; [apply Hdiff; lia|split; apply Hnth; lia]).
Qed.

Lemma hands_follow_the_map (l' : list GamePlayer) : forall m : JsMap (list Card),
  NoDup (map fst m) -> map userId l' = map fst m ->
  (forall q', In q' l' -> mapGet (userId q') m = Some (hand q')) ->
  map hand l' = map snd m.
Proof.
  induction l' as [|q t IH]; intros m Hnd Hk Hh.
  - destruct m; [reflexivity|discriminate].
  - destruct m as [|[k v] m']; [discriminate|].
    simpl in Hk. inversion Hk as [[Hq Ht]]. simpl in Hnd.
    apply NoDup_cons_iff in Hnd as [Hkn Hnd].
    pose proof (Hh q (or_introl eq_refl)) as Hq0. simpl in Hq0.
    rewrite Hq, Nat.eqb_refl in Hq0.
    simpl. f_equal; [congruence|]. apply IH; [exact Hnd|exact Ht|].
    intros q' Hq'. pose proof (Hh q' (or_intror Hq')) as H. simpl in H.
    destruct (Nat.eqb_spec k (userId q')) as [E|E]; [|exact H].
    exfalso. apply Hkn. rewrite E, <- Ht. now apply in_map.
Qed.

(** X28. When an accepted submission closes the exchange of a reachable
    state in which no card identifier is held twice and no selection names
    a card twice, the swap is fair: every user ends with the old hand,
    less the cards given, plus the cards received; the hands hold the same
    cards as before, still without repetition, and the discard pile is
    untouched. *)
Theorem a_completed_exchange_is_a_fair_swap (w : World) (user : UserId)
        (cardIds : list Card) (now : nat) :
  reachable w ->
  accepted (submitExchangeSelection user cardIds now) w ->
  phase (gameState (after (submitExchangeSelection user cardIds now) w)) = play ->
  NoDup (flat_map hand (gamePlayers w)) ->
  (forall s, In s (selectionsAfter (gameState w) user cardIds) -> NoDup (selCardIds s)) ->
  Permutation (flat_map hand (gamePlayers (after (submitExchangeSelection user cardIds now) w)))
              (flat_map hand (gamePlayers w)) /\
  NoDup (flat_map hand (gamePlayers (after (submitExchangeSelection user cardIds now) w))) /\
  discardPile (gameState (after (submitExchangeSelection user cardIds now) w))
  = discardPile (gameState w) /\
  forall q q',
    In q (gamePlayers w) ->
    In q' (gamePlayers (after (submitExchangeSelection user cardIds now) w)) ->
    userId q' = userId q ->
    Permutation
      (hand q' ++ given (selectionsAfter (gameState w) user cardIds)
                        (orEmpty (exchangePairs (gameState w))) (userId q))
      (hand q ++ received (selectionsAfter (gameState w) user cardIds)
                          (orEmpty (exchangePairs (gameState w))) (userId q)).
Proof.
  intros Hr Hacc Hplay Hcards Hsels.
  pose proof (reachable_Inv w Hr) as HI.
  destruct (reachable_TableInv w Hr) as [_ _ Hs].
  apply submit_accepted in Hacc as (mp & gp & HG & E). rewrite E in *. clear E.
  assert (Hp : phase (gameState w) = exchange) by apply HG.
  destruct (Hs Hp) as [_ Hvalid].
  pose proof (selectionsAfter_valid w user cardIds mp gp HG Hvalid) as Hnew.
  destruct (completes w user cardIds) eqn:Hc.
  2:{ cbn [gameState selectionFields phase] in Hplay. congruence. }
  unfold completes in Hc.
  destruct (inv_exchange w HI Hp) as (fo & Fnd & Fincl & Flen & Epairs & _).
  set (sels := selectionsAfter (gameState w) user cardIds) in *.
  set (pairs := orEmpty (exchangePairs (gameState w))) in *.
  assert (Epairs' : pairs = buildExchangePairs fo (length (gamePlayers w))).
  { unfold pairs. rewrite Epairs. reflexivity. }
  assert (Hgivers : NoDup (map fromUserId pairs)).
  { rewrite Epairs'. now apply pairs_givers_distinct. }
  assert (Hall : forall p, In p pairs ->
            fromUserId p <> toUserId p /\ In (toUserId p) (map userId (gamePlayers w)) /\
            exists s g,
              findSel (fromUserId p) sels = Some s /\
              length (selCardIds s) = count p /\
              In g (gamePlayers w) /\ userId g = fromUserId p /\
              incl (selCardIds s) (hand g) /\ NoDup (selCardIds s)).
  { intros p Hin.
    assert (Hin' : In p (buildExchangePairs fo (length (gamePlayers w))))
      by (rewrite <- Epairs'; exact Hin).
    destruct (pairs_wellformed fo _ p Fnd Flen Hin') as (H1 & _ & H3).
    split; [exact H1|]. split; [apply Fincl; exact H3|].
    destruct (allIn_pair pairs sels p Hc Hin) as (s & Hf & Hl).
    pose proof Hf as Hf'. unfold findSel in Hf'. apply find_some in Hf' as [Hsin Hsu].
    apply Nat.eqb_eq in Hsu.
    destruct (Hnew s Hsin) as (p1 & g & _ & _ & _ & Hg & Hincl).
    apply find_user_In in Hg as [Hgin Hgu].
    exists s, g. repeat split; auto; try congruence. }
  destruct (swap_all (gamePlayers w) sels (inv_users w HI) Hcards pairs Hgivers Hall)
    as (Hkeys & Htotal & Huser).
  set (hb := exchangedHands (gamePlayers w) pairs sels) in *.
  cbn [gameState gamePlayers exchangeDoneFields discardPile].
  pose proof (swapLoop_keys (gamePlayers w) hb w (inv_ids w HI) (inv_users w HI) eq_refl)
    as Hk.
  set (ps' := gamePlayers (snd (swapLoop (gamePlayers w) hb w))) in *.
  assert (Hhand : forall q q', In q (gamePlayers w) -> In q' ps' ->
                    userId q' = userId q ->
                    exists h, mapGet (userId q) hb = Some h /\ hand q' = h).
  { intros q q' Hq Hq' Hu. destruct (Huser q Hq) as (h & Hg & _).
    exists h. split; [exact Hg|].
    rewrite (swapLoop_hand (gamePlayers w) hb w q (inv_ids w HI) (inv_users w HI)
               eq_refl Hq q' Hq' Hu).
    now apply handAfterExchange_some. }
  assert (Hmap : map hand ps' = map snd hb).
  { apply hands_follow_the_map.
    - rewrite Hkeys. apply (inv_users w HI).
    - rewrite Hkeys. exact (keys_users _ _ Hk).
    - intros q' Hq'.
      assert (Hu : In (userId q') (map userId (gamePlayers w))).
      { rewrite <- (keys_users _ _ Hk). now apply in_map. }
      apply in_map_iff in Hu as [q [Eu Hq]].
      destruct (Hhand q q' Hq Hq' (eq_sym Eu)) as (h & Hg & Eh).
      rewrite <- Eu, Hg, Eh. reflexivity. }
  assert (Hperm : Permutation (flat_map hand ps') (flat_map hand (gamePlayers w))).
  { rewrite flat_map_concat_map, Hmap. exact Htotal. }
  split; [exact Hperm|].
  split; [apply (Permutation_NoDup (Permutation_sym Hperm)); exact Hcards|].
  split; [reflexivity|].
  intros q q' Hq Hq' Hu.
  destruct (Huser q Hq) as (h & Hg & Hpq).
  destruct (Hhand q q' Hq Hq' Hu) as (h' & Hg' & Eh).
  assert (E : h' = h) by congruence. rewrite Eh, E. exact Hpq.
Qed.

Lemma distinctCards_NoDup l : distinctCards l = true -> NoDup l.
Proof.
  induction l as [|c t IH]; intros H; [constructor|].
  simpl in H. apply andb_true_iff in H as [H1 H2].
  constructor; [|now apply IH].
  apply negb_true_iff in H1. now apply cardIn_false.
Qed.

Lemma a_completed_exchange_is_a_fair_swap_witness :
  reachable oneSubmitted /\
  accepted (submitExchangeSelection 1 ["AD"] 0) oneSubmitted /\
  Permutation
    (flat_map hand (gamePlayers (after (submitExchangeSelection 1 ["AD"] 0) oneSubmitted)))
    (flat_map hand (gamePlayers oneSubmitted)) /\
  NoDup (flat_map hand
           (gamePlayers (after (submitExchangeSelection 1 ["AD"] 0) oneSubmitted))).
Proof.
  assert (Hacc : accepted (submitExchangeSelection 1 ["AD"] 0) oneSubmitted)
    by (vm_compute; reflexivity).
  split; [exact oneSubmitted_reachable|]. split; [exact Hacc|].
  destruct (a_completed_exchange_is_a_fair_swap oneSubmitted 1 ["AD"] 0
              oneSubmitted_reachable Hacc)
    as (H1 & H2 & _).
  - vm_compute. reflexivity.
  - apply distinctCards_NoDup. vm_compute. reflexivity.
  - intros s Hs. apply distinctCards_NoDup.
    vm_compute in Hs. destruct Hs as [<-|[<-|[]]]; reflexivity.
  - split; assumption.
Defined.

(** * What a play does to the pool of cards *)

Lemma play_moves_the_cards w user sel gp nh :
  Inv w -> playGuards w user sel gp nh ->
  Permutation (flat_map hand (playersAfterPlay (gamePlayers w) gp nh) ++ sel)
              (flat_map hand (gamePlayers w)).
Proof.
  intros HI HG.
  pose proof (play_gp w user sel gp nh HG) as [Hgp _].
  assert (Hs : spliceAll sel (hand gp) = Some nh) by apply HG.
  apply spliceAll_perm in Hs.
  destruct (in_split _ _ Hgp) as (l1 & l2 & El).
  pose proof (inv_ids w HI) as Hnd. rewrite El in *.
  rewrite (playersAfterPlay_split l1 gp l2 nh Hnd).
  rewrite !flat_map_app. cbn [flat_map]. rewrite ?flat_map_app.
  cbn [setHand hand].
  perm_count.
Qed.

(** X29. Every accepted play in a reachable state takes the played
    cards out of the player's hand and out of no other hand.  When the
    play stands afterwards, or ends the round, the cards go on the pile
    and the pool is what it was.  When the play clears the table without
    ending the round (the player finished, or nobody else can follow),
    the pile is emptied, so the game loses exactly the old pile and the
    cards just played: at least one card. *)
Theorem a_play_that_clears_the_table_drops_the_pile (w : World) (user : UserId)
        (sel : list Card) (now : nat) :
  reachable w ->
  accepted (playCards user sel now) w ->
  Permutation
    (flat_map hand (gamePlayers (after (playCards user sel now) w)) ++ sel)
    (flat_map hand (gamePlayers w)) /\
  (standing (after (playCards user sel now) w) \/
   phase (gameState (after (playCards user sel now) w)) = round_ended ->
   discardPile (gameState (after (playCards user sel now) w))
   = discardPile (gameState w) ++ sel /\
   Permutation (cardsInPlay (after (playCards user sel now) w)) (cardsInPlay w)) /\
  (~ standing (after (playCards user sel now) w) ->
   phase (gameState (after (playCards user sel now) w)) = play ->
   discardPile (gameState (after (playCards user sel now) w)) = [] /\
   Permutation (cardsInPlay (after (playCards user sel now) w)
                ++ discardPile (gameState w) ++ sel)
               (cardsInPlay w) /\
   length (cardsInPlay (after (playCards user sel now) w)) < length (cardsInPlay w)).
Proof.
  intros Hr Hacc. pose proof (reachable_Inv w Hr) as HI.
  pose proof (play_keeps_the_pool w user sel now HI Hacc) as Hkeep.
  apply playCards_accepted in Hacc as (gp & nh & nx & HG & Hn & E).
  rewrite E in *. clear E.
  pose proof (play_moves_the_cards w user sel gp nh HI HG) as Hmove.
  assert (H0 : length sel <> 0) by apply HG.
  cbn [gamePlayers gameState] in *.
  split; [exact Hmove|]. split.
  - intros Hk. split; [|now apply Hkeep].
    unfold standing, stateAfterPlay in *. cbv zeta in *. cbn [gameState] in Hk.
    destruct (endsRound _ _ _); [reflexivity|].
    unfold nextTurnFields in *. cbv zeta in *.
    cbn [discardPile lastPlayedCount phase] in *.
    destruct ((length nh =? 0) || _); [|reflexivity].
    destruct Hk as [Hk|Hk]; [now contradiction Hk|].
    pose proof (play_phase w user sel gp nh HG). congruence.
  - intros Hns Hplay.
    assert (Hd : discardPile (stateAfterPlay (gameState w) (gamePlayers w) gp nh
                                (playRankOf sel) user sel now nx) = []).
    { unfold standing, stateAfterPlay in *. cbv zeta in *. cbn [gameState] in Hns.
      destruct (endsRound _ _ _); [cbn in Hplay; discriminate|].
      unfold nextTurnFields in *. cbv zeta in *.
      cbn [discardPile lastPlayedCount] in *.
      destruct ((length nh =? 0) || _); [reflexivity|].
      exfalso. apply Hns. exact H0. }
    split; [exact Hd|].
    assert (Hp : Permutation
                   (cardsInPlay
                      (mkWorld (stateAfterPlay (gameState w) (gamePlayers w) gp nh
                                  (playRankOf sel) user sel now nx)
                               (playersAfterPlay (gamePlayers w) gp nh))
                    ++ discardPile (gameState w) ++ sel)
                   (cardsInPlay w)).
    { unfold cardsInPlay. cbn [gamePlayers gameState]. rewrite Hd, app_nil_r.
      perm_count. }
    split; [exact Hp|].
    rewrite <- (Permutation_length Hp), !length_app. lia.
Qed.

Lemma a_play_that_clears_the_table_drops_the_pile_witness :
  reachable beforeLastAce /\
  accepted (playCards 1 ["AS"] 0) beforeLastAce /\
  discardPile (gameState beforeLastAce) = ["4S"] /\
  Permutation (cardsInPlay (after (playCards 1 ["AS"] 0) beforeLastAce) ++ ["4S"; "AS"])
              (cardsInPlay beforeLastAce).
Proof.
  assert (Hacc : accepted (playCards 1 ["AS"] 0) beforeLastAce)
    by (vm_compute; reflexivity).
  split; [exact beforeLastAce_reachable|]. split; [exact Hacc|].
  split; [reflexivity|].
  destruct (a_play_that_clears_the_table_drops_the_pile beforeLastAce 1 ["AS"] 0
              beforeLastAce_reachable Hacc) as (_ & _ & H).
  destruct H as (_ & Hp & _).
  - vm_compute. auto.
  - vm_compute. reflexivity.
  - exact Hp.
Defined.
